(** * A chunked voxel world: model of [World.ts] and proofs about it

    The development follows the [World] class: the seeded noise source,
    terrain generation, the RAM cache with its dirty / known / loading
    sets, persistence through the chunk store, eviction, block access and
    the chunk mesher.  Numbers that the program keeps integral (block
    coordinates, block ids, indices) are [Z]; numbers that are genuinely
    fractional (noise samples, [Math.random()] draws, the viewer position,
    colours and texture coordinates) are [Q]. *)

From Stdlib Require Import ZArith QArith Qround Lia Ascii String DecimalString DecimalZ.
From stdpp Require Import base option list gmap strings sorting.

Local Open Scope Z_scope.

(* ===================================================================== *)
(** ** 32-bit integer operators of the host language *)
(* ===================================================================== *)

(** [ToUint32] and [ToInt32] on an integral number. *)
Definition toUint32 (z : Z) : Z := z mod 2 ^ 32.

Definition toInt32 (z : Z) : Z :=
  let u := z mod 2 ^ 32 in if u <? 2 ^ 31 then u else u - 2 ^ 32.

(** [Math.imul(a, b)]. *)
Definition imul (a b : Z) : Z := toInt32 (toInt32 a * toInt32 b).

(** [a ^ b], [a | b] and [a >>> n]. *)
Definition xor32 (a b : Z) : Z := toInt32 (Z.lxor (toInt32 a) (toInt32 b)).
Definition or32 (a b : Z) : Z := toInt32 (Z.lor (toInt32 a) (toInt32 b)).
Definition ushr32 (a n : Z) : Z := Z.shiftr (toUint32 a) (n mod 32).

(* ===================================================================== *)
(** ** The seeded generator inside [createNoiseGenerator] (Mulberry32) *)
(* ===================================================================== *)

(** One call of the closure [random]: from the captured counter [a] to
    the returned sample and the new counter.  The counter is a plain
    number that grows by [0x6D2B79F5] per call (it is never truncated;
    only the bit operators see it modulo [2^32]). *)
Definition mulberry32_next (a : Z) : Q * Z :=
  let a := a + 0x6D2B79F5 in
  let t := a in
  let t := imul (xor32 t (ushr32 t 15)) (or32 t 1) in
  let t := xor32 t (t + imul (xor32 t (ushr32 t 7)) (or32 t 61)) in
  (Qmake (ushr32 (xor32 t (ushr32 t 14)) 0) 4294967296, a).

(** The sample returned by call number [n] (counting from 0) of a
    generator created with counter [a]. *)
Fixpoint mulberry32 (a : Z) (n : nat) : Q :=
  match n with
  | O => fst (mulberry32_next a)
  | S n' => mulberry32 (snd (mulberry32_next a)) n'
  end.

(** [createNoise2D] of the simplex-noise package is outside the
    repository.  It is handed a random source, draws from it while it
    builds its tables, and returns the sampler; the sampler is therefore
    given here as a function of the sequence of draws. *)
Definition NoiseLib : Type := (nat -> Q) -> Q -> Q -> Q.

Definition createNoiseGenerator (createNoise2D : NoiseLib) (seed : Z)
  : Q -> Q -> Q :=
  createNoise2D (mulberry32 seed).

(* ===================================================================== *)
(** ** [Math.random] *)
(* ===================================================================== *)

(** The host's random source, as the stream of the draws still to come. *)
Definition Rng : Type := nat -> Q.

Definition random (r : Rng) : Q * Rng := (r O, fun n => r (S n)).

(** [Math.floor(Math.random() * 2147483647)], the seed of a new world. *)
Definition randomSeed (r : Rng) : Z * Rng :=
  let '(v, r) := random r in (Qfloor (v * 2147483647), r).

(* ===================================================================== *)
(** ** Chunk keys: the string [`${cx},${cz}`] *)
(* ===================================================================== *)

(** Template-literal rendering of an integral number. *)
Definition numberToString (z : Z) : string :=
  NilEmpty.string_of_int (Z.to_int z).

(** [Number(s)] on the strings that occur as key parts: decimal integers.
    [None] is [NaN]. *)
Definition stringToNumber (s : string) : option Z :=
  Z.of_int <$> NilEmpty.int_of_string s.

Definition chunkKey (cx cz : Z) : string :=
  (numberToString cx ++ String "," (numberToString cz))%string.

(** [s.split(c)] for a one-character separator. *)
Fixpoint split (c : ascii) (s : string) : list string :=
  match s with
  | EmptyString => [EmptyString]
  | String a s' =>
      if Ascii.eqb a c then EmptyString :: split c s'
      else match split c s' with
           | h :: t => String a h :: t
           | [] => [String a EmptyString]
           end
  end.

(** [const [ax, az] = key.split(',').map(Number)]: the first two parts. *)
Definition parseKey (key : string) : option Z * option Z :=
  let parts := stringToNumber <$> split "," key in
  (mjoin (parts !! 0%nat), mjoin (parts !! 1%nat)).

(* ===================================================================== *)
(** ** [Map<string, V>]: entries in insertion order *)
(* ===================================================================== *)

Section JsMap.
Context {V : Type}.

Definition JsMap : Type := list (string * V).

Definition jm_get (k : string) (m : JsMap) : option V :=
  snd <$> List.find (fun e => bool_decide (e.1 = k)) m.

Definition jm_has (k : string) (m : JsMap) : bool :=
  bool_decide (is_Some (jm_get k m)).

(** [set] overwrites in place or appends. *)
Fixpoint jm_set (k : string) (v : V) (m : JsMap) : JsMap :=
  match m with
  | [] => [(k, v)]
  | e :: m' => if decide (e.1 = k) then (k, v) :: m' else e :: jm_set k v m'
  end.

Definition jm_delete (k : string) (m : JsMap) : JsMap :=
  List.filter (fun e => negb (bool_decide (e.1 = k))) m.

Definition jm_keys (m : JsMap) : list string := m.*1.

Definition jm_size (m : JsMap) : Z := Z.of_nat (length m).
End JsMap.
Arguments JsMap : clear implicits.

(* ===================================================================== *)
(** ** Counted loops *)
(* ===================================================================== *)

(** [for (let i = lo; i < hi; i++) s = body(i, s)]. *)
Definition forZ {St : Type} (lo hi : Z) (body : Z -> St -> St) (s : St) : St :=
  foldl (fun s i => body i s) s (seqZ lo (hi - lo)).

(* ===================================================================== *)
(** ** Block ids and chunk volumes *)
(* ===================================================================== *)

Definition AIR : Z := 0.
Definition GRASS : Z := 1.
Definition DIRT : Z := 2.
Definition STONE : Z := 3.
Definition BEDROCK : Z := 4.
Definition WOOD : Z := 5.
Definition LEAVES : Z := 6.

Definition chunkSize : Z := 16.
Definition TERRAIN_SCALE : Z := 50.
Definition TERRAIN_HEIGHT : Z := 8.
Definition OFFSET : Z := 4.

(** A [Uint8Array]: its cells in order.  Reading outside the array gives
    [undefined], modelled as [None]; writing outside is ignored; a stored
    number is reduced modulo 256. *)
Abbreviation Uint8Array := (list Z) (only parsing).

Definition u8_new (n : Z) : Uint8Array := replicate (Z.to_nat n) 0.

Definition u8_get (data : Uint8Array) (i : Z) : option Z :=
  if i <? 0 then None else data !! Z.to_nat i.

Definition u8_set (data : Uint8Array) (i v : Z) : Uint8Array :=
  if i <? 0 then data else <[Z.to_nat i := v mod 256]> data.

(** [v === t] for a cell value [v] and a block id [t]. *)
Definition is_type (v : option Z) (t : Z) : bool :=
  match v with Some b => b =? t | None => false end.

Definition getBlockIndex (x y z : Z) : Z :=
  x + y * chunkSize + z * chunkSize * chunkSize.

(* ===================================================================== *)
(** ** The chunk mesher *)
(* ===================================================================== *)

Inductive Side : Type := top | bottom | front | back | right | left.

(** The four attribute arrays that [addFace] appends to. *)
Record Geometry : Type := mkGeometry {
  positions : list Z;
  normals : list Z;
  uvs : list Q;
  colors : list Q
}.

Definition emptyGeometry : Geometry := mkGeometry [] [] [] [].

Definition faceColor (type : option Z) (side : Side) : Q * Q * Q :=
  if is_type type STONE then (0.5, 0.5, 0.5)%Q
  else if is_type type BEDROCK then (0.13, 0.13, 0.13)%Q
  else if is_type type DIRT then (0.54, 0.27, 0.07)%Q
  else if is_type type GRASS then
    match side with
    | top => (0.33, 0.6, 0.33)%Q
    | _ => (0.54, 0.27, 0.07)%Q
    end
  else if is_type type WOOD then (0.4, 0.2, 0.0)%Q
  else if is_type type LEAVES then (0.13, 0.55, 0.13)%Q
  else (0.5, 0.5, 0.5)%Q.

Definition facePositions (x y z : Z) (side : Side) : list Z :=
  let x0 := x in let x1 := x + 1 in
  let y0 := y in let y1 := y + 1 in
  let z0 := z in let z1 := z + 1 in
  match side with
  | top => [x0; y1; z1; x1; y1; z1; x0; y1; z0; x1; y1; z0]
  | bottom => [x0; y0; z0; x1; y0; z0; x0; y0; z1; x1; y0; z1]
  | front => [x0; y0; z1; x1; y0; z1; x0; y1; z1; x1; y1; z1]
  | back => [x1; y0; z0; x0; y0; z0; x1; y1; z0; x0; y1; z0]
  | right => [x1; y0; z1; x1; y0; z0; x1; y1; z1; x1; y1; z0]
  | left => [x0; y0; z0; x0; y0; z1; x0; y1; z0; x0; y1; z1]
  end.

Definition faceNormals (side : Side) : list Z :=
  match side with
  | top => [0; 1; 0; 0; 1; 0; 0; 1; 0; 0; 1; 0]
  | bottom => [0; -1; 0; 0; -1; 0; 0; -1; 0; 0; -1; 0]
  | front => [0; 0; 1; 0; 0; 1; 0; 0; 1; 0; 0; 1]
  | back => [0; 0; -1; 0; 0; -1; 0; 0; -1; 0; 0; -1]
  | right => [1; 0; 0; 1; 0; 0; 1; 0; 0; 1; 0; 0]
  | left => [-1; 0; 0; -1; 0; 0; -1; 0; 0; -1; 0; 0]
  end.

Definition faceUvs (type : option Z) : list Q :=
  let uvInset := 0.001%Q in
  let '(u0, u1) :=
    if is_type type LEAVES then (0.5 + uvInset, 1.0 - uvInset)%Q
    else (0 + uvInset, 0.5 - uvInset)%Q in
  [u0; 0%Q; u1; 0%Q; u0; 1%Q; u1; 1%Q].

Definition addFace (x y z : Z) (type : option Z) (side : Side)
    (g : Geometry) : Geometry :=
  let '(r, gr, b) := faceColor type side in
  {| positions := positions g ++ facePositions x y z side;
     normals := normals g ++ faceNormals side;
     uvs := uvs g ++ faceUvs type;
     colors := colors g ++ [r; gr; b; r; gr; b; r; gr; b; r; gr; b] |}.

Definition isTransparent (t : option Z) : bool :=
  is_type t AIR || is_type t LEAVES.

Definition checkNeighbor (data : Uint8Array) (nx ny nz : Z) : bool :=
  if (nx <? 0) || (chunkSize <=? nx)
     || (ny <? 0) || (chunkSize <=? ny)
     || (nz <? 0) || (chunkSize <=? nz)
  then true
  else isTransparent (u8_get data (getBlockIndex nx ny nz)).

(** The neighbour cell that a side faces. *)
Definition neighbor (x y z : Z) (side : Side) : Z * Z * Z :=
  match side with
  | top => (x, y + 1, z)
  | bottom => (x, y - 1, z)
  | front => (x, y, z + 1)
  | back => (x, y, z - 1)
  | right => (x + 1, y, z)
  | left => (x - 1, y, z)
  end.

(** The body of the innermost loop of [generateChunkMesh].  The local
    helper [addFace] is a parameter, so that the same loops can be run
    with a helper that only records its calls. *)
Definition meshVoxel {G : Type}
    (addFace : Z -> Z -> Z -> option Z -> Side -> G -> G)
    (data : Uint8Array) (x y z : Z) (g : G) : G :=
  let index := getBlockIndex x y z in
  let type := u8_get data index in
  if is_type type AIR then g
  else
    let g := if checkNeighbor data x (y + 1) z
             then addFace x y z type top g else g in
    let g := if checkNeighbor data x (y - 1) z
             then addFace x y z type bottom g else g in
    let g := if checkNeighbor data x y (z + 1)
             then addFace x y z type front g else g in
    let g := if checkNeighbor data x y (z - 1)
             then addFace x y z type back g else g in
    let g := if checkNeighbor data (x + 1) y z
             then addFace x y z type right g else g in
    let g := if checkNeighbor data (x - 1) y z
             then addFace x y z type left g else g in
    g.

Definition meshLoops {G : Type}
    (addFace : Z -> Z -> Z -> option Z -> Side -> G -> G)
    (data : Uint8Array) (g : G) : G :=
  forZ 0 chunkSize (fun x =>
    forZ 0 chunkSize (fun y =>
      forZ 0 chunkSize (fun z => meshVoxel addFace data x y z))) g.

Definition meshGeometry (data : Uint8Array) : Geometry :=
  meshLoops addFace data emptyGeometry.

(** The calls of [addFace] that the loops make, in order. *)
Record Face : Type := mkFace {
  f_x : Z; f_y : Z; f_z : Z; f_type : option Z; f_side : Side
}.

Definition recordFace (x y z : Z) (type : option Z) (side : Side)
    (calls : list Face) : list Face :=
  calls ++ [mkFace x y z type side].

Definition emittedFaces (data : Uint8Array) : list Face :=
  meshLoops recordFace data [].

(** The index buffer: two triangles per group of four vertices. *)
Definition quadIndices (vertCount : Z) : list Z :=
  flat_map (fun q => let i := 4 * q in [i; i + 1; i + 2; i + 2; i + 1; i + 3])
           (seqZ 0 ((vertCount + 3) / 4)).

(** What the world keeps of a [THREE.Mesh]: the attribute arrays, the
    index buffer and the placement.  Material and shadow flags are the
    same for every chunk mesh and are left out. *)
Record Mesh : Type := mkMesh {
  geometry : Geometry;
  indices : list Z;
  mesh_position : Z * Z * Z
}.

Definition generateChunkMesh (data : Uint8Array) (cx cz : Z) : Mesh :=
  let startX := cx * chunkSize in
  let startZ := cz * chunkSize in
  let g := meshGeometry data in
  let vertCount := Z.of_nat (length (positions g)) / 3 in
  {| geometry := g;
     indices := quadIndices vertCount;
     mesh_position := (startX, 0, startZ) |}.

(** Counts read off a mesh. *)
Definition vertexCount (m : Mesh) : Z :=
  Z.of_nat (length (positions (geometry m))) / 3.
Definition quadCount (m : Mesh) : Z := vertexCount m / 4.
Definition triangleCount (m : Mesh) : Z := Z.of_nat (length (indices m)) / 3.

(* ===================================================================== *)
(** ** The terrain generator *)
(* ===================================================================== *)

(** [a < b] on fractional numbers. *)
Definition Qltb (a b : Q) : bool := negb (Qle_bool b a).

(** Height pass, one column: the clamped surface height. *)
Definition columnHeight (noise2D : Q -> Q -> Q) (cx cz x z : Z) : Z :=
  let startX := cx * chunkSize in
  let startZ := cz * chunkSize in
  let worldX := startX + x in
  let worldZ := startZ + z in
  let noiseValue :=
    noise2D (inject_Z worldX / inject_Z TERRAIN_SCALE)%Q
            (inject_Z worldZ / inject_Z TERRAIN_SCALE)%Q in
  let height := Qfloor (noiseValue * inject_Z TERRAIN_HEIGHT) + OFFSET in
  let height := if height <? 1 then 1 else height in
  let height := if chunkSize <=? height then chunkSize - 1 else height in
  height.

Definition terrainType (y height : Z) : Z :=
  if y =? 0 then BEDROCK
  else if y =? height then GRASS
  else if height - 3 <=? y then DIRT
  else STONE.

Definition fillColumn (x z height : Z) (data : Uint8Array) : Uint8Array :=
  forZ 0 (height + 1) (fun y data =>
    u8_set data (getBlockIndex x y z) (terrainType y height)) data.

(** "1. Generate Terrain". *)
Definition terrainPass (noise2D : Q -> Q -> Q) (cx cz : Z)
    (data : Uint8Array) : Uint8Array :=
  forZ 0 chunkSize (fun x =>
    forZ 0 chunkSize (fun z data =>
      fillColumn x z (columnHeight noise2D cx cz x z) data)) data.

(** The canopy cell write at the end of the innermost loop of
    [placeTree]. *)
Definition placeLeaf (x y z : Z) (data : Uint8Array) : Uint8Array :=
  if (0 <=? x) && (x <? chunkSize) && (0 <=? y) && (y <? chunkSize)
     && (0 <=? z) && (z <? chunkSize)
  then
    let index := getBlockIndex x y z in
    if negb (is_type (u8_get data index) WOOD)
    then u8_set data index LEAVES else data
  else data.

Definition leafCell (startX startZ radius x y z : Z)
    (st : list Z * Rng) : list Z * Rng :=
  let '(data, rng) := st in
  let dx := x - startX in
  let dz := z - startZ in
  if (Z.abs dx =? radius) && (Z.abs dz =? radius) then
    let '(r, rng) := random rng in
    if Qltb r 0.4 then (data, rng) else (placeLeaf x y z data, rng)
  else (placeLeaf x y z data, rng).

Definition placeTree (startX startY startZ : Z)
    (st : list Z * Rng) : list Z * Rng :=
  let '(data, rng) := st in
  let '(r, rng) := random rng in
  let trunkHeight := Qfloor (r * 2) + 4 in
  let data :=
    forZ 0 trunkHeight (fun y data =>
      let currentY := startY + y in
      if currentY <? chunkSize
      then u8_set data (getBlockIndex startX currentY startZ) WOOD
      else data) data in
  let leavesStart := startY + trunkHeight - 2 in
  let leavesEnd := startY + trunkHeight + 1 in
  forZ leavesStart (leavesEnd + 1) (fun y =>
    let dy := y - (startY + trunkHeight - 1) in
    let radius := if dy =? 2 then 1 else if dy =? -1 then 2 else 2 in
    forZ (startX - radius) (startX + radius + 1) (fun x =>
      forZ (startZ - radius) (startZ + radius + 1) (fun z =>
        leafCell startX startZ radius x y z))) (data, rng).

(** "Find surface height": the topmost cell that is not air, or -1. *)
Definition surfaceScan (data : Uint8Array) (x z : Z) : Z :=
  match List.find
          (fun y => negb (is_type (u8_get data (getBlockIndex x y z)) AIR))
          (reverse (seqZ 0 chunkSize)) with
  | Some y => y
  | None => -1
  end.

Definition treeColumn (x z : Z) (st : list Z * Rng) : list Z * Rng :=
  let '(data, rng) := st in
  if (x <? 2) || (chunkSize - 2 <=? x) || (z <? 2) || (chunkSize - 2 <=? z)
  then (data, rng)
  else
    let height := surfaceScan data x z in
    if 0 <? height then
      let index := getBlockIndex x height z in
      if is_type (u8_get data index) GRASS then
        let '(r, rng) := random rng in
        if Qltb r 0.01 then placeTree x (height + 1) z (data, rng)
        else (data, rng)
      else (data, rng)
    else (data, rng).

(** "2. Generate Trees (Second Pass)". *)
Definition treePass (st : list Z * Rng) : list Z * Rng :=
  forZ 0 chunkSize (fun x => forZ 0 chunkSize (fun z => treeColumn x z)) st.

(** The volume that [generateChunk] builds before it stores it. *)
Definition generateVolume (noise2D : Q -> Q -> Q) (cx cz : Z) (rng : Rng)
  : list Z * Rng :=
  let data := u8_new (chunkSize * chunkSize * chunkSize) in
  let data := terrainPass noise2D cx cz data in
  treePass (data, rng).

(* ===================================================================== *)
(** ** The chunk store *)
(* ===================================================================== *)

Definition Vec3 : Type := Q * Q * Q.

(** The inventory is opaque to the world; the game passes its slot list
    of (id, count) pairs. *)
Definition Inventory : Type := list (Z * Z).

(** The record written under the key ['player']. *)
Record Meta : Type := mkMeta {
  meta_position : Vec3;
  meta_inventory : Inventory;
  meta_seed : option Z
}.

(** Modelled from the spec: [worldDB] ([DB.ts] is not among the sources).
    "Two durable namespaces": one from chunk key to "raw block-volume
    bytes", one holding the "single metadata record"; [get] and [set]
    address a key within a namespace, [keys] gives the "sequence of keys"
    of a namespace and [clear] "wipes both namespaces".  [set] stores the
    value as it is at the time of the call.  That an operation "may fail
    with a store-unavailable error" is decided by the caller's
    environment (the [...Ok] arguments of the world operations), in which
    case the store is left as it was. *)
Record DB : Type := mkDB {
  db_chunks : gmap string (list Z);
  db_meta : gmap string Meta
}.

Definition db_empty : DB := mkDB ∅ ∅.

Definition db_getChunk (key : string) (db : DB) : option (list Z) :=
  db_chunks db !! key.

Definition db_setChunk (key : string) (data : list Z) (db : DB) : DB :=
  mkDB (<[key := data]> (db_chunks db)) (db_meta db).

Definition db_getMeta (key : string) (db : DB) : option Meta :=
  db_meta db !! key.

Definition db_setMeta (key : string) (m : Meta) (db : DB) : DB :=
  mkDB (db_chunks db) (<[key := m]> (db_meta db)).

Definition db_keysChunks (db : DB) : list string :=
  (map_to_list (db_chunks db)).*1.

Definition db_clear (db : DB) : DB := db_empty.

(* ===================================================================== *)
(** ** The world *)
(* ===================================================================== *)

(** [THREE.Scene] and the meshes handed to it belong to the renderer; the
    model records the calls the world makes on them, oldest first. *)
Inductive SceneOp : Type :=
  | SceneAdd (m : Mesh)
  | SceneRemove (m : Mesh)
  | DisposeGeometry (m : Mesh)
  | DisposeMaterial (m : Mesh).

Record World : Type := mkWorld {
  scene : list SceneOp;
  chunks : JsMap Mesh;
  chunksData : JsMap (list Z);
  dirtyChunks : gset string;
  knownChunkKeys : gset string;
  loadingChunks : gset string;
  seed : Z;
  noise2D : Q -> Q -> Q;
  noiseTexture : list Z
}.

Definition set_scene (f : list SceneOp -> list SceneOp) (w : World) :=
  mkWorld (f (scene w)) (chunks w) (chunksData w) (dirtyChunks w)
          (knownChunkKeys w) (loadingChunks w) (seed w) (noise2D w)
          (noiseTexture w).
Definition set_chunks (f : JsMap Mesh -> JsMap Mesh) (w : World) :=
  mkWorld (scene w) (f (chunks w)) (chunksData w) (dirtyChunks w)
          (knownChunkKeys w) (loadingChunks w) (seed w) (noise2D w)
          (noiseTexture w).
Definition set_chunksData (f : JsMap (list Z) -> JsMap (list Z)) (w : World) :=
  mkWorld (scene w) (chunks w) (f (chunksData w)) (dirtyChunks w)
          (knownChunkKeys w) (loadingChunks w) (seed w) (noise2D w)
          (noiseTexture w).
Definition set_dirtyChunks (f : gset string -> gset string) (w : World) :=
  mkWorld (scene w) (chunks w) (chunksData w) (f (dirtyChunks w))
          (knownChunkKeys w) (loadingChunks w) (seed w) (noise2D w)
          (noiseTexture w).
Definition set_knownChunkKeys (f : gset string -> gset string) (w : World) :=
  mkWorld (scene w) (chunks w) (chunksData w) (dirtyChunks w)
          (f (knownChunkKeys w)) (loadingChunks w) (seed w) (noise2D w)
          (noiseTexture w).
Definition set_loadingChunks (f : gset string -> gset string) (w : World) :=
  mkWorld (scene w) (chunks w) (chunksData w) (dirtyChunks w)
          (knownChunkKeys w) (f (loadingChunks w)) (seed w) (noise2D w)
          (noiseTexture w).
Definition set_seed (createNoise2D : NoiseLib) (s : Z) (w : World) :=
  mkWorld (scene w) (chunks w) (chunksData w) (dirtyChunks w)
          (knownChunkKeys w) (loadingChunks w) s
          (createNoiseGenerator createNoise2D s) (noiseTexture w).

(** [scene.remove(mesh); mesh.geometry.dispose(); mesh.material.dispose()]. *)
Definition disposeMesh (m : Mesh) (w : World) : World :=
  set_scene (fun s => s ++ [SceneRemove m; DisposeGeometry m; DisposeMaterial m]) w.

(** [createNoiseTexture]: a 32 x 16 RGBA atlas of random greys, the right
    half with random holes. *)
Definition noiseTexel (i : Z) (st : list Z * Rng) : list Z * Rng :=
  let '(data, rng) := st in
  let width := 32 in
  let stride := i * 4 in
  let x := i mod width in
  let '(r, rng) := random rng in
  let v := Qfloor (r * inject_Z (255 - 150) + 150) in
  let data := u8_set data stride v in
  let data := u8_set data (stride + 1) v in
  let data := u8_set data (stride + 2) v in
  if 16 <=? x then
    let '(r, rng) := random rng in
    if Qltb r 0.4 then (u8_set data (stride + 3) 0, rng)
    else (u8_set data (stride + 3) 255, rng)
  else (u8_set data (stride + 3) 255, rng).

Definition createNoiseTexture (rng : Rng) : list Z * Rng :=
  let width := 32 in
  let height := 16 in
  forZ 0 (width * height) noiseTexel (u8_new (width * height * 4), rng).

(** The constructor. *)
Definition World_new (createNoise2D : NoiseLib) (rng : Rng) : World * Rng :=
  let '(s, rng) := randomSeed rng in
  let '(tex, rng) := createNoiseTexture rng in
  (mkWorld [] [] [] ∅ ∅ ∅ s (createNoiseGenerator createNoise2D s) tex, rng).

(** *** Block access *)

Definition isChunkLoaded (w : World) (x z : Z) : bool :=
  let cx := x / chunkSize in
  let cz := z / chunkSize in
  let key := chunkKey cx cz in
  jm_has key (chunksData w).

Definition hasBlock (w : World) (x y z : Z) : bool :=
  let cx := x / chunkSize in
  let cz := z / chunkSize in
  let key := chunkKey cx cz in
  match jm_get key (chunksData w) with
  | None => false
  | Some data =>
      let localX := x - cx * chunkSize in
      let localZ := z - cz * chunkSize in
      let localY := y in
      if (localY <? 0) || (chunkSize <=? localY) then false
      else
        let index := getBlockIndex localX localY localZ in
        negb (is_type (u8_get data index) AIR)
  end.

(** [getBlock] returns a cell value; [None] is the [undefined] that a
    volume shorter than the index would yield. *)
Definition getBlock (w : World) (x y z : Z) : option Z :=
  let cx := x / chunkSize in
  let cz := z / chunkSize in
  let key := chunkKey cx cz in
  match jm_get key (chunksData w) with
  | None => Some 0
  | Some data =>
      let localX := x - cx * chunkSize in
      let localZ := z - cz * chunkSize in
      let localY := y in
      if (localY <? 0) || (chunkSize <=? localY) then Some 0
      else
        let index := getBlockIndex localX localY localZ in
        u8_get data index
  end.

Definition setBlock (w : World) (x y z type : Z) : World :=
  let cx := x / chunkSize in
  let cz := z / chunkSize in
  let key := chunkKey cx cz in
  match jm_get key (chunksData w) with
  | None => w
  | Some data =>
      let localX := x - cx * chunkSize in
      let localZ := z - cz * chunkSize in
      let localY := y in
      if (localY <? 0) || (chunkSize <=? localY) then w
      else
        let index := getBlockIndex localX localY localZ in
        (* the volume is shared with the cache: the write shows there *)
        let data := u8_set data index type in
        let w := set_chunksData (jm_set key data) w in
        let w := set_dirtyChunks (fun d => d ∪ {[key]}) w in
        let w := match jm_get key (chunks w) with
                 | Some mesh => disposeMesh mesh w
                 | None => w
                 end in
        let newMesh := generateChunkMesh data cx cz in
        let w := set_scene (fun s => s ++ [SceneAdd newMesh]) w in
        set_chunks (jm_set key newMesh) w
  end.

Definition getBreakTime (type : Z) : option Z :=
  if type =? LEAVES then Some 1000
  else if (type =? DIRT) || (type =? GRASS) then Some 3000
  else if type =? WOOD then Some 5000
  else if type =? STONE then Some 20000
  else if type =? BEDROCK then None (* Infinity *)
  else Some 1000.

(** *** Generation and streaming *)

Definition buildChunkMesh (cx cz : Z) (data : Uint8Array) (w : World) : World :=
  let key := chunkKey cx cz in
  if jm_has key (chunks w) then w
  else
    let mesh := generateChunkMesh data cx cz in
    let w := set_scene (fun s => s ++ [SceneAdd mesh]) w in
    set_chunks (jm_set key mesh) w.

Definition generateChunk (cx cz : Z) (st : World * Rng) : World * Rng :=
  let '(w, rng) := st in
  let key := chunkKey cx cz in
  let '(data, rng) := generateVolume (noise2D w) cx cz rng in
  let w := set_chunksData (jm_set key data) w in
  let w := set_dirtyChunks (fun d => d ∪ {[key]}) w in
  (buildChunkMesh cx cz data w, rng).

(** A read of the chunk namespace that has been issued and whose
    [then] / [finally] callbacks have not run yet. *)
Record Fetch : Type := mkFetch { f_cx : Z; f_cz : Z; f_key : string }.

(** [ensureChunk] has no suspension point of its own: it runs to its end
    when called and may leave a fetch behind. *)
Definition ensureChunk (cx cz : Z) (key : string) (st : World * Rng)
  : World * Rng * option Fetch :=
  let '(w, rng) := st in
  match jm_get key (chunksData w) with
  | Some data => (buildChunkMesh cx cz data w, rng, None)
  | None =>
      if bool_decide (key ∈ knownChunkKeys w) then
        if bool_decide (key ∈ loadingChunks w) then (w, rng, None)
        else (set_loadingChunks (fun l => l ∪ {[key]}) w, rng,
              Some (mkFetch cx cz key))
      else (generateChunk cx cz (w, rng), None)
  end.

(** The callbacks of a fetch, run when the read resolves with [data]. *)
Definition chunkFetched (f : Fetch) (data : option (list Z))
    (st : World * Rng) : World * Rng :=
  let '(w, rng) := st in
  let '(w, rng) :=
    match data with
    | Some data =>
        let w := set_chunksData (jm_set (f_key f) data) w in
        (buildChunkMesh (f_cx f) (f_cz f) data w, rng)
    | None => generateChunk (f_cx f) (f_cz f) (w, rng)
    end in
  (set_loadingChunks (fun l => l ∖ {[f_key f]}) w, rng).

(** *** Eviction *)

(** Stable sort by a comparator, as [Array.prototype.sort]: an element
    is placed before the first later element it does not have to
    follow. *)
Fixpoint insertBy {A : Type} (cmp : A -> A -> Z) (a : A) (l : list A) : list A :=
  match l with
  | [] => [a]
  | b :: l' => if cmp a b <=? 0 then a :: l else b :: insertBy cmp a l'
  end.

Definition sortBy {A : Type} (cmp : A -> A -> Z) (l : list A) : list A :=
  foldr (insertBy cmp) [] l.

(** [(ax - cx) ** 2 + (az - cz) ** 2]; [None] is [NaN]. *)
Definition keyDistance (cx cz : Z) (key : string) : option Z :=
  match parseKey key with
  | (Some ax, Some az) => Some ((ax - cx) ^ 2 + (az - cz) ^ 2)
  | _ => None
  end.

(** The comparator [distB - distA]; a [NaN] result counts as 0. *)
Definition compareEntries {V : Type} (cx cz : Z) (a b : string * V) : Z :=
  match keyDistance cx cz a.1, keyDistance cx cz b.1 with
  | Some distA, Some distB => distB - distA
  | _, _ => 0
  end.

Definition playerChunk (playerPos : Vec3) : Z * Z :=
  let '(x, _, z) := playerPos in
  (Qfloor (x / inject_Z chunkSize), Qfloor (z / inject_Z chunkSize)).

(** A write of a chunk volume that has been issued by the eviction pass
    and has not settled yet. *)
Definition PendingWrite : Type := string * list Z.

(** One turn of the loop "Remove 50 furthest chunks". *)
Definition evictEntry (e : string * list Z)
    (st : World * list PendingWrite) : World * list PendingWrite :=
  let '(w, writes) := st in
  let '(key, data) := e in
  let '(w, writes) :=
    if bool_decide (key ∈ dirtyChunks w)
    then (set_dirtyChunks (fun d => d ∖ {[key]}) w, writes ++ [(key, data)])
    else (w, writes) in
  let w := set_chunksData (jm_delete key) w in
  let w := match jm_get key (chunks w) with
           | Some mesh => set_chunks (jm_delete key) (disposeMesh mesh w)
           | None => w
           end in
  (w, writes).

Definition checkMemory (playerPos : Vec3) (w : World)
  : World * list PendingWrite :=
  if jm_size (chunksData w) <=? 500 then (w, [])
  else
    let '(cx, cz) := playerChunk playerPos in
    let entries := sortBy (compareEntries cx cz) (chunksData w) in
    foldl (fun st e => evictEntry e st) (w, []) (take 50 entries).

(** The settling of an eviction write: on success the store holds the
    volume and the [then] callback records the key as known. *)
Definition evictWriteSettled (ok : bool) (pw : PendingWrite)
    (st : World * DB) : World * DB :=
  let '(w, db) := st in
  let '(key, data) := pw in
  if ok then (set_knownChunkKeys (fun k => k ∪ {[key]}) w, db_setChunk key data db)
  else (w, db).

(** *** The per-tick entry point *)

Record Tick : Type := mkTick {
  t_world : World;
  t_rng : Rng;
  t_fetches : list Fetch;
  t_writes : list PendingWrite
}.

Definition activeKeys (cx cz radius : Z) : list string :=
  flat_map (fun x => (fun z => chunkKey x z) <$> seqZ (cz - radius) (2 * radius + 1))
           (seqZ (cx - radius) (2 * radius + 1)).

Definition activate (x z : Z) (t : Tick) : Tick :=
  let key := chunkKey x z in
  if jm_has key (chunks (t_world t)) then t
  else
    let '(w, rng, f) := ensureChunk x z key (t_world t, t_rng t) in
    mkTick w rng (t_fetches t ++ option_list f) (t_writes t).

Definition unloadFar (active : list string) (w : World) : World :=
  foldl (fun w (e : string * Mesh) =>
           if bool_decide (e.1 ∈ active) then w
           else set_chunks (jm_delete e.1) (disposeMesh e.2 w))
        w (chunks w).

(** [update]; [isMobile] is what the user-agent test yields. *)
Definition update (isMobile : bool) (playerPos : Vec3) (st : World * Rng)
  : Tick :=
  let '(w, rng) := st in
  let radius := if isMobile then 2 else 3 in
  let '(cx, cz) := playerChunk playerPos in
  let t :=
    forZ (cx - radius) (cx + radius + 1) (fun x =>
      forZ (cz - radius) (cz + radius + 1) (fun z => activate x z))
      (mkTick w rng [] []) in
  let w := unloadFar (activeKeys cx cz radius) (t_world t) in
  let '(r, rng) := random (t_rng t) in
  if Qltb r (if isMobile then 0.05 else 0.01) then
    let '(w, writes) := checkMemory playerPos w in
    mkTick w rng (t_fetches t) writes
  else mkTick w rng (t_fetches t) [].

(** *** Persistence *)

Record PlayerData : Type := mkPlayerData {
  pd_position : Vec3;
  pd_inventory : Inventory
}.

Inductive Outcome : Type := Resolved | Rejected.

(** [saveWorld] suspends twice, at the metadata write and at the
    aggregate of the chunk writes, and the frame loop and the input
    handlers keep running meanwhile.  Its three stretches of code are
    given one by one; what the rest of the program does to the world at
    a suspension point comes between them. *)

(** Up to the first suspension: the record whose write is issued.  The
    seed is read at the call. *)
Definition saveWorld_meta (playerData : PlayerData) (w : World) : Meta :=
  {| meta_position := pd_position playerData;
     meta_inventory := pd_inventory playerData;
     meta_seed := Some (seed w) |}.

(** Between the two suspensions, once the metadata write has resolved:
    the loop "Save Dirty Chunks", with the writes it issues and the keys
    it records as known while doing so. *)
Definition saveDirty (key : string) (st : World * list PendingWrite)
  : World * list PendingWrite :=
  let '(w, promises) := st in
  match jm_get key (chunksData w) with
  | Some data =>
      (set_knownChunkKeys (fun k => k ∪ {[key]}) w, promises ++ [(key, data)])
  | None => (w, promises)
  end.

Definition issueDirtyWrites (w : World) : World * list PendingWrite :=
  foldl (fun st key => saveDirty key st) (w, []) (elements (dirtyChunks w)).

(** After the second suspension, in the world as it is by then: [ok]
    tells whether the aggregate of the chunk writes resolved, and only
    then is [dirtyChunks.clear()] reached. *)
Definition saveWorld_settled (ok : bool) (w : World) : World :=
  if ok then set_dirtyChunks (fun _ => ∅) w else w.

(** The store once a batch of chunk writes has settled: [chunkOk key]
    tells whether the write of that chunk succeeded. *)
Definition settleWrites (chunkOk : string -> bool)
    (promises : list PendingWrite) (db : DB) : DB :=
  foldl (fun db (p : PendingWrite) =>
           if chunkOk p.1 then db_setChunk p.1 p.2 db else db)
        db promises.

(** [saveWorld] from call to settlement when nothing else runs at its
    two suspension points: the three stretches in a row.  [metaOk] tells
    whether the metadata write succeeds.  A failed metadata write rejects
    before any chunk write is issued; chunk writes settle independently,
    and the aggregate rejects if one of them failed.  A call that other
    operations interleave with is the same stretches with those
    operations in between, which is how [step] below takes them. *)
Definition saveWorld (playerData : PlayerData) (metaOk : bool)
    (chunkOk : string -> bool) (st : World * DB) : World * DB * Outcome :=
  let '(w, db) := st in
  if negb metaOk then (w, db, Rejected)
  else
    let db := db_setMeta "player" (saveWorld_meta playerData w) db in
    let '(w, promises) := issueDirtyWrites w in
    let db := settleWrites chunkOk promises db in
    if forallb (fun p : PendingWrite => chunkOk p.1) promises
    then (saveWorld_settled true w, db, Resolved)
    else (saveWorld_settled false w, db, Rejected).

(** [loadWorld]; [None] is the rejection when the store is unavailable,
    which happens before the world is touched. *)
Definition loadWorld (createNoise2D : NoiseLib) (storeOk : bool)
    (st : World * DB) : option (World * option (Vec3 * Inventory)) :=
  let '(w, db) := st in
  if negb storeOk then None
  else
    let meta := db_getMeta "player" db in
    let keys := db_keysChunks db in
    let w := foldl (fun w k => set_knownChunkKeys (fun s => s ∪ {[k]}) w) w keys in
    let w := match meta with
             | Some m => match meta_seed m with
                         | Some s => set_seed createNoise2D s w
                         | None => w
                         end
             | None => w
             end in
    Some (w, (fun m => (meta_position m, meta_inventory m)) <$> meta).

(** [deleteWorld]; [None] as for [loadWorld]. *)
Definition deleteWorld (createNoise2D : NoiseLib) (storeOk : bool)
    (st : World * DB * Rng) : option (World * DB * Rng) :=
  let '(w, db, rng) := st in
  if negb storeOk then None
  else
    let db := db_clear db in
    let w := set_chunksData (fun _ => []) w in
    let w := set_dirtyChunks (fun _ => ∅) w in
    let w := set_knownChunkKeys (fun _ => ∅) w in
    let w := set_loadingChunks (fun _ => ∅) w in
    let w := foldl (fun w (e : string * Mesh) => disposeMesh e.2 w) w (chunks w) in
    let w := set_chunks (fun _ => []) w in
    let '(s, rng) := randomSeed rng in
    Some (set_seed createNoise2D s w, db, rng).

(* ===================================================================== *)
(** ** Well-formedness and reachable worlds *)
(* ===================================================================== *)

(** A chunk volume has one cell per voxel. *)
Definition volume_wf (data : list Z) : Prop :=
  length data = Z.to_nat (chunkSize * chunkSize * chunkSize).

(** Every dirty key has its volume in the RAM cache. *)
Definition dirty_cached (w : World) : Prop :=
  ∀ k, k ∈ dirtyChunks w → is_Some (jm_get k (chunksData w)).

(** A key that [chunkKey] produces. *)
Definition is_chunkKey (k : string) : Prop := ∃ cx cz, k = chunkKey cx cz.

(** A map holds one entry per key, under chunk keys only. *)
Definition keys_wf {V : Type} (m : JsMap V) : Prop :=
  NoDup (jm_keys m) ∧ Forall is_chunkKey (jm_keys m).

(** The sampler in use is the one built from the current seed. *)
Definition noise_synced (createNoise2D : NoiseLib) (w : World) : Prop :=
  noise2D w = createNoiseGenerator createNoise2D (seed w).

(** [w'] has the seed and the sampler of [w]. *)
Definition same_seed (w w' : World) : Prop :=
  seed w' = seed w ∧ noise2D w' = noise2D w.

(** [w'] has the cache and the dirty set of [w]. *)
Definition same_store (w w' : World) : Prop :=
  chunksData w' = chunksData w ∧ dirtyChunks w' = dirtyChunks w.

(** One operation of the world, with any environment: any viewer
    position, any outcome of the store, any content read back.  The
    private methods that the entry points reach are steps too, and so
    are the callbacks of reads and writes.  [saveWorld] is taken stretch
    by stretch (its first stretch leaves the world as it is), so that any
    other step can fall between its write loop and its last stretch.
    The relation does not record that a save is in flight: the last
    stretch is enabled in every world, which allows more runs than the
    program has and so leaves what holds of all reachable worlds valid
    for the program. *)
Inductive step (createNoise2D : NoiseLib) : World -> World -> Prop :=
  | step_setBlock w x y z type :
      step createNoise2D w (setBlock w x y z type)
  | step_generateChunk w rng cx cz :
      step createNoise2D w (generateChunk cx cz (w, rng)).1
  | step_ensureChunk w rng cx cz :
      step createNoise2D w (ensureChunk cx cz (chunkKey cx cz) (w, rng)).1.1
  | step_chunkFetched w rng f data :
      f_key f = chunkKey (f_cx f) (f_cz f) ->
      step createNoise2D w (chunkFetched f data (w, rng)).1
  | step_checkMemory w playerPos :
      step createNoise2D w (checkMemory playerPos w).1
  | step_evictWriteSettled w db ok pw :
      step createNoise2D w (evictWriteSettled ok pw (w, db)).1
  | step_update w rng isMobile playerPos :
      step createNoise2D w (t_world (update isMobile playerPos (w, rng)))
  | step_saveWorld_issue w :
      step createNoise2D w (issueDirtyWrites w).1
  | step_saveWorld_settled w ok :
      step createNoise2D w (saveWorld_settled ok w)
  | step_loadWorld w db w' res :
      loadWorld createNoise2D true (w, db) = Some (w', res) ->
      step createNoise2D w w'
  | step_deleteWorld w db rng w' db' rng' :
      deleteWorld createNoise2D true (w, db, rng) = Some (w', db', rng') ->
      step createNoise2D w w'.

Inductive reachable (createNoise2D : NoiseLib) : World -> Prop :=
  | reachable_new rng : reachable createNoise2D (World_new createNoise2D rng).1
  | reachable_step w w' :
      reachable createNoise2D w -> step createNoise2D w w' ->
      reachable createNoise2D w'.

(** Whether a character occurs in a string. *)
Fixpoint string_has (c : ascii) (s : string) : bool :=
  match s with
  | EmptyString => false
  | String a s' => Ascii.eqb a c || string_has c s'
  end.

(** Local coordinates inside the chunk. *)
Definition in_chunk (x y z : Z) : Prop :=
  0 <= x < chunkSize ∧ 0 <= y < chunkSize ∧ 0 <= z < chunkSize.

(* ===================================================================== *)
(** ** The mesher, face by face *)
(* ===================================================================== *)

(** The six sides in the order in which the loop body tests them. *)
Definition sides : list Side := [top; bottom; front; back; right; left].

Definition opposite (side : Side) : Side :=
  match side with
  | top => bottom | bottom => top
  | front => back | back => front
  | right => left | left => right
  end.

(** Whether the loop body calls [addFace] for this side of a voxel. *)
Definition faceShown (data : Uint8Array) (x y z : Z) (side : Side) : bool :=
  let '(nx, ny, nz) := neighbor x y z side in checkNeighbor data nx ny nz.

(** The calls that one turn of the innermost loop makes. *)
Definition voxelFaces (data : Uint8Array) (x y z : Z) : list Face :=
  let type := u8_get data (getBlockIndex x y z) in
  if is_type type AIR then []
  else mkFace x y z type <$> List.filter (faceShown data x y z) sides.

(** The cells of a chunk in loop order. *)
Definition chunkCells : list (Z * Z * Z) :=
  flat_map (fun x =>
    flat_map (fun y =>
      (fun z => (x, y, z)) <$> seqZ 0 chunkSize) (seqZ 0 chunkSize))
    (seqZ 0 chunkSize).

(** Running a recorded call against an accumulator. *)
Definition applyFace {G : Type}
    (addFace : Z -> Z -> Z -> option Z -> Side -> G -> G)
    (g : G) (f : Face) : G :=
  addFace (f_x f) (f_y f) (f_z f) (f_type f) (f_side f) g.

(** A volume whose cells are empty except, at most, at the listed
    places. *)
Definition empty_except (data : Uint8Array) (cells : list (Z * Z * Z)) : Prop :=
  ∀ x y z, in_chunk x y z -> (x, y, z) ∉ cells ->
    u8_get data (getBlockIndex x y z) = Some AIR.

(** [Math.random] yields numbers in [0, 1). *)
Definition rng_valid (rng : Rng) : Prop := ∀ n, (0 <= rng n)%Q ∧ (rng n < 1)%Q.

(** None of the first [n] draws of a random source is below the tree
    probability.  The vegetation pass asks for one draw per inner column
    whose top block is grass, 144 columns at most, and calls [placeTree]
    when the draw is below 0.01: on a fresh terrain, where every column
    is topped by grass, it places no tree exactly when its first 144
    draws are of this kind. *)
Definition draws_calm (n : nat) (rng : Rng) : Prop :=
  ∀ i, (i < n)%nat -> Qltb (rng i) 0.01 = false.

(** How many of the indices below [i] are those of inner columns,
    2 to 13. *)
Definition innerBefore (i : Z) : Z := Z.max 0 (Z.min 12 (i - 2)).

(** A cell that holds part of a tree. *)
Definition is_tree (v : option Z) : Prop := v = Some WOOD ∨ v = Some LEAVES.

(** [d'] is [d] with some cells overwritten by trunk or canopy. *)
Definition grown_from (d d' : list Z) : Prop :=
  length d' = length d ∧ ∀ i, u8_get d' i = u8_get d i ∨ is_tree (u8_get d' i).

(** The same on the states of the vegetation pass. *)
Definition grown_st (a b : list Z * Rng) : Prop := grown_from a.1 b.1.

(** [d'] agrees with [d] on the bottom layer of the chunk. *)
Definition floor_kept (d d' : list Z) : Prop :=
  length d' = length d ∧
  ∀ x z, in_chunk x 0 z ->
    u8_get d' (getBlockIndex x 0 z) = u8_get d (getBlockIndex x 0 z).

(** A state of the vegetation pass that still has the floor of [d0] and
    a proper random source. *)
Definition floor_st (d0 : list Z) (st : list Z * Rng) : Prop :=
  floor_kept d0 st.1 ∧ rng_valid st.2.

(** The squared distance of a cache entry from the viewer's chunk, 0
    where the key does not parse. *)
Definition entryDistance {V : Type} (cx cz : Z) (e : string * V) : Z :=
  default 0 (keyDistance cx cz e.1).

(** The scene calls that disposing a mesh makes. *)
Definition disposeOps (m : Mesh) : list SceneOp :=
  [SceneRemove m; DisposeGeometry m; DisposeMaterial m].

(* ===================================================================== *)
(** ** Streaming, vegetation, meshes and the scene: further notions *)
(* ===================================================================== *)

(** A chunk that is shown or on its way: it has a mesh, or a read of its
    record is in flight. *)
Definition covered (k : string) (w : World) : Prop :=
  jm_has k (chunks w) = true ∨ k ∈ loadingChunks w.

(** What the activation loops of [update] may do to a tick: the cache,
    the meshes, the loading set and the list of issued fetches only
    grow, the known keys stay. *)
Definition tick_grows (t t' : Tick) : Prop :=
  (∀ k d, jm_get k (chunksData (t_world t)) = Some d ->
          jm_get k (chunksData (t_world t')) = Some d) ∧
  (∀ k m, jm_get k (chunks (t_world t)) = Some m ->
          jm_get k (chunks (t_world t')) = Some m) ∧
  loadingChunks (t_world t) ⊆ loadingChunks (t_world t') ∧
  knownChunkKeys (t_world t') = knownChunkKeys (t_world t) ∧
  dirtyChunks (t_world t) ⊆ dirtyChunks (t_world t') ∧
  t_writes t' = t_writes t.

Definition tick_start (w : World) (rng : Rng) : Tick := mkTick w rng [] [].

(** The chunk coordinates that the loops of [update] visit, in order. *)
Definition activeCoords (cx cz radius : Z) : list (Z * Z) :=
  flat_map (fun x => (fun z => (x, z)) <$> seqZ (cz - radius) (2 * radius + 1))
           (seqZ (cx - radius) (2 * radius + 1)).

(** The two loops at the head of [update]. *)
Definition activation (cx cz radius : Z) (t : Tick) : Tick :=
  forZ (cx - radius) (cx + radius + 1) (fun x =>
    forZ (cz - radius) (cz + radius + 1) (fun z => activate x z)) t.

(** What holds of every fetch that a tick has issued, relative to the
    world [w0] at the start of the tick. *)
Definition fetches_ok (w0 : World) (active : list string) (t : Tick) : Prop :=
  NoDup (f_key <$> t_fetches t) ∧
  loadingChunks (t_world t) =
    loadingChunks w0 ∪ list_to_set (f_key <$> t_fetches t) ∧
  ∀ f, f ∈ t_fetches t ->
    f_key f = chunkKey (f_cx f) (f_cz f) ∧ f_key f ∈ active ∧
    f_key f ∈ knownChunkKeys w0 ∧ (f_key f ∉ loadingChunks w0) ∧
    jm_get (f_key f) (chunksData w0) = None ∧
    jm_get (f_key f) (chunksData (t_world t)) = None.

(** Every mesh belongs to a chunk whose volume is cached. *)
Definition meshes_cached (w : World) : Prop :=
  ∀ k, is_Some (jm_get k (chunks w)) -> is_Some (jm_get k (chunksData w)).

(** A read is in flight only for keys that are known to be stored. *)
Definition loading_known (w : World) : Prop :=
  loadingChunks w ⊆ knownChunkKeys w.

Definition resident_wf (w : World) : Prop :=
  meshes_cached w ∧ loading_known w ∧ keys_wf (chunks w).

(** [d'] is [d] with trunk cells written in inner columns from height 2
    up, and canopy cells written from height 4 up. *)
Definition trees_placed (d d' : list Z) : Prop :=
  length d' = length d ∧
  ∀ x y z, in_chunk x y z ->
    u8_get d' (getBlockIndex x y z) = u8_get d (getBlockIndex x y z) ∨
    (u8_get d' (getBlockIndex x y z) = Some WOOD ∧
     2 <= x < chunkSize - 2 ∧ 2 <= z < chunkSize - 2 ∧ 2 <= y) ∨
    (u8_get d' (getBlockIndex x y z) = Some LEAVES ∧ 4 <= y).

(** The same on the states of the vegetation pass, with a proper random
    source. *)
Definition trees_st (d0 : list Z) (st : list Z * Rng) : Prop :=
  trees_placed d0 st.1 ∧ rng_valid st.2.

(** Texel [i] of an RGBA atlas 32 texels wide: a grey between 150 and
    255, opaque in the left half, opaque or fully transparent in the
    right half. *)
Definition texel_ok (data : list Z) (i : Z) : Prop :=
  ∃ v a, 150 <= v <= 255 ∧
    u8_get data (4 * i) = Some v ∧ u8_get data (4 * i + 1) = Some v ∧
    u8_get data (4 * i + 2) = Some v ∧ u8_get data (4 * i + 3) = Some a ∧
    (a = 0 ∨ a = 255) ∧ (i mod 32 < 16 -> a = 255).

(** The twelve colour components that [addFace] appends: the face
    colour, once per vertex. *)
Definition faceColors (type : option Z) (side : Side) : list Q :=
  let '(r, g, b) := faceColor type side in [r; g; b; r; g; b; r; g; b; r; g; b].

(** The six indices of quad number [q]. *)
Definition quadTriangles (q : Z) : list Z :=
  let i := 4 * q in [i; i + 1; i + 2; i + 2; i + 1; i + 3].

(** Whether a cell lies inside the chunk, as a test. *)
Definition in_chunkb (c : Z * Z * Z) : bool :=
  let '(x, y, z) := c in
  (0 <=? x) && (x <? chunkSize) && (0 <=? y) && (y <? chunkSize) &&
  (0 <=? z) && (z <? chunkSize).

(** The sides of a voxel that face out of the chunk. *)
Definition borderSides (x y z : Z) : list Side :=
  List.filter (fun s => negb (in_chunkb (neighbor x y z s))) sides.

(** Equality of meshes and of scene calls is decidable. *)
#[global] Instance Q_eq_dec : EqDecision Q.
Proof. solve_decision. Defined.

#[global] Instance Geometry_eq_dec : EqDecision Geometry.
Proof. solve_decision. Defined.

#[global] Instance Mesh_eq_dec : EqDecision Mesh.
Proof. solve_decision. Defined.

#[global] Instance SceneOp_eq_dec : EqDecision SceneOp.
Proof. solve_decision. Defined.

(** How often a call occurs in the scene log, and how many entries of
    the mesh map hold a given mesh. *)
Definition occurrences (op : SceneOp) (s : list SceneOp) : Z :=
  Z.of_nat (length (filter (fun o => o = op) s)).

Definition held (m : Mesh) (c : list (string * Mesh)) : Z :=
  Z.of_nat (length (filter (fun e : string * Mesh => e.2 = m) c)).

(** 1 if the two meshes are the same, 0 otherwise. *)
Definition same_mesh (a b : Mesh) : Z := if decide (a = b) then 1 else 0.

(** The scene log and the mesh map are in balance: every mesh has been
    added to the scene once more than it has been removed for each map
    entry that holds it, and its geometry and its material have been
    disposed exactly as often as it has been removed. *)
Definition balanced (s : list SceneOp) (c : JsMap Mesh) : Prop :=
  ∀ m, occurrences (SceneAdd m) s = occurrences (SceneRemove m) s + held m c ∧
       occurrences (DisposeGeometry m) s = occurrences (SceneRemove m) s ∧
       occurrences (DisposeMaterial m) s = occurrences (SceneRemove m) s.

Definition scene_balanced (w : World) : Prop :=
  balanced (scene w) (chunks w) ∧ keys_wf (chunks w).

(* ===================================================================== *)
(** ** Dropped items and the inventory ([ItemEntity], [main.ts]) *)
(* ===================================================================== *)

(** The vertex colour that the constructor of [ItemEntity] picks for an
    item of a block id. *)
Definition itemColor (type : Z) : Q * Q * Q :=
  if type =? 1 then (0.33, 0.6, 0.33)%Q
  else if type =? 2 then (0.54, 0.27, 0.07)%Q
  else if type =? 3 then (0.5, 0.5, 0.5)%Q
  else if type =? 4 then (0.13, 0.13, 0.13)%Q
  else if type =? 5 then (0.4, 0.2, 0.0)%Q
  else if type =? 6 then (0.13, 0.55, 0.13)%Q
  else (1, 1, 1)%Q.

(** [inventorySlots]: an array of 36 records [{id, count}], here as
    pairs.  The index of the first slot with a given id. *)
Definition findSlot (id : Z) (slots : list (Z * Z)) : option nat :=
  fst <$> list_find (fun s : Z * Z => s.1 = id) slots.

(** [addItemToInventory] of [main.ts]: stack onto the first slot of that
    id, else fill the first empty slot, else leave the inventory as it is
    ("Inventory full!").  Both loops run over the first 36 slots. *)
Definition addItemToInventory (id count : Z) (slots : list (Z * Z)) : Inventory :=
  match findSlot id (take 36 slots) with
  | Some i => alter (fun s : Z * Z => (s.1, s.2 + count)) i slots
  | None =>
      match findSlot 0 (take 36 slots) with
      | Some i => <[i := (id, count)]> slots
      | None => slots
      end
  end.

(** The pickup of a dropped item in the frame loop of [main.ts]: the
    slots afterwards, and whether a slot was found (in which case the
    entity is disposed and removed). *)
Definition pickup (type : Z) (slots : list (Z * Z)) : Inventory * bool :=
  match findSlot type slots with
  | Some i => (alter (fun s : Z * Z => (s.1, s.2 + 1)) i slots, true)
  | None =>
      match findSlot 0 slots with
      | Some i => (alter (fun s : Z * Z => (s.1, s.2 + 1)) i (<[i := (type, 0)]> slots), true)
      | None => (slots, false)
      end
  end.

(** How many items of an id the inventory holds. *)
Definition slotCount (id : Z) (s : Z * Z) : Z := if decide (s.1 = id) then s.2 else 0.

Definition itemTotal (id : Z) (slots : list (Z * Z)) : Z :=
  foldr (fun (s : Z * Z) acc => slotCount id s + acc) 0 slots.

(** [d'] still has wood wherever [d] has. *)
Definition wood_kept (d d' : list Z) : Prop :=
  length d' = length d ∧
  ∀ i, u8_get d i = Some WOOD -> u8_get d' i = Some WOOD.

(** Quad number [q] of a geometry: the components that its four
    vertices have in each attribute array (three per vertex for
    positions, normals and colours, two for texture coordinates). *)
Definition quadPositions (g : Geometry) (q : nat) : list Z :=
  take 12 (drop (12 * q) (positions g)).
Definition quadNormals (g : Geometry) (q : nat) : list Z :=
  take 12 (drop (12 * q) (normals g)).
Definition quadUvs (g : Geometry) (q : nat) : list Q :=
  take 8 (drop (8 * q) (uvs g)).
Definition quadColors (g : Geometry) (q : nat) : list Q :=
  take 12 (drop (12 * q) (colors g)).

(** Quad [q] is the face of voxel [(x, y, z)] on [side]: it has the
    four corners and the normal that [addFace] pushes for that voxel and
    side.  A geometry holds the face when one of its quads is it. *)
Definition is_face (g : Geometry) (q : nat) (x y z : Z) (side : Side) : Prop :=
  quadPositions g q = facePositions x y z side ∧
  quadNormals g q = faceNormals side.

Definition has_face (g : Geometry) (x y z : Z) (side : Side) : Prop :=
  ∃ q, is_face g q x y z side.

(* ===================================================================== *)
(** ** Sample data *)
(* ===================================================================== *)

(** A sampler that is 0 everywhere (surface height 4), a random source
    that never starts a tree, and a world holding chunk (0, 0) of that
    terrain. *)
Definition flatNoise : NoiseLib := fun _ _ _ => 0%Q.

Definition calmRng : Rng := fun _ => 0.5%Q.

Definition flatVolume : list Z :=
  terrainPass (fun _ _ => 0%Q) 0 0 (u8_new (chunkSize * chunkSize * chunkSize)).

Definition flatWorld : World :=
  mkWorld [] [] [("0,0"%string, flatVolume)] ∅ ∅ ∅ 7
          (createNoiseGenerator flatNoise 7) [].

(** Two leaves blocks side by side in an otherwise empty volume. *)
Definition leavesPair : list Z :=
  u8_set (u8_set (u8_new (chunkSize * chunkSize * chunkSize))
            (getBlockIndex 3 3 3) LEAVES)
         (getBlockIndex 4 3 3) LEAVES.

(** One stone block, and two stone blocks side by side. *)
Definition stoneSingle : list Z :=
  u8_set (u8_new (chunkSize * chunkSize * chunkSize)) (getBlockIndex 3 3 3) STONE.

Definition stonePair : list Z := u8_set stoneSingle (getBlockIndex 4 3 3) STONE.

(** A sampler that is -0.25 everywhere (surface height 2), and a random
    source whose draw number 78, the one for column (8, 8) of a fresh
    chunk, starts a tree. *)
Definition lowNoise : NoiseLib := fun _ _ _ => (-0.25)%Q.

Definition treeRng : Rng := fun n => if (n =? 78)%nat then 0%Q else 0.5%Q.

(** A sampler that depends on the seeded draws: the first draw, spread
    over [-1, 1).  A store holding a saved seed, and the world that a
    new process has after [loadWorld] from it. *)
Definition drawNoise : NoiseLib := fun draws _ _ => (draws 0%nat * 2 - 1)%Q.

Definition savedDB : DB :=
  db_setMeta "player" (mkMeta (8, 20, 20)%Q [] (Some 42)) db_empty.

Definition restarted (rng : Rng) : World :=
  match loadWorld drawNoise true ((World_new drawNoise rng).1, savedDB) with
  | Some (w, _) => w
  | None => (World_new drawNoise rng).1
  end.

(** The flat world after one block edit: chunk "0,0" is dirty. *)
Definition editedWorld : World := setBlock flatWorld 3 5 3 STONE.

Definition samplePlayer : PlayerData := mkPlayerData (8, 20, 20)%Q [(STONE, 3)].

(** A world over the cap: 501 cached chunks in a row, cached from the
    farthest to the nearest, the farthest one dirty and meshed; and a
    viewer at the origin. *)
Definition crowdedWorld : World :=
  mkWorld [] [(chunkKey 500 0,
               generateChunkMesh (u8_new (chunkSize * chunkSize * chunkSize)) 500 0)]
          ((fun i => (chunkKey (500 - i) 0,
                      u8_new (chunkSize * chunkSize * chunkSize)))
             <$> seqZ 0 501)
          {[chunkKey 500 0]} ∅ ∅ 7 (createNoiseGenerator flatNoise 7) [].

Definition origin : Vec3 := (0, 0, 0)%Q.

(** A chunk volume filled with stone. *)
Definition solidVolume : list Z :=
  replicate (Z.to_nat (chunkSize * chunkSize * chunkSize)) STONE.

(** The inventory of a new game, and one with a stack of stone in slot 2. *)
Definition emptySlots : list (Z * Z) := replicate 36 (0, 0).

Definition someSlots : list (Z * Z) := <[2%nat := (STONE, 5)]> emptySlots.

(** A new world over flat terrain, and a store that holds a saved game
    with chunks (0, 0) and (1, 0). *)
Definition freshWorld : World := (World_new flatNoise calmRng).1.

Definition storedDB : DB :=
  db_setChunk (chunkKey 1 0) flatVolume
    (db_setChunk (chunkKey 0 0) flatVolume savedDB).

(** A session over that store: a new world that has loaded the index,
    has got chunk (0, 0) back from the store and has a read of chunk
    (1, 0) in flight. *)
Definition resumedWorld : World :=
  let w := default freshWorld
             (fst <$> loadWorld flatNoise true (freshWorld, storedDB)) in
  let w := (ensureChunk 0 0 (chunkKey 0 0) (w, calmRng)).1.1 in
  let w := (chunkFetched (mkFetch 0 0 (chunkKey 0 0))
              (db_getChunk (chunkKey 0 0) storedDB) (w, calmRng)).1 in
  (ensureChunk 1 0 (chunkKey 1 0) (w, calmRng)).1.1.

(** The same once that read has delivered chunk (1, 0): both chunks are
    cached, meshed, stored and clean.  And after an edit in chunk
    (0, 0), which makes that chunk dirty. *)
Definition loadedWorld : World :=
  (chunkFetched (mkFetch 1 0 (chunkKey 1 0))
     (db_getChunk (chunkKey 1 0) storedDB) (resumedWorld, calmRng)).1.

Definition playedWorld : World := setBlock loadedWorld 3 5 3 STONE.

(* ===================================================================== *)
(** * Properties *)
(* ===================================================================== *)

(** ** Loops *)

Lemma forZ_empty {St : Type} lo hi (body : Z -> St -> St) s :
  hi <= lo -> forZ lo hi body s = s.
Proof.
  intros H. unfold forZ. unfold seqZ.
  replace (Z.to_nat (hi - lo)) with 0%nat by lia. reflexivity.
Qed.

Lemma forZ_first {St : Type} lo hi (body : Z -> St -> St) s :
  lo < hi -> forZ lo hi body s = forZ (lo + 1) hi body (body lo s).
Proof.
  intros H. unfold forZ. rewrite (seqZ_cons lo (hi - lo)) by lia.
  simpl. do 2 f_equal. all: lia.
Qed.

Lemma forZ_last {St : Type} lo hi (body : Z -> St -> St) s :
  lo <= hi -> forZ lo (hi + 1) body s = body hi (forZ lo hi body s).
Proof.
  intros H. unfold forZ.
  replace (hi + 1 - lo) with ((hi - lo) + 1) by lia.
  rewrite seqZ_app by lia. rewrite foldl_app.
  rewrite (seqZ_cons _ 1) by lia. rewrite (seqZ_nil _ (Z.pred 1)) by lia. simpl.
  f_equal. lia.
Qed.

(** A loop invariant rule: what holds before the loop and is kept by
    every turn holds after it. *)
Lemma forZ_invariant {St : Type} (P : St -> Prop) lo hi (body : Z -> St -> St) s :
  P s ->
  (∀ i s, lo <= i < hi -> P s -> P (body i s)) ->
  P (forZ lo hi body s).
Proof.
  intros Hs Hbody. unfold forZ.
  assert (Hin : ∀ i, i ∈ seqZ lo (hi - lo) → lo <= i < hi).
  { intros i Hi. apply elem_of_seqZ in Hi. lia. }
  revert s Hs Hin. generalize (seqZ lo (hi - lo)).
  induction l as [|i l IH]; intros s Hs Hin; simpl; [exact Hs|].
  apply IH.
  - apply Hbody; [apply Hin; left | exact Hs].
  - intros j Hj. apply Hin. by right.
Qed.

(** The same with the loop counter visible to the invariant. *)
Lemma forZ_invariant_idx {St : Type} (P : Z -> St -> Prop) lo hi
    (body : Z -> St -> St) s :
  lo <= hi ->
  P lo s ->
  (∀ i s, lo <= i < hi -> P i s -> P (i + 1) (body i s)) ->
  P hi (forZ lo hi body s).
Proof.
  intros Hle Hs Hbody.
  assert (Hgen : ∀ n : nat, lo + Z.of_nat n <= hi ->
            P (lo + Z.of_nat n) (forZ lo (lo + Z.of_nat n) body s)).
  { induction n as [|n IH]; intros Hn.
    - rewrite Z.add_0_r, forZ_empty by lia. exact Hs.
    - replace (lo + Z.of_nat (S n)) with (lo + Z.of_nat n + 1) by lia.
      rewrite forZ_last by lia. apply Hbody; [lia|]. apply IH. lia. }
  specialize (Hgen (Z.to_nat (hi - lo))).
  replace (lo + Z.of_nat (Z.to_nat (hi - lo))) with hi in Hgen by lia.
  apply Hgen. lia.
Qed.

(** A loop whose turns append to a list. *)
Lemma forZ_append {A : Type} lo hi (f : Z -> list A) (body : Z -> list A -> list A) l :
  (∀ i l, body i l = l ++ f i) ->
  forZ lo hi body l = l ++ flat_map f (seqZ lo (hi - lo)).
Proof.
  intros Hbody. unfold forZ. revert l.
  induction (seqZ lo (hi - lo)) as [|i k IH]; intros l; simpl.
  - by rewrite app_nil_r.
  - rewrite IH, Hbody, <- app_assoc. reflexivity.
Qed.

(** ** Chunk keys *)

Lemma string_of_uint_no_comma d :
  string_has "," (NilEmpty.string_of_uint d) = false.
Proof. induction d; simpl; auto. Qed.

Lemma numberToString_no_comma z : string_has "," (numberToString z) = false.
Proof.
  unfold numberToString. destruct (Z.to_int z); simpl;
    apply string_of_uint_no_comma.
Qed.

Lemma stringToNumber_numberToString z :
  stringToNumber (numberToString z) = Some z.
Proof.
  unfold stringToNumber, numberToString.
  rewrite NilEmpty.isi. simpl. f_equal. apply DecimalZ.of_to.
Qed.

Lemma split_no_sep c s : string_has c s = false -> split c s = [s].
Proof.
  induction s as [|a s IH]; simpl; [done|].
  intros H. apply orb_false_iff in H as [Ha Hs].
  rewrite Ha, IH by done. done.
Qed.

Lemma split_at_sep c s1 s2 :
  string_has c s1 = false ->
  split c (s1 ++ String c s2) = s1 :: split c s2.
Proof.
  induction s1 as [|a s1 IH]; simpl.
  - intros _. by rewrite Ascii.eqb_refl.
  - intros H. apply orb_false_iff in H as [Ha Hs].
    rewrite Ha, IH by done. done.
Qed.

Lemma parseKey_chunkKey cx cz : parseKey (chunkKey cx cz) = (Some cx, Some cz).
Proof.
  unfold parseKey, chunkKey.
  rewrite split_at_sep by apply numberToString_no_comma.
  rewrite split_no_sep by apply numberToString_no_comma.
  simpl. by rewrite !stringToNumber_numberToString.
Qed.

Lemma chunkKey_inj cx cz cx' cz' :
  chunkKey cx cz = chunkKey cx' cz' -> cx = cx' ∧ cz = cz'.
Proof.
  intros H. apply (f_equal parseKey) in H.
  rewrite !parseKey_chunkKey in H. by simplify_eq.
Qed.

Lemma keyDistance_chunkKey cx cz ax az :
  keyDistance cx cz (chunkKey ax az) = Some ((ax - cx) ^ 2 + (az - cz) ^ 2).
Proof. unfold keyDistance. by rewrite parseKey_chunkKey. Qed.

(** ** Typed arrays and the voxel index *)

Lemma u8_set_length data i v : length (u8_set data i v) = length data.
Proof. unfold u8_set. destruct (i <? 0); [done|]. apply length_insert. Qed.

Lemma u8_get_set_eq data i v :
  0 <= i < Z.of_nat (length data) ->
  u8_get (u8_set data i v) i = Some (v mod 256).
Proof.
  intros H. unfold u8_get, u8_set.
  destruct (Z.ltb_spec i 0); [lia|].
  apply list_lookup_insert_eq. lia.
Qed.

Lemma u8_get_set_ne data i j v :
  i ≠ j -> u8_get (u8_set data i v) j = u8_get data j.
Proof.
  intros H. unfold u8_get, u8_set.
  destruct (Z.ltb_spec j 0); [done|].
  destruct (Z.ltb_spec i 0); [done|].
  apply list_lookup_insert_ne. lia.
Qed.

Lemma u8_get_set_cases data i j v :
  u8_get (u8_set data i v) j = u8_get data j ∨
  u8_get (u8_set data i v) j = Some (v mod 256).
Proof.
  destruct (decide (i = j)) as [->|Hne].
  - destruct (decide (0 <= j < Z.of_nat (length data))) as [Hin|Hout].
    + right. by apply u8_get_set_eq.
    + left. unfold u8_get, u8_set.
      destruct (Z.ltb_spec j 0); [done|].
      rewrite list_insert_ge by lia. done.
  - left. by apply u8_get_set_ne.
Qed.

Lemma u8_new_length n : length (u8_new n) = Z.to_nat n.
Proof. apply length_replicate. Qed.

Lemma u8_get_new n i : 0 <= i < n -> u8_get (u8_new n) i = Some 0.
Proof.
  intros H. unfold u8_get, u8_new.
  destruct (Z.ltb_spec i 0); [lia|].
  apply lookup_replicate_2. lia.
Qed.

Lemma u8_get_is_Some data i :
  0 <= i < Z.of_nat (length data) -> is_Some (u8_get data i).
Proof.
  intros H. unfold u8_get. destruct (Z.ltb_spec i 0); [lia|].
  apply lookup_lt_is_Some. lia.
Qed.

Lemma getBlockIndex_range x y z :
  in_chunk x y z -> 0 <= getBlockIndex x y z < 4096.
Proof. unfold in_chunk, getBlockIndex, chunkSize. lia. Qed.

Lemma getBlockIndex_inj x y z x' y' z' :
  in_chunk x y z -> in_chunk x' y' z' ->
  getBlockIndex x y z = getBlockIndex x' y' z' ->
  x = x' ∧ y = y' ∧ z = z'.
Proof. unfold in_chunk, getBlockIndex, chunkSize. lia. Qed.

Lemma volume_wf_length data : volume_wf data -> Z.of_nat (length data) = 4096.
Proof. unfold volume_wf. intros ->. reflexivity. Qed.

Lemma u8_set_wf data i v : volume_wf data -> volume_wf (u8_set data i v).
Proof. unfold volume_wf. by rewrite u8_set_length. Qed.

(** Local coordinates of a world coordinate. *)
Lemma local_coord_range x : 0 <= x - x / chunkSize * chunkSize < chunkSize.
Proof.
  unfold chunkSize. pose proof (Z.mod_pos_bound x 16 ltac:(lia)).
  pose proof (Z.div_mod x 16 ltac:(lia)). lia.
Qed.

(** ** Insertion-ordered maps *)

Section JsMapFacts.
Context {V : Type}.
Implicit Types (m : JsMap V) (k : string) (v : V).

Lemma jm_get_cons k e m :
  jm_get k (e :: m) = if decide (e.1 = k) then Some e.2 else jm_get k m.
Proof.
  unfold jm_get. simpl. destruct (decide (e.1 = k)) as [H|H].
  - by rewrite bool_decide_eq_true_2.
  - by rewrite bool_decide_eq_false_2.
Qed.

Lemma jm_get_nil k : jm_get k ([] : JsMap V) = None.
Proof. reflexivity. Qed.

Lemma jm_get_set_eq k v m : jm_get k (jm_set k v m) = Some v.
Proof.
  induction m as [|e m IH]; simpl.
  - rewrite jm_get_cons. simpl. by rewrite decide_True.
  - destruct (decide (e.1 = k)) as [H|H]; rewrite jm_get_cons; simpl.
    + by rewrite decide_True.
    + by rewrite decide_False.
Qed.

Lemma jm_get_set_ne k k' v m : k ≠ k' -> jm_get k' (jm_set k v m) = jm_get k' m.
Proof.
  intros Hne. induction m as [|e m IH]; simpl.
  - rewrite jm_get_cons. simpl. by rewrite decide_False.
  - destruct (decide (e.1 = k)) as [H|H]; rewrite !jm_get_cons; simpl.
    + rewrite decide_False by done. rewrite decide_False by congruence. done.
    + by rewrite IH.
Qed.

Lemma jm_get_delete_eq k m : jm_get k (jm_delete k m) = None.
Proof.
  induction m as [|e m IH]; simpl; [done|].
  destruct (decide (e.1 = k)) as [H|H].
  - by rewrite bool_decide_eq_true_2.
  - rewrite bool_decide_eq_false_2 by done. simpl.
    rewrite jm_get_cons. by rewrite decide_False.
Qed.

Lemma jm_get_delete_ne k k' m : k ≠ k' -> jm_get k' (jm_delete k m) = jm_get k' m.
Proof.
  intros Hne. induction m as [|e m IH]; simpl; [done|].
  destruct (decide (e.1 = k)) as [H|H].
  - rewrite bool_decide_eq_true_2 by done. simpl.
    rewrite jm_get_cons. rewrite decide_False by congruence. done.
  - rewrite bool_decide_eq_false_2 by done. simpl.
    rewrite !jm_get_cons. by rewrite IH.
Qed.

Lemma jm_get_is_Some k m : is_Some (jm_get k m) ↔ k ∈ jm_keys m.
Proof.
  unfold jm_keys. induction m as [|e m IH]; simpl.
  - rewrite jm_get_nil. split; [by intros [? ?]|by intros ?%elem_of_nil].
  - rewrite jm_get_cons, elem_of_cons. destruct (decide (e.1 = k)) as [H|H].
    + split; [by left|by eauto].
    + rewrite IH. split; [by right|]. by intros [?|?]; [congruence|].
Qed.

Lemma jm_get_Some_elem k v m : jm_get k m = Some v -> (k, v) ∈ m.
Proof.
  induction m as [|e m IH]; [done|].
  rewrite jm_get_cons. destruct (decide (e.1 = k)) as [H|H].
  - intros [= <-]. subst k. destruct e. left.
  - intros Hm. right. by apply IH.
Qed.

Lemma jm_get_elem_NoDup k v m :
  NoDup (jm_keys m) -> (k, v) ∈ m -> jm_get k m = Some v.
Proof.
  unfold jm_keys. induction m as [|e m IH]; simpl.
  - by intros _ ?%elem_of_nil.
  - intros [Hnotin Hnd]%NoDup_cons [<-|Hin]%elem_of_cons.
    + rewrite jm_get_cons. simpl. by rewrite decide_True.
    + rewrite jm_get_cons. rewrite decide_False; [by apply IH|].
      intros <-. apply Hnotin. apply list_elem_of_fmap. by exists (e.1, v).
Qed.

Lemma jm_keys_set k v m :
  jm_keys (jm_set k v m) =
    if decide (k ∈ jm_keys m) then jm_keys m else jm_keys m ++ [k].
Proof.
  unfold jm_keys. induction m as [|e m IH].
  - rewrite decide_False; [done|apply not_elem_of_nil].
  - cbn [jm_set]. rewrite fmap_cons.
    destruct (decide (e.1 = k)) as [H|H].
    + subst k. rewrite decide_True by left. by rewrite fmap_cons.
    + rewrite fmap_cons, IH. destruct (decide (k ∈ m.*1)) as [Hin|Hnin].
      * rewrite decide_True by (by right). done.
      * rewrite decide_False; [done|].
        intros [?|?]%elem_of_cons; congruence.
Qed.

Lemma jm_keys_delete k m :
  jm_keys (jm_delete k m) = List.filter (fun k' => negb (bool_decide (k' = k))) (jm_keys m).
Proof.
  unfold jm_keys, jm_delete. induction m as [|e m IH]; [done|].
  cbn [List.filter]. rewrite fmap_cons. cbn [List.filter].
  destruct (bool_decide (e.1 = k)); cbn [negb]; rewrite ?fmap_cons, IH; done.
Qed.

Lemma elem_of_jm_keys_delete k k' m :
  k' ∈ jm_keys (jm_delete k m) ↔ k' ≠ k ∧ k' ∈ jm_keys m.
Proof.
  rewrite jm_keys_delete, !list_elem_of_In, filter_In, negb_true_iff,
    bool_decide_eq_false. tauto.
Qed.

Lemma elem_of_jm_keys_set k k' v m :
  k' ∈ jm_keys (jm_set k v m) ↔ k' = k ∨ k' ∈ jm_keys m.
Proof.
  rewrite jm_keys_set. destruct (decide (k ∈ jm_keys m)).
  - split; [by right|]. by intros [->|?].
  - rewrite elem_of_app, list_elem_of_singleton. tauto.
Qed.

Lemma keys_wf_nil : keys_wf ([] : JsMap V).
Proof. split; constructor. Qed.

Lemma keys_wf_set cx cz v m : keys_wf m -> keys_wf (jm_set (chunkKey cx cz) v m).
Proof.
  intros [Hnd Hall]. unfold keys_wf. rewrite jm_keys_set.
  destruct (decide (chunkKey cx cz ∈ jm_keys m)); [done|]. split.
  - apply NoDup_app. split_and!; [done| |apply NoDup_singleton].
    intros k Hk ->%list_elem_of_singleton. done.
  - apply Forall_app. split; [done|]. apply Forall_singleton. by eexists _, _.
Qed.

Lemma keys_wf_delete k m : keys_wf m -> keys_wf (jm_delete k m).
Proof.
  intros [Hnd Hall]. unfold keys_wf. rewrite jm_keys_delete. split.
  - by apply NoDup_ListNoDup, List.NoDup_filter, NoDup_ListNoDup.
  - rewrite Forall_forall in *. intros k' Hk'. apply Hall.
    apply list_elem_of_In in Hk'. apply filter_In in Hk' as [Hk' _].
    by apply list_elem_of_In.
Qed.
End JsMapFacts.

(** ** Block access *)

(** C3.  Outside the vertical range [0, 16), or where the chunk's volume
    is not in the RAM cache, [getBlock] returns the empty type and
    [hasBlock] returns false.  Both are total functions of the world and
    the coordinate that return only a value: neither can fail and
    neither yields a changed world. *)
Theorem getBlock_hasBlock_out_of_bounds (w : World) (x y z : Z) :
  y < 0 ∨ chunkSize <= y ∨
    jm_get (chunkKey (x / chunkSize) (z / chunkSize)) (chunksData w) = None ->
  getBlock w x y z = Some AIR ∧ hasBlock w x y z = false.
Proof.
  intros H. unfold getBlock, hasBlock.
  destruct (jm_get _ (chunksData w)) as [data|] eqn:Hdata; [|done].
  destruct H as [H|[H|H]]; [| |done].
  - destruct (Z.ltb_spec y 0); [done|lia].
  - destruct (Z.leb_spec chunkSize y); [|lia].
    by rewrite orb_true_r.
Qed.

Lemma getBlock_hasBlock_out_of_bounds_witness :
  (getBlock flatWorld 3 (-1) 3 = Some AIR ∧ hasBlock flatWorld 3 (-1) 3 = false) ∧
  (getBlock flatWorld 3 16 3 = Some AIR ∧ hasBlock flatWorld 3 16 3 = false) ∧
  (getBlock flatWorld 40 2 3 = Some AIR ∧ hasBlock flatWorld 40 2 3 = false).
Proof.
  split; [|split].
  - apply (getBlock_hasBlock_out_of_bounds flatWorld 3 (-1) 3). left. lia.
  - apply (getBlock_hasBlock_out_of_bounds flatWorld 3 16 3).
    right. left. unfold chunkSize. lia.
  - apply (getBlock_hasBlock_out_of_bounds flatWorld 40 2 3).
    right. right. vm_compute. reflexivity.
Defined.

(** C4.  [setBlock] leaves the world as it is when the chunk's volume is
    not cached or [y] is outside [0, 16).  Otherwise the cached volume
    gets the type at the local index (as a byte) and is otherwise the
    same, the key joins the dirty set, the old mesh (if any) is removed
    and disposed and a mesh built from the whole new volume replaces it,
    and every other chunk keeps its volume and mesh; the known and
    loading sets and the seed stay. *)
Theorem setBlock_spec (w : World) (x y z type : Z) :
  let cx := x / chunkSize in
  let cz := z / chunkSize in
  let key := chunkKey cx cz in
  (jm_get key (chunksData w) = None ∨ y < 0 ∨ chunkSize <= y ->
   setBlock w x y z type = w) ∧
  (∀ data, jm_get key (chunksData w) = Some data -> 0 <= y < chunkSize ->
     let index := getBlockIndex (x - cx * chunkSize) y (z - cz * chunkSize) in
     let data' := u8_set data index type in
     let mesh' := generateChunkMesh data' cx cz in
     let w' := setBlock w x y z type in
     jm_get key (chunksData w') = Some data' ∧
     (volume_wf data -> u8_get data' index = Some (type mod 256)) ∧
     (∀ j, j ≠ index -> u8_get data' j = u8_get data j) ∧
     dirtyChunks w' = dirtyChunks w ∪ {[key]} ∧
     jm_get key (chunks w') = Some mesh' ∧
     scene w' =
       scene w ++
       match jm_get key (chunks w) with
       | Some old => [SceneRemove old; DisposeGeometry old; DisposeMaterial old]
       | None => []
       end ++ [SceneAdd mesh'] ∧
     (∀ k, k ≠ key ->
        jm_get k (chunksData w') = jm_get k (chunksData w) ∧
        jm_get k (chunks w') = jm_get k (chunks w)) ∧
     knownChunkKeys w' = knownChunkKeys w ∧
     loadingChunks w' = loadingChunks w ∧
     seed w' = seed w).
Proof.
  intros cx cz key. split.
  - intros H. unfold setBlock. fold cx cz key.
    destruct (jm_get key (chunksData w)) as [data|] eqn:Hdata; [|done].
    destruct H as [H|[H|H]]; [done| |].
    + destruct (Z.ltb_spec y 0); [done|lia].
    + destruct (Z.leb_spec chunkSize y); [|lia]. by rewrite orb_true_r.
  - intros data Hdata Hy index data' mesh' w'.
    assert (Hw' : w' =
      set_chunks (jm_set key mesh')
        (set_scene (fun s => s ++ [SceneAdd mesh'])
          (match jm_get key (chunks w) with
           | Some mesh =>
               disposeMesh mesh
                 (set_dirtyChunks (fun d => d ∪ {[key]})
                   (set_chunksData (jm_set key data') w))
           | None =>
               set_dirtyChunks (fun d => d ∪ {[key]})
                 (set_chunksData (jm_set key data') w)
           end))).
    { unfold w', setBlock. fold cx cz key. rewrite Hdata.
      destruct (Z.ltb_spec y 0); [lia|].
      destruct (Z.leb_spec chunkSize y); [lia|]. reflexivity. }
    rewrite Hw'. split_and!.
    + destruct (jm_get key (chunks w)); simpl; apply jm_get_set_eq.
    + intros Hwf. apply u8_get_set_eq.
      rewrite (volume_wf_length _ Hwf).
      apply getBlockIndex_range. unfold in_chunk.
      split_and!; try apply local_coord_range; lia.
    + intros j Hj. by apply u8_get_set_ne.
    + by destruct (jm_get key (chunks w)).
    + destruct (jm_get key (chunks w)); simpl; apply jm_get_set_eq.
    + destruct (jm_get key (chunks w)); simpl; [|done].
      by rewrite <- app_assoc.
    + intros k Hk. destruct (jm_get key (chunks w)); simpl;
        by rewrite !jm_get_set_ne.
    + by destruct (jm_get key (chunks w)).
    + by destruct (jm_get key (chunks w)).
    + by destruct (jm_get key (chunks w)).
Qed.

Lemma setBlock_spec_witness :
  setBlock flatWorld 40 5 3 STONE = flatWorld ∧
  jm_get "0,0"%string (chunksData (setBlock flatWorld 3 5 3 STONE)) =
    Some (u8_set flatVolume (getBlockIndex 3 5 3) STONE) ∧
  dirtyChunks (setBlock flatWorld 3 5 3 STONE) = ∅ ∪ {["0,0"%string]}.
Proof.
  pose proof (setBlock_spec flatWorld 40 5 3 STONE) as [H1 _].
  pose proof (setBlock_spec flatWorld 3 5 3 STONE) as [_ H2].
  split.
  - apply H1. left. reflexivity.
  - specialize (H2 flatVolume eq_refl ltac:(unfold chunkSize; lia)).
    destruct H2 as (Ha & _ & _ & Hd & _). split; [exact Ha|exact Hd].
Defined.

(** ** The mesher *)

Lemma forZ_foldl {G A : Type} (stepf : G -> A -> G) lo hi (f : Z -> list A)
    (body : Z -> G -> G) g :
  (∀ i g, body i g = foldl stepf g (f i)) ->
  forZ lo hi body g = foldl stepf g (flat_map f (seqZ lo (hi - lo))).
Proof.
  intros Hbody. unfold forZ. revert g.
  induction (seqZ lo (hi - lo)) as [|i k IH]; intros g; simpl; [done|].
  by rewrite IH, Hbody, foldl_app.
Qed.

Lemma meshVoxel_applyFace {G : Type}
    (addFace : Z -> Z -> Z -> option Z -> Side -> G -> G) data x y z g :
  meshVoxel addFace data x y z g =
  foldl (applyFace addFace) g (voxelFaces data x y z).
Proof.
  unfold meshVoxel, voxelFaces, sides, faceShown. simpl.
  destruct (is_type _ AIR); [done|].
  destruct (checkNeighbor data x (y + 1) z),
           (checkNeighbor data x (y - 1) z),
           (checkNeighbor data x y (z + 1)),
           (checkNeighbor data x y (z - 1)),
           (checkNeighbor data (x + 1) y z),
           (checkNeighbor data (x - 1) y z); reflexivity.
Qed.

Lemma cells_flat_map {A : Type} (f : Z -> Z -> Z -> list A) (lx ly lz : list Z) :
  flat_map (fun x => flat_map (fun y => flat_map (fun z => f x y z) lz) ly) lx =
  flat_map (fun c : Z * Z * Z => f c.1.1 c.1.2 c.2)
    (flat_map (fun x => flat_map (fun y => (fun z => (x, y, z)) <$> lz) ly) lx).
Proof.
  induction lx as [|x lx IHx]; simpl; [done|].
  rewrite flat_map_app, IHx. f_equal. clear IHx.
  induction ly as [|y ly IHy]; simpl; [done|].
  rewrite flat_map_app, IHy. f_equal. clear IHy.
  induction lz as [|z lz IHz]; simpl; [done|].
  by rewrite IHz.
Qed.

Lemma chunkCells_flat_map {A : Type} (f : Z -> Z -> Z -> list A) :
  flat_map (fun x => flat_map (fun y => flat_map (fun z => f x y z)
      (seqZ 0 chunkSize)) (seqZ 0 chunkSize)) (seqZ 0 chunkSize) =
  flat_map (fun c : Z * Z * Z => f c.1.1 c.1.2 c.2) chunkCells.
Proof. apply cells_flat_map. Qed.

Lemma meshLoops_applyFace {G : Type}
    (addFace : Z -> Z -> Z -> option Z -> Side -> G -> G) data g :
  meshLoops addFace data g =
  foldl (applyFace addFace) g
    (flat_map (fun c : Z * Z * Z => voxelFaces data c.1.1 c.1.2 c.2) chunkCells).
Proof.
  rewrite <- (chunkCells_flat_map (voxelFaces data)).
  unfold meshLoops.
  replace (seqZ 0 chunkSize) with (seqZ 0 (chunkSize - 0)) by (f_equal; lia).
  apply forZ_foldl. intros x g1.
  apply forZ_foldl. intros y g2.
  apply forZ_foldl. intros z g3.
  apply meshVoxel_applyFace.
Qed.

Lemma foldl_recordFace l faces :
  foldl (applyFace recordFace) l faces = l ++ faces.
Proof.
  revert l. induction faces as [|f faces IH]; intros l; simpl.
  - by rewrite app_nil_r.
  - rewrite IH. unfold applyFace, recordFace. rewrite <- app_assoc.
    by destruct f.
Qed.

(** The recorded calls are the per-voxel calls, cell after cell. *)
Lemma emittedFaces_cells data :
  emittedFaces data =
  flat_map (fun c : Z * Z * Z => voxelFaces data c.1.1 c.1.2 c.2) chunkCells.
Proof.
  unfold emittedFaces. by rewrite meshLoops_applyFace, foldl_recordFace.
Qed.

(** The geometry is what [addFace] builds from the recorded calls. *)
Lemma meshGeometry_faces data :
  meshGeometry data = foldl (applyFace addFace) emptyGeometry (emittedFaces data).
Proof.
  unfold meshGeometry. by rewrite meshLoops_applyFace, emittedFaces_cells.
Qed.

Lemma elem_of_flat_map {A B : Type} (f : A -> list B) (l : list A) (b : B) :
  b ∈ flat_map f l ↔ ∃ a, a ∈ l ∧ b ∈ f a.
Proof.
  rewrite list_elem_of_In, in_flat_map.
  by setoid_rewrite list_elem_of_In.
Qed.

Lemma elem_of_chunkCells x y z : (x, y, z) ∈ chunkCells ↔ in_chunk x y z.
Proof.
  unfold chunkCells, in_chunk. rewrite elem_of_flat_map. split.
  - intros (x' & Hx & H). apply elem_of_flat_map in H as (y' & Hy & H).
    apply list_elem_of_fmap in H as (z' & Heq & Hz). simplify_eq.
    apply elem_of_seqZ in Hx, Hy, Hz. lia.
  - intros (Hx & Hy & Hz). exists x. split; [apply elem_of_seqZ; lia|].
    apply elem_of_flat_map. exists y. split; [apply elem_of_seqZ; lia|].
    apply list_elem_of_fmap. exists z. split; [done|apply elem_of_seqZ; lia].
Qed.

Lemma NoDup_flat_map {A B : Type} (f : A -> list B) (l : list A) :
  NoDup l ->
  (∀ a, a ∈ l -> NoDup (f a)) ->
  (∀ a a' b, a ∈ l -> a' ∈ l -> b ∈ f a -> b ∈ f a' -> a = a') ->
  NoDup (flat_map f l).
Proof.
  induction 1 as [|a l Hnotin Hnd IH]; intros Hf Hdisj; simpl; [constructor|].
  apply NoDup_app. split_and!.
  - apply Hf. left.
  - intros b Hb Hb'. apply elem_of_flat_map in Hb' as (a' & Ha' & Hb').
    assert (a = a') by (eapply Hdisj; eauto; [left|by right]).
    by subst.
  - apply IH.
    + intros a' Ha'. apply Hf. by right.
    + intros a1 a2 b H1 H2. apply Hdisj; by right.
Qed.

Lemma NoDup_chunkCells : NoDup chunkCells.
Proof.
  unfold chunkCells. apply NoDup_flat_map; [apply NoDup_seqZ| |].
  - intros x _. apply NoDup_flat_map; [apply NoDup_seqZ| |].
    + intros y _. apply NoDup_fmap_2; [|apply NoDup_seqZ].
      by intros ?? [= ->].
    + intros y y' c _ _ (z1 & -> & _)%list_elem_of_fmap (z2 & [= -> _] & _)%list_elem_of_fmap.
      done.
  - intros x x' c _ _ (y1 & _ & H1)%elem_of_flat_map (y2 & _ & H2)%elem_of_flat_map.
    apply list_elem_of_fmap in H1 as (z1 & -> & _).
    apply list_elem_of_fmap in H2 as (z2 & [= -> _ _] & _). done.
Qed.

Lemma elem_of_voxelFaces data x y z f :
  f ∈ voxelFaces data x y z ↔
  f = mkFace x y z (u8_get data (getBlockIndex x y z)) (f_side f) ∧
  is_type (u8_get data (getBlockIndex x y z)) AIR = false ∧
  faceShown data x y z (f_side f) = true.
Proof.
  unfold voxelFaces. cbv zeta.
  destruct (is_type _ AIR) eqn:Hair.
  - split; [by intros ?%elem_of_nil|by intros (_ & ? & _)].
  - rewrite list_elem_of_fmap. split.
    + intros (s & -> & Hs). apply list_elem_of_In, filter_In in Hs as [_ Hs].
      done.
    + intros (Hf & _ & Hs). exists (f_side f). split; [done|].
      apply list_elem_of_In, filter_In. split; [|done].
      unfold sides. destruct (f_side f); simpl; tauto.
Qed.

Lemma elem_of_emittedFaces data f :
  f ∈ emittedFaces data ↔
  in_chunk (f_x f) (f_y f) (f_z f) ∧
  f ∈ voxelFaces data (f_x f) (f_y f) (f_z f).
Proof.
  rewrite emittedFaces_cells, elem_of_flat_map. split.
  - intros ([[x y] z] & Hc & Hf). simpl in Hf.
    pose proof Hf as Hf'. apply elem_of_voxelFaces in Hf' as (Heq & _).
    destruct f as [fx fy fz ft fs]. simpl in *. simplify_eq.
    split; [by apply elem_of_chunkCells|done].
  - intros [Hc Hf]. exists (f_x f, f_y f, f_z f).
    split; [by apply elem_of_chunkCells|done].
Qed.

Lemma NoDup_voxelFaces data x y z : NoDup (voxelFaces data x y z).
Proof.
  unfold voxelFaces. cbv zeta. destruct (is_type _ AIR); [constructor|].
  apply NoDup_fmap_2; [by intros ?? [= ->]|].
  apply NoDup_ListNoDup, List.NoDup_filter, NoDup_ListNoDup.
  unfold sides.
  repeat (apply NoDup_cons; split;
          [rewrite ?elem_of_cons, elem_of_nil; intuition discriminate|]).
  apply NoDup_nil_2.
Qed.

(** No call of [addFace] is made twice. *)
Lemma NoDup_emittedFaces data : NoDup (emittedFaces data).
Proof.
  rewrite emittedFaces_cells. apply NoDup_flat_map; [apply NoDup_chunkCells| |].
  - intros c _. apply NoDup_voxelFaces.
  - intros [[x y] z] [[x' y'] z'] f _ _ H1 H2. simpl in *.
    apply elem_of_voxelFaces in H1 as (H1 & _), H2 as (H2 & _).
    rewrite H1 in H2. by simplify_eq.
Qed.

Lemma isTransparent_Some b :
  isTransparent (Some b) = true ↔ b = AIR ∨ b = LEAVES.
Proof.
  unfold isTransparent, is_type. rewrite orb_true_iff, !Z.eqb_eq. done.
Qed.

Lemma checkNeighbor_true data nx ny nz :
  volume_wf data ->
  checkNeighbor data nx ny nz = true ↔
  ¬ in_chunk nx ny nz ∨
  u8_get data (getBlockIndex nx ny nz) = Some AIR ∨
  u8_get data (getBlockIndex nx ny nz) = Some LEAVES.
Proof.
  intros Hwf. unfold checkNeighbor.
  destruct (decide (in_chunk nx ny nz)) as [Hin|Hout].
  - pose proof Hin as (? & ? & ?).
    destruct (Z.ltb_spec nx 0); [lia|]. destruct (Z.leb_spec chunkSize nx); [lia|].
    destruct (Z.ltb_spec ny 0); [lia|]. destruct (Z.leb_spec chunkSize ny); [lia|].
    destruct (Z.ltb_spec nz 0); [lia|]. destruct (Z.leb_spec chunkSize nz); [lia|].
    simpl.
    destruct (u8_get_is_Some data (getBlockIndex nx ny nz)) as [b Hb].
    { rewrite (volume_wf_length _ Hwf). by apply getBlockIndex_range. }
    rewrite Hb, isTransparent_Some. split.
    + intros [->| ->]; auto.
    + intros [?|[[= ->]|[= ->]]]; [done|by left|by right].
  - split; [by left|intros _].
    unfold in_chunk in Hout.
    destruct (Z.ltb_spec nx 0); [done|]. destruct (Z.leb_spec chunkSize nx); [done|].
    destruct (Z.ltb_spec ny 0); [done|]. destruct (Z.leb_spec chunkSize ny); [done|].
    destruct (Z.ltb_spec nz 0); [done|]. destruct (Z.leb_spec chunkSize nz); [done|].
    lia.
Qed.

(** ** Counting quads *)

Lemma addFace_positions_length x y z t s g :
  length (positions (addFace x y z t s g)) = (length (positions g) + 12)%nat.
Proof.
  unfold addFace. destruct (faceColor t s) as [[r gr] b]. simpl.
  rewrite length_app. by destruct s.
Qed.

Lemma faces_positions_length faces g :
  length (positions (foldl (applyFace addFace) g faces)) =
  (length (positions g) + 12 * length faces)%nat.
Proof.
  revert g. induction faces as [|f faces IH]; intros g; simpl; [lia|].
  rewrite IH. unfold applyFace. rewrite addFace_positions_length. lia.
Qed.

Lemma quadIndices_length n :
  0 <= n -> length (quadIndices (4 * n)) = (6 * Z.to_nat n)%nat.
Proof.
  intros Hn. unfold quadIndices.
  replace ((4 * n + 3) / 4) with n
    by (apply Z.div_unique with (r := 3); lia).
  rewrite <- (length_seqZ 0 n).
  induction (seqZ 0 n) as [|q l IH]; simpl; [done|]. rewrite IH. lia.
Qed.

(** Vertices, quads and triangles of a chunk mesh, from the number of
    [addFace] calls. *)
Lemma mesh_counts data cx cz :
  let n := Z.of_nat (length (emittedFaces data)) in
  let m := generateChunkMesh data cx cz in
  quadCount m = n ∧ vertexCount m = 4 * n ∧ triangleCount m = 2 * n.
Proof.
  intros n m.
  assert (Hv : vertexCount m = 4 * n).
  { unfold vertexCount, m, generateChunkMesh. simpl.
    rewrite meshGeometry_faces, faces_positions_length. simpl.
    symmetry; apply Z.div_unique with (r := 0); lia. }
  split_and!; [|done|].
  - unfold quadCount. rewrite Hv. symmetry; apply Z.div_unique with (r := 0); lia.
  - unfold triangleCount, m, generateChunkMesh. cbn [indices geometry].
    fold (vertexCount m) in Hv. unfold vertexCount, m, generateChunkMesh in Hv.
    cbn [geometry] in Hv. rewrite Hv, quadIndices_length by lia.
    symmetry; apply Z.div_unique with (r := 0); lia.
Qed.

Lemma flat_map_length_sum {A B : Type} (f : A -> list B) (l : list A) :
  length (flat_map f l) = sum_list_with (fun a => length (f a)) l.
Proof. induction l as [|a l IH]; simpl; [done|]. by rewrite length_app, IH. Qed.

(** Cells that make no call do not count. *)
Lemma flat_map_length_support {A B : Type} (f : A -> list B) (l sup : list A) :
  NoDup l -> NoDup sup -> sup ⊆ l ->
  (∀ a, a ∈ l -> a ∉ sup -> f a = []) ->
  length (flat_map f l) = sum_list_with (fun a => length (f a)) sup.
Proof.
  intros Hl Hsup Hsub Hnil.
  apply NoDup_submseteq in Hsub; [|done].
  apply submseteq_Permutation in Hsub as [rest Hperm].
  rewrite flat_map_length_sum.
  assert (Hrest : sum_list_with (fun a => length (f a)) rest = 0%nat).
  { assert (Hall : ∀ a, a ∈ rest -> f a = []).
    { intros a Ha. apply Hnil.
      - rewrite Hperm. apply elem_of_app. by right.
      - rewrite Hperm in Hl. apply NoDup_app in Hl as (_ & Hdisj & _).
        intros Hin. by apply (Hdisj a). }
    clear -Hall. induction rest as [|a rest IH]; simpl; [done|].
    rewrite Hall by left. simpl. apply IH. intros b Hb. apply Hall. by right. }
  rewrite Hperm, sum_list_with_app, Hrest. lia.
Qed.

Lemma neighbor_inj x y z s s' : neighbor x y z s = neighbor x y z s' -> s = s'.
Proof. destruct s, s'; simpl; intros [= ]; try done; lia. Qed.

Lemma neighbor_ne_self x y z s : neighbor x y z s ≠ (x, y, z).
Proof. destruct s; simpl; intros [= ]; lia. Qed.

Lemma neighbor_opposite x y z s :
  let '(nx, ny, nz) := neighbor x y z s in
  neighbor nx ny nz (opposite s) = (x, y, z).
Proof. destruct s; simpl; repeat (f_equal; try lia). Qed.

Lemma faceShown_open data x y z s :
  volume_wf data ->
  (let '(nx, ny, nz) := neighbor x y z s in
   ¬ in_chunk nx ny nz ∨ u8_get data (getBlockIndex nx ny nz) = Some AIR ∨
   u8_get data (getBlockIndex nx ny nz) = Some LEAVES) ->
  faceShown data x y z s = true.
Proof.
  intros Hwf. unfold faceShown. destruct (neighbor x y z s) as [[nx ny] nz].
  intros H. by apply checkNeighbor_true.
Qed.

Lemma faceShown_blocked data x y z s t :
  volume_wf data ->
  (let '(nx, ny, nz) := neighbor x y z s in
   in_chunk nx ny nz ∧ u8_get data (getBlockIndex nx ny nz) = Some t) ->
  t ≠ AIR -> t ≠ LEAVES ->
  faceShown data x y z s = false.
Proof.
  intros Hwf. unfold faceShown. destruct (neighbor x y z s) as [[nx ny] nz].
  intros [Hin Ht] Hair Hleaves. apply not_true_is_false.
  rewrite checkNeighbor_true by done. rewrite Ht.
  intros [?|[[= ?]|[= ?]]]; done.
Qed.

Lemma filter_sides_all (g : Side -> bool) :
  (∀ s, g s = true) -> List.filter g sides = sides.
Proof. intros H. unfold sides. simpl. by rewrite !H. Qed.

Lemma filter_sides_but_one (g : Side -> bool) side :
  g side = false -> (∀ s, s ≠ side -> g s = true) ->
  length (List.filter g sides) = 5%nat.
Proof.
  intros Hside Hother. unfold sides.
  destruct side; simpl; rewrite Hside, !Hother by done; reflexivity.
Qed.

Lemma voxelFaces_length data x y z t :
  u8_get data (getBlockIndex x y z) = Some t -> t ≠ AIR ->
  length (voxelFaces data x y z) =
  length (List.filter (faceShown data x y z) sides).
Proof.
  intros Ht Hair. unfold voxelFaces. rewrite Ht. simpl.
  destruct (Z.eqb_spec t AIR); [done|]. by rewrite length_fmap.
Qed.

Lemma voxelFaces_empty data x y z :
  u8_get data (getBlockIndex x y z) = Some AIR -> voxelFaces data x y z = [].
Proof. intros Ht. unfold voxelFaces. by rewrite Ht. Qed.

(** A lone voxel: six calls. *)
Lemma emittedFaces_single data x y z t :
  volume_wf data -> in_chunk x y z ->
  u8_get data (getBlockIndex x y z) = Some t -> t ≠ AIR ->
  empty_except data [(x, y, z)] ->
  length (emittedFaces data) = 6%nat.
Proof.
  intros Hwf Hin Ht Hair Hempty.
  rewrite emittedFaces_cells.
  rewrite (flat_map_length_support _ _ [(x, y, z)]).
  - simpl. rewrite (voxelFaces_length _ _ _ _ t) by done.
    rewrite filter_sides_all; [done|].
    intros s. apply faceShown_open; [done|].
    pose proof (neighbor_ne_self x y z s) as Hne.
    destruct (neighbor x y z s) as [[nx ny] nz].
    destruct (decide (in_chunk nx ny nz)) as [Hn|Hn]; [|by left].
    right. left. apply Hempty; [done|].
    by intros Heq%list_elem_of_singleton.
  - apply NoDup_chunkCells.
  - apply NoDup_singleton.
  - intros c ->%list_elem_of_singleton. by apply elem_of_chunkCells.
  - intros [[cx cy] cz] Hc Hnot. simpl. apply voxelFaces_empty.
    apply Hempty; [by apply elem_of_chunkCells|done].
Qed.

(** Two voxels of one solid type side by side: five calls each. *)
Lemma emittedFaces_pair data x y z side t :
  let '(x', y', z') := neighbor x y z side in
  volume_wf data -> in_chunk x y z -> in_chunk x' y' z' ->
  u8_get data (getBlockIndex x y z) = Some t ->
  u8_get data (getBlockIndex x' y' z') = Some t ->
  t ≠ AIR -> t ≠ LEAVES ->
  empty_except data [(x, y, z); (x', y', z')] ->
  length (emittedFaces data) = 10%nat.
Proof.
  pose proof (neighbor_opposite x y z side) as Hopp.
  pose proof (neighbor_ne_self x y z side) as Hne.
  destruct (neighbor x y z side) as [[x' y'] z'] eqn:Hn.
  intros Hwf Hin Hin' Ht Ht' Hair Hleaves Hempty.
  rewrite emittedFaces_cells.
  rewrite (flat_map_length_support _ _ [(x, y, z); (x', y', z')]).
  - simpl. rewrite !(voxelFaces_length _ _ _ _ t) by done.
    rewrite (filter_sides_but_one _ side), (filter_sides_but_one _ (opposite side)).
    + reflexivity.
    + apply (faceShown_blocked _ _ _ _ _ t); [done| |done..].
      by rewrite Hopp.
    + intros s Hs. apply faceShown_open; [done|].
      pose proof (neighbor_ne_self x' y' z' s) as Hne'.
      destruct (neighbor x' y' z' s) as [[nx ny] nz] eqn:Hn'.
      destruct (decide (in_chunk nx ny nz)) as [Hnin|Hnin]; [|by left].
      right. left. apply Hempty; [done|].
      intros [Heq|Heq%list_elem_of_singleton]%elem_of_cons; [|done].
      apply Hs. apply (neighbor_inj x' y' z'). congruence.
    + apply (faceShown_blocked _ _ _ _ _ t); [done| |done..].
      by rewrite Hn.
    + intros s Hs. apply faceShown_open; [done|].
      pose proof (neighbor_ne_self x y z s) as Hne'.
      destruct (neighbor x y z s) as [[nx ny] nz] eqn:Hn'.
      destruct (decide (in_chunk nx ny nz)) as [Hnin|Hnin]; [|by left].
      right. left. apply Hempty; [done|].
      intros [Heq|Heq%list_elem_of_singleton]%elem_of_cons; [done|].
      apply Hs. apply (neighbor_inj x y z). congruence.
  - apply NoDup_chunkCells.
  - apply NoDup_cons. split; [|apply NoDup_singleton].
    intros ?%list_elem_of_singleton. congruence.
  - intros c [->| ->%list_elem_of_singleton]%elem_of_cons;
      by apply elem_of_chunkCells.
  - intros [[cx cy] cz] Hc Hnot. simpl. apply voxelFaces_empty.
    apply Hempty; [by apply elem_of_chunkCells|done].
Qed.

Lemma empty_except_new : empty_except (u8_new (chunkSize * chunkSize * chunkSize)) [].
Proof.
  intros x y z Hin _. apply u8_get_new. by apply getBlockIndex_range.
Qed.

Lemma empty_except_set data cells x y z v :
  empty_except data cells -> in_chunk x y z ->
  empty_except (u8_set data (getBlockIndex x y z) v) ((x, y, z) :: cells).
Proof.
  intros Hempty Hin x' y' z' Hin' Hnot.
  apply not_elem_of_cons in Hnot as [Hne Hnot].
  rewrite u8_get_set_ne; [by apply Hempty|].
  intros Heq. apply getBlockIndex_inj in Heq as (-> & -> & ->); done.
Qed.

Lemma face_blocked_not_emitted data x y z side t :
  volume_wf data ->
  (let '(nx, ny, nz) := neighbor x y z side in
   in_chunk nx ny nz ∧ u8_get data (getBlockIndex nx ny nz) = Some t) ->
  t ≠ AIR -> t ≠ LEAVES ->
  ¬ ∃ ty, mkFace x y z ty side ∈ emittedFaces data.
Proof.
  intros Hwf Hn Hair Hleaves [ty Hf].
  apply elem_of_emittedFaces in Hf as [_ Hf]. simpl in Hf.
  apply elem_of_voxelFaces in Hf as (_ & _ & Hshown). simpl in Hshown.
  by rewrite (faceShown_blocked _ _ _ _ _ t) in Hshown.
Qed.

(** C5 (as amended).  A volume whose only non-empty voxel is [(x, y, z)]
    meshes to exactly 6 quads, 24 vertices and 12 triangles.  Between two
    adjacent voxels of the same type, if that type is not the leaves
    type, neither of the two facing sides is ever emitted, and a volume
    holding just that pair meshes to 10 quads, 2 fewer than two lone
    voxels. *)
Theorem mesh_single_and_pair (data : list Z) (cx cz x y z t : Z) :
  volume_wf data -> in_chunk x y z ->
  u8_get data (getBlockIndex x y z) = Some t -> t ≠ AIR ->
  let m := generateChunkMesh data cx cz in
  (empty_except data [(x, y, z)] ->
   quadCount m = 6 ∧ vertexCount m = 24 ∧ triangleCount m = 12) ∧
  (∀ side,
     let '(x', y', z') := neighbor x y z side in
     in_chunk x' y' z' ->
     u8_get data (getBlockIndex x' y' z') = Some t -> t ≠ LEAVES ->
     (¬ ∃ ty, mkFace x y z ty side ∈ emittedFaces data) ∧
     (¬ ∃ ty, mkFace x' y' z' ty (opposite side) ∈ emittedFaces data) ∧
     (empty_except data [(x, y, z); (x', y', z')] ->
      quadCount m = 2 * 6 - 2)).
Proof.
  intros Hwf Hin Ht Hair m. split.
  - intros Hempty.
    pose proof (mesh_counts data cx cz) as (Hq & Hv & Htr). fold m in Hq, Hv, Htr.
    rewrite (emittedFaces_single data x y z t) in Hq, Hv, Htr by done.
    done.
  - intros side.
    pose proof (neighbor_opposite x y z side) as Hopp.
    pose proof (emittedFaces_pair data x y z side t) as Hpair.
    destruct (neighbor x y z side) as [[x' y'] z'] eqn:Hn.
    intros Hin' Ht' Hleaves. split_and!.
    + apply (face_blocked_not_emitted _ _ _ _ _ t); [done| |done..].
      by rewrite Hn.
    + apply (face_blocked_not_emitted _ _ _ _ _ t); [done| |done..].
      by rewrite Hopp.
    + intros Hempty.
      pose proof (mesh_counts data cx cz) as (Hq & _). fold m in Hq.
      by rewrite Hpair in Hq.
Qed.

Lemma mesh_single_and_pair_witness :
  quadCount (generateChunkMesh stoneSingle 0 0) = 6 ∧
  quadCount (generateChunkMesh stonePair 0 0) = 2 * 6 - 2.
Proof.
  assert (Hin3 : in_chunk 3 3 3) by (unfold in_chunk, chunkSize; lia).
  assert (Hin4 : in_chunk 4 3 3) by (unfold in_chunk, chunkSize; lia).
  assert (Hs : empty_except stoneSingle [(3, 3, 3)]).
  { apply empty_except_set; [apply empty_except_new|done]. }
  assert (Hp : empty_except stonePair [(3, 3, 3); (4, 3, 3)]).
  { intros x y z Hin Hnot. apply (empty_except_set _ _ _ _ _ STONE Hs Hin4 x y z Hin).
    rewrite !not_elem_of_cons in *. tauto. }
  split.
  - refine (proj1 (proj1 (mesh_single_and_pair stoneSingle 0 0 3 3 3 STONE
                     _ Hin3 _ _) Hs)).
    + vm_compute. reflexivity.
    + vm_compute. reflexivity.
    + discriminate.
  - refine (proj2 (proj2 (proj2 (mesh_single_and_pair stonePair 0 0 3 3 3 STONE
                     _ Hin3 _ _) right Hin4 _ _)) Hp).
    + vm_compute. reflexivity.
    + vm_compute. reflexivity.
    + discriminate.
    + vm_compute. reflexivity.
    + discriminate.
Defined.

(** C5, the failing case: two leaves blocks side by side keep both of
    the sides that face each other, and mesh to 12 quads, as many as two
    lone voxels. *)
Lemma leaves_pair_keeps_shared_faces :
  volume_wf leavesPair ∧
  u8_get leavesPair (getBlockIndex 3 3 3) = Some LEAVES ∧
  u8_get leavesPair (getBlockIndex 4 3 3) = Some LEAVES ∧
  neighbor 3 3 3 right = (4, 3, 3) ∧
  mkFace 3 3 3 (Some LEAVES) right ∈ emittedFaces leavesPair ∧
  mkFace 4 3 3 (Some LEAVES) left ∈ emittedFaces leavesPair ∧
  quadCount (generateChunkMesh leavesPair 0 0) = 12.
Proof.
  split_and!; try (vm_compute; reflexivity).
  - apply elem_of_emittedFaces. split; [unfold in_chunk, chunkSize; simpl; lia|].
    apply elem_of_voxelFaces. simpl. split_and!; vm_compute; reflexivity.
  - apply elem_of_emittedFaces. split; [unfold in_chunk, chunkSize; simpl; lia|].
    apply elem_of_voxelFaces. simpl. split_and!; vm_compute; reflexivity.
Qed.

(** ** The height pass *)

Lemma columnHeight_range noise cx cz x z :
  1 <= columnHeight noise cx cz x z <= chunkSize - 1.
Proof.
  unfold columnHeight, chunkSize. cbv zeta.
  set (h := Qfloor _ + OFFSET).
  destruct (Z.ltb_spec h 1).
  - simpl. lia.
  - destruct (Z.leb_spec 16 h); lia.
Qed.

Lemma columnHeight_clamp noise cx cz x z :
  columnHeight noise cx cz x z =
  Z.min (chunkSize - 1)
    (Z.max 1
       (Qfloor (noise (inject_Z (cx * chunkSize + x) / inject_Z TERRAIN_SCALE)%Q
                      (inject_Z (cz * chunkSize + z) / inject_Z TERRAIN_SCALE)%Q
                * inject_Z TERRAIN_HEIGHT) + OFFSET)).
Proof.
  unfold columnHeight, chunkSize. cbv zeta.
  set (h := Qfloor _ + OFFSET).
  destruct (Z.ltb_spec h 1).
  - simpl. lia.
  - destruct (Z.leb_spec 16 h); lia.
Qed.

Lemma terrainType_byte y h : terrainType y h mod 256 = terrainType y h.
Proof.
  unfold terrainType, BEDROCK, GRASS, DIRT, STONE.
  destruct (y =? 0), (y =? h), (h - 3 <=? y); reflexivity.
Qed.

(** What one column of the height pass leaves in the volume. *)
Lemma fillColumn_spec x z h data :
  volume_wf data -> 0 <= x < chunkSize -> 0 <= z < chunkSize ->
  0 <= h < chunkSize ->
  volume_wf (fillColumn x z h data) ∧
  ∀ x' y' z', in_chunk x' y' z' ->
    u8_get (fillColumn x z h data) (getBlockIndex x' y' z') =
    if decide (x' = x ∧ z' = z ∧ y' <= h) then Some (terrainType y' h)
    else u8_get data (getBlockIndex x' y' z').
Proof.
  intros Hwf Hx Hz Hh. unfold fillColumn.
  pose (P := fun (i : Z) (d : list Z) =>
    volume_wf d ∧
    ∀ x' y' z', in_chunk x' y' z' ->
      u8_get d (getBlockIndex x' y' z') =
      if decide (x' = x ∧ z' = z ∧ y' < i) then Some (terrainType y' h)
      else u8_get data (getBlockIndex x' y' z')).
  assert (HP : P (h + 1) (forZ 0 (h + 1) (fun y d =>
             u8_set d (getBlockIndex x y z) (terrainType y h)) data)).
  { apply forZ_invariant_idx; [lia| |].
    - split; [done|]. intros x' y' z' Hin.
      rewrite decide_False; [done|]. unfold in_chunk in Hin. lia.
    - intros i d Hi [Hd Hcells]. split; [by apply u8_set_wf|].
      intros x' y' z' Hin.
      destruct (decide (x' = x ∧ z' = z ∧ y' = i)) as [(-> & -> & ->)|Hne].
      + rewrite u8_get_set_eq, terrainType_byte.
        * rewrite decide_True; [done|lia].
        * rewrite (volume_wf_length _ Hd). by apply getBlockIndex_range.
      + rewrite u8_get_set_ne.
        * rewrite Hcells by done.
          destruct (decide (x' = x ∧ z' = z ∧ y' < i)) as [Ha|Ha].
          -- rewrite decide_True; [done|lia].
          -- rewrite decide_False; [done|lia].
        * intros Heq. apply getBlockIndex_inj in Heq; [lia| |done].
          unfold in_chunk in *. unfold chunkSize in *. lia. }
  destruct HP as [Hwf' Hcells]. split; [done|].
  intros x' y' z' Hin. rewrite Hcells by done.
  destruct (decide (x' = x ∧ z' = z ∧ y' <= h)) as [Ha|Ha].
  - rewrite decide_True; [done|lia].
  - rewrite decide_False; [done|lia].
Qed.

(** What the height pass leaves in the volume. *)
Lemma terrainPass_spec noise cx cz data :
  volume_wf data ->
  volume_wf (terrainPass noise cx cz data) ∧
  ∀ x y z, in_chunk x y z ->
    u8_get (terrainPass noise cx cz data) (getBlockIndex x y z) =
    if decide (y <= columnHeight noise cx cz x z)
    then Some (terrainType y (columnHeight noise cx cz x z))
    else u8_get data (getBlockIndex x y z).
Proof.
  intros Hwf. unfold terrainPass.
  set (H := columnHeight noise cx cz).
  pose (P := fun (i j : Z) (d : list Z) =>
    volume_wf d ∧
    ∀ x y z, in_chunk x y z ->
      u8_get d (getBlockIndex x y z) =
      if decide ((x < i ∨ (x = i ∧ z < j)) ∧ y <= H x z)
      then Some (terrainType y (H x z))
      else u8_get data (getBlockIndex x y z)).
  assert (Hstep : ∀ i d, 0 <= i < chunkSize -> P i 0 d ->
            P (i + 1) 0 (forZ 0 chunkSize (fun z d =>
                           fillColumn i z (H i z) d) d)).
  { intros i d Hi Hd.
    assert (HQ : P i chunkSize (forZ 0 chunkSize (fun z d =>
                   fillColumn i z (H i z) d) d)).
    { apply (forZ_invariant_idx (P i)); [unfold chunkSize; lia|done|].
      intros j d' Hj [Hd' Hcells].
      pose proof (columnHeight_range noise cx cz i j) as Hrange. fold H in Hrange.
      destruct (fillColumn_spec i j (H i j) d' Hd' Hi Hj ltac:(lia)) as [Hwf2 Hfill].
      split; [done|]. intros x y z Hin.
      rewrite Hfill, Hcells by done.
      destruct (decide (x = i ∧ z = j ∧ y <= H i j)) as [(-> & -> & Hy)|Hne].
      - rewrite decide_True; [done|lia].
      - destruct (decide ((x < i ∨ x = i ∧ z < j) ∧ y <= H x z)) as [Ha|Ha].
        + rewrite decide_True; [done|lia].
        + rewrite decide_False; [done|].
          intros [[?|[-> ?]] ?]; [lia|].
          destruct (decide (z = j)) as [->|]; lia. }
    destruct HQ as [Hwf2 Hcells]. split; [done|].
    intros x y z Hin. rewrite Hcells by done.
    destruct (decide ((x < i ∨ x = i ∧ z < chunkSize) ∧ y <= H x z)) as [Ha|Ha].
    - rewrite decide_True; [done|lia].
    - rewrite decide_False; [done|]. unfold in_chunk in Hin. lia. }
  assert (HP : P chunkSize 0 (forZ 0 chunkSize (fun x =>
             forZ 0 chunkSize (fun z d => fillColumn x z (H x z) d)) data)).
  { apply (forZ_invariant_idx (fun i => P i 0)); [unfold chunkSize; lia| |].
    - split; [done|]. intros x y z Hin. rewrite decide_False; [done|].
      unfold in_chunk in Hin. lia.
    - intros i d Hi Hd. by apply Hstep. }
  destruct HP as [Hwf' Hcells]. split; [done|].
  intros x y z Hin. rewrite Hcells by done.
  destruct (decide (y <= H x z)) as [Ha|Ha].
  - rewrite decide_True; [done|]. unfold in_chunk in Hin. lia.
  - rewrite decide_False; [done|]. lia.
Qed.

(** ** The vegetation pass *)

Lemma grown_from_refl d : grown_from d d.
Proof. split; [done|]. intros i. by left. Qed.

Lemma grown_from_trans d1 d2 d3 :
  grown_from d1 d2 -> grown_from d2 d3 -> grown_from d1 d3.
Proof.
  intros [Hl1 H1] [Hl2 H2]. split; [congruence|].
  intros i. destruct (H2 i) as [Heq|Ht]; [|by right].
  rewrite Heq. apply H1.
Qed.

Lemma grown_from_set d i v :
  v = WOOD ∨ v = LEAVES -> grown_from d (u8_set d i v).
Proof.
  intros Hv. split; [apply u8_set_length|].
  intros j. destruct (u8_get_set_cases d i j v) as [H|H]; [by left|].
  right. rewrite H. unfold is_tree, WOOD, LEAVES in *.
  destruct Hv as [-> | ->]; auto.
Qed.

Lemma placeLeaf_grown x y z d : grown_from d (placeLeaf x y z d).
Proof.
  unfold placeLeaf.
  destruct (_ && _); [|apply grown_from_refl].
  destruct (negb _); [|apply grown_from_refl].
  apply grown_from_set. by right.
Qed.

Lemma leafCell_grown sx sz r x y z st :
  grown_from st.1 (leafCell sx sz r x y z st).1.
Proof.
  destruct st as [d rng]. unfold leafCell. simpl.
  destruct (_ && _); [destruct (Qltb _ _)|]; simpl;
    try apply grown_from_refl; apply placeLeaf_grown.
Qed.

(** A loop keeps a preorder between its start state and its end state
    if every turn does. *)
Lemma forZ_preorder {St : Type} (R : St -> St -> Prop) lo hi
    (body : Z -> St -> St) s :
  (∀ s, R s s) -> (∀ a b c, R a b -> R b c -> R a c) ->
  (∀ i s, lo <= i < hi -> R s (body i s)) ->
  R s (forZ lo hi body s).
Proof.
  intros Hrefl Htrans Hbody.
  apply (forZ_invariant (R s)); [apply Hrefl|].
  intros i s' Hi Hs'. eapply Htrans; [exact Hs'|]. by apply Hbody.
Qed.

Lemma grown_st_refl a : grown_st a a.
Proof. apply grown_from_refl. Qed.

Lemma grown_st_trans a b c : grown_st a b -> grown_st b c -> grown_st a c.
Proof. apply grown_from_trans. Qed.

Lemma placeTree_grown sx sy sz st : grown_st st (placeTree sx sy sz st).
Proof.
  destruct st as [d rng]. unfold placeTree.
  destruct (random rng) as [r rng'] eqn:Hr.
  set (th := Qfloor (r * 2) + 4).
  set (d1 := forZ 0 th _ d).
  assert (H1 : grown_from d d1).
  { unfold d1. apply (forZ_preorder grown_from);
      [apply grown_from_refl|apply grown_from_trans|].
    intros i d' _. destruct (_ <? _); [|apply grown_from_refl].
    apply grown_from_set. by left. }
  apply (grown_st_trans _ (d1, rng')); [exact H1|].
  apply (forZ_preorder grown_st); [apply grown_st_refl|apply grown_st_trans|].
  intros y st _.
  apply (forZ_preorder grown_st); [apply grown_st_refl|apply grown_st_trans|].
  intros x st1 _.
  apply (forZ_preorder grown_st); [apply grown_st_refl|apply grown_st_trans|].
  intros z st2 _. apply leafCell_grown.
Qed.

Lemma treeColumn_grown x z st : grown_st st (treeColumn x z st).
Proof.
  destruct st as [d rng]. unfold treeColumn.
  destruct (_ || _); [apply grown_from_refl|].
  destruct (0 <? _); [|apply grown_from_refl].
  destruct (is_type _ GRASS); [|apply grown_from_refl].
  destruct (random rng) as [r rng'].
  destruct (Qltb r 0.01); [|apply grown_from_refl].
  apply (placeTree_grown _ _ _ (d, rng')).
Qed.

(** The vegetation pass only overwrites cells with trunk or canopy. *)
Lemma treePass_grown st : grown_st st (treePass st).
Proof.
  unfold treePass.
  apply (forZ_preorder grown_st); [apply grown_st_refl|apply grown_st_trans|].
  intros x st1 _.
  apply (forZ_preorder grown_st); [apply grown_st_refl|apply grown_st_trans|].
  intros z st2 _. apply treeColumn_grown.
Qed.

(** With none of its draws below the tree probability the pass changes
    nothing. *)
Lemma draws_calm_le n m rng : (m <= n)%nat -> draws_calm n rng -> draws_calm m rng.
Proof. intros Hle H i Hi. apply H. lia. Qed.

Lemma treeColumn_outer x z st :
  ¬ (2 <= x < chunkSize - 2 ∧ 2 <= z < chunkSize - 2) -> treeColumn x z st = st.
Proof.
  intros Hout. destruct st as [d rng]. unfold treeColumn.
  destruct (Z.ltb_spec x 2); [done|].
  destruct (Z.leb_spec (chunkSize - 2) x); [done|].
  destruct (Z.ltb_spec z 2); [done|].
  destruct (Z.leb_spec (chunkSize - 2) z); [done|].
  lia.
Qed.

(** A column uses up at most one draw. *)
Lemma treeColumn_calm x z d rng n :
  draws_calm (S n) rng ->
  (treeColumn x z (d, rng)).1 = d ∧ draws_calm n (treeColumn x z (d, rng)).2.
Proof.
  intros Hrng.
  assert (Hn : draws_calm n rng) by (eapply draws_calm_le; [|exact Hrng]; lia).
  unfold treeColumn.
  destruct (_ || _); [done|].
  destruct (0 <? _); [|done].
  destruct (is_type _ GRASS); [|done].
  unfold random. rewrite (Hrng 0%nat) by lia. cbn [fst snd]. split; [done|].
  intros i Hi. apply Hrng. lia.
Qed.

(** The invariant of the two loops: before column [(x, z)] the volume is
    untouched and the draws not yet asked for are still calm, at least
    one for each inner column to come. *)
Lemma treePass_calm d rng :
  draws_calm 144 rng -> (treePass (d, rng)).1 = d.
Proof.
  intros Hrng. unfold treePass.
  pose (P := fun (x : Z) (st : list Z * Rng) =>
    st.1 = d ∧ draws_calm (Z.to_nat (144 - 12 * innerBefore x)) st.2).
  assert (HP : P chunkSize (forZ 0 chunkSize (fun x =>
             forZ 0 chunkSize (fun z => treeColumn x z)) (d, rng))).
  { apply (forZ_invariant_idx P); [unfold chunkSize; lia|done|].
    intros x st Hx [Hd Hst].
    destruct (decide (2 <= x < chunkSize - 2)) as [Hin|Hout].
    - pose (Q := fun (z : Z) (st : list Z * Rng) =>
        st.1 = d ∧
        draws_calm (Z.to_nat (144 - 12 * innerBefore x - innerBefore z)) st.2).
      assert (HQ : Q chunkSize (forZ 0 chunkSize (fun z => treeColumn x z) st)).
      { apply (forZ_invariant_idx Q); [unfold chunkSize; lia| |].
        - split; [done|]. eapply draws_calm_le; [|exact Hst].
          unfold innerBefore. lia.
        - intros z [d' rng'] Hz [Hd' Hst']. cbn [fst snd] in Hd', Hst'. subst d'.
          destruct (decide (2 <= z < chunkSize - 2)) as [Hzin|Hzout].
          + unfold Q. apply treeColumn_calm.
            eapply draws_calm_le; [|exact Hst'].
            unfold innerBefore, chunkSize in *. lia.
          + rewrite treeColumn_outer by lia. split; [done|]. cbn [snd].
            eapply draws_calm_le; [|exact Hst'].
            unfold innerBefore, chunkSize in *. lia. }
      destruct HQ as [HQ1 HQ2]. split; [done|].
      eapply draws_calm_le; [|exact HQ2].
      unfold innerBefore, chunkSize in *. lia.
    - assert (Hid : forZ 0 chunkSize (fun z => treeColumn x z) st = st).
      { apply (forZ_invariant (fun s => s = st)); [done|].
        intros z s _ ->. apply treeColumn_outer. lia. }
      rewrite Hid. split; [done|].
      eapply draws_calm_le; [|exact Hst].
      unfold innerBefore, chunkSize in *. lia. }
  apply HP.
Qed.

Lemma floor_kept_refl d : floor_kept d d.
Proof. by split. Qed.

Lemma floor_kept_trans d1 d2 d3 :
  floor_kept d1 d2 -> floor_kept d2 d3 -> floor_kept d1 d3.
Proof.
  intros [Hl1 H1] [Hl2 H2]. split; [congruence|].
  intros x z Hin. by rewrite H2, H1.
Qed.

Lemma floor_kept_set d x y z v :
  in_chunk x y z -> 1 <= y -> floor_kept d (u8_set d (getBlockIndex x y z) v).
Proof.
  intros Hin Hy. split; [apply u8_set_length|].
  intros x' z' Hin'. apply u8_get_set_ne.
  intros Heq. apply getBlockIndex_inj in Heq; [lia|done..].
Qed.

Lemma placeLeaf_floor x y z d : 1 <= y -> floor_kept d (placeLeaf x y z d).
Proof.
  intros Hy. unfold placeLeaf.
  destruct (_ && _) eqn:Hrange; [|apply floor_kept_refl].
  destruct (negb _); [|apply floor_kept_refl].
  apply floor_kept_set; [|done].
  repeat (apply andb_true_iff in Hrange as [Hrange ?]).
  unfold in_chunk. lia.
Qed.

Lemma random_valid rng : rng_valid rng -> rng_valid (random rng).2.
Proof. intros H n. apply H. Qed.

Lemma leafCell_floor d0 sx sz r x y z st :
  1 <= y -> floor_st d0 st -> floor_st d0 (leafCell sx sz r x y z st).
Proof.
  intros Hy [Hfl Hrng]. destruct st as [d rng]. unfold leafCell.
  simpl in *.
  destruct (_ && _); [destruct (Qltb _ _)|]; split; simpl;
    try done; try (by apply random_valid);
    (eapply floor_kept_trans; [exact Hfl|by apply placeLeaf_floor]).
Qed.

Lemma trunkHeight_min r : (0 <= r)%Q -> 4 <= Qfloor (r * 2) + 4.
Proof.
  intros Hr. assert (0 <= Qfloor (r * 2)); [|lia].
  change 0 with (Qfloor 0). apply Qfloor_resp_le.
  apply Qmult_le_0_compat; [done|]. by unfold Qle.
Qed.

Lemma placeTree_floor d0 sx sy sz st :
  0 <= sx < chunkSize -> 0 <= sz < chunkSize -> 1 <= sy ->
  floor_st d0 st -> floor_st d0 (placeTree sx sy sz st).
Proof.
  intros Hsx Hsz Hsy [Hfl Hrng]. destruct st as [d rng]. unfold placeTree.
  pose proof (random_valid rng Hrng) as Hrng'.
  pose proof (trunkHeight_min (rng 0%nat) (proj1 (Hrng 0%nat))) as Hth.
  unfold random in *. lazy beta iota. cbn [fst snd] in Hrng', Hfl.
  set (r := rng 0%nat) in *. set (rng' := fun n => rng (S n)) in *.
  set (th := Qfloor (r * 2) + 4) in *.
  set (d1 := forZ 0 th _ d).
  assert (H1 : floor_kept d0 d1).
  { unfold d1. apply (forZ_invariant (floor_kept d0)); [done|].
    intros i d' Hi Hd'. destruct (Z.ltb_spec (sy + i) chunkSize); [|done].
    eapply floor_kept_trans; [exact Hd'|].
    apply floor_kept_set; [unfold in_chunk; lia|lia]. }
  apply (forZ_invariant (floor_st d0)); [done|]. intros y st Hy Hst.
  apply (forZ_invariant (floor_st d0)); [done|]. intros x st1 _ Hst1.
  apply (forZ_invariant (floor_st d0)); [done|]. intros z st2 _ Hst2.
  apply leafCell_floor; [lia|done].
Qed.

Lemma surfaceScan_range data x z : -1 <= surfaceScan data x z < chunkSize.
Proof.
  unfold surfaceScan. destruct (List.find _ _) as [y|] eqn:Hfind.
  - apply find_some in Hfind as [Hin _].
    apply list_elem_of_In, elem_of_reverse, elem_of_seqZ in Hin. lia.
  - unfold chunkSize. lia.
Qed.

Lemma treeColumn_floor d0 x z st :
  0 <= x < chunkSize -> 0 <= z < chunkSize ->
  floor_st d0 st -> floor_st d0 (treeColumn x z st).
Proof.
  intros Hx Hz Hst. destruct st as [d rng]. unfold treeColumn.
  destruct (_ || _); [done|].
  destruct (Z.ltb_spec 0 (surfaceScan d x z)); [|done].
  destruct (is_type _ GRASS); [|done].
  destruct Hst as [Hfl Hrng].
  pose proof (random_valid rng Hrng) as Hrng'.
  destruct (random rng) as [r rng'].
  destruct (Qltb r 0.01); [|done].
  apply placeTree_floor; [done|done|lia|done].
Qed.

(** The vegetation pass leaves the bottom layer as it was. *)
Lemma treePass_floor d rng :
  rng_valid rng -> floor_kept d (treePass (d, rng)).1.
Proof.
  intros Hrng. unfold treePass.
  assert (HP : floor_st d (forZ 0 chunkSize (fun x =>
             forZ 0 chunkSize (fun z => treeColumn x z)) (d, rng))).
  { apply forZ_invariant; [split; [apply floor_kept_refl|done]|].
    intros x st Hx Hst.
    apply forZ_invariant; [done|]. intros z st' Hz Hst'.
    by apply treeColumn_floor. }
  apply HP.
Qed.

(** ** Generation *)

Lemma buildChunkMesh_frame cx cz data w :
  chunksData (buildChunkMesh cx cz data w) = chunksData w ∧
  dirtyChunks (buildChunkMesh cx cz data w) = dirtyChunks w ∧
  knownChunkKeys (buildChunkMesh cx cz data w) = knownChunkKeys w ∧
  loadingChunks (buildChunkMesh cx cz data w) = loadingChunks w ∧
  seed (buildChunkMesh cx cz data w) = seed w ∧
  noise2D (buildChunkMesh cx cz data w) = noise2D w.
Proof. unfold buildChunkMesh. by destruct (jm_has _ _). Qed.

Lemma generateChunk_chunksData cx cz w rng :
  chunksData (generateChunk cx cz (w, rng)).1 =
  jm_set (chunkKey cx cz) (generateVolume (noise2D w) cx cz rng).1 (chunksData w).
Proof.
  unfold generateChunk. destruct (generateVolume _ _ _ _) as [data rng'].
  cbn [fst]. by rewrite (proj1 (buildChunkMesh_frame _ _ _ _)).
Qed.

Lemma chunk_of_world_coord c x : 0 <= x < chunkSize ->
  (c * chunkSize + x) / chunkSize = c.
Proof.
  unfold chunkSize. intros Hx. symmetry.
  apply Z.div_unique with (r := x); lia.
Qed.

(** Reading a freshly generated chunk reads the generated volume. *)
Lemma getBlock_generateChunk cx cz w rng x y z :
  in_chunk x y z ->
  getBlock (generateChunk cx cz (w, rng)).1
           (cx * chunkSize + x) y (cz * chunkSize + z) =
  u8_get (generateVolume (noise2D w) cx cz rng).1 (getBlockIndex x y z).
Proof.
  intros (Hx & Hy & Hz). unfold getBlock.
  rewrite !chunk_of_world_coord by done.
  rewrite generateChunk_chunksData, jm_get_set_eq.
  destruct (Z.ltb_spec y 0); [lia|]. destruct (Z.leb_spec chunkSize y); [lia|].
  cbn [orb]. f_equal. f_equal; lia.
Qed.

Lemma new_volume_wf : volume_wf (u8_new (chunkSize * chunkSize * chunkSize)).
Proof. unfold volume_wf. apply u8_new_length. Qed.

(** The layout of a column after the height pass, on a fresh volume. *)
Lemma terrainPass_new noise cx cz x y z :
  in_chunk x y z ->
  u8_get (terrainPass noise cx cz (u8_new (chunkSize * chunkSize * chunkSize)))
         (getBlockIndex x y z) =
  if decide (y <= columnHeight noise cx cz x z)
  then Some (terrainType y (columnHeight noise cx cz x z))
  else Some AIR.
Proof.
  intros Hin.
  rewrite (proj2 (terrainPass_spec noise cx cz _ new_volume_wf)) by done.
  destruct (decide _); [done|].
  apply u8_get_new. by apply getBlockIndex_range.
Qed.

Lemma generateVolume_floor noise cx cz rng x z :
  rng_valid rng -> 0 <= x < chunkSize -> 0 <= z < chunkSize ->
  u8_get (generateVolume noise cx cz rng).1 (getBlockIndex x 0 z) = Some BEDROCK.
Proof.
  intros Hrng Hx Hz. unfold generateVolume.
  assert (Hin : in_chunk x 0 z) by (unfold in_chunk, chunkSize in *; lia).
  rewrite (proj2 (treePass_floor _ rng Hrng)) by done.
  rewrite terrainPass_new by done.
  pose proof (columnHeight_range noise cx cz x z).
  rewrite decide_True by lia. reflexivity.
Qed.

Lemma generateVolume_calm noise cx cz rng :
  draws_calm 144 rng ->
  (generateVolume noise cx cz rng).1 =
  terrainPass noise cx cz (u8_new (chunkSize * chunkSize * chunkSize)).
Proof. intros Hrng. unfold generateVolume. by apply treePass_calm. Qed.

(** Every cell of a generated volume is as the height pass left it, or
    holds part of a tree. *)
Lemma generateVolume_grown noise cx cz rng i :
  let d := terrainPass noise cx cz (u8_new (chunkSize * chunkSize * chunkSize)) in
  let d' := (generateVolume noise cx cz rng).1 in
  u8_get d' i = u8_get d i ∨ is_tree (u8_get d' i).
Proof.
  cbv zeta. unfold generateVolume.
  destruct (treePass_grown
    (terrainPass noise cx cz (u8_new (chunkSize * chunkSize * chunkSize)), rng))
    as [_ H].
  apply H.
Qed.


Lemma getBlock_above w x y z : chunkSize <= y -> getBlock w x y z = Some AIR.
Proof.
  intros Hy. unfold getBlock. destruct (jm_get _ _); [|done].
  destruct (Z.leb_spec chunkSize y); [|lia]. by rewrite orb_true_r.
Qed.
(** C2 (as amended).  For a column of a chunk, the height pass takes
    [floor(noise * 8) + 4] clamped to [1, 15] as the height and leaves
    bedrock at [y = 0], grass at the height, dirt at every [y >= 1] with
    [height - 3 <= y < height], stone from 1 up to [height - 4] and air
    above the height.  After the whole generation the column still has
    bedrock at [y = 0], and each of its cells is as the height pass left
    it or holds wood or leaves.  When the vegetation pass places no tree
    in the chunk, that is when none of the 144 draws it then makes, one
    per inner column, is below 0.01, the column is as the height pass
    left it: the block at the height is grass and the one above it is
    empty. *)
Theorem generate_column_layout (w : World) (cx cz : Z) (rng : Rng) (x z : Z) :
  0 <= x < chunkSize -> 0 <= z < chunkSize ->
  let noiseValue :=
    noise2D w (inject_Z (cx * chunkSize + x) / inject_Z TERRAIN_SCALE)%Q
              (inject_Z (cz * chunkSize + z) / inject_Z TERRAIN_SCALE)%Q in
  let height := columnHeight (noise2D w) cx cz x z in
  let data :=
    terrainPass (noise2D w) cx cz (u8_new (chunkSize * chunkSize * chunkSize)) in
  let cell y := u8_get data (getBlockIndex x y z) in
  let w' := (generateChunk cx cz (w, rng)).1 in
  let wx := cx * chunkSize + x in
  let wz := cz * chunkSize + z in
  height = Z.min 15 (Z.max 1 (Qfloor (noiseValue * 8) + 4)) ∧
  1 <= height <= 15 ∧
  cell 0 = Some BEDROCK ∧
  cell height = Some GRASS ∧
  (∀ y, 1 <= y -> height - 3 <= y < height -> cell y = Some DIRT) ∧
  (∀ y, 1 <= y <= height - 4 -> cell y = Some STONE) ∧
  (∀ y, height < y < chunkSize -> cell y = Some AIR) ∧
  (rng_valid rng -> getBlock w' wx 0 wz = Some BEDROCK) ∧
  (∀ y, 0 <= y < chunkSize ->
     getBlock w' wx y wz = cell y ∨ is_tree (getBlock w' wx y wz)) ∧
  (draws_calm 144 rng ->
     (∀ y, 0 <= y < chunkSize -> getBlock w' wx y wz = cell y) ∧
     getBlock w' wx height wz = Some GRASS ∧
     getBlock w' wx (height + 1) wz = Some AIR).
Proof.
  intros Hx Hz. cbv zeta.
  pose proof (columnHeight_range (noise2D w) cx cz x z) as Hh.
  pose proof (columnHeight_clamp (noise2D w) cx cz x z) as Hclamp.
  assert (Hcell : ∀ y, 0 <= y < chunkSize ->
    u8_get (terrainPass (noise2D w) cx cz
              (u8_new (chunkSize * chunkSize * chunkSize)))
           (getBlockIndex x y z) =
    if decide (y <= columnHeight (noise2D w) cx cz x z)
    then Some (terrainType y (columnHeight (noise2D w) cx cz x z))
    else Some AIR).
  { intros y Hy. apply terrainPass_new. by unfold in_chunk. }
  assert (Hgen : ∀ y, 0 <= y < chunkSize ->
    getBlock (generateChunk cx cz (w, rng)).1
             (cx * chunkSize + x) y (cz * chunkSize + z) =
    u8_get (generateVolume (noise2D w) cx cz rng).1 (getBlockIndex x y z)).
  { intros y Hy. apply getBlock_generateChunk. by unfold in_chunk. }
  remember (columnHeight (noise2D w) cx cz x z) as height eqn:Hheight.
  remember (terrainPass (noise2D w) cx cz
              (u8_new (chunkSize * chunkSize * chunkSize))) as data eqn:Hdata.
  assert (Hc16 : chunkSize = 16) by reflexivity.
  assert (Htype : ∀ y, 0 <= y <= height ->
    terrainType y height =
      if decide (y = 0) then BEDROCK
      else if decide (y = height) then GRASS
      else if decide (height - 3 <= y) then DIRT else STONE).
  { intros y Hy. unfold terrainType.
    destruct (Z.eqb_spec y 0); [by rewrite decide_True|].
    rewrite decide_False by done.
    destruct (Z.eqb_spec y height); [by rewrite decide_True|].
    rewrite decide_False by done.
    destruct (Z.leb_spec (height - 3) y); [by rewrite decide_True|].
    by rewrite decide_False by lia. }
  split_and!.
  - rewrite Hclamp. by rewrite Hc16.
  - lia.
  - lia.
  - rewrite Hcell by lia. rewrite decide_True by lia.
    rewrite Htype by lia. repeat case_decide; done || lia.
  - rewrite Hcell by lia. rewrite decide_True by lia.
    rewrite Htype by lia. repeat case_decide; done || lia.
  - intros y Hy1 Hy. rewrite Hcell by lia. rewrite decide_True by lia.
    rewrite Htype by lia. repeat case_decide; done || lia.
  - intros y Hy. rewrite Hcell by lia. rewrite decide_True by lia.
    rewrite Htype by lia. repeat case_decide; done || lia.
  - intros y Hy. rewrite Hcell by lia. by rewrite decide_False by lia.
  - intros Hrng. rewrite Hgen by lia. by apply generateVolume_floor.
  - intros y Hy. rewrite Hgen by lia. rewrite Hdata.
    apply generateVolume_grown.
  - intros Hrng.
    assert (Hsame : ∀ y, 0 <= y < chunkSize ->
      getBlock (generateChunk cx cz (w, rng)).1
               (cx * chunkSize + x) y (cz * chunkSize + z) =
      u8_get data (getBlockIndex x y z)).
    { intros y Hy. rewrite Hgen by lia. rewrite generateVolume_calm by done.
      by rewrite <- Hdata. }
    split; [exact Hsame|]. split.
    + rewrite Hsame by lia. rewrite Hcell by lia. rewrite decide_True by lia.
      rewrite Htype by lia. repeat case_decide; done || lia.
    + destruct (decide (height + 1 < chunkSize)) as [Hlt|Hge].
      * rewrite Hsame by lia. rewrite Hcell by lia. by rewrite decide_False by lia.
      * apply getBlock_above. lia.
Qed.

Lemma calmRng_valid : rng_valid calmRng.
Proof. intros n. unfold calmRng, Qle, Qlt. simpl. lia. Qed.

Lemma treeRng_valid : rng_valid treeRng.
Proof.
  intros n. unfold treeRng. destruct (n =? 78)%nat; unfold Qle, Qlt; simpl; lia.
Qed.

(** A random source whose first 144 draws start no tree and whose next
    one would. *)
Lemma lateRng_calm : draws_calm 144 (fun n => if (n =? 144)%nat then 0%Q else 0.5%Q).
Proof.
  intros i Hi. destruct (Nat.eqb_spec i 144) as [->|_]; [lia|reflexivity].
Qed.

Lemma generate_column_layout_witness :
  let late : Rng := fun n => if (n =? 144)%nat then 0%Q else 0.5%Q in
  getBlock (generateChunk 0 0 (flatWorld, late)).1 8 0 8 = Some BEDROCK ∧
  getBlock (generateChunk 0 0 (flatWorld, late)).1 8 4 8 = Some GRASS ∧
  getBlock (generateChunk 0 0 (flatWorld, late)).1 8 (4 + 1) 8 = Some AIR.
Proof.
  cbv zeta.
  set (late := fun n => if (n =? 144)%nat then 0%Q else 0.5%Q).
  assert (Hvalid : rng_valid late).
  { intros n. unfold late. destruct (n =? 144)%nat; unfold Qle, Qlt; simpl; lia. }
  pose proof (generate_column_layout flatWorld 0 0 late 8 8
                ltac:(unfold chunkSize; lia) ltac:(unfold chunkSize; lia)) as H.
  cbv zeta in H.
  assert (Hh : columnHeight (noise2D flatWorld) 0 0 8 8 = 4)
    by (vm_compute; reflexivity).
  rewrite Hh in H.
  destruct H as (_ & _ & _ & _ & _ & _ & _ & Hbed & _ & Htop).
  specialize (Hbed Hvalid). specialize (Htop lateRng_calm).
  destruct Htop as (_ & Hgrass & Hair).
  split; [exact Hbed|]. split; [exact Hgrass|exact Hair].
Defined.

(** C2, the failing cases.  With a sampler that is -0.25 everywhere the
    height is 2: [y = 0] lies in [height - 3 <= y < height] and holds
    bedrock, not dirt.  And when the vegetation pass starts a tree on
    column (8, 8), the block above the surface is wood, not empty. *)
Lemma generate_tree_above_surface :
  let w := (World_new lowNoise calmRng).1 in
  let h := columnHeight (noise2D w) 0 0 8 8 in
  let data :=
    terrainPass (noise2D w) 0 0 (u8_new (chunkSize * chunkSize * chunkSize)) in
  rng_valid treeRng ∧
  h = 2 ∧
  (h - 3 <= 0 < h ∧ u8_get data (getBlockIndex 8 0 8) = Some BEDROCK ∧
   BEDROCK ≠ DIRT) ∧
  (getBlock (generateChunk 0 0 (w, treeRng)).1 8 (h + 1) 8 = Some WOOD ∧
   WOOD ≠ AIR).
Proof.
  cbv zeta.
  assert (Hh : columnHeight (noise2D (World_new lowNoise calmRng).1) 0 0 8 8 = 2)
    by (vm_compute; reflexivity).
  rewrite Hh. split; [exact treeRng_valid|].
  split; [reflexivity|].
  split.
  - split; [lia|].
    split; [vm_compute; reflexivity|discriminate].
  - split; [vm_compute; reflexivity|discriminate].
Qed.

(** ** What the operations leave alone *)

Lemma foldl_invariant {A B : Type} (P : A -> Prop) (f : A -> B -> A) l a :
  P a -> (∀ a b, b ∈ l -> P a -> P (f a b)) -> P (foldl f a l).
Proof.
  revert a. induction l as [|b l IH]; intros a Ha Hf; simpl; [done|].
  apply IH.
  - apply Hf; [left|done].
  - intros a' b' Hb'. apply Hf. by right.
Qed.

Lemma same_seed_refl w : same_seed w w.
Proof. by split. Qed.

Lemma same_seed_trans w1 w2 w3 :
  same_seed w1 w2 -> same_seed w2 w3 -> same_seed w1 w3.
Proof. intros [? ?] [? ?]. split; congruence. Qed.

Lemma same_store_refl w : same_store w w.
Proof. by split. Qed.

Lemma same_store_trans w1 w2 w3 :
  same_store w1 w2 -> same_store w2 w3 -> same_store w1 w3.
Proof. intros [? ?] [? ?]. split; congruence. Qed.

Lemma disposeMesh_same_seed m w : same_seed w (disposeMesh m w).
Proof. by split. Qed.

Lemma disposeMesh_same_store m w : same_store w (disposeMesh m w).
Proof. by split. Qed.

Lemma buildChunkMesh_same_seed cx cz data w :
  same_seed w (buildChunkMesh cx cz data w).
Proof. unfold buildChunkMesh. by destruct (jm_has _ _). Qed.

Lemma buildChunkMesh_same_store cx cz data w :
  same_store w (buildChunkMesh cx cz data w).
Proof. unfold buildChunkMesh. by destruct (jm_has _ _). Qed.

Lemma setBlock_same_seed w x y z t : same_seed w (setBlock w x y z t).
Proof.
  unfold setBlock. destruct (jm_get _ (chunksData w)); [|apply same_seed_refl].
  destruct (_ || _); [apply same_seed_refl|].
  cbv zeta. by destruct (jm_get _ (chunks _)).
Qed.

Lemma generateChunk_same_seed cx cz w rng :
  same_seed w (generateChunk cx cz (w, rng)).1.
Proof.
  unfold generateChunk. destruct (generateVolume _ _ _ _) as [data rng'].
  cbn [fst]. eapply same_seed_trans; [|apply buildChunkMesh_same_seed]. by split.
Qed.

Lemma ensureChunk_same_seed cx cz key w rng :
  same_seed w (ensureChunk cx cz key (w, rng)).1.1.
Proof.
  unfold ensureChunk. destruct (jm_get _ _).
  - apply buildChunkMesh_same_seed.
  - destruct (bool_decide (key ∈ knownChunkKeys w)).
    + by destruct (bool_decide _).
    + apply generateChunk_same_seed.
Qed.

Lemma chunkFetched_same_seed f data w rng :
  same_seed w (chunkFetched f data (w, rng)).1.
Proof.
  unfold chunkFetched. destruct data as [data|].
  - cbn [fst]. eapply same_seed_trans; [|split; reflexivity].
    eapply same_seed_trans; [|apply buildChunkMesh_same_seed]. by split.
  - pose proof (generateChunk_same_seed (f_cx f) (f_cz f) w rng) as H.
    destruct (generateChunk _ _ _) as [w' rng']. cbn [fst] in *.
    eapply same_seed_trans; [exact H|by split].
Qed.

Lemma evictEntry_same_seed e w writes :
  same_seed w (evictEntry e (w, writes)).1.
Proof.
  unfold evictEntry. destruct e as [key data].
  destruct (bool_decide _); cbn [fst]; by destruct (jm_get _ _).
Qed.

Lemma checkMemory_same_seed pos w : same_seed w (checkMemory pos w).1.
Proof.
  unfold checkMemory. destruct (_ <=? _); [apply same_seed_refl|].
  destruct (playerChunk pos) as [cx cz].
  apply (foldl_invariant (fun st => same_seed w st.1)); [apply same_seed_refl|].
  intros [w' writes] e _ Hw'. cbn [fst] in *.
  eapply same_seed_trans; [exact Hw'|apply evictEntry_same_seed].
Qed.

Lemma evictWriteSettled_same_seed ok pw w db :
  same_seed w (evictWriteSettled ok pw (w, db)).1.
Proof. unfold evictWriteSettled. destruct pw, ok; by split. Qed.

Lemma activate_same_seed x z t : same_seed (t_world t) (t_world (activate x z t)).
Proof.
  unfold activate. destruct (jm_has _ _); [apply same_seed_refl|].
  pose proof (ensureChunk_same_seed x z (chunkKey x z) (t_world t) (t_rng t)) as H.
  by destruct (ensureChunk _ _ _ _) as [[w rng] f].
Qed.

Lemma unloadFar_same_seed active w : same_seed w (unloadFar active w).
Proof.
  unfold unloadFar.
  apply (foldl_invariant (same_seed w)); [apply same_seed_refl|].
  intros w' e _ Hw'. destruct (bool_decide _); [done|].
  eapply same_seed_trans; [exact Hw'|by split].
Qed.

Lemma update_same_seed isMobile pos w rng :
  same_seed w (t_world (update isMobile pos (w, rng))).
Proof.
  unfold update. destruct (playerChunk pos) as [cx cz].
  set (t := forZ _ _ _ _).
  assert (Ht : same_seed w (t_world t)).
  { unfold t. apply (forZ_invariant (fun t => same_seed w (t_world t)));
      [apply same_seed_refl|]. intros x t1 _ Ht1.
    apply (forZ_invariant (fun t => same_seed w (t_world t))); [done|].
    intros z t2 _ Ht2. eapply same_seed_trans; [exact Ht2|apply activate_same_seed]. }
  assert (Hu : same_seed w (unloadFar (activeKeys cx cz (if isMobile then 2 else 3))
                              (t_world t))).
  { eapply same_seed_trans; [exact Ht|apply unloadFar_same_seed]. }
  destruct (random (t_rng t)) as [r rng'].
  destruct (Qltb r _); [|done].
  pose proof (checkMemory_same_seed pos
    (unloadFar (activeKeys cx cz (if isMobile then 2 else 3)) (t_world t))) as Hc.
  destruct (checkMemory _ _) as [w' writes]. cbn [fst t_world] in *.
  eapply same_seed_trans; [exact Hu|exact Hc].
Qed.

Lemma saveDirty_same_seed key w ps : same_seed w (saveDirty key (w, ps)).1.
Proof. unfold saveDirty. by destruct (jm_get _ _). Qed.

Lemma issueDirtyWrites_same_seed w : same_seed w (issueDirtyWrites w).1.
Proof.
  unfold issueDirtyWrites.
  apply (foldl_invariant (fun st => same_seed w st.1));
    [apply same_seed_refl|].
  intros [w' ps] key _ Hw'. cbn [fst] in *.
  eapply same_seed_trans; [exact Hw'|apply saveDirty_same_seed].
Qed.

Lemma saveWorld_settled_same_seed ok w : same_seed w (saveWorld_settled ok w).
Proof. by destruct ok. Qed.

Lemma saveWorld_same_seed pd metaOk chunkOk w db :
  same_seed w (saveWorld pd metaOk chunkOk (w, db)).1.1.
Proof.
  unfold saveWorld. destruct metaOk; [|apply same_seed_refl]. cbn [negb].
  pose proof (issueDirtyWrites_same_seed w) as Hst.
  destruct (issueDirtyWrites w) as [w' ps]. cbn [fst] in Hst.
  destruct (forallb _ _); cbn [fst];
    (eapply same_seed_trans; [exact Hst|apply saveWorld_settled_same_seed]).
Qed.

(** ** The sampler follows the seed *)

Lemma noise_synced_same_seed lib w w' :
  noise_synced lib w -> same_seed w w' -> noise_synced lib w'.
Proof. unfold noise_synced. intros H [Hs Hn]. by rewrite Hs, Hn. Qed.

Lemma World_new_synced lib rng : noise_synced lib (World_new lib rng).1.
Proof.
  unfold World_new. destruct (randomSeed rng) as [s rng1].
  by destruct (createNoiseTexture rng1) as [tex rng2].
Qed.

Lemma set_seed_synced lib s w : noise_synced lib (set_seed lib s w).
Proof. reflexivity. Qed.

Lemma loadWorld_synced lib ok w db w' res :
  noise_synced lib w -> loadWorld lib ok (w, db) = Some (w', res) ->
  noise_synced lib w'.
Proof.
  intros Hw. unfold loadWorld. destruct ok; [|done]. cbn [negb].
  intros [= <- _].
  set (w1 := foldl _ w _).
  assert (H1 : noise_synced lib w1).
  { unfold w1. apply foldl_invariant; [done|].
    intros w2 k _ Hw2. eapply noise_synced_same_seed; [exact Hw2|by split]. }
  destruct (db_getMeta _ db) as [m|]; [|done].
  destruct (meta_seed m); [apply set_seed_synced|done].
Qed.

Lemma deleteWorld_synced lib ok w db rng w' db' rng' :
  deleteWorld lib ok (w, db, rng) = Some (w', db', rng') -> noise_synced lib w'.
Proof.
  unfold deleteWorld. destruct ok; [|done]. cbn [negb].
  destruct (randomSeed rng) as [s rng1]. intros [= <- _ _].
  apply set_seed_synced.
Qed.

Lemma step_synced lib w w' :
  step lib w w' -> noise_synced lib w -> noise_synced lib w'.
Proof.
  intros Hstep Hw. destruct Hstep.
  - eapply noise_synced_same_seed; [done|apply setBlock_same_seed].
  - eapply noise_synced_same_seed; [done|apply generateChunk_same_seed].
  - eapply noise_synced_same_seed; [done|apply ensureChunk_same_seed].
  - eapply noise_synced_same_seed; [done|apply chunkFetched_same_seed].
  - eapply noise_synced_same_seed; [done|apply checkMemory_same_seed].
  - eapply noise_synced_same_seed; [done|apply evictWriteSettled_same_seed].
  - eapply noise_synced_same_seed; [done|apply update_same_seed].
  - eapply noise_synced_same_seed; [done|apply issueDirtyWrites_same_seed].
  - eapply noise_synced_same_seed; [done|apply saveWorld_settled_same_seed].
  - by eapply loadWorld_synced.
  - by eapply deleteWorld_synced.
Qed.

(** In every reachable world the sampler is the one of the seed. *)
Lemma reachable_synced lib w : reachable lib w -> noise_synced lib w.
Proof.
  induction 1 as [rng|w w' _ IH Hstep]; [apply World_new_synced|].
  by eapply step_synced.
Qed.

(** C9.  Two worlds that hold the same seed, however each came to it
    (constructed, loaded, reset, and whatever was done to them since),
    sample the same noise at every point, so they compute the same
    column heights and the same height-pass volume for every chunk.
    Their generated volumes, under any two runs of the random source,
    have the same size and differ at most in cells that one of them
    gave to a tree. *)
Theorem generation_deterministic (lib : NoiseLib) (w1 w2 : World) :
  reachable lib w1 -> reachable lib w2 -> seed w1 = seed w2 ->
  (∀ x y, noise2D w1 x y = noise2D w2 x y) ∧
  (∀ x y, noise2D w1 x y = lib (mulberry32 (seed w1)) x y) ∧
  (∀ cx cz x z,
     columnHeight (noise2D w1) cx cz x z = columnHeight (noise2D w2) cx cz x z) ∧
  (∀ cx cz data,
     terrainPass (noise2D w1) cx cz data = terrainPass (noise2D w2) cx cz data) ∧
  (∀ cx cz rng1 rng2,
     let d1 := (generateVolume (noise2D w1) cx cz rng1).1 in
     let d2 := (generateVolume (noise2D w2) cx cz rng2).1 in
     length d1 = length d2 ∧
     ∀ i, u8_get d1 i = u8_get d2 i ∨
          is_tree (u8_get d1 i) ∨ is_tree (u8_get d2 i)).
Proof.
  intros H1 H2 Hseed.
  apply reachable_synced in H1, H2. unfold noise_synced in *.
  assert (Hn : noise2D w1 = noise2D w2) by (rewrite H1, H2; by rewrite Hseed).
  split_and!.
  - intros x y. by rewrite Hn.
  - intros x y. by rewrite H1.
  - intros cx cz x z. by rewrite Hn.
  - intros cx cz data. by rewrite Hn.
  - intros cx cz rng1 rng2. cbv zeta. unfold generateVolume. rewrite Hn.
    set (d := terrainPass _ _ _ _).
    destruct (treePass_grown (d, rng1)) as [Hl1 Hc1].
    destruct (treePass_grown (d, rng2)) as [Hl2 Hc2].
    cbn [fst] in *. split; [congruence|].
    intros i. destruct (Hc1 i) as [He1|Ht1]; [|by right; left].
    destruct (Hc2 i) as [He2|Ht2]; [|by right; right].
    left. congruence.
Qed.

Lemma restarted_reachable rng : reachable drawNoise (restarted rng).
Proof.
  unfold restarted.
  destruct (loadWorld _ _ _) as [[w' res]|] eqn:Hload; [|apply reachable_new].
  eapply reachable_step; [apply reachable_new|].
  eapply step_loadWorld. exact Hload.
Qed.

Lemma generation_deterministic_witness :
  seed (restarted calmRng) = seed (restarted treeRng) ∧
  ∀ cx cz data,
    terrainPass (noise2D (restarted calmRng)) cx cz data =
    terrainPass (noise2D (restarted treeRng)) cx cz data.
Proof.
  assert (Hseed : seed (restarted calmRng) = seed (restarted treeRng))
    by (vm_compute; reflexivity).
  split; [exact Hseed|].
  exact (proj1 (proj2 (proj2 (proj2
    (generation_deterministic drawNoise (restarted calmRng) (restarted treeRng)
       (restarted_reachable calmRng) (restarted_reachable treeRng) Hseed))))).
Defined.

(** ** Reachable sessions *)

(** A [saveWorld] that nothing interleaves with is its write loop
    followed by its last stretch, each of them a step. *)
Lemma reachable_saveWorld lib pd metaOk chunkOk w db :
  reachable lib w -> reachable lib (saveWorld pd metaOk chunkOk (w, db)).1.1.
Proof.
  intros Hw. unfold saveWorld. destruct metaOk; [|done]. cbn [negb].
  assert (H1 : reachable lib (issueDirtyWrites w).1).
  { eapply reachable_step; [exact Hw|apply step_saveWorld_issue]. }
  destruct (issueDirtyWrites w) as [w' ps]. cbn [fst] in H1.
  destruct (forallb _ _); cbn [fst];
    (eapply reachable_step; [exact H1|apply step_saveWorld_settled]).
Qed.

(** The sample sessions are reachable. *)
Lemma reachable_ensureChunk lib w rng cx cz :
  reachable lib w ->
  reachable lib (ensureChunk cx cz (chunkKey cx cz) (w, rng)).1.1.
Proof. intros Hw. eapply reachable_step; [exact Hw|apply step_ensureChunk]. Qed.

Lemma resumedWorld_reachable : reachable flatNoise resumedWorld.
Proof.
  unfold resumedWorld. cbv zeta.
  apply reachable_ensureChunk.
  eapply reachable_step; [|by apply step_chunkFetched].
  apply reachable_ensureChunk.
  destruct (loadWorld _ _ _) as [[w' res]|] eqn:Hload; cbn;
    [|apply reachable_new].
  eapply reachable_step; [apply reachable_new|].
  eapply step_loadWorld. exact Hload.
Qed.

Lemma loadedWorld_reachable : reachable flatNoise loadedWorld.
Proof.
  unfold loadedWorld.
  eapply reachable_step; [apply resumedWorld_reachable|by apply step_chunkFetched].
Qed.

Lemma playedWorld_reachable : reachable flatNoise playedWorld.
Proof.
  unfold playedWorld.
  eapply reachable_step; [apply loadedWorld_reachable|apply step_setBlock].
Qed.

(** ** Dirty keys are cached *)

Lemma dirty_cached_same_store w w' :
  dirty_cached w -> same_store w w' -> dirty_cached w'.
Proof. unfold dirty_cached. intros H [Hd Hdirty] k. rewrite Hd, Hdirty. apply H. Qed.

Lemma dirty_cached_insert key data w w' :
  dirty_cached w ->
  chunksData w' = jm_set key data (chunksData w) ->
  dirtyChunks w' ⊆ dirtyChunks w ∪ {[key]} ->
  dirty_cached w'.
Proof.
  intros Hw Hd Hdirty k Hk. rewrite Hd.
  destruct (decide (key = k)) as [->|Hne].
  - rewrite jm_get_set_eq. by eexists.
  - rewrite jm_get_set_ne by done. apply Hw.
    apply Hdirty in Hk.
    apply elem_of_union in Hk as [Hk|Hk%elem_of_singleton]; [done|congruence].
Qed.

Lemma unloadFar_same_store active w : same_store w (unloadFar active w).
Proof.
  unfold unloadFar.
  apply (foldl_invariant (same_store w)); [apply same_store_refl|].
  intros w' e _ Hw'. destruct (bool_decide _); [done|].
  eapply same_store_trans; [exact Hw'|by split].
Qed.

Lemma setBlock_dirty_cached w x y z t :
  dirty_cached w -> dirty_cached (setBlock w x y z t).
Proof.
  intros Hw. unfold setBlock.
  destruct (jm_get _ (chunksData w)) as [data|] eqn:Hdata; [|done].
  destruct (_ || _); [done|]. cbv zeta.
  eapply (dirty_cached_insert _ _ w); [done| |].
  - by destruct (jm_get _ (chunks _)).
  - by destruct (jm_get _ (chunks _)).
Qed.

Lemma generateChunk_dirty_cached cx cz w rng :
  dirty_cached w -> dirty_cached (generateChunk cx cz (w, rng)).1.
Proof.
  intros Hw. unfold generateChunk.
  destruct (generateVolume _ _ _ _) as [data rng']. cbn [fst].
  eapply dirty_cached_same_store; [|apply buildChunkMesh_same_store].
  by eapply (dirty_cached_insert _ _ w).
Qed.

Lemma ensureChunk_dirty_cached cx cz key w rng :
  dirty_cached w -> dirty_cached (ensureChunk cx cz key (w, rng)).1.1.
Proof.
  intros Hw. unfold ensureChunk. destruct (jm_get _ _).
  - eapply dirty_cached_same_store; [done|apply buildChunkMesh_same_store].
  - destruct (bool_decide (key ∈ knownChunkKeys w)).
    + destruct (bool_decide _); exact Hw.
    + by apply generateChunk_dirty_cached.
Qed.

Lemma chunkFetched_dirty_cached f data w rng :
  dirty_cached w -> dirty_cached (chunkFetched f data (w, rng)).1.
Proof.
  intros Hw. unfold chunkFetched. destruct data as [data|].
  - cbn [fst]. eapply dirty_cached_same_store; [|split; reflexivity].
    eapply dirty_cached_same_store; [|apply buildChunkMesh_same_store].
    eapply (dirty_cached_insert (f_key f) data w); [done|reflexivity|].
    apply union_subseteq_l.
  - pose proof (generateChunk_dirty_cached (f_cx f) (f_cz f) w rng Hw) as H.
    destruct (generateChunk _ _ _) as [w' rng']. cbn [fst] in *.
    eapply dirty_cached_same_store; [exact H|by split].
Qed.

(** What one eviction does to the cache and the dirty set. *)
Lemma evictEntry_store key data w writes :
  chunksData (evictEntry (key, data) (w, writes)).1 = jm_delete key (chunksData w) ∧
  dirtyChunks (evictEntry (key, data) (w, writes)).1 = dirtyChunks w ∖ {[key]}.
Proof.
  unfold evictEntry.
  destruct (bool_decide (key ∈ dirtyChunks w)) eqn:Hdirty; cbn [fst].
  - by destruct (jm_get _ _).
  - apply bool_decide_eq_false in Hdirty.
    assert (Hd : dirtyChunks w = dirtyChunks w ∖ {[key]}).
    { symmetry. apply difference_disjoint_L. by apply disjoint_singleton_r. }
    by destruct (jm_get _ _).
Qed.

Lemma evictEntry_dirty_cached e w writes :
  dirty_cached w -> dirty_cached (evictEntry e (w, writes)).1.
Proof.
  intros Hw. destruct e as [key data].
  destruct (evictEntry_store key data w writes) as [Hd Hdirty].
  intros k. rewrite Hd, Hdirty. intros [Hk Hne]%elem_of_difference.
  rewrite jm_get_delete_ne; [by apply Hw|].
  intros ->. apply Hne. by apply elem_of_singleton.
Qed.

Lemma checkMemory_dirty_cached pos w :
  dirty_cached w -> dirty_cached (checkMemory pos w).1.
Proof.
  intros Hw. unfold checkMemory. destruct (_ <=? _); [done|].
  destruct (playerChunk pos) as [cx cz].
  apply (foldl_invariant (fun st => dirty_cached st.1)); [done|].
  intros [w' writes] e _ Hw'. by apply evictEntry_dirty_cached.
Qed.

Lemma evictWriteSettled_same_store ok pw w db :
  same_store w (evictWriteSettled ok pw (w, db)).1.
Proof. unfold evictWriteSettled. destruct pw, ok; by split. Qed.

Lemma activate_dirty_cached x z t :
  dirty_cached (t_world t) -> dirty_cached (t_world (activate x z t)).
Proof.
  intros Ht. unfold activate. destruct (jm_has _ _); [done|].
  pose proof (ensureChunk_dirty_cached x z (chunkKey x z) _ (t_rng t) Ht) as H.
  by destruct (ensureChunk _ _ _ _) as [[w rng] f].
Qed.

Lemma update_dirty_cached isMobile pos w rng :
  dirty_cached w -> dirty_cached (t_world (update isMobile pos (w, rng))).
Proof.
  intros Hw. unfold update. destruct (playerChunk pos) as [cx cz].
  set (t := forZ _ _ _ _).
  assert (Ht : dirty_cached (t_world t)).
  { unfold t. apply (forZ_invariant (fun t => dirty_cached (t_world t))); [done|].
    intros x t1 _ Ht1.
    apply (forZ_invariant (fun t => dirty_cached (t_world t))); [done|].
    intros z t2 _ Ht2. by apply activate_dirty_cached. }
  assert (Hu : dirty_cached (unloadFar (activeKeys cx cz (if isMobile then 2 else 3))
                               (t_world t))).
  { eapply dirty_cached_same_store; [exact Ht|apply unloadFar_same_store]. }
  destruct (random (t_rng t)) as [r rng'].
  destruct (Qltb r _); [|done].
  pose proof (checkMemory_dirty_cached pos _ Hu) as Hc.
  by destruct (checkMemory _ _) as [w' writes].
Qed.

Lemma saveDirty_same_store key w ps : same_store w (saveDirty key (w, ps)).1.
Proof. unfold saveDirty. by destruct (jm_get _ _). Qed.

Lemma issueDirtyWrites_same_store w : same_store w (issueDirtyWrites w).1.
Proof.
  unfold issueDirtyWrites.
  apply (foldl_invariant (fun st => same_store w st.1)); [apply same_store_refl|].
  intros [w' ps] key _ Hw'. cbn [fst] in *.
  eapply same_store_trans; [exact Hw'|apply saveDirty_same_store].
Qed.

Lemma issueDirtyWrites_dirty_cached w :
  dirty_cached w -> dirty_cached (issueDirtyWrites w).1.
Proof.
  intros Hw. eapply dirty_cached_same_store; [done|].
  apply issueDirtyWrites_same_store.
Qed.

Lemma saveWorld_settled_dirty_cached ok w :
  dirty_cached w -> dirty_cached (saveWorld_settled ok w).
Proof.
  intros Hw. destruct ok; [|done].
  intros k Hk. cbn in Hk. by apply not_elem_of_empty in Hk.
Qed.

Lemma saveWorld_dirty_cached pd metaOk chunkOk w db :
  dirty_cached w -> dirty_cached (saveWorld pd metaOk chunkOk (w, db)).1.1.
Proof.
  intros Hw. unfold saveWorld. destruct metaOk; [|done]. cbn [negb].
  pose proof (issueDirtyWrites_dirty_cached w Hw) as Hst.
  destruct (issueDirtyWrites w) as [w' ps]. cbn [fst] in Hst.
  destruct (forallb _ _); cbn [fst]; by apply saveWorld_settled_dirty_cached.
Qed.

Lemma loadWorld_same_store lib ok w db w' res :
  loadWorld lib ok (w, db) = Some (w', res) -> same_store w w'.
Proof.
  unfold loadWorld. destruct ok; [|done]. cbn [negb]. intros [= <- _].
  set (w1 := foldl _ w _).
  assert (H1 : same_store w w1).
  { unfold w1. apply (foldl_invariant (same_store w)); [apply same_store_refl|].
    intros w2 k _ Hw2. eapply same_store_trans; [exact Hw2|by split]. }
  destruct (db_getMeta _ db) as [m|]; [|done].
  destruct (meta_seed m); [|done].
  eapply same_store_trans; [exact H1|by split].
Qed.

Lemma deleteWorld_dirty_cached lib ok w db rng w' db' rng' :
  deleteWorld lib ok (w, db, rng) = Some (w', db', rng') -> dirty_cached w'.
Proof.
  unfold deleteWorld. destruct ok; [|done]. cbn [negb].
  destruct (randomSeed rng) as [s rng1]. intros [= <- _ _].
  set (w1 := foldl _ _ _).
  assert (H1 : dirtyChunks w1 = ∅).
  { unfold w1. by apply (foldl_invariant (fun w => dirtyChunks w = ∅)). }
  intros k Hk. cbn in Hk. rewrite H1 in Hk. by apply not_elem_of_empty in Hk.
Qed.

Lemma World_new_dirty_cached lib rng : dirty_cached (World_new lib rng).1.
Proof.
  unfold World_new. destruct (randomSeed rng) as [s rng1].
  destruct (createNoiseTexture rng1) as [tex rng2].
  intros k Hk. cbn in Hk. by apply not_elem_of_empty in Hk.
Qed.

Lemma step_dirty_cached lib w w' :
  step lib w w' -> dirty_cached w -> dirty_cached w'.
Proof.
  intros Hstep Hw. destruct Hstep.
  - by apply setBlock_dirty_cached.
  - by apply generateChunk_dirty_cached.
  - by apply ensureChunk_dirty_cached.
  - by apply chunkFetched_dirty_cached.
  - by apply checkMemory_dirty_cached.
  - eapply dirty_cached_same_store; [done|apply evictWriteSettled_same_store].
  - by apply update_dirty_cached.
  - by apply issueDirtyWrites_dirty_cached.
  - by apply saveWorld_settled_dirty_cached.
  - eapply dirty_cached_same_store; [done|by eapply loadWorld_same_store].
  - by eapply deleteWorld_dirty_cached.
Qed.

Lemma reachable_dirty_cached lib w : reachable lib w -> dirty_cached w.
Proof.
  induction 1 as [rng|w w' _ IH Hstep]; [apply World_new_dirty_cached|].
  by eapply step_dirty_cached.
Qed.

(** ** Saving *)

Lemma saveDirty_fold (cd : JsMap (list Z)) l w0 ps0 :
  chunksData w0 = cd ->
  let st := foldl (fun st key => saveDirty key st) (w0, ps0) l in
  st.2 = ps0 ++ omap (fun k => pair k <$> jm_get k cd) l ∧
  knownChunkKeys st.1 =
    knownChunkKeys w0 ∪ list_to_set (omap (fun k => pair k <$> jm_get k cd) l).*1.
Proof.
  revert w0 ps0. induction l as [|k l IH]; intros w0 ps0 Hcd.
  - cbn. split; [by rewrite app_nil_r|]. by rewrite union_empty_r_L.
  - assert (Hstep : saveDirty k (w0, ps0) =
      match jm_get k cd with
      | Some data =>
          (set_knownChunkKeys (fun s => s ∪ {[k]}) w0, ps0 ++ [(k, data)])
      | None => (w0, ps0)
      end) by (unfold saveDirty; by rewrite Hcd).
    cbn [foldl]. cbv zeta. rewrite Hstep.
    change (omap (fun k => pair k <$> jm_get k cd) (k :: l)) with
      (match pair k <$> jm_get k cd with
       | Some y => y :: omap (fun k => pair k <$> jm_get k cd) l
       | None => omap (fun k => pair k <$> jm_get k cd) l
       end).
    destruct (jm_get k cd) as [data|] eqn:Hk; cbn [fmap option_fmap option_map].
    + destruct (IH (set_knownChunkKeys (fun s => s ∪ {[k]}) w0)
                   (ps0 ++ [(k, data)]) Hcd) as [H1 H2].
      cbv zeta in H1, H2. split.
      * rewrite H1. by rewrite <- app_assoc.
      * rewrite H2. rewrite fmap_cons, list_to_set_cons. cbn [fst].
        change (knownChunkKeys (set_knownChunkKeys (fun s => s ∪ {[k]}) w0))
          with (knownChunkKeys w0 ∪ {[k]}).
        by rewrite <- (assoc_L (∪)).
    + by apply IH.
Qed.

Lemma issueDirtyWrites_spec w :
  (issueDirtyWrites w).2 =
    omap (fun k => pair k <$> jm_get k (chunksData w)) (elements (dirtyChunks w)) ∧
  knownChunkKeys (issueDirtyWrites w).1 =
    knownChunkKeys w ∪ list_to_set (issueDirtyWrites w).2.*1.
Proof.
  unfold issueDirtyWrites.
  destruct (saveDirty_fold (chunksData w) (elements (dirtyChunks w)) w [] eq_refl)
    as [H1 H2].
  cbv zeta in H1, H2. rewrite H1, H2. done.
Qed.

Lemma omap_cached_keys (cd : JsMap (list Z)) l :
  (∀ k, k ∈ l -> is_Some (jm_get k cd)) ->
  (omap (fun k => pair k <$> jm_get k cd) l).*1 = l.
Proof.
  induction l as [|k l IH]; intros Hl; [done|].
  destruct (Hl k) as [data Hk]; [left|].
  change (omap (fun k => pair k <$> jm_get k cd) (k :: l)) with
    (match pair k <$> jm_get k cd with
     | Some y => y :: omap (fun k => pair k <$> jm_get k cd) l
     | None => omap (fun k => pair k <$> jm_get k cd) l
     end).
  rewrite Hk. cbn [fmap option_fmap option_map]. rewrite fmap_cons. cbn [fst].
  f_equal. apply IH. intros k' Hk'. apply Hl. by right.
Qed.

Lemma elem_of_omap_cached (cd : JsMap (list Z)) (l : list string) k data :
  (k, data) ∈ omap (fun k => pair k <$> jm_get k cd) l ↔
  k ∈ l ∧ jm_get k cd = Some data.
Proof.
  rewrite list_elem_of_omap. split.
  - intros (k' & Hk' & Heq). destruct (jm_get k' cd) eqn:Hget; [|done].
    cbn in Heq. by simplify_eq.
  - intros [Hk Hget]. exists k. split; [done|]. by rewrite Hget.
Qed.

(** With every dirty key cached, one write is issued per dirty key, and
    it carries the cached volume. *)
Lemma issueDirtyWrites_all w :
  dirty_cached w ->
  (issueDirtyWrites w).2.*1 = elements (dirtyChunks w) ∧
  (∀ k data, (k, data) ∈ (issueDirtyWrites w).2 ↔
             k ∈ dirtyChunks w ∧ jm_get k (chunksData w) = Some data).
Proof.
  intros Hw. destruct (issueDirtyWrites_spec w) as [Hps _]. rewrite Hps. split.
  - apply omap_cached_keys. intros k Hk. apply Hw. by apply elem_of_elements.
  - intros k data. rewrite elem_of_omap_cached, elem_of_elements. done.
Qed.

(** The store after a batch of writes on distinct keys has settled. *)
Lemma settle_lookup (chunkOk : string -> bool) (ps : list PendingWrite) db :
  NoDup ps.*1 ->
  let db' := foldl (fun db (p : PendingWrite) =>
                      if chunkOk p.1 then db_setChunk p.1 p.2 db else db) db ps in
  db_meta db' = db_meta db ∧
  (∀ k data, (k, data) ∈ ps -> chunkOk k = true -> db_getChunk k db' = Some data) ∧
  (∀ k, k ∉ ps.*1 ∨ chunkOk k = false -> db_getChunk k db' = db_getChunk k db).
Proof.
  revert db. induction ps as [|[k0 d0] ps IH]; intros db Hnd; cbn [foldl].
  - split; [done|]. split; [by intros k data ?%elem_of_nil|done].
  - rewrite fmap_cons in Hnd. apply NoDup_cons in Hnd as [Hnotin Hnd].
    cbn [fst snd] in *.
    set (db1 := if chunkOk k0 then db_setChunk k0 d0 db else db).
    destruct (IH db1 Hnd) as (Hm & Hin & Hout). cbv zeta in Hm, Hin, Hout.
    split_and!.
    + rewrite Hm. unfold db1. by destruct (chunkOk k0).
    + intros k data [[= -> ->]|Hk]%elem_of_cons Hok.
      * rewrite Hout by (by left). unfold db1. rewrite Hok.
        unfold db_getChunk, db_setChunk. cbn. apply lookup_insert_eq.
      * by apply Hin.
    + intros k Hk. rewrite Hout.
      * unfold db1. destruct (chunkOk k0) eqn:Hok0; [|done].
        unfold db_getChunk, db_setChunk. cbn. apply lookup_insert_ne.
        intros ->. destruct Hk as [Hk|Hk]; [|congruence].
        apply Hk. rewrite fmap_cons. left.
      * destruct Hk as [Hk|Hk]; [left|by right].
        intros Hin'. apply Hk. rewrite fmap_cons. by right.
Qed.

Lemma saveWorld_unfold pd chunkOk w db :
  saveWorld pd true chunkOk (w, db) =
  let meta := mkMeta (pd_position pd) (pd_inventory pd) (Some (seed w)) in
  let db1 := db_setMeta "player" meta db in
  let db2 := foldl (fun db (p : PendingWrite) =>
                      if chunkOk p.1 then db_setChunk p.1 p.2 db else db)
                   db1 (issueDirtyWrites w).2 in
  if forallb (fun p : PendingWrite => chunkOk p.1) (issueDirtyWrites w).2
  then (set_dirtyChunks (fun _ => ∅) (issueDirtyWrites w).1, db2, Resolved)
  else ((issueDirtyWrites w).1, db2, Rejected).
Proof. unfold saveWorld. cbn [negb]. by destruct (issueDirtyWrites w). Qed.

(** X28.  A [saveWorld] that nothing interleaves with, from call to
    settlement, in a world whose dirty keys are all cached.  Its loop
    issues one write per dirty key, each carrying the cached volume.  It
    resolves exactly when the metadata write and all of those writes
    succeed.  Once the metadata write has succeeded, the store holds the
    metadata record with the current seed and, for every dirty key whose
    write succeeded, the key's volume; no other chunk record changes.
    On resolution the dirty set loses exactly the keys written, which
    leaves it empty; on rejection it is as before.  The cache is never
    touched. *)
Theorem saveWorld_spec (pd : PlayerData) (metaOk : bool)
    (chunkOk : string -> bool) (w : World) (db : DB) :
  dirty_cached w ->
  let issued := (issueDirtyWrites w).2 in
  let allOk := metaOk && forallb (fun p : PendingWrite => chunkOk p.1) issued in
  let res := saveWorld pd metaOk chunkOk (w, db) in
  let w' := res.1.1 in
  let db' := res.1.2 in
  issued.*1 = elements (dirtyChunks w) ∧
  (∀ k data, (k, data) ∈ issued -> jm_get k (chunksData w) = Some data) ∧
  res.2 = (if allOk then Resolved else Rejected) ∧
  (metaOk = true ->
     db_getMeta "player" db' =
       Some (mkMeta (pd_position pd) (pd_inventory pd) (Some (seed w))) ∧
     ∀ k data, (k, data) ∈ issued -> chunkOk k = true ->
       db_getChunk k db' = Some data) ∧
  (∀ k, k ∉ dirtyChunks w ∨ chunkOk k = false ∨ metaOk = false ->
     db_getChunk k db' = db_getChunk k db) ∧
  dirtyChunks w' =
    (if allOk then dirtyChunks w ∖ list_to_set issued.*1 else dirtyChunks w) ∧
  (allOk = true -> dirtyChunks w' = ∅) ∧
  chunksData w' = chunksData w.
Proof.
  intros Hw. cbv zeta.
  destruct (issueDirtyWrites_all w Hw) as [Hkeys Hissued].
  destruct (issueDirtyWrites_same_store w) as [Hcd Hdirty].
  assert (Hnd : NoDup (issueDirtyWrites w).2.*1).
  { rewrite Hkeys. apply NoDup_elements. }
  assert (Hclear : dirtyChunks w ∖ list_to_set (issueDirtyWrites w).2.*1
                   = (∅ : gset string)).
  { rewrite Hkeys, list_to_set_elements_L. apply difference_diag_L. }
  split; [done|]. split; [intros k data Hk; by apply Hissued|].
  destruct metaOk; cbn [andb].
  - rewrite saveWorld_unfold. cbv zeta.
    set (db1 := db_setMeta _ _ db).
    destruct (settle_lookup chunkOk (issueDirtyWrites w).2 db1 Hnd)
      as (Hmeta & Hin & Hout). cbv zeta in Hmeta, Hin, Hout.
    assert (Hother : ∀ k, k ∉ dirtyChunks w ∨ chunkOk k = false ∨ true = false ->
              db_getChunk k (foldl (fun db (p : PendingWrite) =>
                 if chunkOk p.1 then db_setChunk p.1 p.2 db else db)
                 db1 (issueDirtyWrites w).2) = db_getChunk k db).
    { intros k Hk. rewrite Hout; [done|].
      destruct Hk as [Hk|[Hk|Hk]]; [left|by right|done].
      rewrite Hkeys. by rewrite elem_of_elements. }
    assert (Hm : db_getMeta "player" (foldl (fun db (p : PendingWrite) =>
                 if chunkOk p.1 then db_setChunk p.1 p.2 db else db)
                 db1 (issueDirtyWrites w).2) =
               Some (mkMeta (pd_position pd) (pd_inventory pd) (Some (seed w)))).
    { unfold db_getMeta. rewrite Hmeta. unfold db1, db_setMeta. cbn.
      apply lookup_insert_eq. }
    destruct (forallb _ _); cbn [fst snd].
    + split_and!; done.
    + split_and!; done.
  - cbn [saveWorld negb fst snd]. split_and!; done.
Qed.

Lemma flatWorld_dirty_cached : dirty_cached flatWorld.
Proof. intros k Hk. cbn in Hk. by apply not_elem_of_empty in Hk. Qed.

Lemma editedWorld_dirty_cached : dirty_cached editedWorld.
Proof. apply setBlock_dirty_cached, flatWorld_dirty_cached. Qed.

Lemma saveWorld_spec_witness :
  dirtyChunks
    (saveWorld samplePlayer true (fun _ => true) (editedWorld, db_empty)).1.1 = ∅ ∧
  dirtyChunks
    (saveWorld samplePlayer true (fun _ => false) (editedWorld, db_empty)).1.1
  = dirtyChunks editedWorld.
Proof.
  split.
  - pose proof (saveWorld_spec samplePlayer true (fun _ => true) editedWorld
                  db_empty editedWorld_dirty_cached) as H.
    cbv zeta in H. destruct H as (_ & _ & _ & _ & _ & _ & Hempty & _).
    apply Hempty. vm_compute. reflexivity.
  - pose proof (saveWorld_spec samplePlayer true (fun _ => false) editedWorld
                  db_empty editedWorld_dirty_cached) as H.
    cbv zeta in H. destruct H as (_ & _ & _ & _ & _ & Hdirty & _).
    rewrite Hdirty.
    replace (forallb (fun p : PendingWrite => false) (issueDirtyWrites editedWorld).2)
      with false by (vm_compute; reflexivity).
    reflexivity.
Defined.

(** C8, the failing run.  In a session that has chunks (0, 0) and
    (1, 0) back from the store, a block of chunk (0, 0) is edited, which
    makes that chunk dirty.  [saveWorld] is called and not awaited: its
    loop issues the write of chunk (0, 0), the only dirty one.  While
    that write is pending, a block of chunk (1, 0) is edited, which makes
    chunk (1, 0) dirty.  The write resolves and the last stretch of
    [saveWorld] clears the dirty set: the flag of chunk (1, 0) is gone
    although that chunk was not written.  The cache holds the edit, the
    store still holds the chunk without it, and the next save writes
    nothing. *)
Lemma saveWorld_clears_unwritten_key :
  reachable flatNoise playedWorld ∧
  let w0 := playedWorld in
  let meta := saveWorld_meta samplePlayer w0 in
  let issued := (issueDirtyWrites w0).2 in
  let w1 := (issueDirtyWrites w0).1 in
  let w2 := setBlock w1 19 5 3 STONE in
  let w3 := saveWorld_settled true w2 in
  let db3 := settleWrites (fun _ => true) issued
               (db_setMeta "player" meta storedDB) in
  issued.*1 = [chunkKey 0 0] ∧
  chunkKey 1 0 ∈ dirtyChunks w2 ∧
  dirtyChunks w3 = ∅ ∧
  getBlock w3 19 5 3 = Some STONE ∧
  (db_getChunk (chunkKey 1 0) db3 ≫= fun d => u8_get d (getBlockIndex 3 5 3))
    = Some AIR ∧
  (issueDirtyWrites w3).2 = [].
Proof.
  split; [apply playedWorld_reachable|].
  vm_compute. split_and!; reflexivity.
Qed.

(** ** Sorting by a comparator *)

Lemma insertBy_Permutation {A : Type} (cmp : A -> A -> Z) a l :
  insertBy cmp a l ≡ₚ a :: l.
Proof.
  induction l as [|b l IH]; simpl; [done|].
  destruct (cmp a b <=? 0); [done|].
  rewrite IH. apply Permutation_swap.
Qed.

Lemma sortBy_Permutation {A : Type} (cmp : A -> A -> Z) l : sortBy cmp l ≡ₚ l.
Proof.
  unfold sortBy. induction l as [|a l IH]; simpl; [done|].
  by rewrite insertBy_Permutation, IH.
Qed.

(** Where the comparator is the difference of a measure, the result is
    in descending order of the measure. *)
Lemma insertBy_sorted {A : Type} (cmp : A -> A -> Z) (f : A -> Z) a l :
  (∀ b, b ∈ l -> cmp a b = f b - f a) ->
  StronglySorted (fun x y => f y <= f x) l ->
  StronglySorted (fun x y => f y <= f x) (insertBy cmp a l).
Proof.
  intros Hcmp Hl. induction Hl as [|b l Hb IH Hall]; simpl.
  - repeat constructor.
  - destruct (Z.leb_spec (cmp a b) 0) as [Hle|Hgt].
    + rewrite Hcmp in Hle by left. constructor; [by constructor|].
      constructor; [lia|]. eapply Forall_impl; [exact Hall|].
      intros c Hc. simpl in *. lia.
    + rewrite Hcmp in Hgt by left. constructor.
      * apply IH. intros c Hc. apply Hcmp. by right.
      * rewrite insertBy_Permutation. constructor; [lia|done].
Qed.

Lemma sortBy_sorted {A : Type} (cmp : A -> A -> Z) (f : A -> Z) l :
  (∀ a b, a ∈ l -> b ∈ l -> cmp a b = f b - f a) ->
  StronglySorted (fun x y => f y <= f x) (sortBy cmp l).
Proof.
  unfold sortBy. induction l as [|a l IH]; intros Hcmp; simpl; [constructor|].
  apply insertBy_sorted.
  - intros b Hb. apply Hcmp; [left|right].
    by rewrite <- (sortBy_Permutation cmp l).
  - apply IH. intros x y Hx Hy. apply Hcmp; by right.
Qed.

(** The leading entries of a sorted list dominate the rest. *)
Lemma sorted_take_drop {A : Type} (f : A -> Z) n l x y :
  StronglySorted (fun x y => f y <= f x) l ->
  x ∈ take n l -> y ∈ drop n l -> f y <= f x.
Proof.
  intros Hl Hx Hy. rewrite <- (take_drop n l) in Hl.
  by apply (StronglySorted_app_1_elem_of _ _ _ x y) in Hl.
Qed.

Lemma compareEntries_measure {V : Type} cx cz (a b : string * V) :
  is_chunkKey a.1 -> is_chunkKey b.1 ->
  compareEntries cx cz a b = entryDistance cx cz b - entryDistance cx cz a.
Proof.
  intros (ax & az & Ha) (bx & bz & Hb).
  unfold compareEntries, entryDistance. rewrite Ha, Hb.
  by rewrite !keyDistance_chunkKey.
Qed.

(** ** Eviction *)

Lemma dropMesh_spec key (w0 : World) :
  let w' := match jm_get key (chunks w0) with
            | Some mesh => set_chunks (jm_delete key) (disposeMesh mesh w0)
            | None => w0
            end in
  (∀ k, jm_get k (chunks w') =
        if decide (k = key) then None else jm_get k (chunks w0)) ∧
  scene w' = scene w0 ++ from_option disposeOps [] (jm_get key (chunks w0)) ∧
  knownChunkKeys w' = knownChunkKeys w0 ∧
  loadingChunks w' = loadingChunks w0.
Proof.
  cbv zeta. destruct (jm_get key (chunks w0)) as [mesh|] eqn:Hmesh.
  - split_and!; try reflexivity. intros k. cbn [chunks set_chunks].
    destruct (decide (k = key)) as [->|Hne].
    + apply jm_get_delete_eq.
    + by apply jm_get_delete_ne.
  - split_and!; try reflexivity.
    + intros k. destruct (decide (k = key)) as [->|Hne]; done.
    + cbn. by rewrite app_nil_r.
Qed.

Lemma evictEntry_rest key data w writes :
  let st := evictEntry (key, data) (w, writes) in
  st.2 = writes ++ (if bool_decide (key ∈ dirtyChunks w) then [(key, data)] else []) ∧
  (∀ k, jm_get k (chunks st.1) =
        if decide (k = key) then None else jm_get k (chunks w)) ∧
  scene st.1 = scene w ++ from_option disposeOps [] (jm_get key (chunks w)) ∧
  knownChunkKeys st.1 = knownChunkKeys w ∧
  loadingChunks st.1 = loadingChunks w.
Proof.
  cbv zeta. unfold evictEntry.
  destruct (bool_decide (key ∈ dirtyChunks w)); cbn [fst snd].
  - split; [done|].
    exact (dropMesh_spec key
             (set_chunksData (jm_delete key)
                (set_dirtyChunks (fun d => d ∖ {[key]}) w))).
  - split; [by rewrite app_nil_r|].
    exact (dropMesh_spec key (set_chunksData (jm_delete key) w)).
Qed.

Lemma flat_map_ext_elem {A B : Type} (f g : A -> list B) l :
  (∀ a, a ∈ l -> f a = g a) -> flat_map f l = flat_map g l.
Proof.
  induction l as [|a l IH]; intros H; simpl; [done|].
  rewrite H by left. rewrite IH; [done|]. intros b Hb. apply H. by right.
Qed.

(** The loop of the eviction pass, over entries with distinct keys. *)
Lemma evict_fold (es : list (string * list Z)) w ws :
  NoDup es.*1 ->
  let st := foldl (fun st e => evictEntry e st) (w, ws) es in
  (∀ k, jm_get k (chunksData st.1) =
        if decide (k ∈ es.*1) then None else jm_get k (chunksData w)) ∧
  dirtyChunks st.1 = dirtyChunks w ∖ list_to_set es.*1 ∧
  st.2 = ws ++ List.filter (fun e => bool_decide (e.1 ∈ dirtyChunks w)) es ∧
  (∀ k, jm_get k (chunks st.1) =
        if decide (k ∈ es.*1) then None else jm_get k (chunks w)) ∧
  scene st.1 =
    scene w ++ flat_map (fun e => from_option disposeOps [] (jm_get e.1 (chunks w))) es ∧
  knownChunkKeys st.1 = knownChunkKeys w ∧
  loadingChunks st.1 = loadingChunks w.
Proof.
  revert w ws. induction es as [|[key data] es IH]; intros w ws Hnd.
  - cbn. rewrite difference_empty_L, !app_nil_r. done.
  - rewrite fmap_cons in Hnd. apply NoDup_cons in Hnd as [Hnotin Hnd].
    cbn [fst] in Hnotin. cbn [foldl]. cbv zeta.
    destruct (evictEntry_store key data w ws) as [Hd1 Hdirty1].
    destruct (evictEntry_rest key data w ws) as (Hw1 & Hc1 & Hs1 & Hk1 & Hl1).
    cbv zeta in Hw1, Hc1, Hs1, Hk1, Hl1.
    destruct (evictEntry (key, data) (w, ws)) as [w1 ws1]. cbn [fst snd] in *.
    destruct (IH w1 ws1 Hnd) as (Hd & Hdirty & Hws & Hc & Hs & Hk & Hl).
    cbv zeta in Hd, Hdirty, Hws, Hc, Hs, Hk, Hl.
    assert (Hfilter :
      List.filter (fun e : string * list Z => bool_decide (e.1 ∈ dirtyChunks w1)) es =
      List.filter (fun e : string * list Z => bool_decide (e.1 ∈ dirtyChunks w)) es).
    { apply filter_ext_in. intros e He. apply bool_decide_ext.
      rewrite Hdirty1, elem_of_difference, not_elem_of_singleton.
      split; [by intros [? _]|]. intros Hin. split; [done|].
      intros Heq. apply Hnotin. rewrite <- Heq.
      apply list_elem_of_fmap. exists e. split; [done|by apply list_elem_of_In]. }
    assert (Hflat :
      flat_map (fun e : string * list Z =>
                  from_option disposeOps [] (jm_get e.1 (chunks w1))) es =
      flat_map (fun e : string * list Z =>
                  from_option disposeOps [] (jm_get e.1 (chunks w))) es).
    { apply flat_map_ext_elem. intros e He. rewrite Hc1.
      rewrite decide_False; [done|].
      intros Heq. apply Hnotin. rewrite <- Heq.
      apply list_elem_of_fmap. by exists e. }
    split_and!.
    + intros k. rewrite Hd, Hd1, fmap_cons. cbn [fst].
      destruct (decide (k ∈ es.*1)) as [Hin|Hout].
      * rewrite decide_True; [done|by right].
      * destruct (decide (k = key)) as [->|Hne].
        -- rewrite decide_True by left. apply jm_get_delete_eq.
        -- rewrite decide_False.
           ++ by apply jm_get_delete_ne.
           ++ intros [?|?]%elem_of_cons; done.
    + rewrite Hdirty, Hdirty1, fmap_cons, list_to_set_cons. cbn [fst].
      apply set_eq. intros k.
      rewrite !elem_of_difference, elem_of_union. tauto.
    + rewrite Hws, Hw1, Hfilter. cbn [List.filter fst].
      destruct (bool_decide (key ∈ dirtyChunks w)); by rewrite <- app_assoc.
    + intros k. rewrite Hc, Hc1, fmap_cons. cbn [fst].
      destruct (decide (k ∈ es.*1)) as [Hin|Hout].
      * rewrite decide_True; [done|by right].
      * destruct (decide (k = key)) as [->|Hne].
        -- by rewrite decide_True by left.
        -- rewrite decide_False; [done|].
           intros [?|?]%elem_of_cons; done.
    + rewrite Hs, Hs1, Hflat. cbn [flat_map fst]. by rewrite <- app_assoc.
    + by rewrite Hk, Hk1.
    + by rewrite Hl, Hl1.
Qed.

Lemma jm_delete_size {V : Type} k (m : JsMap V) :
  NoDup (jm_keys m) -> k ∈ jm_keys m ->
  jm_size (jm_delete k m) = jm_size m - 1.
Proof.
  unfold jm_size, jm_keys, jm_delete.
  induction m as [|e m IH]; intros Hnd Hk; [by apply elem_of_nil in Hk|].
  rewrite fmap_cons in Hnd, Hk. apply NoDup_cons in Hnd as [Hnotin Hnd].
  cbn [List.filter]. destruct (decide (e.1 = k)) as [Heq|Hne].
  - rewrite bool_decide_eq_true_2 by done. cbn [negb].
    assert (Hsame : List.filter (fun e0 : string * V => negb (bool_decide (e0.1 = k))) m = m).
    { clear IH Hnd Hk. subst k. induction m as [|e' m IH]; [done|].
      rewrite fmap_cons in Hnotin. apply not_elem_of_cons in Hnotin as [Hne Hnotin].
      cbn [List.filter]. rewrite bool_decide_eq_false_2 by done. cbn [negb].
      by rewrite IH. }
    rewrite Hsame. cbn [length]. lia.
  - rewrite bool_decide_eq_false_2 by done. cbn [negb length].
    apply elem_of_cons in Hk as [Hk|Hk]; [done|].
    specialize (IH Hnd Hk). lia.
Qed.

Lemma evict_fold_size (es : list (string * list Z)) w ws :
  NoDup (jm_keys (chunksData w)) -> NoDup es.*1 ->
  (∀ k, k ∈ es.*1 -> k ∈ jm_keys (chunksData w)) ->
  jm_size (chunksData (foldl (fun st e => evictEntry e st) (w, ws) es).1) =
  jm_size (chunksData w) - Z.of_nat (length es).
Proof.
  revert w ws. induction es as [|[key data] es IH]; intros w ws Hw Hnd Hin.
  - cbn. lia.
  - rewrite fmap_cons in Hnd, Hin. apply NoDup_cons in Hnd as [Hnotin Hnd].
    cbn [fst] in *. cbn [foldl].
    destruct (evictEntry_store key data w ws) as [Hd1 _].
    destruct (evictEntry (key, data) (w, ws)) as [w1 ws1]. cbn [fst] in Hd1.
    rewrite IH; [| |done|].
    + rewrite Hd1, jm_delete_size; [|done|apply Hin; left].
      cbn [length]. lia.
    + rewrite Hd1, jm_keys_delete.
      by apply NoDup_ListNoDup, List.NoDup_filter, NoDup_ListNoDup.
    + intros k Hk. rewrite Hd1. apply elem_of_jm_keys_delete.
      split; [by intros ->|]. apply Hin. by right.
Qed.

Lemma keys_wf_distance {V : Type} cx cz (m : JsMap V) e :
  keys_wf m -> e ∈ m ->
  ∃ ax az, e.1 = chunkKey ax az ∧
           entryDistance cx cz e = (ax - cx) ^ 2 + (az - cz) ^ 2.
Proof.
  intros [_ Hall] He. rewrite Forall_forall in Hall.
  destruct (Hall e.1) as (ax & az & Hkey).
  { apply list_elem_of_fmap. by exists e. }
  exists ax, az. split; [done|].
  unfold entryDistance. by rewrite Hkey, keyDistance_chunkKey.
Qed.

Lemma checkMemory_over_cap pos w :
  500 < jm_size (chunksData w) ->
  checkMemory pos w =
  foldl (fun st e => evictEntry e st) (w, [])
    (take 50 (sortBy (compareEntries (playerChunk pos).1 (playerChunk pos).2)
                     (chunksData w))).
Proof.
  intros Hsize. unfold checkMemory.
  destruct (Z.leb_spec (jm_size (chunksData w)) 500); [lia|].
  by destruct (playerChunk pos).
Qed.

(** C7 (as amended).  With 500 or fewer cached volumes the eviction pass
    changes nothing.  With more, it takes the first 50 entries of the
    cache sorted by descending squared distance from the viewer's chunk:
    50 cached entries with distinct keys, none nearer than any entry
    that stays.  For each of them that is dirty it issues a write of its
    volume and clears its dirty flag; the key joins the known keys when
    that write has succeeded, not before.  Every one of them loses its
    volume in the cache and, if it has one, its mesh, which is removed
    from the scene and disposed. *)
Theorem checkMemory_spec (pos : Vec3) (w : World) :
  keys_wf (chunksData w) ->
  let cx := (playerChunk pos).1 in
  let cz := (playerChunk pos).2 in
  let evicted := take 50 (sortBy (compareEntries cx cz) (chunksData w)) in
  let w' := (checkMemory pos w).1 in
  let writes := (checkMemory pos w).2 in
  (jm_size (chunksData w) <= 500 -> checkMemory pos w = (w, [])) ∧
  (500 < jm_size (chunksData w) ->
   length evicted = 50%nat ∧ NoDup evicted.*1 ∧
   (∀ k data, (k, data) ∈ evicted -> jm_get k (chunksData w) = Some data) ∧
   (∀ e e', e ∈ evicted -> e' ∈ chunksData w -> e' ∉ evicted ->
      entryDistance cx cz e' <= entryDistance cx cz e) ∧
   (∀ e, e ∈ chunksData w ->
      ∃ ax az, e.1 = chunkKey ax az ∧
               entryDistance cx cz e = (ax - cx) ^ 2 + (az - cz) ^ 2) ∧
   writes = List.filter (fun e => bool_decide (e.1 ∈ dirtyChunks w)) evicted ∧
   dirtyChunks w' = dirtyChunks w ∖ list_to_set evicted.*1 ∧
   knownChunkKeys w' = knownChunkKeys w ∧
   (∀ pw db, pw ∈ writes ->
      pw.1 ∈ knownChunkKeys (evictWriteSettled true pw (w', db)).1 ∧
      db_getChunk pw.1 (evictWriteSettled true pw (w', db)).2 = Some pw.2 ∧
      evictWriteSettled false pw (w', db) = (w', db)) ∧
   (∀ k, jm_get k (chunksData w') =
         if decide (k ∈ evicted.*1) then None else jm_get k (chunksData w)) ∧
   jm_size (chunksData w') = jm_size (chunksData w) - 50 ∧
   (∀ k, jm_get k (chunks w') =
         if decide (k ∈ evicted.*1) then None else jm_get k (chunks w)) ∧
   scene w' =
     scene w ++
     flat_map (fun e => from_option disposeOps [] (jm_get e.1 (chunks w))) evicted).
Proof.
  intros Hwf. cbv zeta.
  set (cx := (playerChunk pos).1). set (cz := (playerChunk pos).2).
  set (sorted := sortBy (compareEntries cx cz) (chunksData w)).
  split.
  { intros Hsize. unfold checkMemory.
    by destruct (Z.leb_spec (jm_size (chunksData w)) 500); [|lia]. }
  intros Hsize. rewrite (checkMemory_over_cap pos w Hsize). fold cx cz sorted.
  pose proof Hwf as [Hnd Hkeys].
  assert (Hperm : sorted ≡ₚ chunksData w) by apply sortBy_Permutation.
  assert (Hlen : length (take 50 sorted) = 50%nat).
  { rewrite length_take, Hperm. unfold jm_size in Hsize. lia. }
  assert (Hnds : NoDup sorted.*1).
  { unfold jm_keys in Hnd. by rewrite Hperm. }
  assert (Hnde : NoDup (take 50 sorted).*1).
  { rewrite fmap_take. eapply sublist_NoDup; [exact Hnds|apply sublist_take]. }
  assert (Hsub : ∀ e, e ∈ take 50 sorted -> e ∈ chunksData w).
  { intros e He. rewrite <- Hperm. by apply (subseteq_take 50). }
  assert (Hsorted : StronglySorted
            (fun x y => entryDistance cx cz y <= entryDistance cx cz x) sorted).
  { apply sortBy_sorted. intros a b Ha Hb. rewrite Forall_forall in Hkeys.
    apply compareEntries_measure; apply Hkeys, list_elem_of_fmap; by eexists. }
  destruct (evict_fold (take 50 sorted) w [] Hnde)
    as (Hd & Hdirty & Hws & Hc & Hs & Hk & Hl).
  cbv zeta in Hd, Hdirty, Hws, Hc, Hs, Hk, Hl.
  split_and!; try done.
  - intros k data He. apply jm_get_elem_NoDup; [done|by apply Hsub].
  - intros e e' He He' Hnot.
    apply (sorted_take_drop _ 50 sorted); [done|done|].
    rewrite <- Hperm, <- (take_drop 50 sorted), elem_of_app in He'.
    by destruct He'.
  - intros e He. by apply (keys_wf_distance cx cz (chunksData w)).
  - intros [key data] db Hpw. unfold evictWriteSettled. cbn.
    split_and!; [|apply lookup_insert_eq|done].
    apply elem_of_union. right. by apply elem_of_singleton.
  - rewrite evict_fold_size; [|done|done|].
    + rewrite Hlen. lia.
    + intros k (e & -> & He)%list_elem_of_fmap.
      apply list_elem_of_fmap. exists e. split; [done|by apply Hsub].
Qed.

Lemma crowdedWorld_keys_wf : keys_wf (chunksData crowdedWorld).
Proof.
  unfold keys_wf, jm_keys, crowdedWorld. cbn [chunksData].
  rewrite <- list_fmap_compose. split.
  - apply NoDup_fmap_2; [|apply NoDup_seqZ].
    intros i j Hij. cbn in Hij. apply chunkKey_inj in Hij as [Hij _]. lia.
  - apply Forall_fmap, Forall_forall. intros i _. cbn. by eexists _, _.
Qed.

Lemma checkMemory_spec_witness :
  checkMemory origin flatWorld = (flatWorld, []) ∧
  jm_size (chunksData (checkMemory origin crowdedWorld).1) =
    jm_size (chunksData crowdedWorld) - 50.
Proof.
  split.
  - refine (proj1 (checkMemory_spec origin flatWorld _) _).
    + split; [|repeat constructor; by exists 0, 0].
      apply NoDup_singleton.
    + vm_compute. discriminate.
  - pose proof (proj2 (checkMemory_spec origin crowdedWorld crowdedWorld_keys_wf))
      as H. cbv zeta in H.
    assert (Hsize : 500 < jm_size (chunksData crowdedWorld))
      by (vm_compute; reflexivity).
    destruct (H Hsize) as (_ & _ & _ & _ & _ & _ & _ & _ & _ & _ & Hs & _).
    exact Hs.
Defined.

(** C7, the failing case.  Chunk "500,0" is dirty and the farthest of
    501 cached chunks from a viewer at the origin.  The pass evicts it,
    issues its write and clears its flag, but the key is not among the
    known keys when the pass returns, and it never gets there if the
    write fails. *)
Lemma eviction_known_key_waits :
  let key := chunkKey 500 0 in
  let volume := u8_new (chunkSize * chunkSize * chunkSize) in
  let st := checkMemory origin crowdedWorld in
  500 < jm_size (chunksData crowdedWorld) ∧
  key ∈ dirtyChunks crowdedWorld ∧
  jm_get key (chunksData crowdedWorld) = Some volume ∧
  jm_get key (chunksData st.1) = None ∧
  st.2 = [(key, volume)] ∧
  (key ∉ dirtyChunks st.1) ∧
  (key ∉ knownChunkKeys st.1) ∧
  (key ∉ knownChunkKeys (evictWriteSettled false (key, volume) (st.1, db_empty)).1).
Proof.
  cbv zeta. repeat apply conj.
  - vm_compute. reflexivity.
  - change (chunkKey 500 0 ∈ ({[chunkKey 500 0]} : gset string)).
    by apply elem_of_singleton.
  - vm_compute. reflexivity.
  - vm_compute. reflexivity.
  - vm_compute. reflexivity.
  - match goal with |- ?k ∉ ?X => apply (bool_decide_eq_false_1 (k ∈ X)) end.
    vm_compute. reflexivity.
  - match goal with |- ?k ∉ ?X => apply (bool_decide_eq_false_1 (k ∈ X)) end.
    vm_compute. reflexivity.
  - match goal with |- ?k ∉ ?X => apply (bool_decide_eq_false_1 (k ∈ X)) end.
    vm_compute. reflexivity.
Qed.

(** ** Round trip through the store *)

Lemma setBlock_write w x y z t data :
  let cx := x / chunkSize in
  let cz := z / chunkSize in
  let key := chunkKey cx cz in
  jm_get key (chunksData w) = Some data -> 0 <= y < chunkSize ->
  chunksData (setBlock w x y z t) =
    jm_set key (u8_set data (getBlockIndex (x - cx * chunkSize) y
                               (z - cz * chunkSize)) t) (chunksData w) ∧
  dirtyChunks (setBlock w x y z t) = dirtyChunks w ∪ {[key]}.
Proof.
  intros cx cz key Hdata Hy. unfold setBlock. fold cx cz key. rewrite Hdata.
  destruct (Z.ltb_spec y 0); [lia|]. destruct (Z.leb_spec chunkSize y); [lia|].
  cbn [orb]. cbv zeta. by destruct (jm_get key (chunks _)).
Qed.

Lemma omap_keys_sublist (cd : JsMap (list Z)) (l : list string) :
  (omap (fun k => pair k <$> jm_get k cd) l).*1 `sublist_of` l.
Proof.
  induction l as [|k l IH]; [constructor|].
  change (omap (fun k => pair k <$> jm_get k cd) (k :: l)) with
    (match pair k <$> jm_get k cd with
     | Some y => y :: omap (fun k => pair k <$> jm_get k cd) l
     | None => omap (fun k => pair k <$> jm_get k cd) l
     end).
  destruct (jm_get k cd); cbn [fmap option_fmap option_map].
  - rewrite fmap_cons. cbn [fst]. by constructor.
  - by constructor.
Qed.

Lemma issueDirtyWrites_keys_NoDup w : NoDup (issueDirtyWrites w).2.*1.
Proof.
  rewrite (proj1 (issueDirtyWrites_spec w)).
  eapply sublist_NoDup; [|apply omap_keys_sublist]. apply NoDup_elements.
Qed.

Lemma forallb_const_true {A : Type} (l : list A) : forallb (fun _ => true) l = true.
Proof. by induction l. Qed.

(** After a save in which every write succeeds, the store holds the
    cached volume of every dirty key. *)
Lemma saveWorld_stores pd w db key data :
  key ∈ dirtyChunks w -> jm_get key (chunksData w) = Some data ->
  let saved := saveWorld pd true (fun _ => true) (w, db) in
  saved.2 = Resolved ∧ db_getChunk key saved.1.2 = Some data.
Proof.
  intros Hdirty Hdata. cbv zeta. rewrite saveWorld_unfold. cbv zeta.
  rewrite forallb_const_true. cbn [fst snd]. split; [done|].
  destruct (settle_lookup (fun _ => true) (issueDirtyWrites w).2
              (db_setMeta "player"
                 (mkMeta (pd_position pd) (pd_inventory pd) (Some (seed w))) db)
              (issueDirtyWrites_keys_NoDup w)) as (_ & Hin & _).
  apply Hin; [|done].
  rewrite (proj1 (issueDirtyWrites_spec w)).
  apply elem_of_omap_cached. by rewrite elem_of_elements.
Qed.

(** Whatever the other writes do, a dirty key whose write succeeds has
    its cached volume in the store afterwards; and when the save
    resolves, every write has succeeded. *)
Lemma saveWorld_written pd chunkOk w db k data :
  k ∈ dirtyChunks w -> jm_get k (chunksData w) = Some data ->
  let res := saveWorld pd true chunkOk (w, db) in
  chunkOk k = true ∨ res.2 = Resolved -> db_getChunk k res.1.2 = Some data.
Proof.
  intros Hdirty Hdata. cbv zeta. rewrite saveWorld_unfold. cbv zeta.
  assert (Hin : (k, data) ∈ (issueDirtyWrites w).2).
  { rewrite (proj1 (issueDirtyWrites_spec w)).
    apply elem_of_omap_cached. by rewrite elem_of_elements. }
  destruct (settle_lookup chunkOk (issueDirtyWrites w).2
              (db_setMeta "player"
                 (mkMeta (pd_position pd) (pd_inventory pd) (Some (seed w))) db)
              (issueDirtyWrites_keys_NoDup w)) as (_ & Hset & _).
  cbv zeta in Hset.
  destruct (forallb _ _) eqn:Hall; cbn [fst snd].
  - intros _. apply Hset; [done|].
    rewrite forallb_forall in Hall.
    apply (Hall (k, data)). by apply list_elem_of_In.
  - intros [Hok|[=]]. by apply Hset.
Qed.

(** X29.  In every reachable world, the stretches of [saveWorld] being
    steps of their own, each dirty key has its volume in the RAM cache.
    [setBlock], chunk generation, the write loop and the last stretch of
    [saveWorld], [deleteWorld] and the eviction pass each keep it so, as
    does every other step.  An eviction leaves its key neither dirty nor
    cached.  So the loop of [saveWorld] finds the volume of every dirty
    key: the writes it issues are, key for key, the dirty set, each with
    the cached volume; and after a [saveWorld] that nothing interleaves
    with, the store holds the volume of every key that was dirty at the
    call and whose write succeeded, which is every such key when the
    save resolves. *)
Theorem dirty_keys_cached (lib : NoiseLib) :
  (∀ w, reachable lib w -> dirty_cached w) ∧
  (∀ w x y z t, dirty_cached w -> dirty_cached (setBlock w x y z t)) ∧
  (∀ w rng cx cz, dirty_cached w -> dirty_cached (generateChunk cx cz (w, rng)).1) ∧
  (∀ w, dirty_cached w -> dirty_cached (issueDirtyWrites w).1) ∧
  (∀ w ok, dirty_cached w -> dirty_cached (saveWorld_settled ok w)) ∧
  (∀ w db pd metaOk chunkOk,
     dirty_cached w -> dirty_cached (saveWorld pd metaOk chunkOk (w, db)).1.1) ∧
  (∀ ok w db rng w' db' rng',
     deleteWorld lib ok (w, db, rng) = Some (w', db', rng') -> dirty_cached w') ∧
  (∀ w pos, dirty_cached w -> dirty_cached (checkMemory pos w).1) ∧
  (∀ w w', step lib w w' -> dirty_cached w -> dirty_cached w') ∧
  (∀ key data w writes,
     let w' := (evictEntry (key, data) (w, writes)).1 in
     (key ∉ dirtyChunks w') ∧ jm_get key (chunksData w') = None) ∧
  (∀ w, reachable lib w ->
     (issueDirtyWrites w).2.*1 = elements (dirtyChunks w) ∧
     ∀ k, k ∈ dirtyChunks w ->
       ∃ data, jm_get k (chunksData w) = Some data ∧
               (k, data) ∈ (issueDirtyWrites w).2) ∧
  (∀ w db pd chunkOk, reachable lib w ->
     let res := saveWorld pd true chunkOk (w, db) in
     ∀ k, k ∈ dirtyChunks w ->
       ∃ data, jm_get k (chunksData w) = Some data ∧
               (chunkOk k = true ∨ res.2 = Resolved ->
                db_getChunk k res.1.2 = Some data)).
Proof.
  split_and!.
  - apply reachable_dirty_cached.
  - intros. by apply setBlock_dirty_cached.
  - intros. by apply generateChunk_dirty_cached.
  - intros. by apply issueDirtyWrites_dirty_cached.
  - intros. by apply saveWorld_settled_dirty_cached.
  - intros. by apply saveWorld_dirty_cached.
  - intros. by eapply deleteWorld_dirty_cached.
  - intros. by apply checkMemory_dirty_cached.
  - apply step_dirty_cached.
  - intros key data w writes. cbv zeta.
    destruct (evictEntry_store key data w writes) as [Hd Hdirty].
    rewrite Hd, Hdirty. split; [|apply jm_get_delete_eq].
    intros [_ Hne]%elem_of_difference. apply Hne. by apply elem_of_singleton.
  - intros w Hw. apply reachable_dirty_cached in Hw.
    destruct (issueDirtyWrites_all w Hw) as [Hkeys Hissued].
    split; [done|]. intros k Hk. destruct (Hw k Hk) as [data Hdata].
    exists data. split; [done|]. by apply Hissued.
  - intros w db pd chunkOk Hw. cbv zeta. intros k Hk.
    apply reachable_dirty_cached in Hw. destruct (Hw k Hk) as [data Hdata].
    exists data. split; [done|]. by apply saveWorld_written.
Qed.

(** C10, the failing run.  In a session that has chunks (0, 0) and
    (1, 0) back from the store, a block of chunk (0, 0) is edited, which
    makes that chunk dirty.  [saveWorld] is called and not awaited: its
    loop issues the write of chunk (0, 0).  While that write is pending,
    a tick reaches [ensureChunk] for chunk (2, 0), which is neither
    cached nor known: it is generated and marked dirty, its volume being
    in the cache.  The write resolves and the last stretch of
    [saveWorld] clears the dirty set: chunk (2, 0) is no longer dirty
    although it was never written.  Its volume is in the cache only: the
    store has no record of it, its key is not known, and the next save
    writes nothing. *)
Lemma saveWorld_drops_generated_chunk :
  reachable flatNoise playedWorld ∧
  let w0 := playedWorld in
  let meta := saveWorld_meta samplePlayer w0 in
  let issued := (issueDirtyWrites w0).2 in
  let w1 := (issueDirtyWrites w0).1 in
  let w2 := (ensureChunk 2 0 (chunkKey 2 0) (w1, calmRng)).1.1 in
  let w3 := saveWorld_settled true w2 in
  let db3 := settleWrites (fun _ => true) issued
               (db_setMeta "player" meta storedDB) in
  issued.*1 = [chunkKey 0 0] ∧
  chunkKey 2 0 ∈ dirtyChunks w2 ∧
  jm_has (chunkKey 2 0) (chunksData w2) = true ∧
  dirtyChunks w3 = ∅ ∧
  jm_has (chunkKey 2 0) (chunksData w3) = true ∧
  db_getChunk (chunkKey 2 0) db3 = None ∧
  (chunkKey 2 0 ∉ knownChunkKeys w3) ∧
  (issueDirtyWrites w3).2 = [].
Proof.
  split; [apply playedWorld_reachable|].
  vm_compute. split_and!; try reflexivity. intros H. discriminate H.
Qed.

Lemma known_fold (keys : list string) w :
  let w' := foldl (fun w k => set_knownChunkKeys (fun s => s ∪ {[k]}) w) w keys in
  knownChunkKeys w' = knownChunkKeys w ∪ list_to_set keys ∧
  chunksData w' = chunksData w ∧ chunks w' = chunks w ∧
  loadingChunks w' = loadingChunks w ∧ dirtyChunks w' = dirtyChunks w.
Proof.
  revert w. induction keys as [|k keys IH]; intros w; cbn [foldl].
  - cbn. by rewrite union_empty_r_L.
  - destruct (IH (set_knownChunkKeys (fun s => s ∪ {[k]}) w))
      as (Hk & Hd & Hc & Hl & Hdirty). cbv zeta in Hk, Hd, Hc, Hl, Hdirty.
    cbv zeta. rewrite Hk, Hd, Hc, Hl, Hdirty. split_and!; try done.
    rewrite list_to_set_cons. cbn [knownChunkKeys set_knownChunkKeys].
    by rewrite <- (assoc_L (∪)).
Qed.

(** What [loadWorld] does to the world when the store is available. *)
Lemma loadWorld_spec lib w db :
  ∃ w' res, loadWorld lib true (w, db) = Some (w', res) ∧
    knownChunkKeys w' = knownChunkKeys w ∪ list_to_set (db_keysChunks db) ∧
    chunksData w' = chunksData w ∧ chunks w' = chunks w ∧
    loadingChunks w' = loadingChunks w ∧ dirtyChunks w' = dirtyChunks w.
Proof.
  unfold loadWorld. cbn [negb].
  destruct (known_fold (db_keysChunks db) w) as (Hk & Hd & Hc & Hl & Hdirty).
  cbv zeta in Hk, Hd, Hc, Hl, Hdirty.
  eexists _, _. split; [reflexivity|].
  destruct (db_getMeta "player" db) as [m|]; [|done].
  by destruct (meta_seed m).
Qed.

Lemma db_keysChunks_elem key data db :
  db_getChunk key db = Some data -> key ∈ db_keysChunks db.
Proof.
  intros H. unfold db_keysChunks. apply list_elem_of_fmap.
  exists (key, data). split; [done|]. by apply elem_of_map_to_list.
Qed.

Lemma World_new_empty lib rng :
  chunksData (World_new lib rng).1 = [] ∧ chunks (World_new lib rng).1 = [] ∧
  knownChunkKeys (World_new lib rng).1 = ∅ ∧
  loadingChunks (World_new lib rng).1 = ∅ ∧
  dirtyChunks (World_new lib rng).1 = ∅.
Proof.
  unfold World_new. destruct (randomSeed rng) as [s rng1].
  by destruct (createNoiseTexture rng1) as [tex rng2].
Qed.

(** C1.  Let the chunk of [(x, z)] be cached with a full volume, [y] in
    [0, 16) and [t] a block id.  After [setBlock], a [saveWorld] all of
    whose writes succeed resolves; a world constructed afresh finds the
    chunk's key in the store on [loadWorld]; asking for the chunk issues
    a fetch for it; and when that fetch has delivered the stored volume,
    [getBlock] at [(x, y, z)] returns [t]. *)
Theorem setBlock_save_load_roundtrip (lib : NoiseLib) (w : World) (db : DB)
    (pd : PlayerData) (x y z t : Z) (data : list Z) (rngNew rngTick : Rng) :
  let cx := x / chunkSize in
  let cz := z / chunkSize in
  let key := chunkKey cx cz in
  jm_get key (chunksData w) = Some data -> volume_wf data ->
  0 <= y < chunkSize -> 0 <= t < 256 ->
  let saved := saveWorld pd true (fun _ => true) (setBlock w x y z t, db) in
  let db' := saved.1.2 in
  let fresh := (World_new lib rngNew).1 in
  saved.2 = Resolved ∧
  ∃ w2 res,
    loadWorld lib true (fresh, db') = Some (w2, res) ∧
    let ensured := ensureChunk cx cz key (w2, rngTick) in
    ensured.2 = Some (mkFetch cx cz key) ∧
    let w3 := (chunkFetched (mkFetch cx cz key) (db_getChunk key db') ensured.1).1 in
    getBlock w3 x y z = Some t.
Proof.
  intros cx cz key Hdata Hwf Hy Ht. cbv zeta.
  destruct (setBlock_write w x y z t data Hdata Hy) as [Hcd Hdirty].
  fold cx cz key in Hcd, Hdirty.
  set (index := getBlockIndex (x - cx * chunkSize) y (z - cz * chunkSize)) in *.
  set (data' := u8_set data index t) in *.
  destruct (saveWorld_stores pd (setBlock w x y z t) db key data')
    as [Hres Hstored].
  { rewrite Hdirty. apply elem_of_union. right. by apply elem_of_singleton. }
  { rewrite Hcd. apply jm_get_set_eq. }
  cbv zeta in Hres, Hstored. split; [exact Hres|].
  set (db' := (saveWorld pd true (fun _ => true) (setBlock w x y z t, db)).1.2) in *.
  destruct (World_new_empty lib rngNew) as (Hf1 & Hf2 & Hf3 & Hf4 & _).
  destruct (loadWorld_spec lib (World_new lib rngNew).1 db')
    as (w2 & res & Hload & Hk & Hd & Hc & Hl & _).
  exists w2, res. split; [exact Hload|].
  rewrite Hf1 in Hd. rewrite Hf2 in Hc. rewrite Hf3 in Hk. rewrite Hf4 in Hl.
  assert (Hknown : key ∈ knownChunkKeys w2).
  { rewrite Hk. apply elem_of_union. right. apply elem_of_list_to_set.
    by apply (db_keysChunks_elem key data'). }
  assert (Hens : ensureChunk cx cz key (w2, rngTick) =
                 (set_loadingChunks (fun l => l ∪ {[key]}) w2, rngTick,
                  Some (mkFetch cx cz key))).
  { unfold ensureChunk. rewrite Hd, jm_get_nil.
    rewrite bool_decide_eq_true_2 by done.
    rewrite bool_decide_eq_false_2; [done|].
    rewrite Hl. apply not_elem_of_empty. }
  rewrite Hens. cbn [fst snd]. split; [done|].
  rewrite Hstored. unfold chunkFetched. cbn [f_key f_cx f_cz fst snd].
  unfold getBlock. fold cx cz key. cbn [chunksData set_loadingChunks].
  rewrite (proj1 (buildChunkMesh_same_store _ _ _ _)).
  cbn [chunksData set_chunksData set_loadingChunks].
  rewrite jm_get_set_eq.
  destruct (Z.ltb_spec y 0); [lia|]. destruct (Z.leb_spec chunkSize y); [lia|].
  cbn [orb]. fold index. unfold data'.
  rewrite u8_get_set_eq.
  - by rewrite Z.mod_small.
  - rewrite (volume_wf_length _ Hwf). apply getBlockIndex_range.
    unfold in_chunk. split_and!; try apply local_coord_range; lia.
Qed.

Lemma setBlock_save_load_roundtrip_witness :
  ∃ w2 res,
    loadWorld flatNoise true
      ((World_new flatNoise calmRng).1,
       (saveWorld samplePlayer true (fun _ => true)
          (setBlock flatWorld 3 5 3 STONE, db_empty)).1.2) = Some (w2, res) ∧
    getBlock
      (chunkFetched (mkFetch 0 0 (chunkKey 0 0))
         (db_getChunk (chunkKey 0 0)
            (saveWorld samplePlayer true (fun _ => true)
               (setBlock flatWorld 3 5 3 STONE, db_empty)).1.2)
         (ensureChunk 0 0 (chunkKey 0 0) (w2, treeRng)).1).1 3 5 3 = Some STONE.
Proof.
  destruct (setBlock_save_load_roundtrip flatNoise flatWorld db_empty samplePlayer
              3 5 3 STONE flatVolume calmRng treeRng)
    as (_ & w2 & res & Hload & _ & Hget).
  - reflexivity.
  - vm_compute. reflexivity.
  - unfold chunkSize. lia.
  - unfold STONE. lia.
  - exists w2, res. split; [exact Hload|exact Hget].
Defined.

(** ** Cache keys and volumes of reachable worlds *)

Lemma keys_wf_same_store w w' :
  keys_wf (chunksData w) -> same_store w w' -> keys_wf (chunksData w').
Proof. intros H [Hd _]. by rewrite Hd. Qed.

Lemma setBlock_keys_wf w x y z t :
  keys_wf (chunksData w) -> keys_wf (chunksData (setBlock w x y z t)).
Proof.
  intros Hw. unfold setBlock.
  destruct (jm_get _ (chunksData w)) as [data|] eqn:Hdata; [|done].
  destruct (_ || _); [done|]. cbv zeta.
  assert (Hset : keys_wf (jm_set (chunkKey (x / chunkSize) (z / chunkSize))
             (u8_set data (getBlockIndex (x - x / chunkSize * chunkSize) y
                (z - z / chunkSize * chunkSize)) t) (chunksData w)))
    by (by apply keys_wf_set).
  by destruct (jm_get _ (chunks _)).
Qed.

Lemma generateChunk_keys_wf cx cz w rng :
  keys_wf (chunksData w) -> keys_wf (chunksData (generateChunk cx cz (w, rng)).1).
Proof. intros Hw. rewrite generateChunk_chunksData. by apply keys_wf_set. Qed.

Lemma ensureChunk_keys_wf cx cz key w rng :
  keys_wf (chunksData w) ->
  keys_wf (chunksData (ensureChunk cx cz key (w, rng)).1.1).
Proof.
  intros Hw. unfold ensureChunk. destruct (jm_get _ _).
  - eapply keys_wf_same_store; [done|apply buildChunkMesh_same_store].
  - destruct (bool_decide (key ∈ knownChunkKeys w)).
    + destruct (bool_decide _); exact Hw.
    + by apply generateChunk_keys_wf.
Qed.

Lemma chunkFetched_keys_wf f data w rng :
  f_key f = chunkKey (f_cx f) (f_cz f) ->
  keys_wf (chunksData w) -> keys_wf (chunksData (chunkFetched f data (w, rng)).1).
Proof.
  intros Hkey Hw. unfold chunkFetched. destruct data as [data|].
  - cbn [fst]. cbn [chunksData set_loadingChunks].
    rewrite (proj1 (buildChunkMesh_same_store _ _ _ _)).
    cbn [chunksData set_chunksData]. rewrite Hkey. by apply keys_wf_set.
  - pose proof (generateChunk_keys_wf (f_cx f) (f_cz f) w rng Hw) as H.
    by destruct (generateChunk _ _ _) as [w' rng'].
Qed.

Lemma checkMemory_keys_wf pos w :
  keys_wf (chunksData w) -> keys_wf (chunksData (checkMemory pos w).1).
Proof.
  intros Hw. unfold checkMemory. destruct (_ <=? _); [done|].
  destruct (playerChunk pos) as [cx cz].
  apply (foldl_invariant (fun st => keys_wf (chunksData st.1))); [done|].
  intros [w' writes] [key data] _ Hw'. cbn [fst] in *.
  rewrite (proj1 (evictEntry_store key data w' writes)).
  by apply keys_wf_delete.
Qed.

Lemma update_keys_wf isMobile pos w rng :
  keys_wf (chunksData w) ->
  keys_wf (chunksData (t_world (update isMobile pos (w, rng)))).
Proof.
  intros Hw. unfold update. destruct (playerChunk pos) as [cx cz].
  set (t := forZ _ _ _ _).
  assert (Ht : keys_wf (chunksData (t_world t))).
  { unfold t.
    apply (forZ_invariant (fun t => keys_wf (chunksData (t_world t)))); [done|].
    intros x t1 _ Ht1.
    apply (forZ_invariant (fun t => keys_wf (chunksData (t_world t)))); [done|].
    intros z t2 _ Ht2. unfold activate. destruct (jm_has _ _); [done|].
    pose proof (ensureChunk_keys_wf x z (chunkKey x z) _ (t_rng t2) Ht2) as H.
    by destruct (ensureChunk _ _ _ _) as [[w' rng'] f]. }
  assert (Hu : keys_wf (chunksData
             (unloadFar (activeKeys cx cz (if isMobile then 2 else 3)) (t_world t)))).
  { eapply keys_wf_same_store; [exact Ht|apply unloadFar_same_store]. }
  destruct (random (t_rng t)) as [r rng'].
  destruct (Qltb r _); [|done].
  pose proof (checkMemory_keys_wf pos _ Hu) as Hc.
  by destruct (checkMemory _ _) as [w' writes].
Qed.

Lemma saveWorld_chunksData pd metaOk chunkOk w db :
  chunksData (saveWorld pd metaOk chunkOk (w, db)).1.1 = chunksData w.
Proof.
  unfold saveWorld. destruct metaOk; [|done]. cbn [negb].
  pose proof (issueDirtyWrites_same_store w) as [Hd _].
  destruct (issueDirtyWrites w) as [w' ps]. cbn [fst] in Hd.
  by destruct (forallb _ _).
Qed.

Lemma step_keys_wf lib w w' :
  step lib w w' -> keys_wf (chunksData w) -> keys_wf (chunksData w').
Proof.
  intros Hstep Hw. destruct Hstep.
  - by apply setBlock_keys_wf.
  - by apply generateChunk_keys_wf.
  - by apply ensureChunk_keys_wf.
  - by apply chunkFetched_keys_wf.
  - by apply checkMemory_keys_wf.
  - eapply keys_wf_same_store; [done|apply evictWriteSettled_same_store].
  - by apply update_keys_wf.
  - eapply keys_wf_same_store; [done|apply issueDirtyWrites_same_store].
  - by destruct ok.
  - eapply keys_wf_same_store; [done|by eapply loadWorld_same_store].
  - revert H. unfold deleteWorld. cbn [negb].
    destruct (randomSeed rng) as [s rng1]. intros [= <- _ _].
    set (w1 := foldl _ _ _).
    assert (H1 : chunksData w1 = []).
    { unfold w1. by apply (foldl_invariant (fun w => chunksData w = [])). }
    cbn [chunksData set_seed set_chunks]. rewrite H1. apply keys_wf_nil.
Qed.

(** In every reachable world the cache holds one entry per key, under
    chunk keys only. *)
Lemma reachable_keys_wf lib w : reachable lib w -> keys_wf (chunksData w).
Proof.
  induction 1 as [rng|w w' _ IH Hstep].
  - rewrite (proj1 (World_new_empty lib rng)). apply keys_wf_nil.
  - by eapply step_keys_wf.
Qed.

(** A generated volume is a full chunk volume, and an edit keeps it
    one. *)
Lemma generateVolume_wf noise cx cz rng :
  volume_wf (generateVolume noise cx cz rng).1.
Proof.
  unfold generateVolume.
  destruct (terrainPass_spec noise cx cz _ new_volume_wf) as [Hwf _].
  destruct (treePass_grown
    (terrainPass noise cx cz (u8_new (chunkSize * chunkSize * chunkSize)), rng))
    as [Hlen _].
  cbn [fst] in Hlen. unfold volume_wf in *. by rewrite Hlen.
Qed.

(* ===================================================================== *)
(** ** The seeded generator *)
(* ===================================================================== *)

Lemma toUint32_range z : 0 <= toUint32 z < 4294967296.
Proof. unfold toUint32. change (2 ^ 32) with 4294967296. apply Z.mod_pos_bound. lia. Qed.

Lemma ushr32_zero a : ushr32 a 0 = toUint32 a.
Proof. unfold ushr32. change (0 mod 32) with 0. apply Z.shiftr_0_r. Qed.

Lemma mulberry32_next_sample a :
  ∃ k, 0 <= k < 4294967296 ∧ (mulberry32_next a).1 = Qmake k 4294967296.
Proof.
  unfold mulberry32_next. cbv zeta. cbn [fst].
  eexists. split; [|reflexivity]. rewrite ushr32_zero. apply toUint32_range.
Qed.

Lemma mulberry32_next_counter a : (mulberry32_next a).2 = a + 0x6D2B79F5.
Proof. reflexivity. Qed.

Lemma mulberry32_counter a n :
  mulberry32 a n = (mulberry32_next (a + Z.of_nat n * 0x6D2B79F5)).1.
Proof.
  revert a. induction n as [|n IH]; intros a.
  - cbn [mulberry32]. f_equal. f_equal. lia.
  - cbn [mulberry32]. rewrite IH, mulberry32_next_counter. f_equal. f_equal. lia.
Qed.

(** X1.  Every sample of the generator that [createNoiseGenerator] hands
    to the noise library is a multiple of 2^-32 in [0, 1), and sample
    number [n] is the one computed from the counter
    [seed + (n + 1) * 0x6D2B79F5]: the stream is a function of the seed
    alone. *)
Theorem mulberry32_unit_interval (a : Z) (n : nat) :
  (0 <= mulberry32 a n)%Q ∧ (mulberry32 a n < 1)%Q ∧
  (∃ k, 0 <= k < 4294967296 ∧ mulberry32 a n = Qmake k 4294967296) ∧
  mulberry32 a n = (mulberry32_next (a + Z.of_nat n * 0x6D2B79F5)).1.
Proof.
  destruct (mulberry32_next_sample (a + Z.of_nat n * 0x6D2B79F5)) as (k & Hk & Hs).
  rewrite mulberry32_counter, Hs.
  split; [|split; [|split]].
  - unfold Qle. cbn. lia.
  - unfold Qlt. cbn. lia.
  - exists k. split; [exact Hk|reflexivity].
  - reflexivity.
Qed.

(* ===================================================================== *)
(** ** New seeds *)
(* ===================================================================== *)

Lemma randomSeed_range rng :
  rng_valid rng ->
  0 <= (randomSeed rng).1 < 2147483647 ∧ rng_valid (randomSeed rng).2.
Proof.
  intros Hv. unfold randomSeed, random. cbn [fst snd].
  destruct (Hv 0%nat) as [H0 H1].
  split; [|intros n; apply Hv].
  split.
  - change 0 with (Qfloor 0). apply Qfloor_resp_le.
    apply Qmult_le_0_compat; [exact H0|discriminate].
  - assert (Hlt : (rng 0%nat * 2147483647 < 1 * 2147483647)%Q).
    { apply Qmult_lt_compat_r; [reflexivity|exact H1]. }
    change (1 * 2147483647)%Q with (inject_Z 2147483647) in Hlt.
    apply Qlt_not_le in Hlt.
    destruct (Z_lt_le_dec (Qfloor (rng 0%nat * 2147483647)) 2147483647) as [|Hge];
      [assumption|].
    exfalso. apply Hlt.
    eapply Qle_trans; [|apply Qfloor_le].
    rewrite <- Zle_Qle. exact Hge.
Qed.

Lemma World_new_seed lib rng : seed (World_new lib rng).1 = (randomSeed rng).1.
Proof.
  unfold World_new. destruct (randomSeed rng) as [s r].
  destruct (createNoiseTexture r). reflexivity.
Qed.

Lemma deleteWorld_seed lib w db rng w' db' rng' :
  deleteWorld lib true (w, db, rng) = Some (w', db', rng') ->
  seed w' = (randomSeed rng).1 ∧ rng' = (randomSeed rng).2 ∧ db' = db_empty.
Proof.
  unfold deleteWorld. cbn [negb]. cbv zeta.
  destruct (randomSeed rng) as [s r]. intros [= <- <- <-]. done.
Qed.

(** X2.  With [Math.random] in [0, 1), the seed drawn by the constructor
    and the one drawn by a successful [deleteWorld] lie in
    [0, 2147483647), and in both cases the sampler in use afterwards is
    the one built from that seed. *)
Theorem fresh_seed_range (lib : NoiseLib) (rng : Rng) :
  rng_valid rng ->
  (0 <= seed (World_new lib rng).1 < 2147483647 ∧
   noise2D (World_new lib rng).1 = lib (mulberry32 (seed (World_new lib rng).1))) ∧
  (∀ w db w' db' rng',
     deleteWorld lib true (w, db, rng) = Some (w', db', rng') ->
     0 <= seed w' < 2147483647 ∧ noise2D w' = lib (mulberry32 (seed w'))).
Proof.
  intros Hv. destruct (randomSeed_range rng Hv) as [Hs _].
  split.
  - rewrite World_new_seed. split; [exact Hs|].
    rewrite <- World_new_seed with (lib := lib). apply (World_new_synced lib rng).
  - intros w db w' db' rng' Hdel.
    destruct (deleteWorld_seed _ _ _ _ _ _ _ Hdel) as (-> & _ & _).
    split; [exact Hs|].
    pose proof (deleteWorld_synced _ _ _ _ _ _ _ _ Hdel) as Hsync.
    unfold noise_synced, createNoiseGenerator in Hsync. rewrite Hsync.
    destruct (deleteWorld_seed _ _ _ _ _ _ _ Hdel) as (-> & _ & _). reflexivity.
Qed.

Lemma fresh_seed_range_witness :
  0 <= seed (World_new flatNoise calmRng).1 < 2147483647.
Proof. apply (fresh_seed_range flatNoise calmRng calmRng_valid). Defined.

(* ===================================================================== *)
(** ** Keys and world coordinates *)
(* ===================================================================== *)

(** X3.  A chunk key is read back by [split(',').map(Number)] as the pair
    of chunk coordinates it was made from, so different chunks never
    share a key, and the squared distance that eviction computes from a
    key is the one of its chunk. *)
Theorem chunkKey_roundtrip (cx cz : Z) :
  parseKey (chunkKey cx cz) = (Some cx, Some cz) ∧
  (∀ cx' cz', chunkKey cx cz = chunkKey cx' cz' ↔ cx = cx' ∧ cz = cz') ∧
  (∀ px pz, keyDistance px pz (chunkKey cx cz) = Some ((cx - px) ^ 2 + (cz - pz) ^ 2)).
Proof.
  split; [apply parseKey_chunkKey|split].
  - intros cx' cz'. split; [apply chunkKey_inj|]. intros [-> ->]. reflexivity.
  - intros px pz. apply keyDistance_chunkKey.
Qed.

(* ===================================================================== *)
(** ** Reading after writing *)
(* ===================================================================== *)

(** X4.  [hasBlock] and [getBlock] agree everywhere: a cell counts as
    occupied exactly when [getBlock] does not return the air id, also
    outside the loaded chunks and outside the vertical range. *)
Theorem hasBlock_getBlock (w : World) (x y z : Z) :
  hasBlock w x y z = negb (is_type (getBlock w x y z) AIR).
Proof.
  unfold hasBlock, getBlock. cbv zeta.
  destruct (jm_get _ (chunksData w)); [|reflexivity].
  destruct ((y <? 0) || (chunkSize <=? y)); reflexivity.
Qed.

Lemma isChunkLoaded_get w x z :
  isChunkLoaded w x z = true ↔
  is_Some (jm_get (chunkKey (x / chunkSize) (z / chunkSize)) (chunksData w)).
Proof. unfold isChunkLoaded, jm_has. cbv zeta. apply bool_decide_eq_true. Qed.

(** X5.  One equation for every read after a write: [setBlock] changes
    what [getBlock] returns at the written cell only, and there only if
    the chunk is loaded and the height is in range; the value read back
    is the written one modulo 256. *)
Theorem setBlock_getBlock (w : World) (x y z t x' y' z' : Z) :
  (∀ data, jm_get (chunkKey (x / chunkSize) (z / chunkSize)) (chunksData w)
           = Some data -> volume_wf data) ->
  getBlock (setBlock w x y z t) x' y' z' =
  if decide ((x', y', z') = (x, y, z) ∧ isChunkLoaded w x z = true ∧
             0 <= y < chunkSize)
  then Some (t mod 256) else getBlock w x' y' z'.
Proof.
  intros Hwf.
  destruct (jm_get (chunkKey (x / chunkSize) (z / chunkSize)) (chunksData w))
    as [data|] eqn:Hget.
  2:{ assert (Hsame : setBlock w x y z t = w).
      { unfold setBlock. cbv zeta. rewrite Hget. reflexivity. }
      rewrite Hsame. case_decide as Hd; [|reflexivity].
      destruct Hd as (_ & Hl & _). apply isChunkLoaded_get in Hl.
      rewrite Hget in Hl. destruct Hl as [? [=]]. }
  destruct (decide (0 <= y < chunkSize)) as [Hy|Hy].
  2:{ assert (Hsame : setBlock w x y z t = w).
      { unfold setBlock. cbv zeta. rewrite Hget.
        destruct ((y <? 0) || (chunkSize <=? y)) eqn:Hb; [reflexivity|].
        apply orb_false_iff in Hb. lia. }
      rewrite Hsame. case_decide as Hd; [|reflexivity]. tauto. }
  destruct (setBlock_write w x y z t data Hget Hy) as [Hcd _].
  specialize (Hwf data eq_refl).
  unfold getBlock at 1. cbv zeta. rewrite Hcd.
  pose proof (local_coord_range x) as Hlx. pose proof (local_coord_range z) as Hlz.
  pose proof (local_coord_range x') as Hlx'. pose proof (local_coord_range z') as Hlz'.
  destruct (decide (chunkKey (x' / chunkSize) (z' / chunkSize) =
                    chunkKey (x / chunkSize) (z / chunkSize))) as [Hk|Hk].
  - rewrite Hk, jm_get_set_eq.
    apply chunkKey_inj in Hk as [Hcx Hcz].
    unfold getBlock. cbv zeta. rewrite Hcx, Hcz, Hget.
    destruct ((y' <? 0) || (chunkSize <=? y')) eqn:Hb.
    + case_decide as Hd; [|reflexivity].
      destruct Hd as ([= -> -> ->] & _ & _).
      apply orb_true_iff in Hb. lia.
    + apply orb_false_iff in Hb.
      case_decide as Hd.
      * destruct Hd as ([= -> -> ->] & _ & _).
        apply u8_get_set_eq. rewrite (volume_wf_length _ Hwf).
        apply getBlockIndex_range. unfold in_chunk. lia.
      * apply u8_get_set_ne. intros Hidx.
        apply getBlockIndex_inj in Hidx as (Hx & Hy' & Hz);
          [|unfold in_chunk; lia..].
        apply Hd. split; [|split; [|exact Hy]].
        -- f_equal; [f_equal|]; lia.
        -- apply isChunkLoaded_get. rewrite Hget. eauto.
  - rewrite jm_get_set_ne by (intros Heq; apply Hk; symmetry; exact Heq).
    case_decide as Hd; [|reflexivity].
    destruct Hd as ([= -> -> ->] & _ & _). contradiction.
Qed.

Lemma flatVolume_wf : volume_wf flatVolume.
Proof. vm_compute. reflexivity. Qed.

Lemma flatWorld_volumes x z data :
  jm_get (chunkKey (x / chunkSize) (z / chunkSize)) (chunksData flatWorld) = Some data ->
  volume_wf data.
Proof.
  unfold flatWorld. cbn [chunksData].
  pose proof flatVolume_wf as Hwf. revert Hwf. generalize flatVolume. intros v Hwf.
  rewrite jm_get_cons. cbn [fst snd].
  case_decide; [|rewrite jm_get_nil; discriminate].
  intros Hsome. injection Hsome as <-. exact Hwf.
Qed.

Lemma setBlock_getBlock_witness :
  getBlock (setBlock flatWorld 3 5 3 STONE) 3 5 3 = Some (STONE mod 256) ∧
  getBlock (setBlock flatWorld 3 5 3 STONE) 4 5 3 = getBlock flatWorld 4 5 3.
Proof.
  split.
  - rewrite (setBlock_getBlock flatWorld 3 5 3 STONE 3 5 3 (flatWorld_volumes 3 3)).
    apply decide_True. split; [reflexivity|]. split; [vm_compute; reflexivity|].
    unfold chunkSize. lia.
  - rewrite (setBlock_getBlock flatWorld 3 5 3 STONE 4 5 3 (flatWorld_volumes 3 3)).
    apply decide_False. intros [[=] _].
Defined.

(* ===================================================================== *)
(** ** Streaming a chunk in *)
(* ===================================================================== *)

Lemma buildChunkMesh_noop cx cz data w :
  jm_has (chunkKey cx cz) (chunks w) = true -> buildChunkMesh cx cz data w = w.
Proof. intros H. unfold buildChunkMesh. cbv zeta. by rewrite H. Qed.

Lemma jm_has_set {V : Type} k (v : V) m : jm_has k (jm_set k v m) = true.
Proof. unfold jm_has. apply bool_decide_eq_true. rewrite jm_get_set_eq. eauto. Qed.

Lemma buildChunkMesh_has cx cz data w :
  jm_has (chunkKey cx cz) (chunks (buildChunkMesh cx cz data w)) = true.
Proof.
  unfold buildChunkMesh. cbv zeta.
  destruct (jm_has (chunkKey cx cz) (chunks w)) eqn:H; [exact H|].
  cbn [chunks set_chunks set_scene]. apply jm_has_set.
Qed.

Lemma buildChunkMesh_idem cx cz data data' w :
  buildChunkMesh cx cz data' (buildChunkMesh cx cz data w) = buildChunkMesh cx cz data w.
Proof. apply buildChunkMesh_noop, buildChunkMesh_has. Qed.

(** The meshes that were there stay, untouched. *)
Lemma buildChunkMesh_chunks cx cz data w k :
  jm_get k (chunks (buildChunkMesh cx cz data w)) =
  if decide (k = chunkKey cx cz ∧ jm_get k (chunks w) = None)
  then Some (generateChunkMesh data cx cz) else jm_get k (chunks w).
Proof.
  unfold buildChunkMesh. cbv zeta.
  destruct (jm_has (chunkKey cx cz) (chunks w)) eqn:H.
  - case_decide as Hd; [|reflexivity]. destruct Hd as [-> Hn].
    apply bool_decide_eq_true in H. rewrite Hn in H. by destruct H.
  - cbn [chunks set_chunks set_scene].
    apply bool_decide_eq_false in H.
    destruct (decide (k = chunkKey cx cz)) as [->|Hne].
    + rewrite jm_get_set_eq. rewrite decide_True; [reflexivity|].
      split; [reflexivity|]. destruct (jm_get _ (chunks w)); [|reflexivity].
      exfalso. apply H. eauto.
    + rewrite jm_get_set_ne by congruence.
      rewrite decide_False; [reflexivity|]. tauto.
Qed.

Lemma generateChunk_unfold cx cz w rng :
  generateChunk cx cz (w, rng) =
  (buildChunkMesh cx cz (generateVolume (noise2D w) cx cz rng).1
     (set_dirtyChunks (fun d => d ∪ {[chunkKey cx cz]})
        (set_chunksData
           (jm_set (chunkKey cx cz) (generateVolume (noise2D w) cx cz rng).1) w)),
   (generateVolume (noise2D w) cx cz rng).2).
Proof. unfold generateChunk. cbv zeta. by destruct (generateVolume _ _ _ _). Qed.

Lemma generateChunk_fields cx cz w rng :
  let w' := (generateChunk cx cz (w, rng)).1 in
  let key := chunkKey cx cz in
  jm_get key (chunksData w') = Some (generateVolume (noise2D w) cx cz rng).1 ∧
  (∀ k, k ≠ key -> jm_get k (chunksData w') = jm_get k (chunksData w)) ∧
  dirtyChunks w' = dirtyChunks w ∪ {[key]} ∧
  knownChunkKeys w' = knownChunkKeys w ∧
  loadingChunks w' = loadingChunks w ∧
  jm_has key (chunks w') = true.
Proof.
  cbv zeta. rewrite generateChunk_unfold. cbn [fst].
  destruct (buildChunkMesh_frame cx cz (generateVolume (noise2D w) cx cz rng).1
    (set_dirtyChunks (fun d => d ∪ {[chunkKey cx cz]})
        (set_chunksData
           (jm_set (chunkKey cx cz) (generateVolume (noise2D w) cx cz rng).1) w)))
    as (-> & -> & -> & -> & _).
  cbn [chunksData dirtyChunks knownChunkKeys loadingChunks set_dirtyChunks set_chunksData].
  split_and!; try reflexivity.
  - apply jm_get_set_eq.
  - intros k Hk. apply jm_get_set_ne. congruence.
  - apply buildChunkMesh_has.
Qed.

Lemma ensureChunk_unfold cx cz key w rng :
  ensureChunk cx cz key (w, rng) =
  match jm_get key (chunksData w) with
  | Some data => (buildChunkMesh cx cz data w, rng, None)
  | None =>
      if bool_decide (key ∈ knownChunkKeys w) then
        if bool_decide (key ∈ loadingChunks w) then (w, rng, None)
        else (set_loadingChunks (fun l => l ∪ {[key]}) w, rng,
              Some (mkFetch cx cz key))
      else (generateChunk cx cz (w, rng), None)
  end.
Proof. reflexivity. Qed.

Lemma ensureChunk_again cx cz w rng :
  let r := ensureChunk cx cz (chunkKey cx cz) (w, rng) in
  ensureChunk cx cz (chunkKey cx cz) r.1 = (r.1, None).
Proof.
  cbv zeta. rewrite (ensureChunk_unfold cx cz (chunkKey cx cz) w rng).
  destruct (jm_get (chunkKey cx cz) (chunksData w)) as [data|] eqn:Hget.
  { cbn [fst snd]. rewrite ensureChunk_unfold.
    rewrite (proj1 (buildChunkMesh_frame _ _ _ _)), Hget.
    by rewrite buildChunkMesh_idem. }
  destruct (bool_decide (chunkKey cx cz ∈ knownChunkKeys w)) eqn:Hknown.
  - destruct (bool_decide (chunkKey cx cz ∈ loadingChunks w)) eqn:Hload;
      cbn [fst snd]; rewrite ensureChunk_unfold.
    + by rewrite Hget, Hknown, Hload.
    + cbn [chunksData knownChunkKeys loadingChunks set_loadingChunks].
      rewrite Hget, Hknown.
      rewrite bool_decide_eq_true_2; [done|].
      apply elem_of_union. right. by apply elem_of_singleton.
  - cbn [fst snd].
    destruct (generateChunk_fields cx cz w rng) as (Hg & _ & _ & _ & _ & Hhas).
    cbv zeta in Hg, Hhas.
    destruct (generateChunk cx cz (w, rng)) as [w' rng'] eqn:Hgen.
    rewrite ensureChunk_unfold.
    cbn [fst] in Hg, Hhas |- *. rewrite Hg.
    by rewrite buildChunkMesh_noop.
Qed.

Lemma ensureChunk_fetch cx cz key w rng :
  let r := ensureChunk cx cz key (w, rng) in
  match r.2 with
  | Some f =>
      f = mkFetch cx cz key ∧ jm_get key (chunksData w) = None ∧
      key ∈ knownChunkKeys w ∧ (key ∉ loadingChunks w) ∧
      loadingChunks r.1.1 = loadingChunks w ∪ {[key]}
  | None => loadingChunks r.1.1 = loadingChunks w
  end.
Proof.
  cbv zeta. rewrite ensureChunk_unfold.
  destruct (jm_get key (chunksData w)) as [data|] eqn:Hget.
  { cbn [fst snd]. apply (buildChunkMesh_frame cx cz data w). }
  destruct (bool_decide (key ∈ knownChunkKeys w)) eqn:Hknown.
  - destruct (bool_decide (key ∈ loadingChunks w)) eqn:Hload; cbn [fst snd].
    + done.
    + split_and!; try done.
      * by apply bool_decide_eq_true in Hknown.
      * by apply bool_decide_eq_false in Hload.
  - cbn [fst snd]. apply (generateChunk_fields cx cz w rng).
Qed.

(** X7.  When the read of a fetch resolves, the key leaves the loading
    set and the chunk is resident with a mesh.  A record that was found
    becomes the cached volume as it is, and the chunk is not marked
    dirty; a missing record makes the world generate the chunk, which
    marks it dirty.  Other chunks' volumes are not touched. *)
Theorem chunkFetched_resident (f : Fetch) (data : option (list Z))
    (w : World) (rng : Rng) :
  f_key f = chunkKey (f_cx f) (f_cz f) ->
  let r := chunkFetched f data (w, rng) in
  (f_key f ∉ loadingChunks r.1) ∧
  (∀ k, k ≠ f_key f -> k ∈ loadingChunks r.1 ↔ k ∈ loadingChunks w) ∧
  jm_has (f_key f) (chunks r.1) = true ∧
  match data with
  | Some d =>
      jm_get (f_key f) (chunksData r.1) = Some d ∧
      dirtyChunks r.1 = dirtyChunks w ∧ r.2 = rng
  | None =>
      jm_get (f_key f) (chunksData r.1) =
        Some (generateVolume (noise2D w) (f_cx f) (f_cz f) rng).1 ∧
      dirtyChunks r.1 = dirtyChunks w ∪ {[f_key f]}
  end ∧
  (∀ k, k ≠ f_key f -> jm_get k (chunksData r.1) = jm_get k (chunksData w)) ∧
  knownChunkKeys r.1 = knownChunkKeys w.
Proof.
  intros Hkey. cbv zeta. unfold chunkFetched.
  destruct data as [d|].
  - cbn [fst snd loadingChunks set_loadingChunks chunks chunksData dirtyChunks
         knownChunkKeys].
    destruct (buildChunkMesh_frame (f_cx f) (f_cz f) d
                (set_chunksData (jm_set (f_key f) d) w))
      as (Hcd & Hdirty & Hknown & Hload & _).
    rewrite Hcd, Hdirty, Hknown, Hload.
    cbn [chunksData dirtyChunks knownChunkKeys loadingChunks set_chunksData].
    split_and!; try done.
    + intros [_ Hn]%elem_of_difference. apply Hn. by apply elem_of_singleton.
    + intros k Hk. rewrite elem_of_difference, elem_of_singleton. tauto.
    + rewrite Hkey. apply buildChunkMesh_has.
    + apply jm_get_set_eq.
    + intros k Hk. apply jm_get_set_ne. congruence.
  - destruct (generateChunk_fields (f_cx f) (f_cz f) w rng)
      as (Hg & Hother & Hdirty & Hknown & Hload & Hhas).
    cbv zeta in Hg, Hother, Hdirty, Hknown, Hload, Hhas.
    destruct (generateChunk (f_cx f) (f_cz f) (w, rng)) as [w' rng'] eqn:Hgen.
    cbn [fst snd] in *.
    cbn [loadingChunks set_loadingChunks chunks chunksData dirtyChunks knownChunkKeys].
    rewrite Hkey, Hload.
    split_and!; try done.
    + intros [_ Hn]%elem_of_difference. apply Hn. by apply elem_of_singleton.
    + intros k Hk. rewrite elem_of_difference, elem_of_singleton. tauto.
Qed.

Lemma chunkFetched_resident_witness :
  let f := mkFetch 0 0 (chunkKey 0 0) in
  jm_get (f_key f) (chunksData (chunkFetched f (Some stoneSingle) (flatWorld, calmRng)).1)
    = Some stoneSingle ∧
  (f_key f ∉ loadingChunks (chunkFetched f None (flatWorld, calmRng)).1).
Proof.
  cbv zeta.
  destruct (chunkFetched_resident (mkFetch 0 0 (chunkKey 0 0)) (Some stoneSingle)
              flatWorld calmRng eq_refl) as (_ & _ & _ & (Hfound & _) & _).
  destruct (chunkFetched_resident (mkFetch 0 0 (chunkKey 0 0)) None
              flatWorld calmRng eq_refl) as (Hgone & _).
  split; [exact Hfound|exact Hgone].
Defined.

(* ===================================================================== *)
(** ** The active square *)
(* ===================================================================== *)

Lemma elem_of_activeKeys cx cz r x z :
  chunkKey x z ∈ activeKeys cx cz r ↔
  cx - r <= x <= cx + r ∧ cz - r <= z <= cz + r.
Proof.
  unfold activeKeys. rewrite elem_of_flat_map. split.
  - intros (x' & Hx' & Hz'). apply list_elem_of_fmap in Hz' as (z' & Hk & Hz').
    apply chunkKey_inj in Hk as [-> ->].
    apply elem_of_seqZ in Hx'. apply elem_of_seqZ in Hz'. lia.
  - intros [Hx Hz]. exists x. split; [apply elem_of_seqZ; lia|].
    apply list_elem_of_fmap. exists z. split; [reflexivity|apply elem_of_seqZ; lia].
Qed.

Lemma activeKeys_chunkKey cx cz r k :
  k ∈ activeKeys cx cz r -> ∃ x z, k = chunkKey x z.
Proof.
  unfold activeKeys. rewrite elem_of_flat_map.
  intros (x & _ & (z & -> & _)%list_elem_of_fmap). eauto.
Qed.

Lemma flat_map_length_const {A B : Type} (f : A -> list B) (l : list A) c :
  (∀ a, length (f a) = c) -> length (flat_map f l) = (length l * c)%nat.
Proof.
  intros Hc. induction l as [|a l IH]; [reflexivity|].
  cbn [flat_map]. rewrite length_app, Hc, IH. cbn [length]. lia.
Qed.

Lemma activeKeys_length cx cz r :
  0 <= r -> Z.of_nat (length (activeKeys cx cz r)) = (2 * r + 1) * (2 * r + 1).
Proof.
  intros Hr. unfold activeKeys.
  rewrite (flat_map_length_const _ _ (Z.to_nat (2 * r + 1))).
  - rewrite length_seqZ. lia.
  - intros a. by rewrite length_fmap, length_seqZ.
Qed.

(* ===================================================================== *)
(** ** Eviction spares what is near *)
(* ===================================================================== *)

(** The eviction pass, over the cap: the facts about the 50 entries it
    takes. *)
Lemma checkMemory_evicts pos w :
  keys_wf (chunksData w) -> 500 < jm_size (chunksData w) ->
  let cx := (playerChunk pos).1 in
  let cz := (playerChunk pos).2 in
  let sorted := sortBy (compareEntries cx cz) (chunksData w) in
  let st := checkMemory pos w in
  sorted ≡ₚ chunksData w ∧
  NoDup (take 50 sorted).*1 ∧
  (∀ e e', e ∈ take 50 sorted -> e' ∈ drop 50 sorted ->
     entryDistance cx cz e' <= entryDistance cx cz e) ∧
  (∀ k, jm_get k (chunksData st.1) =
        if decide (k ∈ (take 50 sorted).*1) then None else jm_get k (chunksData w)) ∧
  (∀ k, jm_get k (chunks st.1) =
        if decide (k ∈ (take 50 sorted).*1) then None else jm_get k (chunks w)) ∧
  dirtyChunks st.1 = dirtyChunks w ∖ list_to_set (take 50 sorted).*1 ∧
  st.2 = List.filter (fun e => bool_decide (e.1 ∈ dirtyChunks w)) (take 50 sorted) ∧
  knownChunkKeys st.1 = knownChunkKeys w ∧
  loadingChunks st.1 = loadingChunks w.
Proof.
  intros Hwf Hsize. cbv zeta. rewrite (checkMemory_over_cap pos w Hsize).
  set (cx := (playerChunk pos).1). set (cz := (playerChunk pos).2).
  set (sorted := sortBy (compareEntries cx cz) (chunksData w)).
  pose proof Hwf as [Hnd Hkeys].
  assert (Hperm : sorted ≡ₚ chunksData w) by apply sortBy_Permutation.
  assert (Hnds : NoDup sorted.*1).
  { unfold jm_keys in Hnd. by rewrite Hperm. }
  assert (Hnde : NoDup (take 50 sorted).*1).
  { rewrite fmap_take. eapply sublist_NoDup; [exact Hnds|apply sublist_take]. }
  assert (Hsorted : StronglySorted
            (fun x y => entryDistance cx cz y <= entryDistance cx cz x) sorted).
  { apply sortBy_sorted. intros a b Ha Hb. rewrite Forall_forall in Hkeys.
    apply compareEntries_measure; apply Hkeys, list_elem_of_fmap; by eexists. }
  destruct (evict_fold (take 50 sorted) w [] Hnde)
    as (Hd & Hdirty & Hws & Hc & Hs & Hk & Hl).
  cbv zeta in Hd, Hdirty, Hws, Hc, Hs, Hk, Hl.
  split_and!; try done.
  intros e e' He He'. by apply (sorted_take_drop _ 50 sorted).
Qed.

Lemma square_bound a : a ^ 2 <= 120 -> -10 <= a <= 10.
Proof. intros H. nia. Qed.

(** Over the cap, an entry within squared distance 120 of the viewer's
    chunk is not among the 50 that are taken: the 451 or more entries
    that stay would all have to lie in the 21 x 21 square around the
    viewer. *)
Lemma near_not_evicted pos w ax az :
  keys_wf (chunksData w) -> 500 < jm_size (chunksData w) ->
  let cx := (playerChunk pos).1 in
  let cz := (playerChunk pos).2 in
  (ax - cx) ^ 2 + (az - cz) ^ 2 <= 120 ->
  chunkKey ax az ∉ (take 50 (sortBy (compareEntries cx cz) (chunksData w))).*1.
Proof.
  intros Hwf Hsize. cbv zeta.
  set (cx := (playerChunk pos).1). set (cz := (playerChunk pos).2).
  set (sorted := sortBy (compareEntries cx cz) (chunksData w)).
  intros Hnear Hin.
  destruct (checkMemory_evicts pos w Hwf Hsize) as (Hperm & _ & Hfar & _).
  cbv zeta in Hperm, Hfar. fold cx cz sorted in Hperm, Hfar.
  apply list_elem_of_fmap in Hin as (e & Hk & He).
  assert (Hde : entryDistance cx cz e = (ax - cx) ^ 2 + (az - cz) ^ 2).
  { unfold entryDistance. rewrite <- Hk, keyDistance_chunkKey. reflexivity. }
  pose proof Hwf as [Hnd Hkeys].
  assert (Hnds : NoDup sorted.*1).
  { unfold jm_keys in Hnd. by rewrite Hperm. }
  assert (Hndd : NoDup (drop 50 sorted).*1).
  { rewrite fmap_drop. eapply sublist_NoDup; [exact Hnds|apply sublist_drop]. }
  assert (Hsub : (drop 50 sorted).*1 ⊆+ activeKeys cx cz 10).
  { apply NoDup_submseteq; [exact Hndd|].
    intros k (e' & -> & He')%list_elem_of_fmap.
    assert (Hmem : e' ∈ chunksData w).
    { rewrite <- Hperm. rewrite <- (take_drop 50 sorted). apply elem_of_app. by right. }
    destruct (keys_wf_distance cx cz (chunksData w) e' Hwf Hmem)
      as (bx & bz & Hk' & Hd').
    specialize (Hfar e e' He He'). rewrite Hde, Hd' in Hfar.
    rewrite Hk'. apply elem_of_activeKeys.
    assert (Hbx : (bx - cx) ^ 2 <= 120) by nia.
    assert (Hbz : (bz - cz) ^ 2 <= 120) by nia.
    apply square_bound in Hbx. apply square_bound in Hbz. lia. }
  apply submseteq_length in Hsub.
  pose proof (activeKeys_length cx cz 10 ltac:(lia)) as Hlen.
  rewrite length_fmap, length_drop in Hsub.
  assert (Hl : length sorted = length (chunksData w)) by (by rewrite Hperm).
  unfold jm_size in Hsize. lia.
Qed.

Lemma checkMemory_spares_near pos w ax az :
  keys_wf (chunksData w) ->
  let cx := (playerChunk pos).1 in
  let cz := (playerChunk pos).2 in
  (ax - cx) ^ 2 + (az - cz) ^ 2 <= 120 ->
  jm_get (chunkKey ax az) (chunksData (checkMemory pos w).1) =
    jm_get (chunkKey ax az) (chunksData w) ∧
  jm_get (chunkKey ax az) (chunks (checkMemory pos w).1) =
    jm_get (chunkKey ax az) (chunks w).
Proof.
  intros Hwf. cbv zeta. intros Hnear.
  destruct (Z.le_gt_cases (jm_size (chunksData w)) 500) as [Hsmall|Hbig].
  - unfold checkMemory. destruct (Z.leb_spec (jm_size (chunksData w)) 500); [done|lia].
  - apply Z.gt_lt in Hbig || idtac.
    destruct (checkMemory_evicts pos w Hwf ltac:(lia)) as (_ & _ & _ & Hd & Hc & _).
    cbv zeta in Hd, Hc. rewrite Hd, Hc.
    pose proof (near_not_evicted pos w ax az Hwf ltac:(lia) Hnear) as Hn.
    cbv zeta in Hn. by rewrite !decide_False.
Qed.

(** X8.  The eviction pass never takes a chunk near the viewer: with
    one entry per key in the cache, every chunk within squared chunk
    distance 120 of the viewer's chunk (in particular the whole active
    square, radius 3 or 2) keeps its volume and its mesh, and no write is
    issued for it. *)
Theorem eviction_spares_near (pos : Vec3) (w : World) (ax az : Z) :
  keys_wf (chunksData w) ->
  let cx := (playerChunk pos).1 in
  let cz := (playerChunk pos).2 in
  (ax - cx) ^ 2 + (az - cz) ^ 2 <= 120 ->
  let st := checkMemory pos w in
  jm_get (chunkKey ax az) (chunksData st.1) = jm_get (chunkKey ax az) (chunksData w) ∧
  jm_get (chunkKey ax az) (chunks st.1) = jm_get (chunkKey ax az) (chunks w) ∧
  (chunkKey ax az ∈ dirtyChunks st.1 ↔ chunkKey ax az ∈ dirtyChunks w) ∧
  (chunkKey ax az ∉ st.2.*1).
Proof.
  intros Hwf. cbv zeta. intros Hnear.
  destruct (checkMemory_spares_near pos w ax az Hwf Hnear) as [Hd Hc].
  split; [exact Hd|split; [exact Hc|]].
  destruct (Z.le_gt_cases (jm_size (chunksData w)) 500) as [Hsmall|Hbig].
  - unfold checkMemory. destruct (Z.leb_spec (jm_size (chunksData w)) 500); [|lia].
    cbn [fst snd fmap list_fmap]. split; [done|]. apply not_elem_of_nil.
  - destruct (checkMemory_evicts pos w Hwf ltac:(lia))
      as (_ & _ & _ & _ & _ & Hdirty & Hws & _).
    cbv zeta in Hdirty, Hws.
    pose proof (near_not_evicted pos w ax az Hwf ltac:(lia) Hnear) as Hn.
    cbv zeta in Hn. rewrite Hdirty, Hws. split.
    + rewrite elem_of_difference, elem_of_list_to_set. tauto.
    + intros (e & Hk & He)%list_elem_of_fmap.
      apply list_elem_of_In, List.filter_In in He as [He _].
      apply list_elem_of_In in He.
      apply Hn. apply list_elem_of_fmap. by exists e.
Qed.

(* ===================================================================== *)
(** ** One tick of [update] *)
(* ===================================================================== *)

Lemma activeKeys_coords cx cz r :
  activeKeys cx cz r = (fun p : Z * Z => chunkKey p.1 p.2) <$> activeCoords cx cz r.
Proof.
  unfold activeKeys, activeCoords.
  induction (seqZ (cx - r) (2 * r + 1)) as [|x l IH]; [reflexivity|].
  cbn [flat_map]. rewrite fmap_app, <- IH. f_equal.
  rewrite <- list_fmap_compose. reflexivity.
Qed.

Lemma elem_of_activeCoords cx cz r x z :
  (x, z) ∈ activeCoords cx cz r ↔
  cx - r <= x <= cx + r ∧ cz - r <= z <= cz + r.
Proof.
  unfold activeCoords. rewrite elem_of_flat_map. split.
  - intros (x' & Hx' & (z' & [= -> ->] & Hz')%list_elem_of_fmap).
    apply elem_of_seqZ in Hx'. apply elem_of_seqZ in Hz'. lia.
  - intros [Hx Hz]. exists x. split; [apply elem_of_seqZ; lia|].
    apply list_elem_of_fmap. exists z. split; [reflexivity|apply elem_of_seqZ; lia].
Qed.

Lemma activation_foldl cx cz r t :
  activation cx cz r t =
  foldl (fun t (p : Z * Z) => activate p.1 p.2 t) t (activeCoords cx cz r).
Proof.
  unfold activation, activeCoords.
  rewrite (forZ_foldl (fun t (p : Z * Z) => activate p.1 p.2 t) _ _
             (fun x => (fun z => (x, z)) <$> seqZ (cz - r) (2 * r + 1))).
  - by replace (cx + r + 1 - (cx - r)) with (2 * r + 1) by lia.
  - intros x t'. unfold forZ.
    replace (cz + r + 1 - (cz - r)) with (2 * r + 1) by lia.
    by rewrite foldl_fmap.
Qed.

Lemma update_unfold (isMobile : bool) pos w rng :
  let radius := if isMobile then 2 else 3 in
  let cx := (playerChunk pos).1 in
  let cz := (playerChunk pos).2 in
  let t := activation cx cz radius (tick_start w rng) in
  let w1 := unloadFar (activeKeys cx cz radius) (t_world t) in
  update isMobile pos (w, rng) =
  if Qltb (t_rng t 0%nat) (if isMobile then 0.05 else 0.01)%Q
  then mkTick (checkMemory pos w1).1 (random (t_rng t)).2 (t_fetches t)
              (checkMemory pos w1).2
  else mkTick w1 (random (t_rng t)).2 (t_fetches t) [].
Proof.
  cbv zeta. unfold update, activation, tick_start.
  destruct (playerChunk pos) as [cx cz]. cbn [fst snd].
  unfold random. cbn [fst snd].
  destruct (Qltb _ _); [|reflexivity].
  by destruct (checkMemory _ _).
Qed.

Lemma foldl_visited {A B : Type} (Q : B -> A -> Prop) (f : A -> B -> A) l s :
  (∀ b s, b ∈ l -> Q b (f s b)) ->
  (∀ b b' s, b' ∈ l -> Q b s -> Q b (f s b')) ->
  ∀ b, b ∈ l -> Q b (foldl f s l).
Proof.
  revert s. induction l as [|a l IH]; intros s Hnew Hkeep b Hb.
  - by apply elem_of_nil in Hb.
  - cbn [foldl].
    assert (Hpres : ∀ l' s', (∀ b', b' ∈ l' -> b' ∈ a :: l) -> Q b s' ->
                             Q b (foldl f s' l')).
    { intros l'. induction l' as [|c l' IH']; intros s' Hsub Hq; [done|].
      cbn [foldl]. apply IH'.
      - intros b' Hb'. apply Hsub. by right.
      - apply Hkeep; [apply Hsub; by left|done]. }
    apply elem_of_cons in Hb as [->|Hb].
    + apply Hpres; [intros b' Hb'; by right|]. apply Hnew. by left.
    + apply IH; [| |done].
      * intros b' s' Hb'. apply Hnew. by right.
      * intros b1 b' s' Hb'. apply Hkeep. by right.
Qed.

Lemma tick_grows_refl t : tick_grows t t.
Proof. by unfold tick_grows. Qed.

Lemma tick_grows_trans t1 t2 t3 :
  tick_grows t1 t2 -> tick_grows t2 t3 -> tick_grows t1 t3.
Proof.
  intros (H1 & H2 & H3 & H4 & H5 & H6) (G1 & G2 & G3 & G4 & G5 & G6).
  split_and!.
  - intros k d Hk. by apply G1, H1.
  - intros k m Hk. by apply G2, H2.
  - by etrans.
  - by rewrite G4.
  - by etrans.
  - by rewrite G6.
Qed.

Lemma buildChunkMesh_keeps cx cz data w k m :
  jm_get k (chunks w) = Some m ->
  jm_get k (chunks (buildChunkMesh cx cz data w)) = Some m.
Proof.
  intros Hk. rewrite buildChunkMesh_chunks.
  rewrite decide_False; [done|]. intros [_ Hn]. congruence.
Qed.

Lemma ensureChunk_grows x z w rng :
  let r := ensureChunk x z (chunkKey x z) (w, rng) in
  (∀ k d, jm_get k (chunksData w) = Some d -> jm_get k (chunksData r.1.1) = Some d) ∧
  (∀ k m, jm_get k (chunks w) = Some m -> jm_get k (chunks r.1.1) = Some m) ∧
  loadingChunks w ⊆ loadingChunks r.1.1 ∧
  knownChunkKeys r.1.1 = knownChunkKeys w ∧
  dirtyChunks w ⊆ dirtyChunks r.1.1 ∧
  (∀ k, k ∈ knownChunkKeys w ∨ k ≠ chunkKey x z ->
        jm_get k (chunksData r.1.1) = jm_get k (chunksData w)).
Proof.
  cbv zeta. rewrite ensureChunk_unfold.
  destruct (jm_get (chunkKey x z) (chunksData w)) as [data|] eqn:Hget.
  { cbn [fst snd].
    destruct (buildChunkMesh_frame x z data w) as (-> & -> & -> & -> & _).
    split_and!; try done. intros k m. apply buildChunkMesh_keeps. }
  destruct (bool_decide (chunkKey x z ∈ knownChunkKeys w)) eqn:Hknown.
  - destruct (bool_decide (chunkKey x z ∈ loadingChunks w)); cbn [fst snd].
    + done.
    + cbn [chunksData chunks loadingChunks knownChunkKeys dirtyChunks
           set_loadingChunks].
      split_and!; try done. apply union_subseteq_l.
  - cbn [fst snd]. apply bool_decide_eq_false in Hknown.
    destruct (generateChunk_fields x z w rng) as (_ & Hother & Hd & Hk & Hl & _).
    cbv zeta in Hother, Hd, Hk, Hl. split_and!.
    + intros k d Hkd. rewrite Hother; [done|]. intros ->. congruence.
    + intros k m Hkm. rewrite generateChunk_unfold. cbn [fst].
      by apply buildChunkMesh_keeps.
    + by rewrite Hl.
    + done.
    + rewrite Hd. apply union_subseteq_l.
    + intros k [Hin|Hne]; apply Hother; [|done]. intros ->. contradiction.
Qed.

Lemma activate_unfold x z t :
  activate x z t =
  if jm_has (chunkKey x z) (chunks (t_world t)) then t
  else
    mkTick (ensureChunk x z (chunkKey x z) (t_world t, t_rng t)).1.1
           (ensureChunk x z (chunkKey x z) (t_world t, t_rng t)).1.2
           (t_fetches t ++
            option_list (ensureChunk x z (chunkKey x z) (t_world t, t_rng t)).2)
           (t_writes t).
Proof.
  unfold activate. cbv zeta. destruct (jm_has _ _); [reflexivity|].
  by destruct (ensureChunk _ _ _ _) as [[? ?] ?].
Qed.

Lemma activate_grows x z t : tick_grows t (activate x z t).
Proof.
  rewrite activate_unfold. destruct (jm_has _ _); [apply tick_grows_refl|].
  destruct (ensureChunk_grows x z (t_world t) (t_rng t))
    as (H1 & H2 & H3 & H4 & H5 & _).
  cbv zeta in H1, H2, H3, H4, H5. by split_and!.
Qed.

Lemma activation_grows cx cz r t : tick_grows t (activation cx cz r t).
Proof.
  rewrite activation_foldl.
  apply (foldl_invariant (tick_grows t)); [apply tick_grows_refl|].
  intros t' p _ Ht'. eapply tick_grows_trans; [exact Ht'|apply activate_grows].
Qed.

Lemma covered_grows k t t' :
  tick_grows t t' -> covered k (t_world t) -> covered k (t_world t').
Proof.
  intros (_ & H2 & H3 & _) [Hc|Hc]; [left|right; by apply H3].
  unfold jm_has in *. apply bool_decide_eq_true in Hc as [m Hm].
  apply bool_decide_eq_true. rewrite (H2 _ _ Hm). eauto.
Qed.

Lemma ensureChunk_covered x z w rng :
  covered (chunkKey x z) (ensureChunk x z (chunkKey x z) (w, rng)).1.1.
Proof.
  rewrite ensureChunk_unfold.
  destruct (jm_get (chunkKey x z) (chunksData w)) as [data|] eqn:Hget.
  { left. apply buildChunkMesh_has. }
  destruct (bool_decide (chunkKey x z ∈ knownChunkKeys w)) eqn:Hknown.
  - destruct (bool_decide (chunkKey x z ∈ loadingChunks w)) eqn:Hload;
      cbn [fst snd]; right.
    + by apply bool_decide_eq_true in Hload.
    + cbn [loadingChunks set_loadingChunks].
      apply elem_of_union. right. by apply elem_of_singleton.
  - left. cbn [fst]. apply (generateChunk_fields x z w rng).
Qed.

Lemma activate_covered x z t : covered (chunkKey x z) (t_world (activate x z t)).
Proof.
  rewrite activate_unfold. destruct (jm_has _ _) eqn:Hhas; [by left|].
  cbn [t_world]. apply ensureChunk_covered.
Qed.

Lemma activation_covered cx cz r t k :
  k ∈ activeKeys cx cz r -> covered k (t_world (activation cx cz r t)).
Proof.
  rewrite activeKeys_coords, activation_foldl.
  intros (p & -> & Hp)%list_elem_of_fmap.
  apply (foldl_visited (fun (p : Z * Z) t => covered (chunkKey p.1 p.2) (t_world t)));
    [| |exact Hp].
  - intros b s _. apply activate_covered.
  - intros b b' s _. apply covered_grows, activate_grows.
Qed.

(** X6.  [ensureChunk] is idempotent: called again on its own result it
    changes nothing and issues no fetch, so a key has at most one read in
    flight.  After it the chunk has a mesh or is being loaded; a fetch is
    issued only for an uncached, known key that is not yet loading; and
    no volume that was cached is replaced. *)
Theorem ensureChunk_idempotent (cx cz : Z) (w : World) (rng : Rng) :
  let key := chunkKey cx cz in
  let r := ensureChunk cx cz key (w, rng) in
  ensureChunk cx cz key r.1 = (r.1, None) ∧
  covered key r.1.1 ∧
  (∀ f, r.2 = Some f ->
     f = mkFetch cx cz key ∧ jm_get key (chunksData w) = None ∧
     key ∈ knownChunkKeys w ∧ (key ∉ loadingChunks w) ∧
     loadingChunks r.1.1 = loadingChunks w ∪ {[key]}) ∧
  (r.2 = None -> loadingChunks r.1.1 = loadingChunks w) ∧
  (∀ k d, jm_get k (chunksData w) = Some d -> jm_get k (chunksData r.1.1) = Some d) ∧
  (∀ k m, jm_get k (chunks w) = Some m -> jm_get k (chunks r.1.1) = Some m).
Proof.
  cbv zeta. split; [apply ensureChunk_again|].
  split; [apply ensureChunk_covered|].
  pose proof (ensureChunk_fetch cx cz (chunkKey cx cz) w rng) as Hf.
  destruct (ensureChunk_grows cx cz w rng) as (Hd & Hm & _).
  cbv zeta in Hf, Hd, Hm.
  split_and!; try done.
  - intros f Heq. by rewrite Heq in Hf.
  - intros Heq. by rewrite Heq in Hf.
Qed.

Lemma unloadFar_fold (active : list string) (l : list (string * Mesh)) w0 :
  let w' := foldl (fun w (e : string * Mesh) =>
                     if bool_decide (e.1 ∈ active) then w
                     else set_chunks (jm_delete e.1) (disposeMesh e.2 w)) w0 l in
  (∀ k, jm_get k (chunks w') =
        if decide ((k ∉ active) ∧ k ∈ l.*1) then None else jm_get k (chunks w0)) ∧
  loadingChunks w' = loadingChunks w0 ∧
  knownChunkKeys w' = knownChunkKeys w0 ∧
  chunksData w' = chunksData w0 ∧
  dirtyChunks w' = dirtyChunks w0 ∧
  scene w' = scene w0 ++
    flat_map (fun e : string * Mesh =>
                if bool_decide (e.1 ∈ active) then [] else disposeOps e.2) l.
Proof.
  revert w0. induction l as [|e l IH]; intros w0; cbv zeta.
  - cbn [foldl fmap list_fmap flat_map]. rewrite app_nil_r. split_and!; try done.
    intros k. rewrite decide_False; [done|].
    intros [_ H]. by apply elem_of_nil in H.
  - cbn [foldl flat_map]. rewrite fmap_cons.
    destruct (bool_decide (e.1 ∈ active)) eqn:He.
    + destruct (IH w0) as (Hc & Hl & Hk & Hd & Hdi & Hs). cbv zeta in *.
      split_and!; try done.
      intros k. rewrite Hc. apply bool_decide_eq_true in He.
      destruct (decide (k = e.1)) as [->|Hne].
      * rewrite !decide_False; tauto.
      * repeat case_decide; try done.
        -- exfalso. apply H0. split; [tauto|]. right. tauto.
        -- exfalso. destruct H0 as [Hn Hin].
           apply elem_of_cons in Hin as [?|?]; tauto.
    + destruct (IH (set_chunks (jm_delete e.1) (disposeMesh e.2 w0)))
        as (Hc & Hl & Hk & Hd & Hdi & Hs). cbv zeta in *.
      rewrite Hl, Hk, Hd, Hdi, Hs.
      split_and!; try done.
      * intros k. rewrite Hc. apply bool_decide_eq_false in He.
        cbn [chunks set_chunks disposeMesh set_scene].
        destruct (decide (k = e.1)) as [->|Hne].
        -- rewrite jm_get_delete_eq.
           rewrite (decide_True (P := _ ∧ e.1 ∈ e.1 :: l.*1));
             [by case_decide|]. split; [done|by left].
        -- rewrite jm_get_delete_ne by congruence.
           repeat case_decide; try done.
           ++ exfalso. apply H0. split; [tauto|]. right. tauto.
           ++ exfalso. destruct H0 as [Hn Hin].
              apply elem_of_cons in Hin as [?|?]; tauto.
      * cbn [scene set_chunks disposeMesh set_scene]. unfold disposeOps.
        by rewrite <- app_assoc.
Qed.

Lemma unloadFar_spec (active : list string) w :
  (∀ k, jm_get k (chunks (unloadFar active w)) =
        if decide (k ∈ active) then jm_get k (chunks w) else None) ∧
  loadingChunks (unloadFar active w) = loadingChunks w ∧
  knownChunkKeys (unloadFar active w) = knownChunkKeys w ∧
  chunksData (unloadFar active w) = chunksData w ∧
  dirtyChunks (unloadFar active w) = dirtyChunks w ∧
  scene (unloadFar active w) = scene w ++
    flat_map (fun e : string * Mesh =>
                if bool_decide (e.1 ∈ active) then [] else disposeOps e.2) (chunks w).
Proof.
  unfold unloadFar.
  destruct (unloadFar_fold active (chunks w) w) as (Hc & Hrest). cbv zeta in *.
  split; [|exact Hrest].
  intros k. rewrite Hc.
  destruct (decide (k ∈ active)) as [Hin|Hout].
  - rewrite decide_False; tauto.
  - case_decide as Hd; [done|].
    destruct (jm_get k (chunks w)) eqn:Hget; [|done].
    exfalso. apply Hd. split; [done|].
    apply jm_get_is_Some. rewrite Hget. eauto.
Qed.

Lemma checkMemory_frame pos w :
  let w' := (checkMemory pos w).1 in
  loadingChunks w' = loadingChunks w ∧
  knownChunkKeys w' = knownChunkKeys w ∧
  (∀ k m, jm_get k (chunks w') = Some m -> jm_get k (chunks w) = Some m) ∧
  (∀ k d, jm_get k (chunksData w') = Some d -> jm_get k (chunksData w) = Some d) ∧
  (∃ ops, scene w' = scene w ++ ops).
Proof.
  cbv zeta. unfold checkMemory.
  destruct (_ <=? _); [split_and!; try done; exists []; by rewrite app_nil_r|].
  destruct (playerChunk pos) as [cx cz].
  apply (foldl_invariant (fun st : World * list PendingWrite =>
    loadingChunks st.1 = loadingChunks w ∧
    knownChunkKeys st.1 = knownChunkKeys w ∧
    (∀ k m, jm_get k (chunks st.1) = Some m -> jm_get k (chunks w) = Some m) ∧
    (∀ k d, jm_get k (chunksData st.1) = Some d -> jm_get k (chunksData w) = Some d) ∧
    (∃ ops, scene st.1 = scene w ++ ops)));
    [split_and!; try done; exists []; by rewrite app_nil_r|].
  intros [w' ws] [key data] _ (Hl & Hk & Hc & Hd & ops & Hs).
  cbn [fst] in Hl, Hk, Hc, Hd, Hs.
  destruct (evictEntry_rest key data w' ws) as (_ & Hc' & Hs' & Hk' & Hl').
  destruct (evictEntry_store key data w' ws) as (Hd' & _).
  cbv zeta in Hc', Hs', Hk', Hl'.
  rewrite Hk', Hl', Hd', Hs', Hs. split_and!; try done; [| |eexists; by rewrite <- app_assoc].
  - intros k m. rewrite Hc'. case_decide; [done|apply Hc].
  - intros k d. destruct (decide (k = key)) as [->|Hne].
    + by rewrite jm_get_delete_eq.
    + rewrite jm_get_delete_ne by congruence. apply Hd.
Qed.

Lemma activation_keys_wf cx cz r t :
  keys_wf (chunksData (t_world t)) ->
  keys_wf (chunksData (t_world (activation cx cz r t))).
Proof.
  intros Ht. rewrite activation_foldl.
  apply (foldl_invariant (fun t => keys_wf (chunksData (t_world t)))); [done|].
  intros t' p _ Ht'. rewrite activate_unfold. destruct (jm_has _ _); [done|].
  cbn [t_world]. by apply ensureChunk_keys_wf.
Qed.

Lemma activate_fetches w0 rng0 active x z t :
  chunkKey x z ∈ active ->
  tick_grows (tick_start w0 rng0) t ->
  fetches_ok w0 active t -> fetches_ok w0 active (activate x z t).
Proof.
  intros Hact (Hd0 & _ & Hl0 & Hk0 & _) (Hnd & Hload & Hall).
  cbn [t_world tick_start] in Hd0, Hl0, Hk0.
  rewrite activate_unfold. destruct (jm_has _ _); [done|].
  pose proof (ensureChunk_fetch x z (chunkKey x z) (t_world t) (t_rng t)) as Hf.
  destruct (ensureChunk_grows x z (t_world t) (t_rng t))
    as (_ & _ & _ & _ & _ & Hcache).
  cbv zeta in Hf, Hcache.
  destruct (ensureChunk x z (chunkKey x z) (t_world t, t_rng t)) as [[w' rng'] f].
  cbn [fst snd] in Hf, Hcache. unfold fetches_ok. cbn [t_world t_fetches fst snd].
  destruct f as [f|]; unfold option_list; cbn [option_rect].
  - destruct Hf as (-> & Hnone & Hknown & Hnl & Hl').
    rewrite fmap_app. cbn [fmap list_fmap f_key].
    split_and!.
    + apply NoDup_app. split_and!; [done| |apply NoDup_singleton].
      intros k Hk ->%list_elem_of_singleton. apply Hnl. rewrite Hload.
      apply elem_of_union. right. by apply elem_of_list_to_set.
    + rewrite Hl', Hload, list_to_set_app_L, list_to_set_cons, list_to_set_nil.
      by rewrite (right_id_L ∅ (∪)), (assoc_L (∪)).
    + intros f [Hf|Hf%list_elem_of_singleton]%elem_of_app.
      * destruct (Hall f Hf) as (H1 & H2 & H3 & H4 & H5 & H6).
        split_and!; try done. rewrite Hcache; [done|]. left. by rewrite Hk0.
      * subst f. cbn [f_key f_cx f_cz]. split_and!; try done.
        -- by rewrite <- Hk0.
        -- intros Hin. by apply Hnl, Hl0.
        -- destruct (jm_get (chunkKey x z) (chunksData w0)) as [d|] eqn:Hg; [|done].
           rewrite (Hd0 _ _ Hg) in Hnone. discriminate.
        -- rewrite Hcache; [done|]. by left.
  - rewrite app_nil_r. split_and!; [done|by rewrite Hf|].
    intros f Hf'. destruct (Hall f Hf') as (H1 & H2 & H3 & H4 & H5 & H6).
    split_and!; try done. rewrite Hcache; [done|]. left. by rewrite Hk0.
Qed.

Lemma activation_fetches cx cz r w rng :
  fetches_ok w (activeKeys cx cz r) (activation cx cz r (tick_start w rng)).
Proof.
  rewrite activation_foldl.
  assert (Hboth :
    tick_grows (tick_start w rng)
      (foldl (fun t (p : Z * Z) => activate p.1 p.2 t) (tick_start w rng)
             (activeCoords cx cz r)) ∧
    fetches_ok w (activeKeys cx cz r)
      (foldl (fun t (p : Z * Z) => activate p.1 p.2 t) (tick_start w rng)
             (activeCoords cx cz r))); [|tauto].
  apply (foldl_invariant (fun t =>
           tick_grows (tick_start w rng) t ∧ fetches_ok w (activeKeys cx cz r) t)).
  - split; [apply tick_grows_refl|].
    unfold fetches_ok, tick_start. cbn [t_world t_fetches fmap list_fmap list_to_set].
    split_and!; [apply NoDup_nil_2|by rewrite (right_id_L ∅ (∪))|].
    intros f Hf. by apply elem_of_nil in Hf.
  - intros t [x z] Hp [Hg Hf]. split.
    + eapply tick_grows_trans; [exact Hg|apply activate_grows].
    + cbn [fst snd]. eapply activate_fetches; [|exact Hg|exact Hf].
      apply elem_of_activeKeys. by apply elem_of_activeCoords.
Qed.

(** The final world of a tick against the one after the activation
    loops. *)
Lemma update_after_activation (isMobile : bool) pos w rng :
  let radius := if isMobile then 2 else 3 in
  let cx := (playerChunk pos).1 in
  let cz := (playerChunk pos).2 in
  let t := activation cx cz radius (tick_start w rng) in
  let t' := update isMobile pos (w, rng) in
  t_fetches t' = t_fetches t ∧
  loadingChunks (t_world t') = loadingChunks (t_world t) ∧
  knownChunkKeys (t_world t') = knownChunkKeys (t_world t) ∧
  (∀ k d, jm_get k (chunksData (t_world t')) = Some d ->
          jm_get k (chunksData (t_world t)) = Some d) ∧
  (∀ k m, jm_get k (chunks (t_world t')) = Some m ->
          k ∈ activeKeys cx cz radius ∧ jm_get k (chunks (t_world t)) = Some m) ∧
  (∃ ops, scene (t_world t') =
     scene (t_world t) ++
     flat_map (fun e : string * Mesh =>
                 if bool_decide (e.1 ∈ activeKeys cx cz radius) then []
                 else disposeOps e.2) (chunks (t_world t)) ++ ops) ∧
  (keys_wf (chunksData w) ->
   ∀ ax az, (ax - cx) ^ 2 + (az - cz) ^ 2 <= 120 ->
     jm_get (chunkKey ax az) (chunksData (t_world t')) =
       jm_get (chunkKey ax az) (chunksData (t_world t)) ∧
     (chunkKey ax az ∈ activeKeys cx cz radius ->
      jm_get (chunkKey ax az) (chunks (t_world t')) =
        jm_get (chunkKey ax az) (chunks (t_world t)))).
Proof.
  cbv zeta. pose proof (update_unfold isMobile pos w rng) as Hu. cbv zeta in Hu.
  set (radius := if isMobile then 2 else 3) in *.
  set (cx := (playerChunk pos).1) in *. set (cz := (playerChunk pos).2) in *.
  set (t := activation cx cz radius (tick_start w rng)) in *.
  destruct (unloadFar_spec (activeKeys cx cz radius) (t_world t))
    as (Hc & Hl & Hk & Hd & _ & Hs).
  set (w1 := unloadFar (activeKeys cx cz radius) (t_world t)) in *.
  assert (Hw1 : ∀ k m, jm_get k (chunks w1) = Some m ->
            k ∈ activeKeys cx cz radius ∧ jm_get k (chunks (t_world t)) = Some m).
  { intros k m. rewrite Hc. by case_decide. }
  assert (Hwf1 : keys_wf (chunksData w) -> keys_wf (chunksData w1)).
  { intros Hwf. rewrite Hd. by apply activation_keys_wf. }
  destruct (Qltb _ _).
  - rewrite Hu. cbn [t_world t_fetches].
    destruct (checkMemory_frame pos w1) as (Hl' & Hk' & Hc' & Hd' & ops & Hs').
    cbv zeta in Hl', Hk', Hc', Hd', Hs'.
    rewrite Hl', Hk', Hl, Hk, Hs', Hs. split_and!; try done.
    + intros k d Hkd. rewrite <- Hd. by apply Hd'.
    + intros k m Hkm. by apply Hw1, Hc'.
    + exists ops. by rewrite <- app_assoc.
    + intros Hwf ax az Hnear.
      destruct (checkMemory_spares_near pos w1 ax az (Hwf1 Hwf) Hnear) as [Hn1 Hn2].
      rewrite Hn1, Hn2, Hd. split; [done|].
      intros Hin. rewrite Hc. by rewrite decide_True.
  - rewrite Hu. cbn [t_world t_fetches].
    rewrite Hl, Hk, Hs, Hd. split_and!; try done.
    + exists []. by rewrite app_nil_r.
    + intros Hwf ax az Hnear. split; [done|].
      intros Hin. rewrite Hc. by rewrite decide_True.
Qed.

(** X9.  After a tick every mesh the world holds belongs to a chunk of
    the active square around the viewer, and every mesh the world held
    for a chunk outside that square has been removed from the scene and
    disposed. *)
Theorem update_meshes_active (isMobile : bool) (pos : Vec3) (w : World) (rng : Rng) :
  let radius := if isMobile then 2 else 3 in
  let active := activeKeys (playerChunk pos).1 (playerChunk pos).2 radius in
  let w' := t_world (update isMobile pos (w, rng)) in
  (∀ k, is_Some (jm_get k (chunks w')) -> k ∈ active) ∧
  (∀ k m, jm_get k (chunks w) = Some m -> k ∉ active ->
     jm_get k (chunks w') = None ∧
     SceneRemove m ∈ scene w' ∧ DisposeGeometry m ∈ scene w' ∧
     DisposeMaterial m ∈ scene w').
Proof.
  cbv zeta.
  destruct (update_after_activation isMobile pos w rng)
    as (_ & _ & _ & _ & Hc & (ops & Hs) & _).
  cbv zeta in Hc, Hs. split.
  - intros k [m Hm]. by apply (Hc k m).
  - intros k m Hm Hout.
    set (radius := if isMobile then 2 else 3) in *.
    set (cx := (playerChunk pos).1) in *. set (cz := (playerChunk pos).2) in *.
    destruct (activation_grows cx cz radius (tick_start w rng)) as (_ & Hg & _).
    specialize (Hg k m Hm).
    split.
    { destruct (jm_get k (chunks (t_world (update isMobile pos (w, rng)))))
        as [m'|] eqn:Hm'; [|done].
      by destruct (Hc k m' Hm'). }
    assert (Hops : ∀ op, op ∈ disposeOps m ->
              op ∈ scene (t_world (update isMobile pos (w, rng)))).
    { intros op Hop. rewrite Hs. apply elem_of_app. right.
      apply elem_of_app. left. apply elem_of_flat_map.
      exists (k, m). split; [by apply jm_get_Some_elem|].
      cbn [fst snd]. by rewrite bool_decide_eq_false_2. }
    unfold disposeOps in Hops.
    split_and!; apply Hops; [left|right; left|right; right; left].
Qed.

(** X10.  After a tick, with one entry per key in the cache, every chunk
    of the active square has a mesh or a read in flight: neither the
    unloading of far meshes nor the eviction pass takes one of them
    away. *)
Theorem update_covers_active (isMobile : bool) (pos : Vec3) (w : World)
    (rng : Rng) (k : string) :
  keys_wf (chunksData w) ->
  k ∈ activeKeys (playerChunk pos).1 (playerChunk pos).2 (if isMobile then 2 else 3) ->
  covered k (t_world (update isMobile pos (w, rng))).
Proof.
  intros Hwf Hk.
  destruct (update_after_activation isMobile pos w rng)
    as (_ & Hl & _ & _ & _ & _ & Hnear).
  cbv zeta in Hl, Hnear.
  pose proof (activation_covered _ _ _ (tick_start w rng) k Hk) as Hcov.
  destruct (activeKeys_chunkKey _ _ _ _ Hk) as (x & z & ->).
  pose proof Hk as Hrange. apply elem_of_activeKeys in Hrange.
  assert (Hd : (x - (playerChunk pos).1) ^ 2 + (z - (playerChunk pos).2) ^ 2 <= 120).
  { destruct isMobile; nia. }
  destruct (Hnear Hwf x z Hd) as [_ Hc]. specialize (Hc Hk).
  destruct Hcov as [Hm|Hin]; [left|right].
  - unfold jm_has in *. by rewrite Hc.
  - by rewrite Hl.
Qed.

(** X11.  The fetches that one tick issues: at most one per key and at
    most one per chunk of the active square; each is for a chunk of the
    square whose key was known, not cached and not already loading when
    the tick began, under the key of its own coordinates; the loading set
    grows by exactly these keys, and none of them is cached when the tick
    ends. *)
Theorem update_fetches (isMobile : bool) (pos : Vec3) (w : World) (rng : Rng) :
  let radius := if isMobile then 2 else 3 in
  let active := activeKeys (playerChunk pos).1 (playerChunk pos).2 radius in
  let t := update isMobile pos (w, rng) in
  NoDup (f_key <$> t_fetches t) ∧
  Z.of_nat (length (t_fetches t)) <= (2 * radius + 1) * (2 * radius + 1) ∧
  loadingChunks (t_world t) = loadingChunks w ∪ list_to_set (f_key <$> t_fetches t) ∧
  knownChunkKeys (t_world t) = knownChunkKeys w ∧
  ∀ f, f ∈ t_fetches t ->
    f_key f = chunkKey (f_cx f) (f_cz f) ∧ f_key f ∈ active ∧
    f_key f ∈ knownChunkKeys w ∧ (f_key f ∉ loadingChunks w) ∧
    jm_get (f_key f) (chunksData w) = None ∧
    jm_get (f_key f) (chunksData (t_world t)) = None.
Proof.
  cbv zeta.
  destruct (update_after_activation isMobile pos w rng)
    as (Hf & Hl & Hk & Hd & _).
  cbv zeta in Hf, Hl, Hk, Hd.
  set (radius := if isMobile then 2 else 3) in *.
  set (cx := (playerChunk pos).1) in *. set (cz := (playerChunk pos).2) in *.
  destruct (activation_fetches cx cz radius w rng) as (Hnd & Hload & Hall).
  destruct (activation_grows cx cz radius (tick_start w rng)) as (_ & _ & _ & Hk0 & _).
  cbn [t_world tick_start] in Hk0.
  rewrite Hf, Hl, Hk, Hk0. split_and!; try done.
  - assert (Hsub : f_key <$> t_fetches (activation cx cz radius (tick_start w rng))
                   ⊆+ activeKeys cx cz radius).
    { apply NoDup_submseteq; [exact Hnd|].
      intros k (f & -> & Hin)%list_elem_of_fmap. by apply Hall. }
    apply submseteq_length in Hsub. rewrite length_fmap in Hsub.
    rewrite <- (activeKeys_length cx cz radius); [lia|]. unfold radius.
    destruct isMobile; lia.
  - intros f Hin. destruct (Hall f Hin) as (H1 & H2 & H3 & H4 & H5 & H6).
    split_and!; try done.
    destruct (jm_get (f_key f) (chunksData (t_world (update isMobile pos (w, rng)))))
      as [d|] eqn:Hg; [|done].
    apply Hd in Hg. congruence.
Qed.

(** What the eviction pass does to one cached chunk. *)
Lemma checkMemory_fate pos w k d :
  keys_wf (chunksData w) -> jm_get k (chunksData w) = Some d ->
  let cx := (playerChunk pos).1 in
  let cz := (playerChunk pos).2 in
  let st := checkMemory pos w in
  (jm_get k (chunksData st.1) = Some d ∧
   (k ∈ dirtyChunks st.1 ↔ k ∈ dirtyChunks w) ∧ (k ∉ st.2.*1)) ∨
  (jm_get k (chunksData st.1) = None ∧ jm_get k (chunks st.1) = None ∧
   (k ∉ dirtyChunks st.1) ∧
   (k ∈ dirtyChunks w -> (k, d) ∈ st.2) ∧
   500 < jm_size (chunksData w) ∧
   ∃ ax az, k = chunkKey ax az ∧ 120 < (ax - cx) ^ 2 + (az - cz) ^ 2).
Proof.
  intros Hwf Hget. cbv zeta.
  destruct (Z.le_gt_cases (jm_size (chunksData w)) 500) as [Hsmall|Hbig].
  { left. unfold checkMemory.
    destruct (Z.leb_spec (jm_size (chunksData w)) 500); [|lia].
    cbn [fst snd fmap list_fmap]. split_and!; try done. apply not_elem_of_nil. }
  destruct (checkMemory_evicts pos w Hwf ltac:(lia))
    as (Hperm & Hnd & _ & Hd & Hc & Hdirty & Hws & _).
  cbv zeta in Hperm, Hnd, Hd, Hc, Hdirty, Hws.
  set (cx := (playerChunk pos).1) in *. set (cz := (playerChunk pos).2) in *.
  set (sorted := sortBy (compareEntries cx cz) (chunksData w)) in *.
  rewrite Hd, Hc, Hdirty, Hws.
  destruct (decide (k ∈ (take 50 sorted).*1)) as [Hin|Hout].
  - right. split_and!; try done.
    + rewrite elem_of_difference, elem_of_list_to_set. tauto.
    + intros Hdk. apply list_elem_of_fmap in Hin as ([k' d'] & Hk & He).
      cbn [fst] in Hk. subst k'.
      assert (Hmem : (k, d') ∈ chunksData w).
      { rewrite <- Hperm. by apply (subseteq_take 50). }
      rewrite (jm_get_elem_NoDup k d' _ (proj1 Hwf) Hmem) in Hget.
      injection Hget as ->.
      apply list_elem_of_In, List.filter_In. split; [by apply list_elem_of_In|].
      cbn [fst]. by apply bool_decide_eq_true.
    + pose proof (jm_get_Some_elem _ _ _ Hget) as Hmem.
      destruct (keys_wf_distance cx cz (chunksData w) (k, d) Hwf Hmem)
        as (ax & az & Hk & _). cbn [fst] in Hk.
      exists ax, az. split; [done|].
      destruct (Z.le_gt_cases ((ax - cx) ^ 2 + (az - cz) ^ 2) 120) as [Hnear|]; [|lia].
      exfalso.
      pose proof (near_not_evicted pos w ax az Hwf ltac:(lia) Hnear) as Hn.
      cbv zeta in Hn. apply Hn. by rewrite <- Hk.
  - left. split_and!; try done.
    + rewrite elem_of_difference, elem_of_list_to_set. tauto.
    + intros (e & Hk & He)%list_elem_of_fmap.
      apply list_elem_of_In, List.filter_In in He as [He _].
      apply list_elem_of_In in He.
      apply Hout. apply list_elem_of_fmap. by exists e.
Qed.

(** X12.  A tick never loses an edit silently.  With one entry per key
    in the cache, a volume that is cached when the tick begins is either
    still cached unchanged when it ends, with its dirty flag kept and no
    write issued for it; or it has been evicted, which happens only to
    chunks farther than squared distance 120 from the viewer's chunk, and
    then, if it was dirty, a write of exactly that volume is among the
    writes the tick issues. *)
Theorem update_keeps_edits (isMobile : bool) (pos : Vec3) (w : World) (rng : Rng)
    (k : string) (d : list Z) :
  keys_wf (chunksData w) -> jm_get k (chunksData w) = Some d ->
  let cx := (playerChunk pos).1 in
  let cz := (playerChunk pos).2 in
  let t := update isMobile pos (w, rng) in
  (jm_get k (chunksData (t_world t)) = Some d ∧
   (k ∈ dirtyChunks w -> k ∈ dirtyChunks (t_world t)) ∧ (k ∉ (t_writes t).*1)) ∨
  (jm_get k (chunksData (t_world t)) = None ∧ jm_get k (chunks (t_world t)) = None ∧
   (k ∉ dirtyChunks (t_world t)) ∧
   (k ∈ dirtyChunks w -> (k, d) ∈ t_writes t) ∧
   ∃ ax az, k = chunkKey ax az ∧ 120 < (ax - cx) ^ 2 + (az - cz) ^ 2).
Proof.
  intros Hwf Hget. cbv zeta.
  pose proof (update_unfold isMobile pos w rng) as Hu. cbv zeta in Hu.
  set (radius := if isMobile then 2 else 3) in *.
  set (cx := (playerChunk pos).1) in *. set (cz := (playerChunk pos).2) in *.
  destruct (activation_grows cx cz radius (tick_start w rng))
    as (Hg & _ & _ & _ & Hdg & _).
  cbn [t_world tick_start] in Hg, Hdg.
  pose proof (activation_keys_wf cx cz radius (tick_start w rng) Hwf) as Hwft.
  set (t := activation cx cz radius (tick_start w rng)) in *.
  destruct (unloadFar_spec (activeKeys cx cz radius) (t_world t))
    as (_ & _ & _ & Hd & Hdi & _).
  set (w1 := unloadFar (activeKeys cx cz radius) (t_world t)) in *.
  specialize (Hg k d Hget).
  destruct (Qltb _ _); rewrite Hu; cbn [t_world t_writes].
  - assert (Hwf1 : keys_wf (chunksData w1)) by (by rewrite Hd).
    assert (Hget1 : jm_get k (chunksData w1) = Some d) by (by rewrite Hd).
    destruct (checkMemory_fate pos w1 k d Hwf1 Hget1)
      as [(H1 & H2 & H3)|(H1 & H2 & H3 & H4 & _ & H5)]; [left|right].
    + split_and!; try done. intros Hin. apply H2. rewrite Hdi. by apply Hdg.
    + split_and!; try done. intros Hin. apply H4. rewrite Hdi. by apply Hdg.
  - left. rewrite Hd, Hdi. split_and!; try done.
    + intros Hin. by apply Hdg.
    + cbn [fmap list_fmap]. apply not_elem_of_nil.
Qed.

Lemma flatWorld_keys_wf : keys_wf (chunksData flatWorld).
Proof.
  change (chunksData flatWorld) with (jm_set (chunkKey 0 0) flatVolume []).
  apply keys_wf_set, keys_wf_nil.
Qed.

Lemma playerChunk_origin : playerChunk origin = (0, 0).
Proof. reflexivity. Qed.

Lemma eviction_spares_near_witness :
  jm_get (chunkKey 0 0) (chunksData (checkMemory origin crowdedWorld).1) =
  jm_get (chunkKey 0 0) (chunksData crowdedWorld).
Proof.
  destruct (eviction_spares_near origin crowdedWorld 0 0 crowdedWorld_keys_wf)
    as (Hkept & _).
  - rewrite playerChunk_origin. cbn [fst snd]. lia.
  - exact Hkept.
Defined.

Lemma update_covers_active_witness :
  covered (chunkKey 0 0) (t_world (update false origin (flatWorld, calmRng))).
Proof.
  apply (update_covers_active false origin flatWorld calmRng (chunkKey 0 0)
           flatWorld_keys_wf).
  apply elem_of_activeKeys. rewrite playerChunk_origin. cbn [fst snd]. lia.
Defined.

Lemma flatWorld_cached :
  jm_get (chunkKey 0 0) (chunksData flatWorld) = Some flatVolume.
Proof. unfold flatWorld. cbn [chunksData]. generalize flatVolume. reflexivity. Qed.

Lemma update_keeps_edits_witness :
  jm_get (chunkKey 0 0) (chunksData (t_world (update false origin (flatWorld, calmRng))))
  = Some flatVolume.
Proof.
  destruct (update_keeps_edits false origin flatWorld calmRng (chunkKey 0 0)
              flatVolume flatWorld_keys_wf flatWorld_cached)
    as [(H & _)|(_ & _ & _ & _ & ax & az & Hk & Hfar)].
  - exact H.
  - exfalso. apply chunkKey_inj in Hk as [<- <-].
    rewrite playerChunk_origin in Hfar. cbn [fst snd] in Hfar. lia.
Defined.

(* ===================================================================== *)
(** ** Meshes, cache and loading set of reachable worlds *)
(* ===================================================================== *)

Lemma is_Some_jm_set {V : Type} k k' (v : V) m :
  is_Some (jm_get k' (jm_set k v m)) ↔ k' = k ∨ is_Some (jm_get k' m).
Proof. rewrite !jm_get_is_Some. apply elem_of_jm_keys_set. Qed.

Lemma is_Some_jm_delete {V : Type} k k' (m : JsMap V) :
  is_Some (jm_get k' (jm_delete k m)) ↔ k' ≠ k ∧ is_Some (jm_get k' m).
Proof. rewrite !jm_get_is_Some. apply elem_of_jm_keys_delete. Qed.

Lemma buildChunkMesh_resident cx cz data w :
  is_Some (jm_get (chunkKey cx cz) (chunksData w)) ->
  resident_wf w -> resident_wf (buildChunkMesh cx cz data w).
Proof.
  intros Hc (Hm & Hl & Hk).
  destruct (buildChunkMesh_frame cx cz data w) as (Hd & _ & Hkn & Hlo & _).
  unfold resident_wf, meshes_cached, loading_known. rewrite Hd, Hkn, Hlo.
  split_and!; [|done|].
  - intros k. rewrite buildChunkMesh_chunks. case_decide as Hdec; [|apply Hm].
    destruct Hdec as [-> _]. done.
  - unfold buildChunkMesh. cbv zeta. destruct (jm_has _ _); [done|].
    cbn [chunks set_chunks set_scene]. by apply keys_wf_set.
Qed.

Lemma setBlock_resident w x y z t : resident_wf w -> resident_wf (setBlock w x y z t).
Proof.
  intros (Hm & Hl & Hk). unfold setBlock.
  destruct (jm_get _ (chunksData w)) as [data|] eqn:Hdata; [|done].
  destruct (_ || _); [done|]. cbv zeta.
  set (key := chunkKey (x / chunkSize) (z / chunkSize)).
  set (data' := u8_set data _ t). set (mesh' := generateChunkMesh data' _ _).
  assert (Hgoal : ∀ w1,
    chunks w1 = chunks w -> chunksData w1 = jm_set key data' (chunksData w) ->
    loadingChunks w1 = loadingChunks w -> knownChunkKeys w1 = knownChunkKeys w ->
    resident_wf (set_chunks (jm_set key mesh')
                   (set_scene (fun s => s ++ [SceneAdd mesh']) w1))).
  { intros w1 H1 H2 H3 H4. unfold resident_wf, meshes_cached, loading_known.
    cbn [chunks chunksData loadingChunks knownChunkKeys set_chunks set_scene].
    rewrite H1, H2, H3, H4. split_and!; [|done|by apply keys_wf_set].
    intros k. rewrite !is_Some_jm_set. intros [->|Hin]; [by left|].
    right. by apply Hm. }
  destruct (jm_get key (chunks _)); by apply Hgoal.
Qed.

Lemma generateChunk_resident cx cz w rng :
  resident_wf w -> resident_wf (generateChunk cx cz (w, rng)).1.
Proof.
  intros (Hm & Hl & Hk). rewrite generateChunk_unfold. cbn [fst].
  apply buildChunkMesh_resident.
  - cbn [chunksData set_dirtyChunks set_chunksData]. rewrite jm_get_set_eq. eauto.
  - unfold resident_wf, meshes_cached, loading_known.
    cbn [chunks chunksData loadingChunks knownChunkKeys set_dirtyChunks set_chunksData].
    split_and!; try done.
    intros k Hin. apply is_Some_jm_set. right. by apply Hm.
Qed.

Lemma ensureChunk_resident cx cz w rng :
  resident_wf w -> resident_wf (ensureChunk cx cz (chunkKey cx cz) (w, rng)).1.1.
Proof.
  intros Hw. rewrite ensureChunk_unfold.
  destruct (jm_get (chunkKey cx cz) (chunksData w)) as [data|] eqn:Hget.
  { cbn [fst]. apply buildChunkMesh_resident; [|done]. rewrite Hget. eauto. }
  destruct (bool_decide (chunkKey cx cz ∈ knownChunkKeys w)) eqn:Hknown.
  - destruct (bool_decide (chunkKey cx cz ∈ loadingChunks w)); cbn [fst]; [done|].
    destruct Hw as (Hm & Hl & Hk). apply bool_decide_eq_true in Hknown.
    unfold resident_wf, meshes_cached, loading_known.
    cbn [chunks chunksData loadingChunks knownChunkKeys set_loadingChunks].
    split_and!; try done.
    apply union_subseteq. split; [done|]. by apply singleton_subseteq_l.
  - cbn [fst]. by apply generateChunk_resident.
Qed.

Lemma chunkFetched_keeps_resident f data w rng :
  f_key f = chunkKey (f_cx f) (f_cz f) ->
  resident_wf w -> resident_wf (chunkFetched f data (w, rng)).1.
Proof.
  intros Hkey Hw. unfold chunkFetched.
  assert (Hdrop : ∀ w1, resident_wf w1 ->
            resident_wf (set_loadingChunks (fun l => l ∖ {[f_key f]}) w1)).
  { intros w1 (Hm & Hl & Hk). unfold resident_wf, meshes_cached, loading_known.
    cbn [chunks chunksData loadingChunks knownChunkKeys set_loadingChunks].
    split_and!; try done. etrans; [apply subseteq_difference_l|]; done. }
  destruct data as [d|].
  - cbn [fst]. apply Hdrop. apply buildChunkMesh_resident.
    + cbn [chunksData set_chunksData]. rewrite <- Hkey, jm_get_set_eq. eauto.
    + destruct Hw as (Hm & Hl & Hk). unfold resident_wf, meshes_cached, loading_known.
      cbn [chunks chunksData loadingChunks knownChunkKeys set_chunksData].
      split_and!; try done.
      intros k Hin. apply is_Some_jm_set. right. by apply Hm.
  - pose proof (generateChunk_resident (f_cx f) (f_cz f) w rng Hw) as Hg.
    destruct (generateChunk _ _ _) as [w' rng']. cbn [fst] in *. by apply Hdrop.
Qed.

Lemma evictEntry_resident e w ws :
  resident_wf w -> resident_wf (evictEntry e (w, ws)).1.
Proof.
  intros (Hm & Hl & Hk). destruct e as [key data].
  destruct (evictEntry_rest key data w ws) as (_ & Hc & _ & Hkn & Hlo).
  destruct (evictEntry_store key data w ws) as (Hd & _).
  cbv zeta in Hc, Hkn, Hlo.
  unfold resident_wf, meshes_cached, loading_known. rewrite Hd, Hkn, Hlo.
  split_and!; [|done|].
  - intros k. rewrite Hc. case_decide as Hdec; [by intros [? [=]]|].
    intros Hin. apply is_Some_jm_delete. split; [done|by apply Hm].
  - unfold evictEntry. destruct (bool_decide _);
      cbn [fst chunks set_chunksData set_dirtyChunks];
      (destruct (jm_get key _); [by apply keys_wf_delete|done]).
Qed.

Lemma checkMemory_resident pos w : resident_wf w -> resident_wf (checkMemory pos w).1.
Proof.
  intros Hw. unfold checkMemory. destruct (_ <=? _); [done|].
  destruct (playerChunk pos) as [cx cz].
  apply (foldl_invariant (fun st : World * list PendingWrite => resident_wf st.1));
    [done|].
  intros [w' ws] e _ Hw'. by apply evictEntry_resident.
Qed.

Lemma unloadFar_resident (active : list string) w :
  resident_wf w -> resident_wf (unloadFar active w).
Proof.
  intros (Hm & Hl & Hk).
  destruct (unloadFar_spec active w) as (Hc & Hlo & Hkn & Hd & _).
  unfold resident_wf, meshes_cached, loading_known. rewrite Hd, Hkn, Hlo.
  split_and!; [|done|].
  - intros k. rewrite Hc. case_decide; [apply Hm|by intros [? [=]]].
  - unfold unloadFar.
    apply (foldl_invariant (fun w' => keys_wf (chunks w'))); [done|].
    intros w' e _ Hw'. destruct (bool_decide _); [done|].
    cbn [chunks set_chunks disposeMesh set_scene]. by apply keys_wf_delete.
Qed.

Lemma activation_resident cx cz r t :
  resident_wf (t_world t) -> resident_wf (t_world (activation cx cz r t)).
Proof.
  intros Ht. rewrite activation_foldl.
  apply (foldl_invariant (fun t => resident_wf (t_world t))); [done|].
  intros t' p _ Ht'. rewrite activate_unfold. destruct (jm_has _ _); [done|].
  cbn [t_world]. by apply ensureChunk_resident.
Qed.

Lemma update_resident (isMobile : bool) pos w rng :
  resident_wf w -> resident_wf (t_world (update isMobile pos (w, rng))).
Proof.
  intros Hw. pose proof (update_unfold isMobile pos w rng) as Hu. cbv zeta in Hu.
  rewrite Hu.
  pose proof (activation_resident (playerChunk pos).1 (playerChunk pos).2
                (if isMobile then 2 else 3) (tick_start w rng) Hw) as Ht.
  destruct (Qltb _ _); cbn [t_world].
  - by apply checkMemory_resident, unloadFar_resident.
  - by apply unloadFar_resident.
Qed.

Lemma issueDirtyWrites_frame w :
  chunks (issueDirtyWrites w).1 = chunks w ∧
  loadingChunks (issueDirtyWrites w).1 = loadingChunks w ∧
  knownChunkKeys w ⊆ knownChunkKeys (issueDirtyWrites w).1 ∧
  scene (issueDirtyWrites w).1 = scene w.
Proof.
  unfold issueDirtyWrites.
  apply (foldl_invariant (fun st : World * list PendingWrite =>
           chunks st.1 = chunks w ∧ loadingChunks st.1 = loadingChunks w ∧
           knownChunkKeys w ⊆ knownChunkKeys st.1 ∧ scene st.1 = scene w));
    [done|].
  intros [w1 ps] k _ (H1 & H2 & H3 & H4). unfold saveDirty.
  destruct (jm_get k (chunksData w1)); [|done].
  cbn [fst chunks loadingChunks knownChunkKeys scene set_knownChunkKeys] in *.
  split_and!; try done. etrans; [exact H3|apply union_subseteq_l].
Qed.

Lemma saveWorld_settled_frame ok w :
  chunks (saveWorld_settled ok w) = chunks w ∧
  chunksData (saveWorld_settled ok w) = chunksData w ∧
  loadingChunks (saveWorld_settled ok w) = loadingChunks w ∧
  knownChunkKeys (saveWorld_settled ok w) = knownChunkKeys w ∧
  scene (saveWorld_settled ok w) = scene w.
Proof. by destruct ok. Qed.

Lemma saveWorld_frame pd metaOk chunkOk w db :
  let w' := (saveWorld pd metaOk chunkOk (w, db)).1.1 in
  chunks w' = chunks w ∧ loadingChunks w' = loadingChunks w ∧
  knownChunkKeys w ⊆ knownChunkKeys w' ∧ scene w' = scene w.
Proof.
  cbv zeta. unfold saveWorld. destruct metaOk; [|done]. cbn [negb].
  pose proof (issueDirtyWrites_frame w) as H.
  destruct (issueDirtyWrites w) as [w' ps]. cbn [fst] in H.
  by destruct (forallb _ _).
Qed.

Lemma deleteWorld_fields lib w db rng w' db' rng' :
  deleteWorld lib true (w, db, rng) = Some (w', db', rng') ->
  chunksData w' = [] ∧ chunks w' = [] ∧ dirtyChunks w' = ∅ ∧
  knownChunkKeys w' = ∅ ∧ loadingChunks w' = ∅ ∧
  scene w' = scene w ++ flat_map (fun e : string * Mesh => disposeOps e.2) (chunks w).
Proof.
  unfold deleteWorld. cbn [negb]. cbv zeta.
  destruct (randomSeed rng) as [s rng1]. intros [= <- _ _].
  cbn [chunksData chunks dirtyChunks knownChunkKeys loadingChunks scene
       set_seed set_chunks].
  set (w0 := set_loadingChunks _ _).
  assert (H : ∀ (l : list (string * Mesh)) w1,
    let w2 := foldl (fun w (e : string * Mesh) => disposeMesh e.2 w) w1 l in
    chunksData w2 = chunksData w1 ∧ dirtyChunks w2 = dirtyChunks w1 ∧
    knownChunkKeys w2 = knownChunkKeys w1 ∧ loadingChunks w2 = loadingChunks w1 ∧
    scene w2 = scene w1 ++ flat_map (fun e : string * Mesh => disposeOps e.2) l).
  { induction l as [|e l IH]; intros w1; cbv zeta; cbn [foldl flat_map].
    - by rewrite app_nil_r.
    - destruct (IH (disposeMesh e.2 w1)) as (-> & -> & -> & -> & ->).
      cbn [chunksData dirtyChunks knownChunkKeys loadingChunks scene
           disposeMesh set_scene].
      unfold disposeOps. by rewrite <- app_assoc. }
  destruct (H (chunks w) w0) as (-> & -> & -> & -> & ->). done.
Qed.

Lemma step_resident lib w w' : step lib w w' -> resident_wf w -> resident_wf w'.
Proof.
  intros Hstep Hw. destruct Hstep.
  - by apply setBlock_resident.
  - by apply generateChunk_resident.
  - by apply ensureChunk_resident.
  - by apply chunkFetched_keeps_resident.
  - by apply checkMemory_resident.
  - destruct Hw as (Hm & Hl & Hk). unfold evictWriteSettled.
    destruct pw as [key data]. destruct ok; [|done]. cbn [fst].
    unfold resident_wf, meshes_cached, loading_known.
    cbn [chunks chunksData loadingChunks knownChunkKeys set_knownChunkKeys].
    split_and!; try done. etrans; [exact Hl|apply union_subseteq_l].
  - by apply update_resident.
  - destruct Hw as (Hm & Hl & Hk).
    destruct (issueDirtyWrites_frame w) as (Hc & Hlo & Hkn & _).
    destruct (issueDirtyWrites_same_store w) as [Hd _].
    unfold resident_wf, meshes_cached, loading_known.
    rewrite Hc, Hlo, Hd. split_and!; try done. by etrans.
  - destruct Hw as (Hm & Hl & Hk).
    destruct (saveWorld_settled_frame ok w) as (Hc & Hd & Hlo & Hkn & _).
    unfold resident_wf, meshes_cached, loading_known.
    rewrite Hc, Hd, Hlo, Hkn. done.
  - destruct Hw as (Hm & Hl & Hk).
    destruct (loadWorld_spec lib w db) as (w2 & res2 & Hload & Hkn & Hd & Hc & Hlo & _).
    rewrite H in Hload. injection Hload as <- <-.
    unfold resident_wf, meshes_cached, loading_known. rewrite Hc, Hd, Hlo, Hkn.
    split_and!; try done. etrans; [exact Hl|apply union_subseteq_l].
  - destruct (deleteWorld_fields _ _ _ _ _ _ _ H) as (Hd & Hc & _ & Hkn & Hlo & _).
    unfold resident_wf, meshes_cached, loading_known. rewrite Hd, Hc, Hkn, Hlo.
    split_and!; [|done|apply keys_wf_nil].
    intros k. rewrite jm_get_nil. by intros [? [=]].
Qed.

(** X13.  In every world that the operations can reach, every mesh
    belongs to a chunk whose volume is in the cache, a read is in flight
    only for keys known to be stored, and both maps hold one entry per
    key, under keys of chunk coordinates. *)
Theorem reachable_resident (lib : NoiseLib) (w : World) :
  reachable lib w ->
  (∀ k, is_Some (jm_get k (chunks w)) -> is_Some (jm_get k (chunksData w))) ∧
  loadingChunks w ⊆ knownChunkKeys w ∧
  keys_wf (chunks w) ∧ keys_wf (chunksData w).
Proof.
  intros Hr.
  assert (Hres : resident_wf w).
  { induction Hr as [rng|w w' _ IH Hstep].
    - destruct (World_new_empty lib rng) as (Hd & Hc & Hkn & Hlo & _).
      unfold resident_wf, meshes_cached, loading_known. rewrite Hd, Hc, Hkn, Hlo.
      split_and!; [|done|apply keys_wf_nil].
      intros k. rewrite jm_get_nil. by intros [? [=]].
    - by eapply step_resident. }
  destruct Hres as (Hm & Hl & Hk). split_and!; try done.
  by eapply reachable_keys_wf.
Qed.

Lemma reachable_resident_witness :
  jm_has (chunkKey 0 0) (chunks resumedWorld) = true ∧
  chunkKey 1 0 ∈ loadingChunks resumedWorld ∧
  (∀ k, is_Some (jm_get k (chunks resumedWorld)) ->
        is_Some (jm_get k (chunksData resumedWorld))) ∧
  loadingChunks resumedWorld ⊆ knownChunkKeys resumedWorld ∧
  keys_wf (chunks resumedWorld) ∧ keys_wf (chunksData resumedWorld).
Proof.
  split; [reflexivity|]. split; [reflexivity|].
  apply (reachable_resident flatNoise _ resumedWorld_reachable).
Defined.

(* ===================================================================== *)
(** ** Resetting, saving and loading *)
(* ===================================================================== *)

Lemma deleteWorld_succeeds lib w db rng :
  ∃ w' rng', deleteWorld lib true (w, db, rng) = Some (w', db_empty, rng').
Proof.
  unfold deleteWorld. cbn [negb]. cbv zeta.
  destruct (randomSeed rng) as [s rng1]. by eexists _, _.
Qed.

Lemma getBlock_uncached w x y z :
  jm_get (chunkKey (x / chunkSize) (z / chunkSize)) (chunksData w) = None ->
  getBlock w x y z = Some AIR ∧ hasBlock w x y z = false.
Proof. intros H. unfold getBlock, hasBlock. cbv zeta. by rewrite H. Qed.

Lemma loadWorld_unfold lib w db :
  loadWorld lib true (w, db) =
  let w1 := foldl (fun w k => set_knownChunkKeys (fun s => s ∪ {[k]}) w) w
                  (db_keysChunks db) in
  Some (match db_getMeta "player" db with
        | Some m => match meta_seed m with
                    | Some s => set_seed lib s w1
                    | None => w1
                    end
        | None => w1
        end,
        (fun m => (meta_position m, meta_inventory m)) <$> db_getMeta "player" db).
Proof. reflexivity. Qed.

(** X14.  [deleteWorld] with the store unavailable rejects before it
    touches anything.  Otherwise it succeeds and leaves an empty world
    over an empty store: no cached volume, no mesh, nothing dirty, known
    or loading; every mesh it held has been removed from the scene and
    disposed; every block reads as air; a following [loadWorld] finds no
    player record and no key; and a following [ensureChunk] issues no
    fetch but generates the chunk and marks it dirty. *)
Theorem deleteWorld_resets (lib : NoiseLib) (w : World) (db : DB) (rng : Rng) :
  deleteWorld lib false (w, db, rng) = None ∧
  ∃ w' rng',
    deleteWorld lib true (w, db, rng) = Some (w', db_empty, rng') ∧
    chunksData w' = [] ∧ chunks w' = [] ∧ dirtyChunks w' = ∅ ∧
    knownChunkKeys w' = ∅ ∧ loadingChunks w' = ∅ ∧
    (∀ x y z, getBlock w' x y z = Some AIR ∧ hasBlock w' x y z = false) ∧
    (∀ k m, jm_get k (chunks w) = Some m ->
       SceneRemove m ∈ scene w' ∧ DisposeGeometry m ∈ scene w' ∧
       DisposeMaterial m ∈ scene w') ∧
    loadWorld lib true (w', db_empty) = Some (w', None) ∧
    (∀ cx cz rng2,
       let r := ensureChunk cx cz (chunkKey cx cz) (w', rng2) in
       r.2 = None ∧ chunkKey cx cz ∈ dirtyChunks r.1.1 ∧
       jm_get (chunkKey cx cz) (chunksData r.1.1) =
         Some (generateVolume (noise2D w') cx cz rng2).1).
Proof.
  split; [reflexivity|].
  destruct (deleteWorld_succeeds lib w db rng) as (w' & rng' & Hdel).
  exists w', rng'. split; [exact Hdel|].
  destruct (deleteWorld_fields _ _ _ _ _ _ _ Hdel) as (Hd & Hc & Hdi & Hk & Hl & Hs).
  split_and!; try done.
  - intros x y z. apply getBlock_uncached. by rewrite Hd.
  - intros k m Hm.
    assert (Hops : ∀ op, op ∈ disposeOps m -> op ∈ scene w').
    { intros op Hop. rewrite Hs. apply elem_of_app. right.
      apply elem_of_flat_map. exists (k, m). split; [by apply jm_get_Some_elem|done]. }
    unfold disposeOps in Hops.
    split_and!; apply Hops; [left|right; left|right; right; left].
  - intros cx cz rng2. cbv zeta. rewrite ensureChunk_unfold, Hd, jm_get_nil, Hk.
    rewrite bool_decide_eq_false_2 by apply not_elem_of_empty.
    cbn [fst snd].
    destruct (generateChunk_fields cx cz w' rng2) as (Hg & _ & Hdirty & _).
    cbv zeta in Hg, Hdirty. split_and!; [done| |done].
    rewrite Hdirty. apply elem_of_union. right. by apply elem_of_singleton.
Qed.

(** X15.  What a save leaves for the next start.  When the metadata
    write succeeds, a [loadWorld] from the resulting store, by any world,
    returns the saved position and inventory, takes over the saved seed
    and builds its sampler from it, and knows the key of every dirty
    chunk whose write succeeded; this holds even if other chunk writes
    failed.  The cache, the meshes and the dirty set of the loading world
    are not touched.  When the metadata write fails, the save rejects and
    neither the world nor the store changes. *)
Theorem save_then_load (lib : NoiseLib) (pd : PlayerData)
    (chunkOk : string -> bool) (w : World) (db : DB) (other : World) :
  saveWorld pd false chunkOk (w, db) = (w, db, Rejected) ∧
  let db' := (saveWorld pd true chunkOk (w, db)).1.2 in
  ∃ w2,
    loadWorld lib true (other, db') =
      Some (w2, Some (pd_position pd, pd_inventory pd)) ∧
    seed w2 = seed w ∧
    noise2D w2 = createNoiseGenerator lib (seed w) ∧
    (∀ k data, k ∈ dirtyChunks w -> jm_get k (chunksData w) = Some data ->
       chunkOk k = true ->
       db_getChunk k db' = Some data ∧ k ∈ knownChunkKeys w2) ∧
    knownChunkKeys other ⊆ knownChunkKeys w2 ∧
    chunksData w2 = chunksData other ∧ chunks w2 = chunks other ∧
    dirtyChunks w2 = dirtyChunks other ∧ loadingChunks w2 = loadingChunks other.
Proof.
  split; [reflexivity|]. cbv zeta.
  rewrite saveWorld_unfold. cbv zeta.
  set (meta := mkMeta (pd_position pd) (pd_inventory pd) (Some (seed w))).
  set (db1 := db_setMeta "player" meta db).
  set (db2 := foldl _ db1 _).
  assert (Hdb : (if forallb (fun p : PendingWrite => chunkOk p.1) (issueDirtyWrites w).2
                 then (set_dirtyChunks (fun _ => ∅) (issueDirtyWrites w).1, db2, Resolved)
                 else ((issueDirtyWrites w).1, db2, Rejected)).1.2 = db2)
    by (by destruct (forallb _ _)).
  rewrite Hdb. clear Hdb.
  destruct (settle_lookup chunkOk (issueDirtyWrites w).2 db1
              (issueDirtyWrites_keys_NoDup w)) as (Hmeta & Hin & _).
  cbv zeta in Hmeta, Hin. fold db2 in Hmeta, Hin.
  assert (Hget : db_getMeta "player" db2 = Some meta).
  { unfold db_getMeta. rewrite Hmeta. unfold db1, db_setMeta. cbn [db_meta].
    apply lookup_insert_eq. }
  destruct (known_fold (db_keysChunks db2) other) as (Hk & Hd & Hc & Hl & Hdirty).
  cbv zeta in Hk, Hd, Hc, Hl, Hdirty.
  eexists. rewrite loadWorld_unfold. cbv zeta. rewrite Hget.
  cbn [meta_seed meta_position meta_inventory meta fmap option_fmap option_map].
  split; [reflexivity|].
  cbn [seed noise2D knownChunkKeys chunksData chunks dirtyChunks loadingChunks set_seed].
  rewrite Hk, Hd, Hc, Hl, Hdirty.
  split_and!; try done.
  - intros k data Hdk Hdata Hok.
    assert (Hstored : db_getChunk k db2 = Some data).
    { apply Hin; [|done]. rewrite (proj1 (issueDirtyWrites_spec w)).
      apply elem_of_omap_cached. by rewrite elem_of_elements. }
    split; [done|]. apply elem_of_union. right. apply elem_of_list_to_set.
    by apply (db_keysChunks_elem k data).
  - apply union_subseteq_l.
Qed.

Lemma issueDirtyWrites_seed w : seed (issueDirtyWrites w).1 = seed w.
Proof.
  unfold issueDirtyWrites.
  apply (foldl_invariant (fun st : World * list PendingWrite => seed st.1 = seed w));
    [done|].
  intros [w1 ps] k _ H. unfold saveDirty. by destruct (jm_get k (chunksData w1)).
Qed.

Lemma issueDirtyWrites_clean w :
  dirtyChunks w = ∅ -> issueDirtyWrites w = (w, []).
Proof. intros H. unfold issueDirtyWrites. by rewrite H, elements_empty. Qed.

(** X16.  Saving again.  Right after a save that resolved, another save
    issues no chunk write at all: it only rewrites the player record and
    resolves, whatever the store would do to chunk writes.  After a save
    that rejected because a chunk write failed, the dirty set and the
    cache are as before the save, and a retry whose writes succeed
    resolves, stores the volume of every chunk that was dirty and leaves
    nothing dirty. *)
Theorem saveWorld_again (pd pd' : PlayerData) (chunkOk chunkOk' : string -> bool)
    (w : World) (db : DB) :
  let s1 := saveWorld pd true chunkOk (w, db) in
  (s1.2 = Resolved ->
   saveWorld pd' true chunkOk' s1.1 =
     (s1.1.1,
      db_setMeta "player"
        (mkMeta (pd_position pd') (pd_inventory pd') (Some (seed w))) s1.1.2,
      Resolved)) ∧
  (s1.2 = Rejected ->
   dirtyChunks s1.1.1 = dirtyChunks w ∧ chunksData s1.1.1 = chunksData w ∧
   let s2 := saveWorld pd' true (fun _ => true) s1.1 in
   s2.2 = Resolved ∧ dirtyChunks s2.1.1 = ∅ ∧
   ∀ k data, k ∈ dirtyChunks w -> jm_get k (chunksData w) = Some data ->
     db_getChunk k s2.1.2 = Some data).
Proof.
  cbv zeta. rewrite (saveWorld_unfold pd chunkOk w db). cbv zeta.
  set (db2 := foldl _ _ (issueDirtyWrites w).2).
  pose proof (issueDirtyWrites_seed w) as Hseed.
  destruct (issueDirtyWrites_same_store w) as [Hd Hdirty].
  set (w1 := (issueDirtyWrites w).1) in *.
  destruct (forallb _ _); cbn [fst snd]; (split; [|]); try done.
  - intros _. rewrite saveWorld_unfold. cbv zeta.
    rewrite issueDirtyWrites_clean by reflexivity.
    cbn [fst snd foldl forallb seed set_dirtyChunks]. by rewrite Hseed.
  - intros _. split; [done|]. split; [done|].
    rewrite saveWorld_unfold. cbv zeta. rewrite forallb_const_true. cbn [fst snd].
    split; [done|]. split; [done|].
    intros k data Hk Hdata.
    pose proof (saveWorld_stores pd' w1 db2 k data) as Hst. cbv zeta in Hst.
    rewrite saveWorld_unfold in Hst. cbv zeta in Hst.
    rewrite forallb_const_true in Hst. cbn [fst snd] in Hst.
    apply Hst; [by rewrite Hdirty|by rewrite Hd].
Qed.

(* ===================================================================== *)
(** ** Eviction and streaming back *)
(* ===================================================================== *)

Lemma chunkFetched_found f d w rng :
  let w' := (chunkFetched f (Some d) (w, rng)).1 in
  jm_get (f_key f) (chunksData w') = Some d ∧
  dirtyChunks w' = dirtyChunks w ∧
  (∀ k, k ≠ f_key f -> jm_get k (chunksData w') = jm_get k (chunksData w)).
Proof.
  cbv zeta. unfold chunkFetched. cbn [fst chunksData dirtyChunks set_loadingChunks].
  destruct (buildChunkMesh_frame (f_cx f) (f_cz f) d
              (set_chunksData (jm_set (f_key f) d) w)) as (-> & -> & _).
  cbn [chunksData dirtyChunks set_chunksData]. split_and!; [|done|].
  - apply jm_get_set_eq.
  - intros k Hk. apply jm_get_set_ne. congruence.
Qed.

Lemma getBlock_same_volume w w' x y z :
  jm_get (chunkKey (x / chunkSize) (z / chunkSize)) (chunksData w') =
  jm_get (chunkKey (x / chunkSize) (z / chunkSize)) (chunksData w) ->
  getBlock w' x y z = getBlock w x y z.
Proof. intros H. unfold getBlock. cbv zeta. by rewrite H. Qed.

(** X17.  Eviction does not lose an edited chunk when its write
    succeeds.  If a dirty chunk has been evicted by the eviction pass,
    the pass has issued a write of its volume; once that write has
    succeeded, asking for the chunk issues a fetch, and when the fetch
    has delivered the stored record the cache holds the same volume
    again, clean, so every block of the chunk reads as before. *)
Theorem evict_reload_roundtrip (pos : Vec3) (w : World) (db : DB) (rng : Rng)
    (cx cz : Z) (data : list Z) :
  let key := chunkKey cx cz in
  let st := checkMemory pos w in
  keys_wf (chunksData w) ->
  jm_get key (chunksData w) = Some data ->
  key ∈ dirtyChunks w -> key ∉ loadingChunks w ->
  jm_get key (chunksData st.1) = None ->
  (key, data) ∈ st.2 ∧
  let settled := evictWriteSettled true (key, data) (st.1, db) in
  let r := ensureChunk cx cz key (settled.1, rng) in
  r.2 = Some (mkFetch cx cz key) ∧
  let w3 := (chunkFetched (mkFetch cx cz key) (db_getChunk key settled.2) r.1).1 in
  jm_get key (chunksData w3) = Some data ∧ (key ∉ dirtyChunks w3) ∧
  ∀ x y z, x / chunkSize = cx -> z / chunkSize = cz ->
    getBlock w3 x y z = getBlock w x y z.
Proof.
  cbv zeta. intros Hwf Hget Hdirty Hload Hgone.
  destruct (checkMemory_fate pos w (chunkKey cx cz) data Hwf Hget)
    as [(Hkept & _)|(_ & _ & Hclean & Hwrite & _)]; [congruence|].
  cbv zeta in Hclean, Hwrite.
  destruct (checkMemory_frame pos w) as (Hl & _). cbv zeta in Hl.
  split; [by apply Hwrite|].
  set (w1 := (checkMemory pos w).1) in *.
  unfold evictWriteSettled. cbn [fst snd].
  set (w2 := set_knownChunkKeys (fun k => k ∪ {[chunkKey cx cz]}) w1).
  assert (Hens : ensureChunk cx cz (chunkKey cx cz) (w2, rng) =
                 (set_loadingChunks (fun l => l ∪ {[chunkKey cx cz]}) w2, rng,
                  Some (mkFetch cx cz (chunkKey cx cz)))).
  { rewrite ensureChunk_unfold. unfold w2.
    cbn [chunksData knownChunkKeys loadingChunks set_knownChunkKeys].
    rewrite Hgone.
    rewrite bool_decide_eq_true_2
      by (apply elem_of_union; right; by apply elem_of_singleton).
    rewrite bool_decide_eq_false_2 by (by rewrite Hl). reflexivity. }
  rewrite Hens. cbn [fst snd]. split; [reflexivity|].
  assert (Hstored : db_getChunk (chunkKey cx cz) (db_setChunk (chunkKey cx cz) data db)
                    = Some data).
  { unfold db_getChunk, db_setChunk. cbn [db_chunks]. apply lookup_insert_eq. }
  rewrite Hstored.
  destruct (chunkFetched_found (mkFetch cx cz (chunkKey cx cz)) data
              (set_loadingChunks (fun l => l ∪ {[chunkKey cx cz]}) w2) rng)
    as (Hback & Hd & _).
  cbv zeta in Hback, Hd. cbn [f_key] in Hback.
  split; [exact Hback|]. split.
  - rewrite Hd. exact Hclean.
  - intros x y z Hx Hz. apply getBlock_same_volume. rewrite Hx, Hz.
    by rewrite Hback, Hget.
Qed.

Lemma evict_reload_roundtrip_witness :
  let key := chunkKey 500 0 in
  let volume := u8_new (chunkSize * chunkSize * chunkSize) in
  let st := checkMemory origin crowdedWorld in
  let settled := evictWriteSettled true (key, volume) (st.1, db_empty) in
  let r := ensureChunk 500 0 key (settled.1, calmRng) in
  jm_get key (chunksData (chunkFetched (mkFetch 500 0 key)
                            (db_getChunk key settled.2) r.1).1) = Some volume.
Proof.
  cbv zeta.
  apply (evict_reload_roundtrip origin crowdedWorld db_empty calmRng 500 0
           (u8_new (chunkSize * chunkSize * chunkSize))).
  - apply crowdedWorld_keys_wf.
  - vm_compute. reflexivity.
  - change (chunkKey 500 0 ∈ ({[chunkKey 500 0]} : gset string)).
    by apply elem_of_singleton.
  - apply not_elem_of_empty.
  - vm_compute. reflexivity.
Defined.

(* ===================================================================== *)
(** ** Where the vegetation pass writes *)
(* ===================================================================== *)

Lemma trees_placed_refl d : trees_placed d d.
Proof. split; [done|]. intros. by left. Qed.

Lemma trees_placed_trans d1 d2 d3 :
  trees_placed d1 d2 -> trees_placed d2 d3 -> trees_placed d1 d3.
Proof.
  intros [Hl1 H1] [Hl2 H2]. split; [congruence|].
  intros x y z Hin.
  destruct (H2 x y z Hin) as [-> | H]; [by apply H1|by right].
Qed.

Lemma trees_placed_wood d x y z :
  in_chunk x y z -> 2 <= x < chunkSize - 2 -> 2 <= z < chunkSize - 2 -> 2 <= y ->
  trees_placed d (u8_set d (getBlockIndex x y z) WOOD).
Proof.
  intros Hin Hx Hz Hy. split; [apply u8_set_length|].
  intros x' y' z' Hin'.
  destruct (decide (getBlockIndex x y z = getBlockIndex x' y' z')) as [Heq|Hne].
  - apply getBlockIndex_inj in Heq as (<- & <- & <-); [|done..].
    destruct (u8_get_set_cases d (getBlockIndex x y z) (getBlockIndex x y z) WOOD)
      as [H|H]; [by left|]. right. left. by split.
  - left. by apply u8_get_set_ne.
Qed.

Lemma placeLeaf_trees x y z d : 4 <= y -> trees_placed d (placeLeaf x y z d).
Proof.
  intros Hy. unfold placeLeaf.
  destruct (_ && _) eqn:Hrange; [|apply trees_placed_refl].
  destruct (negb _); [|apply trees_placed_refl].
  repeat (apply andb_true_iff in Hrange as [Hrange ?]).
  assert (Hin : in_chunk x y z) by (unfold in_chunk; lia).
  split; [apply u8_set_length|].
  intros x' y' z' Hin'.
  destruct (decide (getBlockIndex x y z = getBlockIndex x' y' z')) as [Heq|Hne].
  - apply getBlockIndex_inj in Heq as (<- & <- & <-); [|done..].
    destruct (u8_get_set_cases d (getBlockIndex x y z) (getBlockIndex x y z) LEAVES)
      as [H'|H']; [by left|]. right. right. by split.
  - left. by apply u8_get_set_ne.
Qed.

Lemma leafCell_trees d0 sx sz r x y z st :
  4 <= y -> trees_st d0 st -> trees_st d0 (leafCell sx sz r x y z st).
Proof.
  intros Hy [Hfl Hrng]. destruct st as [d rng]. unfold leafCell.
  simpl in *.
  destruct (_ && _); [destruct (Qltb _ _)|]; split; simpl;
    try done; try (by apply random_valid);
    (eapply trees_placed_trans; [exact Hfl|by apply placeLeaf_trees]).
Qed.

Lemma placeTree_trees d0 sx sy sz st :
  2 <= sx < chunkSize - 2 -> 2 <= sz < chunkSize - 2 -> 2 <= sy ->
  trees_st d0 st -> trees_st d0 (placeTree sx sy sz st).
Proof.
  intros Hsx Hsz Hsy [Hfl Hrng]. destruct st as [d rng]. unfold placeTree.
  pose proof (random_valid rng Hrng) as Hrng'.
  pose proof (trunkHeight_min (rng 0%nat) (proj1 (Hrng 0%nat))) as Hth.
  unfold random in *. lazy beta iota. cbn [fst snd] in Hrng', Hfl.
  set (r := rng 0%nat) in *. set (rng' := fun n => rng (S n)) in *.
  set (th := Qfloor (r * 2) + 4) in *.
  set (d1 := forZ 0 th _ d).
  assert (H1 : trees_placed d0 d1).
  { unfold d1. apply (forZ_invariant (trees_placed d0)); [done|].
    intros i d' Hi Hd'. destruct (Z.ltb_spec (sy + i) chunkSize); [|done].
    eapply trees_placed_trans; [exact Hd'|].
    apply trees_placed_wood; [unfold in_chunk, chunkSize in *; lia|done|done|lia]. }
  apply (forZ_invariant (trees_st d0)); [done|]. intros y st Hy Hst.
  apply (forZ_invariant (trees_st d0)); [done|]. intros x st1 _ Hst1.
  apply (forZ_invariant (trees_st d0)); [done|]. intros z st2 _ Hst2.
  apply leafCell_trees; [lia|done].
Qed.

Lemma treeColumn_trees d0 x z st :
  trees_st d0 st -> trees_st d0 (treeColumn x z st).
Proof.
  intros Hst. destruct st as [d rng]. unfold treeColumn.
  destruct (_ || _) eqn:Hedge; [done|].
  repeat (apply orb_false_iff in Hedge as [Hedge ?]).
  destruct (Z.ltb_spec 0 (surfaceScan d x z)); [|done].
  destruct (is_type _ GRASS); [|done].
  destruct Hst as [Hfl Hrng].
  pose proof (random_valid rng Hrng) as Hrng'.
  destruct (random rng) as [r rng'].
  destruct (Qltb r 0.01); [|done].
  apply placeTree_trees; [lia|lia|lia|done].
Qed.

Lemma treePass_trees d rng :
  rng_valid rng -> trees_placed d (treePass (d, rng)).1.
Proof.
  intros Hrng. unfold treePass.
  assert (HP : trees_st d (forZ 0 chunkSize (fun x =>
             forZ 0 chunkSize (fun z => treeColumn x z)) (d, rng))).
  { apply forZ_invariant; [split; [apply trees_placed_refl|done]|].
    intros x st Hx Hst.
    apply forZ_invariant; [done|]. intros z st' Hz Hst'.
    by apply treeColumn_trees. }
  apply HP.
Qed.

Lemma terrainType_cases y h :
  terrainType y h = BEDROCK ∨ terrainType y h = GRASS ∨
  terrainType y h = DIRT ∨ terrainType y h = STONE.
Proof.
  unfold terrainType.
  destruct (y =? 0); [tauto|]. destruct (y =? h); [tauto|].
  destruct (h - 3 <=? y); tauto.
Qed.

(** X18.  What a generated chunk holds.  With [Math.random] in [0, 1),
    every cell of a freshly generated chunk reads as one of the seven
    block ids; wood occurs only in columns at least two cells away from
    the chunk border and from height 2 up, leaves only from height 4 up;
    hence the two bottom layers are exactly what the height pass wrote;
    and a cell that differs from the height pass holds wood or leaves. *)
Theorem generateChunk_blocks (w : World) (cx cz : Z) (rng : Rng) (x y z : Z) :
  rng_valid rng -> in_chunk x y z ->
  let b := getBlock (generateChunk cx cz (w, rng)).1
             (cx * chunkSize + x) y (cz * chunkSize + z) in
  let h := columnHeight (noise2D w) cx cz x z in
  let terrain := if decide (y <= h) then terrainType y h else AIR in
  (∃ v, b = Some v ∧ AIR <= v <= LEAVES) ∧
  (b = Some WOOD -> 2 <= x < chunkSize - 2 ∧ 2 <= z < chunkSize - 2 ∧ 2 <= y) ∧
  (b = Some LEAVES -> 4 <= y) ∧
  (y <= 1 -> b = Some (terrainType y h)) ∧
  (b ≠ Some terrain -> b = Some WOOD ∨ b = Some LEAVES).
Proof.
  intros Hrng Hin. cbv zeta.
  rewrite (getBlock_generateChunk cx cz w rng x y z Hin).
  unfold generateVolume. cbv zeta.
  set (d0 := terrainPass (noise2D w) cx cz (u8_new (chunkSize * chunkSize * chunkSize))).
  destruct (treePass_trees d0 rng Hrng) as [_ Htrees].
  specialize (Htrees x y z Hin).
  pose proof (terrainPass_new (noise2D w) cx cz x y z Hin) as Hterrain.
  fold d0 in Hterrain.
  pose proof (columnHeight_range (noise2D w) cx cz x z) as Hh.
  set (h := columnHeight (noise2D w) cx cz x z) in *.
  set (v := u8_get (treePass (d0, rng)).1 (getBlockIndex x y z)) in *.
  assert (Hd0 : u8_get d0 (getBlockIndex x y z) =
                Some (if decide (y <= h) then terrainType y h else AIR)).
  { rewrite Hterrain. by case_decide. }
  assert (Hrange : AIR <= (if decide (y <= h) then terrainType y h else AIR) <= LEAVES
                   ∧ (if decide (y <= h) then terrainType y h else AIR) ≠ WOOD
                   ∧ (if decide (y <= h) then terrainType y h else AIR) ≠ LEAVES).
  { case_decide; [|by unfold AIR, LEAVES, WOOD].
    destruct (terrainType_cases y h) as [-> | [-> | [-> | ->]]];
      unfold AIR, LEAVES, WOOD, BEDROCK, GRASS, DIRT, STONE; lia. }
  destruct Htrees as [Heq | [(Hw & Hx & Hz & Hy) | (Hl & Hy)]].
  - rewrite Heq, Hd0. split_and!.
    + eexists. split; [reflexivity|apply Hrange].
    + intros [= Hc]. by apply Hrange in Hc.
    + intros [= Hc]. by apply Hrange in Hc.
    + intros Hy. rewrite decide_True; [done|lia].
    + done.
  - rewrite Hw. split_and!; try done.
    + eexists. split; [reflexivity|]. unfold AIR, WOOD, LEAVES. lia.
    + intros ?. lia.
    + by left.
  - rewrite Hl. split_and!; try done.
    + eexists. split; [reflexivity|]. unfold AIR, LEAVES. lia.
    + intros ?. lia.
    + by right.
Qed.

Lemma generateChunk_blocks_witness :
  getBlock (generateChunk 0 0 (flatWorld, treeRng)).1 3 1 3 =
  Some (terrainType 1 (columnHeight (noise2D flatWorld) 0 0 3 3)).
Proof.
  apply (generateChunk_blocks flatWorld 0 0 treeRng 3 1 3 treeRng_valid).
  - unfold in_chunk, chunkSize. lia.
  - lia.
Defined.

(* ===================================================================== *)
(** ** Trunks stay *)
(* ===================================================================== *)

Lemma wood_kept_refl d : wood_kept d d.
Proof. by split. Qed.

Lemma wood_kept_trans d1 d2 d3 :
  wood_kept d1 d2 -> wood_kept d2 d3 -> wood_kept d1 d3.
Proof.
  intros [Hl1 H1] [Hl2 H2]. split; [congruence|]. intros i Hi. by apply H2, H1.
Qed.

Lemma wood_kept_set_wood d i : wood_kept d (u8_set d i WOOD).
Proof.
  split; [apply u8_set_length|]. intros j Hj.
  destruct (u8_get_set_cases d i j WOOD) as [-> | ->]; done.
Qed.

Lemma placeLeaf_wood x y z d : wood_kept d (placeLeaf x y z d).
Proof.
  unfold placeLeaf. destruct (_ && _); [|apply wood_kept_refl].
  destruct (is_type (u8_get d (getBlockIndex x y z)) WOOD) eqn:Hw; cbn [negb];
    [apply wood_kept_refl|].
  split; [apply u8_set_length|]. intros j Hj.
  destruct (decide (getBlockIndex x y z = j)) as [<-|Hne].
  - rewrite Hj in Hw. cbn in Hw. discriminate.
  - by rewrite u8_get_set_ne.
Qed.

Lemma leafCell_wood sx sz r x y z st :
  wood_kept st.1 (leafCell sx sz r x y z st).1.
Proof.
  destruct st as [d rng]. unfold leafCell. cbn [fst].
  destruct (_ && _).
  - destruct (random rng) as [v rng']. destruct (Qltb v 0.4); cbn [fst];
      [apply wood_kept_refl|apply placeLeaf_wood].
  - apply placeLeaf_wood.
Qed.

Lemma trunkHeight_range r :
  (0 <= r)%Q -> (r < 1)%Q -> 4 <= Qfloor (r * 2) + 4 <= 5.
Proof.
  intros H0 H1. split; [by apply trunkHeight_min|].
  assert (Qfloor (r * 2) < 2); [|lia].
  rewrite Zlt_Qlt. eapply Qle_lt_trans; [apply Qfloor_le|].
  destruct r as [n d]. unfold Qlt, Qle, Qmult, inject_Z in *. cbn in *. nia.
Qed.

(** X27.  The canopy never replaces a trunk.  [placeTree] leaves every
    cell of its trunk that lies inside the chunk as wood: the leaves it
    writes afterwards skip wood.  Neither [placeTree] nor the whole
    vegetation pass ever turns a wood cell into anything else.  With
    [Math.random] in [0, 1) the trunk is 4 or 5 cells high. *)
Theorem placeTree_trunk (sx sy sz : Z) (d : list Z) (rng : Rng) :
  volume_wf d -> in_chunk sx sy sz ->
  let th := Qfloor (rng 0%nat * 2) + 4 in
  let d' := (placeTree sx sy sz (d, rng)).1 in
  (∀ j, 0 <= j < th -> sy + j < chunkSize ->
     u8_get d' (getBlockIndex sx (sy + j) sz) = Some WOOD) ∧
  (∀ i, u8_get d i = Some WOOD -> u8_get d' i = Some WOOD) ∧
  (∀ i, u8_get d i = Some WOOD -> u8_get (treePass (d, rng)).1 i = Some WOOD) ∧
  (rng_valid rng -> 4 <= th <= 5).
Proof.
  intros Hwf Hin. cbv zeta.
  assert (Hpass : wood_kept d (treePass (d, rng)).1).
  { unfold treePass.
    apply (forZ_preorder (fun a b : list Z * Rng => wood_kept a.1 b.1));
      [intros; apply wood_kept_refl|intros a b c; apply wood_kept_trans|].
    intros x st _.
    apply (forZ_preorder (fun a b : list Z * Rng => wood_kept a.1 b.1));
      [intros; apply wood_kept_refl|intros a b c; apply wood_kept_trans|].
    intros z [d1 rng1] _. unfold treeColumn. cbn [fst].
    destruct (_ || _); [apply wood_kept_refl|].
    destruct (0 <? _); [|apply wood_kept_refl].
    destruct (is_type _ GRASS); [|apply wood_kept_refl].
    destruct (random rng1) as [r rng2].
    destruct (Qltb r 0.01); [|apply wood_kept_refl].
    unfold placeTree. destruct (random rng2) as [r' rng3].
    set (d2 := forZ 0 _ _ d1).
    assert (H2 : wood_kept d1 d2).
    { unfold d2. apply (forZ_preorder wood_kept);
        [apply wood_kept_refl|apply wood_kept_trans|].
      intros i d3 _. destruct (_ <? _); [apply wood_kept_set_wood|apply wood_kept_refl]. }
    eapply wood_kept_trans; [exact H2|].
    change d2 with (d2, rng3).1 at 1.
    apply (forZ_preorder (fun a b : list Z * Rng => wood_kept a.1 b.1));
      [intros; apply wood_kept_refl|intros a b c; apply wood_kept_trans|].
    intros y st1 _.
    apply (forZ_preorder (fun a b : list Z * Rng => wood_kept a.1 b.1));
      [intros; apply wood_kept_refl|intros a b c; apply wood_kept_trans|].
    intros x' st2 _.
    apply (forZ_preorder (fun a b : list Z * Rng => wood_kept a.1 b.1));
      [intros; apply wood_kept_refl|intros a b c; apply wood_kept_trans|].
    intros z' st3 _. apply leafCell_wood. }
  unfold placeTree, random. lazy beta iota.
  set (th := Qfloor (rng 0%nat * 2) + 4).
  set (rng' := fun n => rng (S n)).
  set (d1 := forZ 0 th _ d).
  assert (Htrunk0 : wood_kept d d1).
  { unfold d1. apply (forZ_preorder wood_kept);
      [apply wood_kept_refl|apply wood_kept_trans|].
    intros i d3 _. destruct (_ <? _); [apply wood_kept_set_wood|apply wood_kept_refl]. }
  assert (Htrunk : ∀ j, 0 <= j < th -> sy + j < chunkSize ->
                        u8_get d1 (getBlockIndex sx (sy + j) sz) = Some WOOD).
  { destruct (Z.le_gt_cases th 0) as [Hneg|Hpos]; [intros j Hj; lia|].
    assert (HP : (fun (i : Z) (d2 : list Z) =>
                    length d2 = length d ∧
                    ∀ j, 0 <= j < i -> sy + j < chunkSize ->
                         u8_get d2 (getBlockIndex sx (sy + j) sz) = Some WOOD) th d1).
    { unfold d1.
      apply (forZ_invariant_idx
               (fun (i : Z) (d2 : list Z) =>
                  length d2 = length d ∧
                  ∀ j, 0 <= j < i -> sy + j < chunkSize ->
                       u8_get d2 (getBlockIndex sx (sy + j) sz) = Some WOOD));
        [lia| |].
      - split; [done|]. intros j Hj. lia.
      - intros i d2 Hi [Hlen Hdone]. cbv beta.
        destruct (Z.ltb_spec (sy + i) chunkSize) as [Hlt|Hge].
        + split; [by rewrite u8_set_length|]. intros j Hj Hjlt.
          destruct (decide (j = i)) as [->|Hne].
          * rewrite u8_get_set_eq; [done|].
            rewrite Hlen, (volume_wf_length _ Hwf).
            apply getBlockIndex_range. unfold in_chunk in *. lia.
          * destruct (u8_get_set_cases d2 (getBlockIndex sx (sy + i) sz)
                        (getBlockIndex sx (sy + j) sz) WOOD) as [-> | ->];
              [apply Hdone; lia|done].
        + split; [done|]. intros j Hj Hjlt.
          apply Hdone; [|done]. lia. }
    apply HP. }
  assert (Hleaves : wood_kept d1
            (forZ (sy + th - 2) (sy + th + 1 + 1) (fun y =>
               let dy := y - (sy + th - 1) in
               let radius := if dy =? 2 then 1 else if dy =? -1 then 2 else 2 in
               forZ (sx - radius) (sx + radius + 1) (fun x =>
                 forZ (sz - radius) (sz + radius + 1) (fun z =>
                   leafCell sx sz radius x y z))) (d1, rng')).1).
  { change d1 with (d1, rng').1 at 1.
    apply (forZ_preorder (fun a b : list Z * Rng => wood_kept a.1 b.1));
      [intros; apply wood_kept_refl|intros a b c; apply wood_kept_trans|].
    intros y st1 _. cbv zeta.
    apply (forZ_preorder (fun a b : list Z * Rng => wood_kept a.1 b.1));
      [intros; apply wood_kept_refl|intros a b c; apply wood_kept_trans|].
    intros x' st2 _.
    apply (forZ_preorder (fun a b : list Z * Rng => wood_kept a.1 b.1));
      [intros; apply wood_kept_refl|intros a b c; apply wood_kept_trans|].
    intros z' st3 _. apply leafCell_wood. }
  cbv zeta in Hleaves.
  split_and!.
  - intros j Hj Hlt. apply Hleaves. by apply Htrunk.
  - intros i Hi. apply Hleaves. by apply Htrunk0.
  - apply Hpass.
  - intros Hv. apply trunkHeight_range; apply Hv.
Qed.

Lemma placeTree_trunk_witness :
  u8_get (placeTree 8 5 8 (flatVolume, calmRng)).1 (getBlockIndex 8 (5 + 2) 8)
  = Some WOOD.
Proof.
  destruct (placeTree_trunk 8 5 8 flatVolume calmRng flatVolume_wf) as (Ht & _).
  - unfold in_chunk, chunkSize. lia.
  - apply (Ht 2).
    + change (Qfloor (calmRng 0%nat * 2) + 4) with 5. lia.
    + unfold chunkSize. lia.
Defined.

(* ===================================================================== *)
(** ** The texture atlas *)
(* ===================================================================== *)

Lemma grey_range r :
  (0 <= r)%Q -> (r < 1)%Q ->
  150 <= Qfloor (r * inject_Z (255 - 150) + 150) <= 254.
Proof.
  intros H0 H1.
  assert (Hlo : (inject_Z 150 <= r * inject_Z (255 - 150) + 150)%Q).
  { destruct r as [n d]. unfold Qle, Qmult, Qplus, inject_Z in *. cbn in *. nia. }
  assert (Hhi : (r * inject_Z (255 - 150) + 150 < inject_Z 255)%Q).
  { destruct r as [n d]. unfold Qlt, Qle, Qmult, Qplus, inject_Z in *. cbn in *. nia. }
  split.
  - rewrite <- (Qfloor_Z 150). by apply Qfloor_resp_le.
  - assert (Qfloor (r * inject_Z (255 - 150) + 150) < 255); [|lia].
    rewrite Zlt_Qlt. eapply Qle_lt_trans; [apply Qfloor_le|exact Hhi].
Qed.

Lemma noiseTexel_spec i data rng :
  0 <= i -> 4 * i + 3 < Z.of_nat (length data) -> rng_valid rng ->
  let st := noiseTexel i (data, rng) in
  length st.1 = length data ∧ rng_valid st.2 ∧ texel_ok st.1 i ∧
  ∀ j, j < 4 * i ∨ 4 * i + 3 < j -> u8_get st.1 j = u8_get data j.
Proof.
  intros Hi Hlen Hrng. cbv zeta. unfold noiseTexel. cbv zeta.
  pose proof (grey_range (rng 0%nat) (proj1 (Hrng 0%nat)) (proj2 (Hrng 0%nat))) as Hv.
  unfold random. lazy beta iota.
  set (v := Qfloor (rng 0%nat * inject_Z (255 - 150) + 150)) in *.
  replace (i * 4) with (4 * i) by lia.
  set (d3 := u8_set (u8_set (u8_set data (4 * i) v) (4 * i + 1) v) (4 * i + 2) v).
  assert (Hl3 : length d3 = length data).
  { unfold d3. by rewrite !u8_set_length. }
  assert (Hrgb : u8_get d3 (4 * i) = Some v ∧ u8_get d3 (4 * i + 1) = Some v ∧
                 u8_get d3 (4 * i + 2) = Some v).
  { unfold d3. split_and!.
    - rewrite !u8_get_set_ne by lia. rewrite u8_get_set_eq by lia.
      f_equal. apply Z.mod_small. lia.
    - rewrite u8_get_set_ne by lia. rewrite u8_get_set_eq
        by (rewrite u8_set_length; lia).
      f_equal. apply Z.mod_small. lia.
    - rewrite u8_get_set_eq by (rewrite !u8_set_length; lia).
      f_equal. apply Z.mod_small. lia. }
  assert (Hother : ∀ a j, j < 4 * i ∨ 4 * i + 3 < j ->
            u8_get (u8_set d3 (4 * i + 3) a) j = u8_get data j).
  { intros a j Hj. unfold d3. by rewrite !u8_get_set_ne by lia. }
  assert (Hfinal : ∀ a rng', rng_valid rng' -> (a = 0 ∨ a = 255) ->
            (i mod 32 < 16 -> a = 255) ->
            length (u8_set d3 (4 * i + 3) a) = length data ∧ rng_valid rng' ∧
            texel_ok (u8_set d3 (4 * i + 3) a) i ∧
            ∀ j, j < 4 * i ∨ 4 * i + 3 < j ->
              u8_get (u8_set d3 (4 * i + 3) a) j = u8_get data j).
  { intros a rng' Hr Ha Hleft. split_and!; [by rewrite u8_set_length|done| |by apply Hother].
    exists v, a. destruct Hrgb as (Hr0 & Hr1 & Hr2).
    split_and!; try done; try lia.
    - by rewrite u8_get_set_ne by lia.
    - by rewrite u8_get_set_ne by lia.
    - by rewrite u8_get_set_ne by lia.
    - rewrite u8_get_set_eq by lia. f_equal. apply Z.mod_small. lia. }
  destruct (Z.leb_spec 16 (i mod 32)) as [Hright|Hleft].
  - destruct (Qltb _ _); cbn [fst snd]; apply Hfinal;
      try (intros n; apply (Hrng (S (S n)))); try lia; tauto.
  - cbn [fst snd]. apply Hfinal; [intros n; apply (Hrng (S n))|by right|done].
Qed.

(** X19.  The texture atlas.  With [Math.random] in [0, 1),
    [createNoiseTexture] returns 32 x 16 RGBA texels: each is a grey
    (equal red, green and blue) between 150 and 255; the left half of
    every row is opaque, and a texel of the right half is either opaque
    or fully transparent. *)
Theorem createNoiseTexture_texels (rng : Rng) :
  rng_valid rng ->
  let tex := (createNoiseTexture rng).1 in
  Z.of_nat (length tex) = 32 * 16 * 4 ∧
  rng_valid (createNoiseTexture rng).2 ∧
  ∀ i, 0 <= i < 32 * 16 -> texel_ok tex i.
Proof.
  intros Hrng. cbv zeta. unfold createNoiseTexture. cbv zeta.
  assert (HP : (fun (i : Z) (st : list Z * Rng) =>
                  Z.of_nat (length st.1) = 32 * 16 * 4 ∧ rng_valid st.2 ∧
                  ∀ j, 0 <= j < i -> texel_ok st.1 j)
               (32 * 16)
               (forZ 0 (32 * 16) noiseTexel (u8_new (32 * 16 * 4), rng))).
  { apply (forZ_invariant_idx
             (fun (i : Z) (st : list Z * Rng) =>
                Z.of_nat (length st.1) = 32 * 16 * 4 ∧ rng_valid st.2 ∧
                ∀ j, 0 <= j < i -> texel_ok st.1 j)); [lia| |].
    - cbn [fst snd]. rewrite u8_new_length. split_and!; [lia|done|]. intros j Hj. lia.
    - intros i [data r] Hi (Hlen & Hr & Hdone). cbn [fst snd] in *.
      destruct (noiseTexel_spec i data r ltac:(lia) ltac:(lia) Hr)
        as (Hl' & Hr' & Hnew & Hkeep).
      cbv zeta in Hl', Hr', Hnew, Hkeep.
      split_and!; [by rewrite Hl'|done|].
      intros j Hj. destruct (decide (j = i)) as [->|Hne]; [done|].
      destruct (Hdone j ltac:(lia)) as (v & a & Hv & H0 & H1 & H2 & H3 & Ha1 & Ha2).
      exists v, a. rewrite !Hkeep by lia. split_and!; try done; lia. }
  cbn beta in HP. destruct HP as (Hlen & Hr & Hall). by split_and!.
Qed.

Lemma createNoiseTexture_texels_witness :
  Z.of_nat (length (createNoiseTexture calmRng).1) = 32 * 16 * 4.
Proof. apply (createNoiseTexture_texels calmRng calmRng_valid). Defined.

(* ===================================================================== *)
(** ** The shape of a chunk mesh *)
(* ===================================================================== *)

Lemma addFace_fields x y z t s g :
  positions (addFace x y z t s g) = positions g ++ facePositions x y z s ∧
  normals (addFace x y z t s g) = normals g ++ faceNormals s ∧
  uvs (addFace x y z t s g) = uvs g ++ faceUvs t ∧
  colors (addFace x y z t s g) = colors g ++ faceColors t s.
Proof.
  unfold addFace, faceColors. by destruct (faceColor t s) as [[r gr] b].
Qed.

Lemma faces_geometry faces g :
  let g' := foldl (applyFace addFace) g faces in
  positions g' = positions g ++
    flat_map (fun f => facePositions (f_x f) (f_y f) (f_z f) (f_side f)) faces ∧
  normals g' = normals g ++ flat_map (fun f => faceNormals (f_side f)) faces ∧
  uvs g' = uvs g ++ flat_map (fun f => faceUvs (f_type f)) faces ∧
  colors g' = colors g ++ flat_map (fun f => faceColors (f_type f) (f_side f)) faces.
Proof.
  revert g. induction faces as [|f faces IH]; intros g; cbv zeta; cbn [foldl flat_map].
  - by rewrite !app_nil_r.
  - destruct (IH (applyFace addFace g f)) as (-> & -> & -> & ->).
    unfold applyFace.
    destruct (addFace_fields (f_x f) (f_y f) (f_z f) (f_type f) (f_side f) g)
      as (-> & -> & -> & ->).
    by rewrite <- !app_assoc.
Qed.

Lemma facePositions_range x y z s p :
  in_chunk x y z -> p ∈ facePositions x y z s -> 0 <= p <= chunkSize.
Proof.
  intros (Hx & Hy & Hz) Hp. unfold chunkSize in *.
  destruct s; cbn in Hp;
    repeat (apply elem_of_cons in Hp as [->|Hp]; [lia|]);
    by apply elem_of_nil in Hp.
Qed.

Lemma quadIndices_quads n :
  0 <= n -> quadIndices (4 * n) = flat_map quadTriangles (seqZ 0 n).
Proof.
  intros Hn. unfold quadIndices.
  replace ((4 * n + 3) / 4) with n by (apply Z.div_unique with (r := 3); lia).
  reflexivity.
Qed.

(** X20.  The mesh of a chunk, whatever the volume.  Its four attribute
    arrays are the concatenation, face by face in emission order, of the
    four corner positions, the normal, the texture coordinates and the
    colour of each emitted face, so they describe the same number of
    vertices, four per face; the index buffer holds the two triangles of
    each quad in order and every index addresses an existing vertex;
    every position component lies in [0, 16]; and the mesh is placed at
    the chunk's world origin. *)
Theorem generateChunkMesh_shape (data : list Z) (cx cz : Z) :
  let m := generateChunkMesh data cx cz in
  let g := geometry m in
  let faces := emittedFaces data in
  let n := Z.of_nat (length faces) in
  positions g =
    flat_map (fun f => facePositions (f_x f) (f_y f) (f_z f) (f_side f)) faces ∧
  normals g = flat_map (fun f => faceNormals (f_side f)) faces ∧
  uvs g = flat_map (fun f => faceUvs (f_type f)) faces ∧
  colors g = flat_map (fun f => faceColors (f_type f) (f_side f)) faces ∧
  indices m = flat_map quadTriangles (seqZ 0 n) ∧
  Z.of_nat (length (positions g)) = 3 * (4 * n) ∧
  Z.of_nat (length (normals g)) = 3 * (4 * n) ∧
  Z.of_nat (length (uvs g)) = 2 * (4 * n) ∧
  Z.of_nat (length (colors g)) = 3 * (4 * n) ∧
  Z.of_nat (length (indices m)) = 6 * n ∧
  vertexCount m = 4 * n ∧
  (∀ i, i ∈ indices m -> 0 <= i < vertexCount m) ∧
  (∀ p, p ∈ positions g -> 0 <= p <= chunkSize) ∧
  mesh_position m = (cx * chunkSize, 0, cz * chunkSize).
Proof.
  cbv zeta. unfold generateChunkMesh. cbv zeta. cbn [geometry indices mesh_position].
  destruct (mesh_counts data cx cz) as (_ & Hv & _). cbv zeta in Hv.
  unfold vertexCount, generateChunkMesh in *. cbv zeta in *. cbn [geometry] in *.
  rewrite Hv.
  set (n := Z.of_nat (length (emittedFaces data))) in *.
  rewrite (quadIndices_quads n) by lia.
  rewrite meshGeometry_faces.
  destruct (faces_geometry (emittedFaces data) emptyGeometry) as (Hp & Hn & Hu & Hc).
  cbv zeta in Hp, Hn, Hu, Hc. cbn [positions normals uvs colors emptyGeometry app] in *.
  rewrite Hp, Hn, Hu, Hc.
  split_and!; try done.
  - rewrite (flat_map_length_const _ _ 12%nat); [unfold n; lia|].
    intros f. by destruct (f_side f).
  - rewrite (flat_map_length_const _ _ 12%nat); [unfold n; lia|].
    intros f. by destruct (f_side f).
  - rewrite (flat_map_length_const _ _ 8%nat); [unfold n; lia|].
    intros f. unfold faceUvs. by destruct (is_type _ _).
  - rewrite (flat_map_length_const _ _ 12%nat); [unfold n; lia|].
    intros f. unfold faceColors. by destruct (faceColor _ _) as [[? ?] ?].
  - rewrite (flat_map_length_const _ _ 6%nat); [rewrite length_seqZ; lia|done].
  - intros i (q & Hq & Hi)%elem_of_flat_map.
    apply elem_of_seqZ in Hq. unfold quadTriangles in Hi. cbv zeta in Hi.
    repeat (apply elem_of_cons in Hi as [->|Hi]; [lia|]).
    by apply elem_of_nil in Hi.
  - intros p (f & Hf & Hp')%elem_of_flat_map.
    apply elem_of_emittedFaces in Hf as [Hin _].
    by apply (facePositions_range _ _ _ _ _ Hin Hp').
Qed.

(* ===================================================================== *)
(** ** The mesh, face by face *)
(* ===================================================================== *)

(** The [q]-th block of a concatenation of blocks of one length. *)
Lemma flat_map_block {A B : Type} (f : A -> list B) (n : nat) l q :
  (∀ a, length (f a) = n) ->
  take n (drop (n * q) (flat_map f l)) = from_option f [] (l !! q).
Proof.
  intros Hlen. revert q. induction l as [|a l IH]; intros q; cbn [flat_map].
  - by rewrite drop_nil, take_nil.
  - destruct q as [|q].
    + rewrite Nat.mul_0_r, drop_0. cbn [lookup list_lookup from_option].
      by rewrite take_app_length' by (symmetry; apply Hlen).
    + replace (n * S q)%nat with (n + n * q)%nat by lia.
      rewrite <- drop_drop, drop_app_length' by (symmetry; apply Hlen).
      apply IH.
Qed.

(** The corners and the normal of a face tell its voxel and its side. *)
Lemma face_corners_inj x y z s x' y' z' s' :
  facePositions x y z s = facePositions x' y' z' s' ->
  faceNormals s = faceNormals s' ->
  x = x' ∧ y = y' ∧ z = z' ∧ s = s'.
Proof.
  intros Hp Hn.
  destruct s, s'; try discriminate Hn; cbn in Hp; simplify_eq; split_and!; done || lia.
Qed.

(** Quad [q] of the geometry is what call number [q] of [addFace]
    pushed. *)
Lemma meshGeometry_quad data q :
  let g := meshGeometry data in
  let faces := emittedFaces data in
  quadPositions g q =
    from_option (fun f => facePositions (f_x f) (f_y f) (f_z f) (f_side f)) []
                (faces !! q) ∧
  quadNormals g q = from_option (fun f => faceNormals (f_side f)) [] (faces !! q) ∧
  quadUvs g q = from_option (fun f => faceUvs (f_type f)) [] (faces !! q) ∧
  quadColors g q =
    from_option (fun f => faceColors (f_type f) (f_side f)) [] (faces !! q).
Proof.
  cbv zeta. unfold quadPositions, quadNormals, quadUvs, quadColors.
  rewrite meshGeometry_faces.
  destruct (faces_geometry (emittedFaces data) emptyGeometry) as (Hp & Hn & Hu & Hc).
  cbv zeta in Hp, Hn, Hu, Hc. cbn [positions normals uvs colors emptyGeometry app] in *.
  rewrite Hp, Hn, Hu, Hc.
  split_and!; apply flat_map_block; intros f.
  - by destruct (f_side f).
  - by destruct (f_side f).
  - unfold faceUvs. by destruct (is_type _ _).
  - unfold faceColors. by destruct (faceColor _ _) as [[? ?] ?].
Qed.

(** Quad [q] of the geometry is the face of a voxel on a side exactly
    when call number [q] of [addFace] was for that voxel and side. *)
Lemma is_face_lookup data q x y z side :
  is_face (meshGeometry data) q x y z side ↔
  ∃ t, emittedFaces data !! q = Some (mkFace x y z t side).
Proof.
  unfold is_face.
  destruct (meshGeometry_quad data q) as (Hp & Hn & _). cbv zeta in Hp, Hn.
  rewrite Hp, Hn. split.
  - intros [H1 H2]. destruct (emittedFaces data !! q) as [f|]; cbn in *.
    + apply face_corners_inj in H1 as (<- & <- & <- & <-); [|done].
      exists (f_type f). by destruct f.
    + by destruct side.
  - intros (t & ->). done.
Qed.

Lemma has_face_emitted data x y z side :
  has_face (meshGeometry data) x y z side ↔
  ∃ t, mkFace x y z t side ∈ emittedFaces data.
Proof.
  unfold has_face. split.
  - intros (q & (t & Hq)%is_face_lookup). exists t.
    by apply list_elem_of_lookup_2 in Hq.
  - intros (t & (q & Hq)%list_elem_of_lookup_1). exists q.
    apply is_face_lookup. by exists t.
Qed.

(** C6.  In the mesh that [generateChunkMesh] returns for a chunk
    volume, the geometry holds the face of a voxel on a side (a quad
    with the corners and the normal of that face) exactly when the voxel
    is not empty and the neighbour cell on that side lies outside the
    chunk or holds the empty type or the leaves type.  The face is held
    at most once, and its quad has the colour and the texture
    coordinates of the voxel's type.  The quads are the calls of
    [addFace] that the loops make: the face is held exactly when
    [addFace] is called for the voxel and the side, and the call carries
    the voxel's type. *)
Theorem face_emitted_iff (data : list Z) (cx cz x y z : Z) (side : Side) :
  volume_wf data -> in_chunk x y z ->
  let g := geometry (generateChunkMesh data cx cz) in
  let type := u8_get data (getBlockIndex x y z) in
  let '(nx, ny, nz) := neighbor x y z side in
  (has_face g x y z side ↔
   type ≠ Some AIR ∧
   (¬ in_chunk nx ny nz ∨
    u8_get data (getBlockIndex nx ny nz) = Some AIR ∨
    u8_get data (getBlockIndex nx ny nz) = Some LEAVES)) ∧
  (∀ q q', is_face g q x y z side -> is_face g q' x y z side -> q = q') ∧
  (∀ q, is_face g q x y z side ->
     quadUvs g q = faceUvs type ∧ quadColors g q = faceColors type side) ∧
  (has_face g x y z side ↔ ∃ t, mkFace x y z t side ∈ emittedFaces data) ∧
  (∀ t, mkFace x y z t side ∈ emittedFaces data -> t = type).
Proof.
  intros Hwf Hin g type. subst g.
  change (geometry (generateChunkMesh data cx cz)) with (meshGeometry data).
  destruct (neighbor x y z side) as [[nx ny] nz] eqn:Hn.
  assert (Hshown : faceShown data x y z side = checkNeighbor data nx ny nz).
  { unfold faceShown. by rewrite Hn. }
  assert (Hair : is_type type AIR = false ↔ type ≠ Some AIR).
  { unfold is_type, AIR. destruct type as [b|]; [|done].
    rewrite Z.eqb_neq. split; [by intros ? [= ->]|]. intros H ->. done. }
  assert (Htype : ∀ t, mkFace x y z t side ∈ emittedFaces data -> t = type).
  { intros t Ht. apply elem_of_emittedFaces in Ht as [_ Ht]. simpl in Ht.
    apply elem_of_voxelFaces in Ht as ([= ->] & _). done. }
  split_and!.
  - rewrite has_face_emitted.
    rewrite <- checkNeighbor_true by done. rewrite <- Hshown, <- Hair. split.
    + intros (t & Ht). apply elem_of_emittedFaces in Ht as [_ Ht]. simpl in Ht.
      apply elem_of_voxelFaces in Ht as (_ & ? & ?). done.
    + intros [H1 H2]. exists type. apply elem_of_emittedFaces. simpl.
      split; [done|]. apply elem_of_voxelFaces. done.
  - intros q q' (t & Hq)%is_face_lookup (t' & Hq')%is_face_lookup.
    rewrite (Htype t) in Hq by (by apply list_elem_of_lookup_2 in Hq).
    rewrite (Htype t') in Hq' by (by apply list_elem_of_lookup_2 in Hq').
    by eapply NoDup_lookup; [apply NoDup_emittedFaces|..].
  - intros q (t & Hq)%is_face_lookup.
    rewrite (Htype t) in Hq by (by apply list_elem_of_lookup_2 in Hq).
    destruct (meshGeometry_quad data q) as (_ & _ & Hu & Hc). cbv zeta in Hu, Hc.
    rewrite Hu, Hc, Hq. done.
  - apply has_face_emitted.
  - exact Htype.
Qed.

Lemma face_emitted_iff_witness :
  has_face (geometry (generateChunkMesh flatVolume 0 0)) 3 4 3 top ∧
  ¬ has_face (geometry (generateChunkMesh flatVolume 0 0)) 3 3 3 top.
Proof.
  assert (Hwf : volume_wf flatVolume) by (vm_compute; reflexivity).
  split.
  - pose proof (face_emitted_iff flatVolume 0 0 3 4 3 top Hwf
                  ltac:(unfold in_chunk, chunkSize; lia)) as [H _].
    apply H. split; [vm_compute; discriminate|].
    right. left. vm_compute. reflexivity.
  - pose proof (face_emitted_iff flatVolume 0 0 3 3 3 top Hwf
                  ltac:(unfold in_chunk, chunkSize; lia)) as [H _].
    intros Hex. apply H in Hex as [_ [Hout|[Hair|Hleaves]]].
    + apply Hout. unfold in_chunk, chunkSize. lia.
    + vm_compute in Hair. discriminate.
    + vm_compute in Hleaves. discriminate.
Defined.

(* ===================================================================== *)
(** ** Meshes of full and of empty volumes *)
(* ===================================================================== *)

Lemma in_chunkb_spec x y z : in_chunkb (x, y, z) = true ↔ in_chunk x y z.
Proof.
  unfold in_chunkb, in_chunk. rewrite !andb_true_iff.
  rewrite !Z.leb_le, !Z.ltb_lt. tauto.
Qed.

Lemma faceShown_solid data x y z s :
  volume_wf data ->
  (∀ x y z, in_chunk x y z ->
     ∃ t, u8_get data (getBlockIndex x y z) = Some t ∧ t ≠ AIR ∧ t ≠ LEAVES) ->
  faceShown data x y z s = negb (in_chunkb (neighbor x y z s)).
Proof.
  intros Hwf Hsolid.
  destruct (neighbor x y z s) as [[nx ny] nz] eqn:Hn.
  destruct (in_chunkb (nx, ny, nz)) eqn:Hin; cbn [negb].
  - apply in_chunkb_spec in Hin.
    destruct (Hsolid nx ny nz Hin) as (t & Ht & Ha & Hl).
    apply (faceShown_blocked data x y z s t Hwf); [|done|done].
    by rewrite Hn.
  - apply (faceShown_open data x y z s Hwf). rewrite Hn. left.
    intros Hc. apply in_chunkb_spec in Hc. congruence.
Qed.

Lemma border_faces_count :
  sum_list_with (fun c : Z * Z * Z => length (borderSides c.1.1 c.1.2 c.2)) chunkCells
  = 1536%nat.
Proof. vm_compute. reflexivity. Qed.

Lemma sum_list_with_ext_elem {A : Type} (f g : A -> nat) l :
  (∀ a, a ∈ l -> f a = g a) -> sum_list_with f l = sum_list_with g l.
Proof.
  induction l as [|a l IH]; intros H; [done|]. cbn [sum_list_with].
  rewrite H by (by left). rewrite IH; [done|]. intros b Hb. apply H. by right.
Qed.

(** X21.  Hidden faces cost nothing, and nothing costs nothing.  In a
    full volume without air or leaves the mesher emits, for each voxel,
    exactly its sides on the chunk border, 6 x 16 x 16 quads in all and
    none between two voxels of the chunk; in a volume of air it emits no
    face at all. *)
Theorem mesh_solid_and_empty (data : list Z) (cx cz : Z) :
  volume_wf data ->
  ((∀ x y z, in_chunk x y z ->
      ∃ t, u8_get data (getBlockIndex x y z) = Some t ∧ t ≠ AIR ∧ t ≠ LEAVES) ->
   emittedFaces data =
     flat_map (fun c : Z * Z * Z =>
                 mkFace c.1.1 c.1.2 c.2 (u8_get data (getBlockIndex c.1.1 c.1.2 c.2))
                   <$> borderSides c.1.1 c.1.2 c.2) chunkCells ∧
   quadCount (generateChunkMesh data cx cz) = 6 * chunkSize * chunkSize) ∧
  ((∀ x y z, in_chunk x y z -> u8_get data (getBlockIndex x y z) = Some AIR) ->
   emittedFaces data = [] ∧ quadCount (generateChunkMesh data cx cz) = 0).
Proof.
  intros Hwf. split.
  - intros Hsolid.
    assert (Hfaces : emittedFaces data =
      flat_map (fun c : Z * Z * Z =>
                  mkFace c.1.1 c.1.2 c.2 (u8_get data (getBlockIndex c.1.1 c.1.2 c.2))
                    <$> borderSides c.1.1 c.1.2 c.2) chunkCells).
    { rewrite emittedFaces_cells. apply flat_map_ext_elem.
      intros [[x y] z] Hc. cbn [fst snd]. apply elem_of_chunkCells in Hc.
      destruct (Hsolid x y z Hc) as (t & Ht & Ha & _).
      unfold voxelFaces, borderSides. cbv zeta. rewrite Ht. cbn [is_type].
      destruct (Z.eqb_spec t AIR) as [|_]; [done|].
      f_equal. apply List.filter_ext. intros s.
      by apply faceShown_solid. }
    split; [exact Hfaces|].
    destruct (mesh_counts data cx cz) as (-> & _). rewrite Hfaces.
    rewrite flat_map_length_sum.
    rewrite (sum_list_with_ext_elem _
               (fun c : Z * Z * Z => length (borderSides c.1.1 c.1.2 c.2)))
      by (intros; apply length_fmap).
    by rewrite border_faces_count.
  - intros Hair.
    assert (Hfaces : emittedFaces data = []).
    { rewrite emittedFaces_cells.
      rewrite (flat_map_ext_elem _ (fun _ => [])).
      - by induction chunkCells.
      - intros [[x y] z] Hc. cbn [fst snd]. apply elem_of_chunkCells in Hc.
        by apply voxelFaces_empty, Hair. }
    split; [exact Hfaces|].
    destruct (mesh_counts data cx cz) as (-> & _). by rewrite Hfaces.
Qed.

Lemma mesh_solid_and_empty_witness :
  quadCount (generateChunkMesh solidVolume 0 0) = 6 * chunkSize * chunkSize ∧
  quadCount (generateChunkMesh (u8_new (chunkSize * chunkSize * chunkSize)) 0 0) = 0.
Proof.
  split.
  - apply (mesh_solid_and_empty solidVolume 0 0).
    + unfold volume_wf, solidVolume. apply length_replicate.
    + intros x y z Hin. exists STONE. split; [|done].
      pose proof (getBlockIndex_range x y z Hin) as Hr.
      unfold u8_get, solidVolume.
      destruct (Z.ltb_spec (getBlockIndex x y z) 0); [lia|].
      apply lookup_replicate_2. unfold chunkSize. lia.
  - apply (mesh_solid_and_empty (u8_new (chunkSize * chunkSize * chunkSize)) 0 0).
    + apply new_volume_wf.
    + intros x y z Hin. apply u8_get_new.
      pose proof (getBlockIndex_range x y z Hin). unfold chunkSize. lia.
Defined.

(* ===================================================================== *)
(** ** The scene and the mesh map stay in balance *)
(* ===================================================================== *)

Lemma occurrences_app op s s' :
  occurrences op (s ++ s') = occurrences op s + occurrences op s'.
Proof. unfold occurrences. rewrite filter_app, length_app. lia. Qed.

Lemma occurrences_nil op : occurrences op [] = 0.
Proof. reflexivity. Qed.

Lemma occurrences_cons op o s :
  occurrences op (o :: s) = (if decide (o = op) then 1 else 0) + occurrences op s.
Proof.
  unfold occurrences. rewrite filter_cons. case_decide; cbn [length]; lia.
Qed.

Lemma held_nil m : held m [] = 0.
Proof. reflexivity. Qed.

Lemma held_cons m e c : held m (e :: c) = same_mesh e.2 m + held m c.
Proof.
  unfold held, same_mesh. rewrite filter_cons. case_decide; cbn [length]; lia.
Qed.

Lemma held_app m c c' : held m (c ++ c') = held m c + held m c'.
Proof. unfold held. rewrite filter_app, length_app. lia. Qed.

Lemma occurrences_disposeOps m m' :
  occurrences (SceneAdd m) (disposeOps m') = 0 ∧
  occurrences (SceneRemove m) (disposeOps m') = same_mesh m' m ∧
  occurrences (DisposeGeometry m) (disposeOps m') = same_mesh m' m ∧
  occurrences (DisposeMaterial m) (disposeOps m') = same_mesh m' m.
Proof.
  unfold disposeOps, same_mesh. rewrite !occurrences_cons, !occurrences_nil.
  split_and!; repeat (case_decide; simplify_eq); lia.
Qed.

Lemma occurrences_add m m' :
  occurrences (SceneAdd m) [SceneAdd m'] = same_mesh m' m ∧
  occurrences (SceneRemove m) [SceneAdd m'] = 0 ∧
  occurrences (DisposeGeometry m) [SceneAdd m'] = 0 ∧
  occurrences (DisposeMaterial m) [SceneAdd m'] = 0.
Proof.
  unfold same_mesh. rewrite !occurrences_cons, !occurrences_nil.
  split_and!; repeat (case_decide; simplify_eq); lia.
Qed.

Lemma jm_set_absent {V : Type} k (v : V) m :
  jm_get k m = None -> jm_set k v m = m ++ [(k, v)].
Proof.
  induction m as [|e m IH]; [done|]. rewrite jm_get_cons. cbn [jm_set app].
  case_decide; [done|]. intros H'. by rewrite IH.
Qed.

Lemma jm_delete_absent {V : Type} k (m : JsMap V) :
  jm_get k m = None -> jm_delete k m = m.
Proof.
  induction m as [|e m IH]; [done|]. rewrite jm_get_cons.
  unfold jm_delete in *. cbn [List.filter].
  case_decide as Hd; [done|]. intros H'.
  rewrite bool_decide_eq_false_2 by done. cbn [negb]. by rewrite IH.
Qed.

Lemma held_set_new m k v c :
  jm_get k c = None -> held m (jm_set k v c) = held m c + same_mesh v m.
Proof.
  intros H. rewrite (jm_set_absent k v c H), held_app, held_cons, held_nil.
  cbn [snd]. lia.
Qed.

Lemma held_set_old m k v old c :
  jm_get k c = Some old ->
  held m (jm_set k v c) = held m c - same_mesh old m + same_mesh v m.
Proof.
  induction c as [|e c IH]; [by rewrite jm_get_nil|].
  rewrite jm_get_cons. cbn [jm_set].
  case_decide as Hd.
  - intros [= <-]. rewrite !held_cons. cbn [snd]. lia.
  - intros H'. rewrite !held_cons, IH by done. lia.
Qed.

Lemma held_delete m k old c :
  NoDup (jm_keys c) -> jm_get k c = Some old ->
  held m (jm_delete k c) = held m c - same_mesh old m.
Proof.
  induction c as [|e c IH]; [by rewrite jm_get_nil|].
  unfold jm_keys. rewrite fmap_cons. intros [Hnotin Hnd]%NoDup_cons.
  rewrite jm_get_cons.
  assert (Hstep : jm_delete k (e :: c) =
                  if decide (e.1 = k) then jm_delete k c else e :: jm_delete k c).
  { unfold jm_delete. cbn [List.filter].
    case_decide; [by rewrite bool_decide_eq_true_2|by rewrite bool_decide_eq_false_2]. }
  rewrite Hstep. case_decide as Hd.
  - intros [= <-]. rewrite held_cons.
    rewrite jm_delete_absent; [lia|].
    destruct (jm_get k c) eqn:Hg; [|done].
    exfalso. apply Hnotin. rewrite Hd. apply jm_get_is_Some. rewrite Hg. eauto.
  - intros H'. rewrite !held_cons, (IH Hnd H'). lia.
Qed.

Lemma balanced_add s c k m' :
  jm_get k c = None -> balanced s c ->
  balanced (s ++ [SceneAdd m']) (jm_set k m' c).
Proof.
  intros Hk Hb m. destruct (Hb m) as (H1 & H2 & H3).
  destruct (occurrences_add m m') as (A1 & A2 & A3 & A4).
  rewrite !occurrences_app, A1, A2, A3, A4, (held_set_new m k m' c Hk). lia.
Qed.

Lemma balanced_replace s c k old m' :
  jm_get k c = Some old -> balanced s c ->
  balanced ((s ++ disposeOps old) ++ [SceneAdd m']) (jm_set k m' c).
Proof.
  intros Hk Hb m. destruct (Hb m) as (H1 & H2 & H3).
  destruct (occurrences_add m m') as (A1 & A2 & A3 & A4).
  destruct (occurrences_disposeOps m old) as (D1 & D2 & D3 & D4).
  rewrite !occurrences_app, A1, A2, A3, A4, D1, D2, D3, D4.
  rewrite (held_set_old m k m' old c Hk). lia.
Qed.

Lemma balanced_drop s c k old :
  NoDup (jm_keys c) -> jm_get k c = Some old -> balanced s c ->
  balanced (s ++ disposeOps old) (jm_delete k c).
Proof.
  intros Hnd Hk Hb m. destruct (Hb m) as (H1 & H2 & H3).
  destruct (occurrences_disposeOps m old) as (D1 & D2 & D3 & D4).
  rewrite !occurrences_app, D1, D2, D3, D4, (held_delete m k old c Hnd Hk). lia.
Qed.

Lemma balanced_clear s c :
  balanced s c ->
  balanced (s ++ flat_map (fun e : string * Mesh => disposeOps e.2) c) [].
Proof.
  intros Hb m. destruct (Hb m) as (H1 & H2 & H3).
  assert (Hall : ∀ l : JsMap Mesh,
    occurrences (SceneAdd m) (flat_map (fun e : string * Mesh => disposeOps e.2) l) = 0 ∧
    occurrences (SceneRemove m) (flat_map (fun e : string * Mesh => disposeOps e.2) l)
      = held m l ∧
    occurrences (DisposeGeometry m) (flat_map (fun e : string * Mesh => disposeOps e.2) l)
      = held m l ∧
    occurrences (DisposeMaterial m) (flat_map (fun e : string * Mesh => disposeOps e.2) l)
      = held m l).
  { induction l as [|e l (I1 & I2 & I3 & I4)]; [done|]. cbn [flat_map].
    destruct (occurrences_disposeOps m e.2) as (D1 & D2 & D3 & D4).
    rewrite !occurrences_app, held_cons, D1, D2, D3, D4, I1, I2, I3, I4. lia. }
  destruct (Hall c) as (C1 & C2 & C3 & C4).
  rewrite !occurrences_app, C1, C2, C3, C4, held_nil. lia.
Qed.

Lemma scene_balanced_frame w w' :
  scene w' = scene w -> chunks w' = chunks w ->
  scene_balanced w -> scene_balanced w'.
Proof. unfold scene_balanced. by intros -> ->. Qed.

Lemma jm_has_false {V : Type} k (m : JsMap V) : jm_has k m = false -> jm_get k m = None.
Proof.
  unfold jm_has. intros H%bool_decide_eq_false.
  destruct (jm_get k m); [|done]. exfalso. apply H. eauto.
Qed.

Lemma buildChunkMesh_balanced cx cz data w :
  scene_balanced w -> scene_balanced (buildChunkMesh cx cz data w).
Proof.
  intros [Hb Hk]. unfold buildChunkMesh. cbv zeta.
  destruct (jm_has (chunkKey cx cz) (chunks w)) eqn:Hhas; [done|].
  apply jm_has_false in Hhas. split.
  - cbn [scene chunks set_chunks set_scene]. by apply balanced_add.
  - cbn [chunks set_chunks set_scene]. by apply keys_wf_set.
Qed.

Lemma setBlock_balanced w x y z t :
  scene_balanced w -> scene_balanced (setBlock w x y z t).
Proof.
  intros [Hb Hk]. unfold setBlock.
  destruct (jm_get _ (chunksData w)) as [data|] eqn:Hdata; [|done].
  destruct (_ || _); [done|]. cbv zeta.
  cbn [chunks set_dirtyChunks set_chunksData].
  destruct (jm_get _ (chunks w)) as [old|] eqn:Hold; split;
    cbn [scene chunks set_chunks set_scene disposeMesh set_dirtyChunks set_chunksData].
  - by apply (balanced_replace _ _ _ old).
  - by apply keys_wf_set.
  - by apply balanced_add.
  - by apply keys_wf_set.
Qed.

Lemma generateChunk_balanced cx cz w rng :
  scene_balanced w -> scene_balanced (generateChunk cx cz (w, rng)).1.
Proof.
  intros Hw. rewrite generateChunk_unfold. cbn [fst].
  apply buildChunkMesh_balanced. by eapply scene_balanced_frame; [| |exact Hw].
Qed.

Lemma ensureChunk_balanced cx cz key w rng :
  scene_balanced w -> scene_balanced (ensureChunk cx cz key (w, rng)).1.1.
Proof.
  intros Hw. rewrite ensureChunk_unfold.
  destruct (jm_get key (chunksData w)); [by apply buildChunkMesh_balanced|].
  destruct (bool_decide (key ∈ knownChunkKeys w)).
  - by destruct (bool_decide (key ∈ loadingChunks w)).
  - by apply generateChunk_balanced.
Qed.

Lemma chunkFetched_balanced f data w rng :
  scene_balanced w -> scene_balanced (chunkFetched f data (w, rng)).1.
Proof.
  intros Hw. unfold chunkFetched. destruct data as [d|].
  - cbn [fst]. eapply scene_balanced_frame; [| |apply (buildChunkMesh_balanced
      (f_cx f) (f_cz f) d (set_chunksData (jm_set (f_key f) d) w))]; try done.
  - pose proof (generateChunk_balanced (f_cx f) (f_cz f) w rng Hw) as Hg.
    destruct (generateChunk _ _ _) as [w' rng']. done.
Qed.

Lemma dropMesh_balanced key w :
  scene_balanced w ->
  scene_balanced (match jm_get key (chunks w) with
                  | Some mesh => set_chunks (jm_delete key) (disposeMesh mesh w)
                  | None => w
                  end).
Proof.
  intros [Hb Hk]. destruct (jm_get key (chunks w)) as [old|] eqn:Hold; [|done].
  split; cbn [scene chunks set_chunks disposeMesh set_scene].
  - apply (balanced_drop _ _ _ old); [apply Hk|done|done].
  - by apply keys_wf_delete.
Qed.

Lemma evictEntry_balanced e w ws :
  scene_balanced w -> scene_balanced (evictEntry e (w, ws)).1.
Proof.
  intros Hw. destruct e as [key data]. unfold evictEntry.
  destruct (bool_decide _); cbn [fst];
    apply (dropMesh_balanced key); by eapply scene_balanced_frame; [| |exact Hw].
Qed.

Lemma checkMemory_balanced pos w :
  scene_balanced w -> scene_balanced (checkMemory pos w).1.
Proof.
  intros Hw. unfold checkMemory. destruct (_ <=? _); [done|].
  destruct (playerChunk pos) as [cx cz].
  apply (foldl_invariant (fun st : World * list PendingWrite => scene_balanced st.1));
    [done|].
  intros [w' ws] e _ Hw'. by apply evictEntry_balanced.
Qed.

Lemma unloadFar_fold_balanced (active : list string) (l : list (string * Mesh)) w0 :
  scene_balanced w0 -> NoDup l.*1 ->
  (∀ e, e ∈ l -> jm_get e.1 (chunks w0) = Some e.2) ->
  scene_balanced
    (foldl (fun w (e : string * Mesh) =>
              if bool_decide (e.1 ∈ active) then w
              else set_chunks (jm_delete e.1) (disposeMesh e.2 w)) w0 l).
Proof.
  revert w0. induction l as [|e l IH]; intros w0 Hw Hnd Hin; [done|].
  rewrite fmap_cons in Hnd. apply NoDup_cons in Hnd as [Hnotin Hnd].
  cbn [foldl]. destruct (bool_decide (e.1 ∈ active)).
  - apply IH; [done|done|]. intros e' He'. apply Hin. by right.
  - pose proof (dropMesh_balanced e.1 w0 Hw) as Hdrop.
    rewrite (Hin e ltac:(by left)) in Hdrop.
    apply IH; [done|done|].
    intros e' He'. cbn [chunks set_chunks disposeMesh set_scene].
    rewrite jm_get_delete_ne; [apply Hin; by right|].
    intros Heq. apply Hnotin. rewrite Heq. apply list_elem_of_fmap. by exists e'.
Qed.

Lemma unloadFar_balanced (active : list string) w :
  scene_balanced w -> scene_balanced (unloadFar active w).
Proof.
  intros Hw. unfold unloadFar. apply unloadFar_fold_balanced; [done|apply Hw|].
  intros [k m] He. cbn [fst snd]. apply jm_get_elem_NoDup; [apply Hw|done].
Qed.

Lemma update_balanced (isMobile : bool) pos w rng :
  scene_balanced w -> scene_balanced (t_world (update isMobile pos (w, rng))).
Proof.
  intros Hw. pose proof (update_unfold isMobile pos w rng) as Hu. cbv zeta in Hu.
  rewrite Hu.
  assert (Ht : scene_balanced (t_world
            (activation (playerChunk pos).1 (playerChunk pos).2
               (if isMobile then 2 else 3) (tick_start w rng)))).
  { rewrite activation_foldl.
    apply (foldl_invariant (fun t => scene_balanced (t_world t))); [done|].
    intros t' p _ Ht'. rewrite activate_unfold. destruct (jm_has _ _); [done|].
    cbn [t_world]. by apply ensureChunk_balanced. }
  destruct (Qltb _ _); cbn [t_world].
  - by apply checkMemory_balanced, unloadFar_balanced.
  - by apply unloadFar_balanced.
Qed.

Lemma loadWorld_frame lib w db w' res :
  loadWorld lib true (w, db) = Some (w', res) ->
  scene w' = scene w ∧ chunks w' = chunks w.
Proof.
  rewrite loadWorld_unfold. cbv zeta. intros [= <- _].
  set (w1 := foldl _ w _).
  assert (H1 : scene w1 = scene w ∧ chunks w1 = chunks w).
  { unfold w1.
    by apply (foldl_invariant (fun w2 => scene w2 = scene w ∧ chunks w2 = chunks w)). }
  destruct (db_getMeta "player" db) as [m|]; [|done].
  by destruct (meta_seed m).
Qed.

Lemma step_balanced lib w w' : step lib w w' -> scene_balanced w -> scene_balanced w'.
Proof.
  intros Hstep Hw. destruct Hstep.
  - by apply setBlock_balanced.
  - by apply generateChunk_balanced.
  - by apply ensureChunk_balanced.
  - by apply chunkFetched_balanced.
  - by apply checkMemory_balanced.
  - eapply scene_balanced_frame; [| |exact Hw];
      unfold evictWriteSettled; destruct pw; by destruct ok.
  - by apply update_balanced.
  - destruct (issueDirtyWrites_frame w) as (Hc & _ & _ & Hs).
    by eapply scene_balanced_frame; [exact Hs|exact Hc|].
  - destruct (saveWorld_settled_frame ok w) as (Hc & _ & _ & _ & Hs).
    by eapply scene_balanced_frame; [exact Hs|exact Hc|].
  - destruct (loadWorld_frame _ _ _ _ _ H) as [Hs Hc].
    by eapply scene_balanced_frame; [exact Hs|exact Hc|].
  - destruct (deleteWorld_fields _ _ _ _ _ _ _ H) as (_ & Hc & _ & _ & _ & Hs).
    destruct Hw as [Hb _]. unfold scene_balanced. rewrite Hc, Hs.
    split; [by apply balanced_clear|apply keys_wf_nil].
Qed.

(** X22.  No mesh leaks and none is disposed twice.  In every world
    that the operations can reach, each mesh has been added to the scene
    exactly once more than it has been removed for every entry of the
    mesh map that holds it, so a mesh the world no longer tracks is no
    longer in the scene; and its geometry and its material have each been
    disposed exactly as often as it has been removed. *)
Theorem reachable_scene_balanced (lib : NoiseLib) (w : World) (m : Mesh) :
  reachable lib w ->
  occurrences (SceneAdd m) (scene w) =
    occurrences (SceneRemove m) (scene w) + held m (chunks w) ∧
  occurrences (DisposeGeometry m) (scene w) = occurrences (SceneRemove m) (scene w) ∧
  occurrences (DisposeMaterial m) (scene w) = occurrences (SceneRemove m) (scene w).
Proof.
  intros Hr.
  assert (Hbal : scene_balanced w).
  { induction Hr as [rng|w w' _ IH Hstep].
    - unfold World_new. destruct (randomSeed rng) as [s rng1].
      destruct (createNoiseTexture rng1) as [tex rng2]. cbn [fst].
      split; [|apply keys_wf_nil]. intros m'. done.
    - by eapply step_balanced. }
  apply Hbal.
Qed.

(** The scene calls of the sample session: the meshes of the two
    chunks are added when the chunks arrive; the edit removes and
    disposes the mesh of chunk (0, 0) and adds the mesh of the edited
    volume. *)
Lemma playedWorld_scene :
  scene playedWorld =
  [SceneAdd (generateChunkMesh flatVolume 0 0);
   SceneAdd (generateChunkMesh flatVolume 1 0);
   SceneRemove (generateChunkMesh flatVolume 0 0);
   DisposeGeometry (generateChunkMesh flatVolume 0 0);
   DisposeMaterial (generateChunkMesh flatVolume 0 0);
   SceneAdd (generateChunkMesh (u8_set flatVolume (getBlockIndex 3 5 3) STONE) 0 0)].
Proof. reflexivity. Qed.

Lemma reachable_scene_balanced_witness :
  SceneAdd (generateChunkMesh flatVolume 0 0) ∈ scene playedWorld ∧
  SceneRemove (generateChunkMesh flatVolume 0 0) ∈ scene playedWorld ∧
  occurrences (SceneAdd (generateChunkMesh flatVolume 0 0)) (scene playedWorld) =
    occurrences (SceneRemove (generateChunkMesh flatVolume 0 0)) (scene playedWorld)
    + held (generateChunkMesh flatVolume 0 0) (chunks playedWorld) ∧
  occurrences (DisposeGeometry (generateChunkMesh flatVolume 0 0)) (scene playedWorld) =
    occurrences (SceneRemove (generateChunkMesh flatVolume 0 0)) (scene playedWorld) ∧
  occurrences (DisposeMaterial (generateChunkMesh flatVolume 0 0)) (scene playedWorld) =
    occurrences (SceneRemove (generateChunkMesh flatVolume 0 0)) (scene playedWorld).
Proof.
  split; [rewrite playedWorld_scene; apply list_elem_of_here|].
  split; [rewrite playedWorld_scene; do 2 apply list_elem_of_further;
          apply list_elem_of_here|].
  apply (reachable_scene_balanced flatNoise playedWorld
           (generateChunkMesh flatVolume 0 0) playedWorld_reachable).
Defined.

(* ===================================================================== *)
(** ** The first tick over an empty world *)
(* ===================================================================== *)

Lemma activate_generates (active : list string) x z t :
  chunkKey x z ∈ active ->
  knownChunkKeys (t_world t) = ∅ ∧
  (∀ k, is_Some (jm_get k (chunksData (t_world t))) ->
        k ∈ dirtyChunks (t_world t) ∧ k ∈ active) ->
  knownChunkKeys (t_world (activate x z t)) = ∅ ∧
  (∀ k, is_Some (jm_get k (chunksData (t_world (activate x z t)))) ->
        k ∈ dirtyChunks (t_world (activate x z t)) ∧ k ∈ active).
Proof.
  intros Hact [Hknown Hcached]. rewrite activate_unfold.
  destruct (jm_has _ _); [done|]. cbn [t_world].
  rewrite ensureChunk_unfold.
  destruct (jm_get (chunkKey x z) (chunksData (t_world t))) as [data|] eqn:Hget.
  { cbn [fst].
    destruct (buildChunkMesh_frame x z data (t_world t)) as (-> & -> & -> & _).
    done. }
  rewrite Hknown. rewrite bool_decide_eq_false_2 by apply not_elem_of_empty.
  cbn [fst].
  destruct (generateChunk_fields x z (t_world t) (t_rng t))
    as (Hg & Hother & Hd & Hk & _).
  cbv zeta in Hg, Hother, Hd, Hk. rewrite Hk, Hd. split; [done|].
  intros k Hin. destruct (decide (k = chunkKey x z)) as [->|Hne].
  - split; [|done]. apply elem_of_union. right. by apply elem_of_singleton.
  - rewrite (Hother k Hne) in Hin. destruct (Hcached k Hin) as [Hdk Hak].
    split; [|done]. apply elem_of_union. by left.
Qed.

(** X26.  The first tick over an empty world (a new world, or one just
    reset by [deleteWorld]): [update] issues no fetch and no write; when
    it returns, the chunks of the active square around the viewer, and
    no others, are cached; each of them has a mesh and is dirty, so that
    the next save stores it. *)
Theorem update_from_empty (isMobile : bool) (pos : Vec3) (w : World) (rng : Rng) :
  chunksData w = [] -> chunks w = [] -> dirtyChunks w = ∅ ->
  knownChunkKeys w = ∅ -> loadingChunks w = ∅ ->
  let active :=
    activeKeys (playerChunk pos).1 (playerChunk pos).2 (if isMobile then 2 else 3) in
  let t := update isMobile pos (w, rng) in
  t_fetches t = [] ∧ t_writes t = [] ∧
  loadingChunks (t_world t) = ∅ ∧
  (∀ k, is_Some (jm_get k (chunksData (t_world t))) ↔ k ∈ active) ∧
  (∀ k, k ∈ active ->
     jm_has k (chunks (t_world t)) = true ∧ k ∈ dirtyChunks (t_world t)).
Proof.
  intros Hd Hc Hdirty Hknown Hload. cbv zeta.
  pose proof (update_unfold isMobile pos w rng) as Hu. cbv zeta in Hu.
  set (radius := if isMobile then 2 else 3) in *.
  set (cx := (playerChunk pos).1) in *. set (cz := (playerChunk pos).2) in *.
  set (t := activation cx cz radius (tick_start w rng)) in *.
  assert (Hwf : keys_wf (chunksData w)) by (rewrite Hd; apply keys_wf_nil).
  assert (Hres : resident_wf w).
  { unfold resident_wf, meshes_cached, loading_known. rewrite Hc, Hd, Hload.
    split_and!; [|done|apply keys_wf_nil].
    intros k. rewrite jm_get_nil. by intros [? [=]]. }
  (* the activation loops *)
  destruct (activation_fetches cx cz radius w rng) as (_ & Hl & Hall).
  fold t in Hl, Hall.
  assert (Hnofetch : t_fetches t = []).
  { destruct (t_fetches t) as [|f fs]; [done|].
    destruct (Hall f ltac:(by left)) as (_ & _ & Hk & _).
    rewrite Hknown in Hk. by apply not_elem_of_empty in Hk. }
  rewrite Hnofetch, Hload in Hl. cbn [fmap list_fmap list_to_set] in Hl.
  rewrite (left_id_L ∅ (∪)) in Hl.
  assert (Hgen : knownChunkKeys (t_world t) = ∅ ∧
                 ∀ k, is_Some (jm_get k (chunksData (t_world t))) ->
                      k ∈ dirtyChunks (t_world t) ∧ k ∈ activeKeys cx cz radius).
  { unfold t. rewrite activation_foldl.
    apply (foldl_invariant (fun t =>
             knownChunkKeys (t_world t) = ∅ ∧
             ∀ k, is_Some (jm_get k (chunksData (t_world t))) ->
                  k ∈ dirtyChunks (t_world t) ∧ k ∈ activeKeys cx cz radius)).
    - cbn [t_world tick_start]. split; [done|]. intros k. rewrite Hd, jm_get_nil.
      by intros [? [=]].
    - intros t' [x z] Hp Ht'. cbn [fst snd]. apply activate_generates; [|done].
      apply elem_of_activeKeys. by apply elem_of_activeCoords. }
  destruct Hgen as [_ Hcached].
  pose proof (activation_resident cx cz radius (tick_start w rng) Hres)
    as (Hmeshes & _ & _).
  fold t in Hmeshes.
  pose proof (activation_keys_wf cx cz radius (tick_start w rng) Hwf) as Hwft.
  fold t in Hwft.
  assert (Hmesh : ∀ k, k ∈ activeKeys cx cz radius ->
                       jm_has k (chunks (t_world t)) = true).
  { intros k Hk.
    destruct (activation_covered cx cz radius (tick_start w rng) k Hk) as [Hm|Hin];
      [exact Hm|].
    fold t in Hin. rewrite Hl in Hin. by apply not_elem_of_empty in Hin. }
  (* unloading and the eviction pass change nothing of this *)
  destruct (unloadFar_spec (activeKeys cx cz radius) (t_world t))
    as (Hc1 & Hl1 & _ & Hd1 & Hdi1 & _).
  set (w1 := unloadFar (activeKeys cx cz radius) (t_world t)) in *.
  assert (Hsmall : checkMemory pos w1 = (w1, [])).
  { unfold checkMemory.
    destruct (Z.leb_spec (jm_size (chunksData w1)) 500) as [|Hbig]; [done|].
    exfalso. rewrite Hd1 in Hbig.
    assert (Hsub : jm_keys (chunksData (t_world t)) ⊆+ activeKeys cx cz radius).
    { apply NoDup_submseteq; [apply Hwft|].
      intros k Hk. apply jm_get_is_Some in Hk. by apply Hcached. }
    apply submseteq_length in Hsub.
    pose proof (activeKeys_length cx cz radius) as Hlen.
    unfold jm_size in Hbig. unfold jm_keys in Hsub. rewrite length_fmap in Hsub.
    unfold radius in *. destruct isMobile; lia. }
  assert (Hfinal : t_world (update isMobile pos (w, rng)) = w1 ∧
                   t_fetches (update isMobile pos (w, rng)) = [] ∧
                   t_writes (update isMobile pos (w, rng)) = []).
  { rewrite Hu. destruct (Qltb _ _); cbn [t_world t_fetches t_writes];
      [rewrite Hsmall|]; done. }
  destruct Hfinal as (-> & -> & ->).
  rewrite Hl1, Hl, Hd1, Hdi1. split_and!; try done.
  - intros k. split; [by intros Hk; apply Hcached|].
    intros Hk. apply Hmeshes.
    specialize (Hmesh k Hk). unfold jm_has in Hmesh.
    by apply bool_decide_eq_true in Hmesh.
  - intros k Hk. split.
    + unfold jm_has. rewrite Hc1, decide_True by done. by apply Hmesh.
    + apply Hcached, Hmeshes.
      specialize (Hmesh k Hk). unfold jm_has in Hmesh.
      by apply bool_decide_eq_true in Hmesh.
Qed.

Lemma update_from_empty_witness :
  t_fetches (update false origin ((World_new flatNoise calmRng).1, calmRng)) = [] ∧
  t_writes (update false origin ((World_new flatNoise calmRng).1, calmRng)) = [].
Proof.
  destruct (World_new_empty flatNoise calmRng) as (Hd & Hc & Hk & Hl & Hdi).
  destruct (update_from_empty false origin (World_new flatNoise calmRng).1 calmRng
              Hd Hc Hdi Hk Hl) as (Hf & Hw & _).
  split; [exact Hf|exact Hw].
Defined.

(* ===================================================================== *)
(** ** Dropped items and the inventory *)
(* ===================================================================== *)

(** X23.  A dropped item has the colour of its block: for each of the
    six block ids that the world generates, the colour the item is given
    is the colour the mesher gives the top face of that block; for any
    other id the item is white. *)
Theorem itemColor_matches_block (type : Z) :
  (GRASS <= type <= LEAVES -> itemColor type = faceColor (Some type) top) ∧
  (type < GRASS ∨ LEAVES < type -> itemColor type = (1, 1, 1)%Q).
Proof.
  unfold GRASS, LEAVES. split.
  - intros Ht.
    assert (Hcases : type = 1 ∨ type = 2 ∨ type = 3 ∨ type = 4 ∨ type = 5 ∨ type = 6)
      by lia.
    destruct Hcases as [-> | [-> | [-> | [-> | [-> | ->]]]]]; reflexivity.
  - intros Ht. unfold itemColor.
    repeat (match goal with |- context [?a =? ?b] =>
              destruct (Z.eqb_spec a b); [lia|] end).
    reflexivity.
Qed.

Lemma itemColor_matches_block_witness :
  itemColor GRASS = faceColor (Some GRASS) top ∧ itemColor 9 = (1, 1, 1)%Q.
Proof.
  split.
  - apply (itemColor_matches_block GRASS). unfold GRASS, LEAVES. lia.
  - apply (itemColor_matches_block 9). unfold GRASS, LEAVES. lia.
Defined.

Lemma findSlot_Some id slots i :
  findSlot id slots = Some i ->
  ∃ s, slots !! i = Some s ∧ s.1 = id.
Proof.
  unfold findSlot. destruct (list_find _ slots) as [[j s]|] eqn:Hf; [|done].
  intros [= <-]. apply list_find_Some in Hf as (Hs & Hid & _). eauto.
Qed.

Lemma findSlot_None id slots :
  findSlot id slots = None -> ∀ s, s ∈ slots -> s.1 ≠ id.
Proof.
  unfold findSlot. destruct (list_find _ slots) as [[j s]|] eqn:Hf; [done|].
  intros _. apply list_find_None in Hf. by apply Forall_forall.
Qed.


Lemma itemTotal_cons id s slots :
  itemTotal id (s :: slots) = slotCount id s + itemTotal id slots.
Proof. reflexivity. Qed.

Lemma itemTotal_app id l l' :
  itemTotal id (l ++ l') = itemTotal id l + itemTotal id l'.
Proof.
  induction l as [|s l IH]; [done|].
  rewrite <- app_comm_cons, !itemTotal_cons, IH. lia.
Qed.

Lemma itemTotal_insert id (slots : list (Z * Z)) i s v :
  slots !! i = Some s ->
  itemTotal id (<[i := v]> slots) = itemTotal id slots - slotCount id s + slotCount id v.
Proof.
  intros Hi. rewrite insert_take_drop by (by eapply lookup_lt_Some).
  rewrite <- (take_drop_middle slots i s Hi) at 3.
  rewrite !itemTotal_app, !itemTotal_cons. lia.
Qed.

Lemma alter_as_insert {A : Type} (f : A -> A) (l : list A) i s :
  l !! i = Some s -> alter f i l = <[i := f s]> l.
Proof.
  intros Hi. apply list_eq. intros j.
  destruct (decide (j = i)) as [->|Hne].
  - rewrite list_lookup_alter_eq, Hi.
    by rewrite list_lookup_insert_eq by (by eapply lookup_lt_Some).
  - rewrite list_lookup_alter_ne by done. by rewrite list_lookup_insert_ne by done.
Qed.

(** X24.  [addItemToInventory] on the 36 slots, for an item id other
    than 0: the inventory keeps its 36 slots; the amounts held of every
    other item stay as they are; if some slot already holds the item or
    some slot is empty, the amount held of the item grows by exactly the
    given count; and if neither is the case the inventory is left as it
    is. *)
Theorem addItemToInventory_total (id count : Z) (slots : list (Z * Z)) :
  length slots = 36%nat -> id ≠ 0 ->
  let slots' := addItemToInventory id count slots in
  length slots' = 36%nat ∧
  (∀ id', id' ≠ id -> id' ≠ 0 -> itemTotal id' slots' = itemTotal id' slots) ∧
  ((∃ s, s ∈ slots ∧ (s.1 = id ∨ s.1 = 0)) ->
   itemTotal id slots' = itemTotal id slots + count) ∧
  ((∀ s, s ∈ slots -> s.1 ≠ id ∧ s.1 ≠ 0) -> slots' = slots).
Proof.
  intros Hlen Hid. cbv zeta. unfold addItemToInventory.
  rewrite take_ge by lia.
  destruct (findSlot id slots) as [i|] eqn:Hfind.
  - destruct (findSlot_Some id slots i Hfind) as (s & Hs & Hsid).
    rewrite (alter_as_insert _ _ _ _ Hs). cbn [fst snd].
    split_and!.
    + by rewrite length_insert.
    + intros id' Hne _. rewrite (itemTotal_insert id' slots i s _ Hs).
      unfold slotCount. cbn [fst snd]. rewrite Hsid.
      rewrite !decide_False by congruence. lia.
    + intros _. rewrite (itemTotal_insert id slots i s _ Hs).
      unfold slotCount. cbn [fst snd]. rewrite !decide_True by done. lia.
    + intros Hnone. exfalso.
      destruct (Hnone s) as [Hn _]; [by eapply list_elem_of_lookup_2|by apply Hn].
  - pose proof (findSlot_None id slots Hfind) as Hno.
    destruct (findSlot 0 slots) as [i|] eqn:Hempty.
    + destruct (findSlot_Some 0 slots i Hempty) as (s & Hs & Hs0).
      split_and!.
      * by rewrite length_insert.
      * intros id' Hne Hne0. rewrite (itemTotal_insert id' slots i s _ Hs).
        unfold slotCount. cbn [fst snd]. rewrite Hs0.
        rewrite !decide_False by congruence. lia.
      * intros _. rewrite (itemTotal_insert id slots i s _ Hs).
        unfold slotCount. cbn [fst snd]. rewrite Hs0.
        rewrite decide_False by congruence. rewrite decide_True by done. lia.
      * intros Hnone. exfalso.
        destruct (Hnone s) as [_ Hn]; [by eapply list_elem_of_lookup_2|by apply Hn].
    + pose proof (findSlot_None 0 slots Hempty) as Hno0.
      split_and!; try done.
      intros (s & Hin & [Hs|Hs]); [by destruct (Hno s Hin)|by destruct (Hno0 s Hin)].
Qed.

Lemma addItemToInventory_total_witness :
  itemTotal STONE (addItemToInventory STONE 3 someSlots) = itemTotal STONE someSlots + 3.
Proof.
  apply (addItemToInventory_total STONE 3 someSlots); [reflexivity|done|].
  exists (STONE, 5). split; [|by left].
  apply (list_elem_of_lookup_2 _ 2%nat). reflexivity.
Defined.

(** X25.  Picking up a dropped item does to the inventory exactly what
    [addItemToInventory] does with count 1, and the item is taken (its
    entity disposed and removed) exactly when some slot holds its id or
    is empty. *)
Theorem pickup_is_addItem (type : Z) (slots : list (Z * Z)) :
  length slots = 36%nat ->
  (pickup type slots).1 = addItemToInventory type 1 slots ∧
  ((pickup type slots).2 = true ↔ ∃ s, s ∈ slots ∧ (s.1 = type ∨ s.1 = 0)).
Proof.
  intros Hlen. unfold pickup, addItemToInventory. rewrite take_ge by lia.
  destruct (findSlot type slots) as [i|] eqn:Hfind.
  - cbn [fst snd]. split; [done|]. split; [|done]. intros _.
    destruct (findSlot_Some type slots i Hfind) as (s & Hs & Hsid).
    exists s. split; [by eapply list_elem_of_lookup_2|by left].
  - pose proof (findSlot_None type slots Hfind) as Hno.
    destruct (findSlot 0 slots) as [i|] eqn:Hempty; cbn [fst snd].
    + destruct (findSlot_Some 0 slots i Hempty) as (s & Hs & Hs0). split.
      * rewrite (alter_as_insert _ _ i (type, 0)).
        -- cbn [fst snd]. by rewrite list_insert_insert_eq.
        -- apply list_lookup_insert_eq. by eapply lookup_lt_Some.
      * split; [|done]. intros _. exists s.
        split; [by eapply list_elem_of_lookup_2|by right].
    + pose proof (findSlot_None 0 slots Hempty) as Hno0.
      split; [done|]. split; [done|].
      intros (s & Hin & [Hs|Hs]); [by destruct (Hno s Hin)|by destruct (Hno0 s Hin)].
Qed.

Lemma pickup_is_addItem_witness :
  (pickup STONE someSlots).1 = addItemToInventory STONE 1 someSlots.
Proof. apply (pickup_is_addItem STONE someSlots). reflexivity. Defined.
